(** * Compoviz: the Compose resolution pipeline and the conflict comparator

    A shallow embedding of the resolution engine of compoviz
    (extendsResolver.js, includeResolver.js, pathResolver.js,
    variableInterpolator.js, profileFilter.js, composeParser.js,
    comparison.js) together with the properties its specification states.

    Conventions of the embedding.
    - A JavaScript value is a tree ([value]); an object is the ordered list
      of its own enumerable entries, in insertion order.  Engines enumerate
      keys that are canonical array indices first; the documents handled
      here are keyed by names, so the model keeps insertion order.
    - A read [o.k] with a key the code writes out (services, extends,
      include, profiles, ...) is the lookup among the own entries ([get]):
      no prototype has a member of such a name.  A read [o[k]] whose key
      comes from the data goes through the prototype as well ([member],
      [inherited_text]).  The name [__proto__] is read like the other
      inherited names; assigning to it is not modelled, documents are taken
      not to use it as a key.
    - A document is a finite tree: YAML whose anchors and aliases form a
      cycle has none and is not covered.
    - Numbers are the integers ([Z]), written out in full by [String]
      (which JavaScript does below 10^21); strings are byte strings.
      [String] of a value of the environment fails as JavaScript's does on
      an object with an entry of its own named toString ([string_of]); the
      names and paths put into messages and used as keys are converted by
      [to_str].
    - [Set.has] and [Map] keys compare values structurally, which agrees
      with SameValueZero on the primitives these sets hold.
    - A thrown exception is [Throw msg], [msg] being [error.message].  The
      text of an engine TypeError is a parameter ([type_error_message]);
      js-yaml's [load] is a parameter too ([yaml_load]). *)

From Stdlib Require Import String Ascii List Bool ZArith Arith Lia.
From Stdlib Require Import DecimalString.
From Stdlib Require DecimalNat DecimalFacts.
Import ListNotations.
Set Warnings "-register-all".
Local Open Scope string_scope.
Local Open Scope list_scope.

(** ** JavaScript values *)

Module Js.

Inductive value : Type :=
| VUndef
| VNull
| VBool (b : bool)
| VNum (n : Z)
| VStr (s : string)
| VArr (xs : list value)
| VObj (fields : list (string * value)).

Definition obj : Type := list (string * value).

(** Outcome of a computation that may throw. *)
Inductive res (A : Type) : Type :=
| Ok (a : A)
| Throw (msg : string).
Arguments Ok {A} a.
Arguments Throw {A} msg.

Definition bind {A B : Type} (r : res A) (k : A -> res B) : res B :=
  match r with
  | Ok a => k a
  | Throw m => Throw m
  end.

(** The same, for a model that recurses on fuel: [None] is "out of fuel". *)
Definition fbind {A B : Type} (r : option (res A)) (k : A -> option (res B))
  : option (res B) :=
  match r with
  | Some (Ok a) => k a
  | Some (Throw m) => Some (Throw m)
  | None => None
  end.

Definition lift {A : Type} (r : res A) : option (res A) := Some r.

(** *** Strings *)

Definition dquote : string := String (ascii_of_nat 34) "".
Definition nul : ascii := ascii_of_nat 0.

Definition nat_to_string (n : nat) : string :=
  NilZero.string_of_uint (Nat.to_uint n).

Definition Z_to_string (z : Z) : string :=
  NilZero.string_of_int (Z.to_int z).

(** [s.startsWith(p)]. *)
Fixpoint startsWith (p s : string) : bool :=
  match p, s with
  | "", _ => true
  | String _ _, "" => false
  | String a p', String b s' => Ascii.eqb a b && startsWith p' s'
  end.

Fixpoint drop (n : nat) (s : string) : string :=
  match n, s with
  | O, _ => s
  | S _, "" => ""
  | S n', String _ s' => drop n' s'
  end.

(** [break_at sep s]: the text before and after the leftmost occurrence of
    [sep] in [s]. *)
Fixpoint break_at (sep s : string) : option (string * string) :=
  if startsWith sep s then Some ("", drop (String.length sep) s)
  else match s with
       | "" => None
       | String c s' =>
           match break_at sep s' with
           | Some (a, b) => Some (String c a, b)
           | None => None
           end
       end.

(** [String.prototype.includes]. *)
Definition includes (needle hay : string) : bool :=
  match break_at needle hay with
  | Some _ => true
  | None => false
  end.

Fixpoint split_fuel (fuel : nat) (sep s : string) : list string :=
  match fuel with
  | O => [s]
  | S fuel' =>
      match break_at sep s with
      | Some (a, b) => a :: split_fuel fuel' sep b
      | None => [s]
      end
  end.

(** [String.prototype.split] with a non-empty string separator. *)
Definition split (sep s : string) : list string :=
  split_fuel (String.length s) sep s.

Fixpoint replace_fuel (fuel : nat) (pat rep s : string) : string :=
  match fuel with
  | O => s
  | S fuel' =>
      match break_at pat s with
      | Some (a, b) => a ++ rep ++ replace_fuel fuel' pat rep b
      | None => s
      end
  end.

(** [s.replace(/pat/g, rep)] for a pattern that is a literal, non-empty text
    and a replacement without [$] patterns. *)
Definition replace_all (pat rep s : string) : string :=
  replace_fuel (String.length s) pat rep s.

(** [Array.prototype.join] on strings. *)
Fixpoint join (sep : string) (l : list string) : string :=
  match l with
  | [] => ""
  | [x] => x
  | x :: rest => x ++ sep ++ join sep rest
  end.

Fixpoint string_mem (x : string) (l : list string) : bool :=
  match l with
  | [] => false
  | y :: rest => if String.eqb x y then true else string_mem x rest
  end.

Fixpoint chars (s : string) : list string :=
  match s with
  | "" => []
  | String c s' => String c "" :: chars s'
  end.

(** *** Values *)

Definition truthy (v : value) : bool :=
  match v with
  | VUndef | VNull => false
  | VBool b => b
  | VNum n => negb (Z.eqb n 0)
  | VStr s => negb (String.eqb s "")
  | VArr _ | VObj _ => true
  end.

Definition nullish (v : value) : bool :=
  match v with
  | VUndef | VNull => true
  | _ => false
  end.

(** [typeof v === 'object'] (true of [null] and of arrays). *)
Definition typeof_object (v : value) : bool :=
  match v with
  | VNull | VArr _ | VObj _ => true
  | _ => false
  end.

Definition typeof_string (v : value) : bool :=
  match v with
  | VStr _ => true
  | _ => false
  end.

Definition isArray (v : value) : bool :=
  match v with
  | VArr _ => true
  | _ => false
  end.

(** [a || b]. *)
Definition or_else (a b : value) : value := if truthy a then a else b.

Fixpoint lookup (k : string) (o : obj) : option value :=
  match o with
  | [] => None
  | (k', v) :: rest => if String.eqb k k' then Some v else lookup k rest
  end.

Definition obj_get (o : obj) (k : string) : value :=
  match lookup k o with
  | Some v => v
  | None => VUndef
  end.

Definition has_key (o : obj) (k : string) : bool :=
  match lookup k o with
  | Some _ => true
  | None => false
  end.

(** [o[k] = v]: in place when the key exists, appended otherwise. *)
Fixpoint obj_set (o : obj) (k : string) (v : value) : obj :=
  match o with
  | [] => [(k, v)]
  | (k', v') :: rest =>
      if String.eqb k k' then (k, v) :: rest else (k', v') :: obj_set rest k v
  end.

(** [delete o[k]]. *)
Fixpoint obj_delete (o : obj) (k : string) : obj :=
  match o with
  | [] => []
  | (k', v') :: rest =>
      if String.eqb k k' then obj_delete rest k else (k', v') :: obj_delete rest k
  end.

Fixpoint indexed_from (i : nat) (xs : list value) : obj :=
  match xs with
  | [] => []
  | x :: rest => (nat_to_string i, x) :: indexed_from (S i) rest
  end.

(** Own enumerable entries: [Object.entries(v)], and what [{...v}] copies. *)
Definition own_entries (v : value) : obj :=
  match v with
  | VObj o => o
  | VArr xs => indexed_from 0 xs
  | VStr s => indexed_from 0 (map VStr (chars s))
  | _ => []
  end.

(** [{...a, ...b}]. *)
Definition spread2 (a b : obj) : obj :=
  fold_left (fun acc kv => obj_set acc (fst kv) (snd kv)) b a.

(** [v[k]] for a receiver that is neither [null] nor [undefined]. *)
Definition get (v : value) (k : string) : value :=
  match v with
  | VObj o => obj_get o k
  | VArr xs =>
      if String.eqb k "length" then VNum (Z.of_nat (List.length xs))
      else obj_get (indexed_from 0 xs) k
  | VStr s =>
      if String.eqb k "length" then VNum (Z.of_nat (String.length s))
      else obj_get (indexed_from 0 (map VStr (chars s))) k
  | _ => VUndef
  end.

(** [String(v)], as template literals and property keys convert. *)
Fixpoint to_str (v : value) : string :=
  match v with
  | VUndef => "undefined"
  | VNull => "null"
  | VBool true => "true"
  | VBool false => "false"
  | VNum n => Z_to_string n
  | VStr s => s
  | VArr xs =>
      join "," (map (fun x => if nullish x then "" else to_str x) xs)
  | VObj _ => "[object Object]"
  end.

(** [String(v)] raises no TypeError.  The conversion of an object calls its
    [toString]: an entry of its own under that name is no function, and the
    conversion then fails; an array converts its elements one by one. *)
Fixpoint convertible (v : value) : bool :=
  match v with
  | VArr xs => forallb (fun x => nullish x || convertible x) xs
  | VObj fields => negb (has_key fields "toString")
  | _ => true
  end.

(** An element as [Array.prototype.join] converts it. *)
Definition elem_str (v : value) : string :=
  if nullish v then "" else to_str v.

Definition join_values (sep : string) (xs : list value) : string :=
  join sep (map elem_str xs).

(** *** Inherited members *)

(** The string-keyed members of Object.prototype. *)
Definition object_prototype_names : list string :=
  ["constructor"; "__defineGetter__"; "__defineSetter__"; "hasOwnProperty";
   "__lookupGetter__"; "__lookupSetter__"; "isPrototypeOf";
   "propertyIsEnumerable"; "toString"; "valueOf"; "__proto__"; "toLocaleString"].

(** The string-keyed members of Array.prototype (ECMAScript 2023). *)
Definition array_prototype_names : list string :=
  ["constructor"; "at"; "concat"; "copyWithin"; "fill"; "find"; "findIndex";
   "findLast"; "findLastIndex"; "lastIndexOf"; "pop"; "push"; "reverse"; "shift";
   "unshift"; "slice"; "sort"; "splice"; "includes"; "indexOf"; "join"; "keys";
   "entries"; "values"; "forEach"; "filter"; "flat"; "flatMap"; "map"; "every";
   "some"; "reduce"; "reduceRight"; "toLocaleString"; "toString"; "toReversed";
   "toSorted"; "toSpliced"; "with"].

(** An object created by a literal or by js-yaml has a member of that name
    without owning it. *)
Definition inherited (k : string) : bool := string_mem k object_prototype_names.

(** [String(Object.prototype[k])] for an inherited name: the text of a
    built-in function as V8 prints it, and that of Object.prototype itself
    under [__proto__]. *)
Definition inherited_text (k : string) : string :=
  if String.eqb k "__proto__" then "[object Object]"
  else "function " ++ (if String.eqb k "constructor" then "Object" else k)
       ++ "() { [native code] }".

(** [v] has an own property [k]. *)
Definition own_property (v : value) (k : string) : bool :=
  match v with
  | VObj o => has_key o k
  | VArr xs => String.eqb k "length" || has_key (indexed_from 0 xs) k
  | VStr s => String.eqb k "length" || has_key (indexed_from 0 (map VStr (chars s))) k
  | _ => false
  end.

(** The prototype chain of [v] has a member [k].  (A string, a number and a
    boolean inherit further members from their own prototypes; the code
    looks no data-chosen key up in such a value.) *)
Definition inherits (v : value) (k : string) : bool :=
  match v with
  | VUndef | VNull => false
  | VArr _ => string_mem k array_prototype_names || inherited k
  | _ => inherited k
  end.

(** An inherited member, as a value: a built-in function, or the prototype
    itself under [__proto__].  The code that meets one only tests it for
    truthiness, reads [extends] and [depends_on] off it and spreads it; in
    all of this it agrees with the empty object, which stands for it. *)
Definition builtin : value := VObj [].

(** [v[k]] for a key that comes from the data and a receiver that is neither
    [null] nor [undefined]: the own property, else the inherited member. *)
Definition member (v : value) (k : string) : value :=
  if own_property v k then get v k
  else if inherits v k then builtin
  else VUndef.

Fixpoint value_eqb (a b : value) {struct a} : bool :=
  match a, b with
  | VUndef, VUndef => true
  | VNull, VNull => true
  | VBool x, VBool y => Bool.eqb x y
  | VNum x, VNum y => Z.eqb x y
  | VStr x, VStr y => String.eqb x y
  | VArr xs, VArr ys =>
      (fix go (l1 l2 : list value) : bool :=
         match l1, l2 with
         | [], [] => true
         | x :: r1, y :: r2 => value_eqb x y && go r1 r2
         | _, _ => false
         end) xs ys
  | VObj xs, VObj ys =>
      (fix go (l1 l2 : list (string * value)) : bool :=
         match l1, l2 with
         | [], [] => true
         | (k1, x) :: r1, (k2, y) :: r2 =>
             String.eqb k1 k2 && value_eqb x y && go r1 r2
         | _, _ => false
         end) xs ys
  | _, _ => false
  end.

(** [Set.prototype.has] on an insertion-ordered set of values. *)
Fixpoint set_has (x : value) (s : list value) : bool :=
  match s with
  | [] => false
  | y :: rest => if value_eqb x y then true else set_has x rest
  end.

(** [Set.prototype.add]. *)
Definition set_add (s : list value) (x : value) : list value :=
  if set_has x s then s else s ++ [x].

Section Engine.

(** The engine's message for a TypeError raised on value [v] about member [p]
    (reading a property of [null] or [undefined], calling a method the value
    does not have, spreading a non-iterable). *)
Variable type_error_message : value -> string -> string.

(** [v.p], which throws when [v] is [null] or [undefined]. *)
Definition get_prop (v : value) (p : string) : res value :=
  if nullish v then Throw (type_error_message v p) else Ok (get v p).

(** [v[k]] for a key that comes from the data. *)
Definition member_prop (v : value) (k : string) : res value :=
  if nullish v then Throw (type_error_message v k) else Ok (member v k).

(** [String(v)], which throws where the conversion fails. *)
Definition string_of (v : value) : res string :=
  if convertible v then Ok (to_str v) else Throw (type_error_message v "toString").

(** [[...v]]: the elements an array spread takes from [v]. *)
Definition spread_iterable (v : value) : res (list value) :=
  match v with
  | VArr xs => Ok xs
  | VStr s => Ok (map VStr (chars s))
  | _ => Throw (type_error_message v "Symbol.iterator")
  end.

End Engine.

End Js.

(** ** extendsResolver.js *)

Module ExtendsResolver.
Import Js.

Definition service_started : value :=
  VObj [("condition", VStr "service_started")].

Definition normalizeDependsOn (dependsOn : value) : value :=
  if negb (truthy dependsOn) then VObj []
  else match dependsOn with
       | VArr xs =>
           VObj (fold_left (fun acc svc => obj_set acc (to_str svc) service_started)
                           xs [])
       | _ => dependsOn
       end.

(** What [MERGE_STRATEGIES[key] || 'override'] evaluates to: one of the three
    strategy names, or ([NoStrategy]) a member that the table inherits from
    Object.prototype, which is none of them. *)
Inductive strategy : Type :=
| Concat
| Merge
| Override
| NoStrategy.

Definition MERGE_STRATEGIES (key : string) : option strategy :=
  if string_mem key ["ports"; "expose"; "external_links"; "dns"; "dns_search";
                     "tmpfs"; "volumes"] then Some Concat
  else if string_mem key ["environment"; "labels"; "build"; "deploy"; "logging";
                          "depends_on"] then Some Merge
  else if string_mem key ["image"; "command"; "entrypoint"; "working_dir"; "user";
                          "hostname"; "domainname"; "container_name"; "restart";
                          "stdin_open"; "tty"; "privileged"] then Some Override
  else None.

(** [MERGE_STRATEGIES[key] || 'override']. *)
Definition strategy_of (key : string) : strategy :=
  match MERGE_STRATEGIES key with
  | Some s => s
  | None => if inherited key then NoStrategy else Override
  end.

(** [value !== null && typeof value === 'object' && !Array.isArray(value)]. *)
Definition plain_object (v : value) : bool :=
  match v with
  | VObj _ => true
  | _ => false
  end.

(** [!x || typeof x !== 'object']. *)
Definition not_object (v : value) : bool :=
  negb (truthy v) || negb (typeof_object v).

Section MergeEntries.

(** The recursive call of [deepMerge]. *)
Variable merge : value -> value -> value.

(** The loop of [deepMerge] over [Object.entries(override)]. *)
Fixpoint merge_entries (entries : list (string * value)) (result : obj) : obj :=
  match entries with
  | [] => result
  | (key, v) :: rest =>
      merge_entries rest
        (obj_set result key
           (if plain_object v then merge (obj_get result key) v else v))
  end.

(** The same loop over the entries of an array, keyed by index from [i]. *)
Fixpoint merge_elements (i : nat) (elems : list value) (result : obj) : obj :=
  match elems with
  | [] => result
  | v :: rest =>
      merge_elements (S i) rest
        (obj_set result (nat_to_string i)
           (if plain_object v then merge (obj_get result (nat_to_string i)) v else v))
  end.

End MergeEntries.

Fixpoint deepMerge (base override : value) {struct override} : value :=
  match override with
  | VObj fs =>
      if not_object base then override
      else VObj (merge_entries deepMerge fs (own_entries base))
  | VArr xs =>
      if not_object base then override
      else VObj (merge_elements deepMerge 0 xs (own_entries base))
  | _ => if not_object base then override else base
  end.

Section Engine.

Variable type_error_message : value -> string -> string.

(** One round of the loop of [mergeServiceConfigs]. *)
Definition merge_field (result : obj) (key : string) (v : value) : res obj :=
  match strategy_of key with
  | Concat =>
      bind (spread_iterable type_error_message (or_else (obj_get result key) (VArr [])))
           (fun old =>
              Ok (obj_set result key
                    (VArr (old ++ match v with VArr xs => xs | _ => [v] end))))
  | Merge =>
      Ok (obj_set result key (deepMerge (or_else (obj_get result key) (VObj [])) v))
  | Override => Ok (obj_set result key v)
  | NoStrategy => Ok result
  end.

Fixpoint merge_fields (entries : list (string * value)) (result : obj) : res obj :=
  match entries with
  | [] => Ok result
  | (key, v) :: rest =>
      bind (merge_field result key v) (fun result' => merge_fields rest result')
  end.

(** [{...s}] with [depends_on] normalized when it is truthy. *)
Definition normalized (s : value) (depends_on : value) : obj :=
  if truthy depends_on
  then obj_set (own_entries s) "depends_on" (normalizeDependsOn depends_on)
  else own_entries s.

Definition mergeServiceConfigs (base override : value) : res value :=
  bind (get_prop type_error_message base "depends_on") (fun bd =>
  let normalizedBase := normalized base bd in
  bind (get_prop type_error_message override "depends_on") (fun od =>
  let normalizedOverride := normalized override od in
  bind (merge_fields normalizedOverride normalizedBase) (fun result =>
  Ok (VObj result)))).

Definition circular_extends_message (visited : list value) (name : value) : string :=
  "Circular extends detected: " ++ join_values " → " visited ++ " → " ++ to_str name.

Definition extends_not_found_message (name : value) : string :=
  "Service " ++ dquote ++ to_str name ++ dquote ++ " referenced in extends not found".

(** [typeof service.extends === 'string' ? service.extends : service.extends.service]. *)
Definition extended_name (ext : value) : value :=
  if typeof_string ext then ext else get ext "service".

Fixpoint resolveServiceExtends (fuel : nat) (service allServices : value)
  (visited : list value) : option (res value) :=
  match fuel with
  | O => None
  | S fuel' =>
      fbind (lift (get_prop type_error_message service "extends")) (fun ext =>
      if negb (truthy ext) then Some (Ok service)
      else
        let extendedServiceName := extended_name ext in
        if set_has extendedServiceName visited
        then Some (Throw (circular_extends_message visited extendedServiceName))
        else
          fbind (lift (member_prop type_error_message allServices
                         (to_str extendedServiceName)))
            (fun extendedService =>
          if negb (truthy extendedService)
          then Some (Throw (extends_not_found_message extendedServiceName))
          else
            let newVisited := set_add visited extendedServiceName in
            fbind (resolveServiceExtends fuel' extendedService allServices newVisited)
              (fun resolvedBase =>
            let serviceWithoutExtends :=
              VObj (obj_delete (own_entries service) "extends") in
            lift (mergeServiceConfigs resolvedBase serviceWithoutExtends))))
  end.

Definition resolving_error_message (name msg : string) : string :=
  "Error resolving extends for service " ++ dquote ++ name ++ dquote ++ ": " ++ msg.

(** The loop of [resolveAllExtends] over [Object.entries(compose.services)]. *)
Fixpoint resolve_services (fuel : nat) (entries : list (string * value))
  (allServices : value) (resolvedServices : obj) : option (res obj) :=
  match entries with
  | [] => Some (Ok resolvedServices)
  | (name, service) :: rest =>
      match resolveServiceExtends fuel service allServices [] with
      | None => None
      | Some (Throw msg) => Some (Throw (resolving_error_message name msg))
      | Some (Ok resolved) =>
          resolve_services fuel rest allServices (obj_set resolvedServices name resolved)
      end
  end.

(** Recursion depth that no chain of [extends] exceeds: every service is
    entered at most once below the first call. *)
Definition extends_fuel (services : value) : nat :=
  S (S (List.length (own_entries services))).

Definition resolveAllExtends (compose : value) : option (res value) :=
  fbind (lift (get_prop type_error_message compose "services")) (fun services =>
  if negb (truthy services) then Some (Ok compose)
  else
    fbind (resolve_services (extends_fuel services) (own_entries services) services [])
      (fun resolvedServices =>
    Some (Ok (VObj (obj_set (own_entries compose) "services" (VObj resolvedServices)))))).

End Engine.

End ExtendsResolver.

(** ** pathResolver.js *)

Module PathResolver.
Import Js.

Definition nonempty (s : string) : bool := negb (String.eqb s "").

(** The loop of [normalizePath]; [normalized] is the stack, bottom first. *)
Fixpoint normalize_segments (segments normalized : list string) : list string :=
  match segments with
  | [] => normalized
  | segment :: rest =>
      if String.eqb segment "." then normalize_segments rest normalized
      else if String.eqb segment ".."
           then normalize_segments rest (removelast normalized)
           else normalize_segments rest (normalized ++ [segment])
  end.

Definition normalizePath (path : string) : string :=
  if String.eqb path "" then ""
  else join "/" (normalize_segments (filter nonempty (split "/" path)) []).

(** [s.lastIndexOf(needle)]. *)
Fixpoint lastIndexOf (needle s : string) : option nat :=
  match s with
  | "" => if startsWith needle "" then Some O else None
  | String _ s' =>
      match lastIndexOf needle s' with
      | Some i => Some (S i)
      | None => if startsWith needle s then Some O else None
      end
  end.

(** [s.substring(0, n)]. *)
Fixpoint take (n : nat) (s : string) : string :=
  match n, s with
  | O, _ => ""
  | S _, "" => ""
  | S n', String c s' => String c (take n' s')
  end.

Definition dirname (path : string) : string :=
  if String.eqb path "" then ""
  else
    let normalized := normalizePath path in
    match lastIndexOf "/" normalized with
    | None => ""
    | Some lastSlash => take lastSlash normalized
    end.

(** [relativePath.replace(/^\.\//, '')]. *)
Definition strip_dot_slash (relativePath : string) : string :=
  if startsWith "./" relativePath then drop 2 relativePath else relativePath.

Definition joinPath (basePath relativePath : string) : string :=
  if String.eqb basePath "" then normalizePath relativePath
  else if String.eqb relativePath "" then normalizePath basePath
  else normalizePath (basePath ++ "/" ++ strip_dot_slash relativePath).

Definition resolvePath (currentFile targetPath : string) : string :=
  joinPath (dirname currentFile) targetPath.

End PathResolver.

(** ** includeResolver.js *)

Module IncludeResolver.
Import Js PathResolver.

Definition reserved_collections : list string :=
  ["services"; "networks"; "volumes"; "secrets"; "configs"].

(** The loop of [mergeComposeFiles] over [Object.entries(override)]. *)
Fixpoint merge_top_level (entries : list (string * value)) (result : obj) : obj :=
  match entries with
  | [] => result
  | (key, v) :: rest =>
      merge_top_level rest
        (if String.eqb key "name" then obj_set result key v
         else if string_mem key reserved_collections
              then obj_set result key
                     (VObj (spread2 (own_entries (or_else (obj_get result key) (VObj [])))
                                    (own_entries (or_else v (VObj [])))))
              else obj_set result key v)
  end.

Definition mergeComposeFiles (base override : value) : value :=
  if negb (truthy override) then or_else base (VObj [])
  else if negb (truthy base) then or_else override (VObj [])
  else VObj (merge_top_level (own_entries override) (own_entries base)).

(** A file map: normalized relative path to raw text. *)
Definition file_map : Type := list (string * string).

Fixpoint file_lookup (k : string) (m : file_map) : option string :=
  match m with
  | [] => None
  | (k', c) :: rest => if String.eqb k k' then Some c else file_lookup k rest
  end.

(** [fileMap[key]]: the text filed under the key, or a member that the map
    inherits from Object.prototype.  Such a member is truthy, and js-yaml's
    [load] reads its input through [String]: it is represented by that
    text. *)
Definition file_content (k : string) (m : file_map) : option string :=
  match file_lookup k m with
  | Some c => Some c
  | None => if inherited k then Some (inherited_text k) else None
  end.

Definition newline : string := String (ascii_of_nat 10) "".

Definition circular_current_message (absoluteCurrent : string) : string :=
  "Circular include detected: " ++ absoluteCurrent ++ " already in chain".

Definition circular_include_message (newVisited : list string)
  (absoluteInclude : string) : string :=
  "Circular include detected: " ++ join " → " newVisited ++ " → " ++ absoluteInclude.

Definition include_not_found_message (includePath absoluteInclude : string)
  (fileMap : file_map) : string :=
  "Include file not found: " ++ dquote ++ includePath ++ dquote ++ newline ++
  "Resolved to: " ++ dquote ++ absoluteInclude ++ dquote ++ newline ++
  "Available files: " ++ join ", " (map fst fileMap).

Definition parse_failed_message (includePath msg : string) : string :=
  "Failed to parse included file " ++ dquote ++ includePath ++ dquote ++ ": " ++ msg.

Section Engine.

Variable type_error_message : value -> string -> string.

(** [yaml.load] of js-yaml: the parsed document, or the parser's exception. *)
Variable yaml_load : string -> res value.

(** [typeof includeSpec === 'string' ? includeSpec : includeSpec.path]. *)
Definition include_path (includeSpec : value) : res value :=
  if typeof_string includeSpec then Ok includeSpec
  else get_prop type_error_message includeSpec "path".

(** [resolvePath(currentFile, includePath)]; a path that is no string has
    neither [split] nor [replace]. *)
Definition resolve_include (currentFile : string) (includePath : value) : res string :=
  match includePath with
  | VStr p => Ok (resolvePath currentFile p)
  | _ =>
      Throw (type_error_message includePath
               (if String.eqb (dirname currentFile) "" then "split" else "replace"))
  end.

(** One round of the loop over the include entries; [recur] is the recursive
    call of [resolveIncludes] on the included document.  The body's
    [console.warn] for a spec without a path is not modelled. *)
Definition include_step
  (recur : value -> string -> option (res value))
  (currentFile : string) (fileMap : file_map) (newVisited : list string)
  (merged : value) (includeSpec : value) : option (res value) :=
  fbind (lift (include_path includeSpec)) (fun includePath =>
  if negb (truthy includePath) then Some (Ok merged)
  else
    fbind (lift (resolve_include currentFile includePath)) (fun absoluteInclude =>
    if string_mem absoluteInclude newVisited
    then Some (Throw (circular_include_message newVisited absoluteInclude))
    else
      match file_content absoluteInclude fileMap with
      | None | Some "" =>
          Some (Throw (include_not_found_message (to_str includePath)
                         absoluteInclude fileMap))
      | Some content =>
          match yaml_load content with
          | Throw msg => Some (Throw (parse_failed_message (to_str includePath) msg))
          | Ok included =>
              fbind (recur included absoluteInclude) (fun resolvedInclude =>
              Some (Ok (mergeComposeFiles resolvedInclude merged)))
          end
      end)).

Fixpoint include_loop
  (recur : value -> string -> option (res value))
  (currentFile : string) (fileMap : file_map) (newVisited : list string)
  (includes : list value) (merged : value) : option (res value) :=
  match includes with
  | [] => Some (Ok merged)
  | includeSpec :: rest =>
      fbind (include_step recur currentFile fileMap newVisited merged includeSpec)
        (fun merged' => include_loop recur currentFile fileMap newVisited rest merged')
  end.

(** [Array.isArray(compose.include) ? compose.include : [compose.include]]. *)
Definition include_list (include : value) : list value :=
  match include with
  | VArr xs => xs
  | _ => [include]
  end.

Fixpoint resolveIncludes (fuel : nat) (compose : value) (currentFile : string)
  (fileMap : file_map) (visited : list string) : option (res value) :=
  match fuel with
  | O => None
  | S fuel' =>
      if negb (truthy compose) then Some (Ok compose)
      else if negb (truthy (get compose "include")) then Some (Ok compose)
      else
        let absoluteCurrent := normalizePath currentFile in
        if string_mem absoluteCurrent visited
        then Some (Throw (circular_current_message absoluteCurrent))
        else
          let newVisited := visited ++ [absoluteCurrent] in
          let merged := VObj (obj_delete (own_entries compose) "include") in
          include_loop
            (fun included absoluteInclude =>
               resolveIncludes fuel' included absoluteInclude fileMap newVisited)
            currentFile fileMap newVisited
            (include_list (get compose "include")) merged
  end.

(** Recursion depth that no include chain exceeds: every file of the map,
    and every inherited name, is entered at most once below the first call. *)
Definition include_fuel (fileMap : file_map) : nat :=
  S (S (List.length fileMap + List.length object_prototype_names)).

End Engine.

End IncludeResolver.

(** ** variableInterpolator.js *)

Module VariableInterpolator.
Import Js.

(** [[^}]+\}] at the start of [s]: the expression and the text after the
    closing brace. *)
Definition take_expression (s : string) : option (string * string) :=
  match break_at "}" s with
  | Some (expression, after) =>
      if String.eqb expression "" then None else Some (expression, after)
  | None => None
  end.

(** Leftmost match of [VARIABLE_REGEX = /(?<!\$)\$\{([^}]+)\}/] in [s]:
    the text before the match, the captured expression, the text after.
    [prev_dollar] says whether the character before [s] is a dollar sign. *)
Fixpoint find_variable (prev_dollar : bool) (s : string)
  : option (string * string * string) :=
  match s with
  | "" => None
  | String c s' =>
      let here :=
        if negb prev_dollar && Ascii.eqb c "$" && startsWith "{" s'
        then take_expression (drop 1 s')
        else None in
      match here with
      | Some (expression, after) => Some ("", expression, after)
      | None =>
          match find_variable (Ascii.eqb c "$") s' with
          | Some (before, expression, after) => Some (String c before, expression, after)
          | None => None
          end
      end
  end.

(** What the if-chain of [substituteVariable] reads off an expression. *)
Record parsed : Type := {
  varName : string;
  defaultValue : option string;
  errorMessage : option string;
  requireSet : bool;
  requireNonEmpty : bool
}.

(** [[a, b] = expression.split(sep)]. *)
Definition first_of (parts : list string) : string := hd "" parts.
Definition second_of (parts : list string) : option string := nth_error parts 1.

Definition parse_expression (expression : string) : parsed :=
  if includes ":?" expression then
    let parts := split ":?" expression in
    {| varName := first_of parts; defaultValue := None;
       errorMessage := second_of parts;
       requireSet := false; requireNonEmpty := true |}
  else if includes "?" expression && negb (includes ":-" expression)
          && negb (includes "-" expression) then
    let parts := split "?" expression in
    {| varName := first_of parts; defaultValue := None;
       errorMessage := second_of parts;
       requireSet := true; requireNonEmpty := false |}
  else if includes ":-" expression then
    let parts := split ":-" expression in
    {| varName := first_of parts; defaultValue := second_of parts;
       errorMessage := None;
       requireSet := false; requireNonEmpty := true |}
  else if includes "-" expression then
    let parts := split "-" expression in
    {| varName := first_of parts; defaultValue := second_of parts;
       errorMessage := None;
       requireSet := true; requireNonEmpty := false |}
  else
    {| varName := expression; defaultValue := None; errorMessage := None;
       requireSet := false; requireNonEmpty := false |}.

(** [value !== undefined && value !== null]. *)
Definition is_set (v : value) : bool := negb (nullish v).

(** [!isSet || value === '']. *)
Definition is_empty (v : value) : bool :=
  negb (is_set v) || match v with VStr "" => true | _ => false end.

(** The environment: an object, or [None] for [null]. *)
Definition environment : Type := option obj.

(** [env[name]] on an object: the own property, else the member inherited
    from Object.prototype.  The interpolator only compares such a member
    with [undefined], [null] and [''] and converts it with [String]: it is
    represented by its text. *)
Definition env_member (env : obj) (name : string) : value :=
  match lookup name env with
  | Some v => v
  | None => if inherited name then VStr (inherited_text name) else VUndef
  end.

Section Engine.

Variable type_error_message : value -> string -> string.

(** [env[name]], which throws when [env] is [null]. *)
Definition env_value (env : environment) (name : string) : res value :=
  match env with
  | Some o => Ok (env_member o name)
  | None => Throw (type_error_message VNull name)
  end.

Definition substituteVariable (matched expression : string) (env : environment)
  : res string :=
  let p := parse_expression expression in
  bind (env_value env (varName p)) (fun v =>
  let unmet :=
    (requireNonEmpty p && is_empty v) || (requireSet p && negb (is_set v)) in
  let written := if is_set v then string_of type_error_message v else Ok "" in
  match errorMessage p with
  | Some msg => if negb (String.eqb msg "") && unmet then Throw msg else written
  | None =>
      match defaultValue p with
      | Some d => if unmet then Ok d else written
      | None => written
      end
  end).

End Engine.

(** [c] lies in the character class [[:-?]], the range from [:] to [?]. *)
Definition in_operator_range (c : ascii) : bool :=
  let n := nat_of_ascii c in (58 <=? n)%nat && (n <=? 63)%nat.

(** [expression.split(/[:-?]/)[0]]. *)
Fixpoint name_of (expression : string) : string :=
  match expression with
  | "" => ""
  | String c rest => if in_operator_range c then "" else String c (name_of rest)
  end.

Definition ESCAPED_DOLLAR_PLACEHOLDER : string :=
  String nul ("ESCAPED_DOLLAR" ++ String nul "").

(** What [onError] is called with. *)
Record error_event : Type := {
  ev_message : string;
  ev_match : string;
  ev_expression : string;
  ev_varName : string
}.

Section Engine.

Variable type_error_message : value -> string -> string.

Local Abbreviation substituteVariable := (substituteVariable type_error_message).

(** The callback replace of [interpolateString]: the variable names met, the
    calls of [onError], and the replaced text (or the exception that ends the
    replace when [throwOnError] holds). *)
Fixpoint replace_variables (fuel : nat) (prev_dollar : bool) (s : string)
  (env : environment) (throwOnError : bool)
  : list string * list error_event * res string :=
  match fuel with
  | O => ([], [], Ok s)
  | S fuel' =>
      match find_variable prev_dollar s with
      | None => ([], [], Ok s)
      | Some (before, expression, after) =>
          let matched := ("${" ++ expression ++ "}")%string in
          let name := name_of expression in
          match substituteVariable matched expression env with
          | Ok r =>
              let '(names, events, rest) :=
                replace_variables fuel' false after env throwOnError in
              (name :: names, events, bind rest (fun t => Ok (before ++ r ++ t)%string))
          | Throw msg =>
              let event := {| ev_message := msg; ev_match := matched;
                              ev_expression := expression; ev_varName := name |} in
              if throwOnError then ([name], [event], Throw msg)
              else
                let '(names, events, rest) :=
                  replace_variables fuel' false after env throwOnError in
                (name :: names, event :: events,
                 bind rest (fun t => Ok (before ++ matched ++ t)%string))
          end
      end
  end.

End Engine.

(** Insertion-ordered set of strings, as [variables.includes] / [Set] keep it. *)
Fixpoint dedupe_from (seen names : list string) : list string :=
  match names with
  | [] => seen
  | x :: rest => dedupe_from (if string_mem x seen then seen else seen ++ [x]) rest
  end.

Definition dedupe (names : list string) : list string := dedupe_from [] names.

Record interpolation : Type := {
  original : string;
  resolved : string;
  hasVariable : bool;
  variables : list string
}.

Section Engine.

Variable type_error_message : value -> string -> string.

(** [interpolateString] on a string: the calls of [onError] and the result. *)
Definition interpolateString (str : string) (env : environment) (throwOnError : bool)
  : list error_event * res interpolation :=
  let preprocessed := replace_all "$$" ESCAPED_DOLLAR_PLACEHOLDER str in
  let '(names, events, replaced) :=
    replace_variables type_error_message (String.length preprocessed) false
      preprocessed env throwOnError in
  (events,
   bind replaced (fun resolved_text =>
   Ok {| original := str;
         resolved := replace_all ESCAPED_DOLLAR_PLACEHOLDER "$" resolved_text;
         hasVariable := negb (match names with [] => true | _ => false end);
         variables := dedupe names |})).

End Engine.

(** The record a string leaf becomes when [addMetadata] is set. *)
Definition metadata (r : interpolation) : value :=
  VObj [("_value", VStr (resolved r)); ("_original", VStr (original r));
        ("_hasVariable", VBool true);
        ("_variables", VArr (map VStr (variables r)))].

Section Engine.

Variable type_error_message : value -> string -> string.

Fixpoint interpolate (v : value) (env : environment) (addMetadata throwOnError : bool)
  : list error_event * res value :=
  match v with
  | VStr s =>
      let '(events, r) := interpolateString type_error_message s env throwOnError in
      (events,
       bind r (fun result =>
       Ok (if addMetadata && hasVariable result then metadata result
           else VStr (resolved result))))
  | VArr xs =>
      let '(events, r) :=
        (fix go (items : list value) : list error_event * res (list value) :=
           match items with
           | [] => ([], Ok [])
           | item :: rest =>
               match interpolate item env addMetadata throwOnError with
               | (ev1, Throw msg) => (ev1, Throw msg)
               | (ev1, Ok item') =>
                   let '(ev2, r2) := go rest in
                   (ev1 ++ ev2, bind r2 (fun rest' => Ok (item' :: rest')))
               end
           end) xs in
      (events, bind r (fun xs' => Ok (VArr xs')))
  | VObj fields =>
      let '(events, r) :=
        (fix go (entries : list (string * value)) (result : obj)
           : list error_event * res obj :=
           match entries with
           | [] => ([], Ok result)
           | (key, val) :: rest =>
               match interpolate val env addMetadata throwOnError with
               | (ev1, Throw msg) => (ev1, Throw msg)
               | (ev1, Ok val') =>
                   let '(ev2, r2) := go rest (obj_set result key val') in
                   (ev1 ++ ev2, r2)
               end
           end) fields [] in
      (events, bind r (fun o => Ok (VObj o)))
  | _ => ([], Ok v)
  end.

End Engine.

(** The expressions of all matches of [VARIABLE_REGEX] in [s] ([matchAll]). *)
Fixpoint all_matches (fuel : nat) (prev_dollar : bool) (s : string) : list string :=
  match fuel with
  | O => []
  | S fuel' =>
      match find_variable prev_dollar s with
      | None => []
      | Some (_, expression, after) => expression :: all_matches fuel' false after
      end
  end.

(** The inner [extract] of [extractVariables]: names in the order met. *)
Fixpoint extract (v : value) : list string :=
  match v with
  | VStr s => map name_of (all_matches (String.length s) false s)
  | VArr xs => flat_map extract xs
  | VObj fields =>
      (fix go (entries : list (string * value)) : list string :=
         match entries with
         | [] => []
         | (_, val) :: rest => extract val ++ go rest
         end) fields
  | _ => []
  end.

Definition extractVariables (compose : value) : list string :=
  dedupe (extract compose).

Section Engine.

Variable type_error_message : value -> string -> string.

(** The loop of [getUndefinedVariables] over the names. *)
Fixpoint undefined_among (env : environment) (names : list string)
  : res (list string) :=
  match names with
  | [] => Ok []
  | varName :: rest =>
      bind (env_value type_error_message env varName) (fun v =>
      bind (undefined_among env rest) (fun undefinedVars =>
      Ok (if nullish v then varName :: undefinedVars else undefinedVars)))
  end.

Definition getUndefinedVariables (compose : value) (env : environment)
  : res (list string) :=
  undefined_among env (extractVariables compose).

End Engine.

End VariableInterpolator.

(** ** profileFilter.js *)

Module ProfileFilter.
Import Js.

Definition getServiceProfiles (service : value) : list string :=
  if negb (truthy service) then []
  else
    match get service "profiles" with
    | VStr p => if String.eqb p "" then [] else [p]
    | VArr ps =>
        flat_map (fun p => match p with VStr x => [x] | _ => [] end) ps
    | _ => []
    end.

(** [Object.values(compose.services)]. *)
Definition service_values (compose : value) : list value :=
  map snd (own_entries (get compose "services")).

Fixpoint set_add_all (seen names : list string) : list string :=
  match names with
  | [] => seen
  | x :: rest => set_add_all (if string_mem x seen then seen else seen ++ [x]) rest
  end.

Fixpoint insert_sorted (x : string) (l : list string) : list string :=
  match l with
  | [] => [x]
  | y :: rest => if String.leb x y then x :: l else y :: insert_sorted x rest
  end.

(** [Array.prototype.sort()] on strings: code-unit order. *)
Definition sort (l : list string) : list string := fold_right insert_sorted [] l.

Definition listAllProfiles (compose : value) : list string :=
  if negb (truthy compose) then []
  else if negb (truthy (get compose "services")) then []
  else
    sort (fold_left (fun profiles service =>
                       set_add_all profiles (getServiceProfiles service))
                    (service_values compose) []).

(** [x + 1] for a truthy [x]: the sum of two numbers, and the concatenation
    of the texts when [x] is no number. *)
Definition plus_one (x : value) : value :=
  match x with
  | VNum n => VNum (n + 1)
  | VBool _ => VNum 2
  | _ => VStr (to_str x ++ "1")
  end.

(** [counts[profile] = (counts[profile] || 0) + 1].  The read finds a member
    that [counts] inherits from Object.prototype when the profile bears its
    name; [+] then appends to its text.  Assigning to [__proto__] a value that
    is no object leaves [counts] as it is. *)
Definition count_profile (counts : obj) (profile : string) : obj :=
  let current :=
    match lookup profile counts with
    | Some v => v
    | None => if inherited profile then VStr (inherited_text profile) else VUndef
    end in
  if String.eqb profile "__proto__" && negb (has_key counts profile) then counts
  else obj_set counts profile (plus_one (or_else current (VNum 0))).

Definition getProfileCounts (compose : value) : obj :=
  if negb (truthy compose) then []
  else if negb (truthy (get compose "services")) then []
  else
    fold_left (fun counts service =>
                 fold_left count_profile (getServiceProfiles service) counts)
              (service_values compose) [].

Section Engine.

Variable type_error_message : value -> string -> string.

(** [activeProfiles && activeProfiles.includes(profile)]: membership in an
    array, a substring test on a string, and a TypeError on any other truthy
    value, which has no [includes]. *)
Definition is_active (activeProfiles : value) (profile : string) : res bool :=
  if negb (truthy activeProfiles) then Ok false
  else match activeProfiles with
       | VArr xs => Ok (set_has (VStr profile) xs)
       | VStr s => Ok (includes profile s)
       | _ => Throw (type_error_message activeProfiles "includes")
       end.

(** [serviceProfiles.some(profile => ...)]. *)
Fixpoint some_active (activeProfiles : value) (serviceProfiles : list string)
  : res bool :=
  match serviceProfiles with
  | [] => Ok false
  | profile :: rest =>
      bind (is_active activeProfiles profile) (fun found =>
      if found then Ok true else some_active activeProfiles rest)
  end.

Definition matchesProfiles (service : value) (activeProfiles : value) : res bool :=
  let serviceProfiles := getServiceProfiles service in
  match serviceProfiles with
  | [] => Ok true
  | _ => some_active activeProfiles serviceProfiles
  end.

(** The loop of [filterByProfiles] over [Object.entries(compose.services)]. *)
Fixpoint filter_services (activeProfiles : value) (entries : list (string * value))
  (filteredServices : obj) : res obj :=
  match entries with
  | [] => Ok filteredServices
  | (name, service) :: rest =>
      bind (matchesProfiles service activeProfiles) (fun keep =>
      filter_services activeProfiles rest
        (if keep then obj_set filteredServices name service else filteredServices))
  end.

Definition filterByProfiles (compose : value) (activeProfiles : value) : res value :=
  if negb (truthy compose) then Ok compose
  else if negb (truthy (get compose "services")) then Ok compose
  else
    bind (filter_services activeProfiles (own_entries (get compose "services")) [])
      (fun filteredServices =>
    Ok (VObj (obj_set (own_entries compose) "services" (VObj filteredServices)))).

End Engine.

End ProfileFilter.

(** ** composeParser.js *)

Module ComposeParser.
Import Js.

(** The destructured [options].  Nothing checks [environment] and
    [activeProfiles] before they are used: the first is an object or [null],
    the second any value. *)
Record options : Type := {
  environment : VariableInterpolator.environment;
  activeProfiles : value;
  basePath : string;
  fileMap : IncludeResolver.file_map;
  enableIncludes : bool;
  enableExtends : bool;
  enableVariables : bool;
  enableProfiles : bool;
  addMetadata : bool
}.

(** The defaults of the destructured [options]. *)
Definition default_options : options :=
  {| environment := Some []; activeProfiles := VArr [];
     basePath := "docker-compose.yml";
     fileMap := []; enableIncludes := true; enableExtends := true;
     enableVariables := true; enableProfiles := true; addMetadata := false |}.

(** An entry of [errors].  The [stack] of a fatal entry is engine text and is
    left out. *)
Record diagnostic : Type := {
  type : string;
  message : string;
  stage : string;
  reported_undefined : option (list string)
}.

Record parse_result : Type := {
  compose : option value;
  profiles : list string;
  profileCounts : obj;
  variables : list string;
  undefinedVariables : list string;
  errors : list diagnostic
}.

Definition diag (t m s : string) : diagnostic :=
  {| type := t; message := m; stage := s; reported_undefined := None |}.

(** The result of the outer [catch]. *)
Definition fatal_result (msg : string) : parse_result :=
  {| compose := None; profiles := []; profileCounts := []; variables := [];
     undefinedVariables := [];
     errors := [diag "fatal" msg "yaml-parsing"] |}.

(** The message the [onError] callback reports for one failed substitution. *)
Definition variable_message (ev : VariableInterpolator.error_event) : string :=
  let rawMessage :=
    if String.eqb (VariableInterpolator.ev_message ev) ""
    then "Variable interpolation error"
    else VariableInterpolator.ev_message ev in
  let name := VariableInterpolator.ev_varName ev in
  if String.eqb name "" then rawMessage
  else if String.eqb rawMessage "required" || String.eqb rawMessage "error"
       then "Missing required variable: " ++ name
       else if negb (includes name rawMessage)
            then rawMessage ++ " (" ++ name ++ ")"
            else rawMessage.

(** The calls of [onError], folded: [interpolationErrors] is the set of keys
    already reported. *)
Fixpoint report_events (events : list VariableInterpolator.error_event)
  (interpolationErrors : list string) : list diagnostic :=
  match events with
  | [] => []
  | ev :: rest =>
      let msg := variable_message ev in
      let key := (msg ++ ":" ++ VariableInterpolator.ev_varName ev)%string in
      if string_mem key interpolationErrors then report_events rest interpolationErrors
      else diag "variable" msg "variable-interpolation"
           :: report_events rest (interpolationErrors ++ [key])
  end.

Section Engine.

Variable type_error_message : value -> string -> string.
Variable yaml_load : string -> res value.

(** Stage 2: the document and the diagnostics after include resolution. *)
Definition include_stage (o : options) (doc : value)
  : option (value * list diagnostic) :=
  if enableIncludes o then
    match IncludeResolver.resolveIncludes type_error_message yaml_load
            (IncludeResolver.include_fuel (fileMap o)) doc (basePath o) (fileMap o) []
    with
    | None => None
    | Some (Ok doc') => Some (doc', [])
    | Some (Throw msg) => Some (doc, [diag "include" msg "include-resolution"])
    end
  else Some (doc, []).

(** Stage 3: the document and the diagnostics after extends resolution. *)
Definition extends_stage (o : options) (doc : value)
  : option (value * list diagnostic) :=
  if enableExtends o then
    match ExtendsResolver.resolveAllExtends type_error_message doc with
    | None => None
    | Some (Ok doc') => Some (doc', [])
    | Some (Throw msg) => Some (doc, [diag "extends" msg "extends-resolution"])
    end
  else Some (doc, []).

(** Stage 4: the document and the diagnostics after interpolation. *)
Definition variables_stage (o : options) (doc : value) : value * list diagnostic :=
  if enableVariables o then
    match VariableInterpolator.interpolate type_error_message doc (environment o)
            (addMetadata o) false with
    | (events, Ok doc') => (doc', report_events events [])
    | (events, Throw msg) =>
        (doc, report_events events [] ++ [diag "variable" msg "variable-interpolation"])
    end
  else (doc, []).

(** [activeProfiles = []] in the destructuring: the default replaces
    [undefined]. *)
Definition active_profiles (o : options) : value :=
  match activeProfiles o with
  | VUndef => VArr []
  | given => given
  end.

(** Stage 5. *)
Definition profiles_stage (o : options) (doc : value) : res value :=
  if enableProfiles o
  then ProfileFilter.filterByProfiles type_error_message doc (active_profiles o)
  else Ok doc.

(** Everything after extends resolution: metadata, interpolation, profiles.
    An exception raised here, outside the handlers of the stages, leaves the
    [try] block. *)
Definition finish (o : options) (doc : value) (errors0 : list diagnostic)
  : res parse_result :=
  let allProfiles := ProfileFilter.listAllProfiles doc in
  let counts := ProfileFilter.getProfileCounts doc in
  let allVariables :=
    if enableVariables o then VariableInterpolator.extractVariables doc else [] in
  bind (if enableVariables o
        then VariableInterpolator.getUndefinedVariables type_error_message doc
               (environment o)
        else Ok []) (fun undefinedVars =>
  let errors1 :=
    match undefinedVars with
    | [] => errors0
    | _ =>
        errors0 ++
        [{| type := "warning";
            message := "Undefined variables: " ++ join ", " undefinedVars;
            stage := "variable-validation";
            reported_undefined := Some undefinedVars |}]
    end in
  let '(doc1, errors2) := variables_stage o doc in
  bind (profiles_stage o doc1) (fun doc2 =>
  Ok {| compose := Some doc2; profiles := allProfiles; profileCounts := counts;
        variables := allVariables; undefinedVariables := undefinedVars;
        errors := errors1 ++ errors2 |})).

(** Everything after the root document was parsed and checked. *)
Definition after_parse (o : options) (doc : value) : option (res parse_result) :=
  match include_stage o doc with
  | None => None
  | Some (doc1, errors1) =>
      match extends_stage o doc1 with
      | None => None
      | Some (doc2, errors2) => Some (finish o doc2 (errors1 ++ errors2))
      end
  end.

(** Stage 1: [yaml.load] and the check of the root. *)
Definition parse_root (yamlString : string) : res value :=
  bind (yaml_load yamlString) (fun doc =>
  if negb (truthy doc) || negb (typeof_object doc)
  then Throw "Invalid YAML: expected object at root"
  else Ok doc).

(** The body of the [try] block. *)
Definition attempt (yamlString : string) (o : options) : option (res parse_result) :=
  fbind (lift (parse_root yamlString)) (fun doc => after_parse o doc).

(** [parseCompose]: the result the block returns, or the fatal result of the
    [catch] around it. *)
Definition parseCompose (yamlString : string) (o : options) : option parse_result :=
  match attempt yamlString o with
  | None => None
  | Some (Ok result) => Some result
  | Some (Throw msg) => Some (fatal_result msg)
  end.

End Engine.

End ComposeParser.

(** ** validation.js (the helper the comparator imports) *)

Module Validation.
Import Js.

Definition normalizeArray (arr : value) : list value :=
  match arr with
  | VArr xs => xs
  | _ => []
  end.

End Validation.

(** ** comparison.js *)

Module Comparison.
Import Js Validation.

(** [extractHostPort] of src/utils/comparison.js; [None] is [null]. *)
Definition extractHostPort (portMapping : value) : option string :=
  match portMapping with
  | VStr s =>
      if String.eqb s "" then None
      else
        let parts := split ":" s in
        match parts with
        | [ip; hostPort; _] => Some (ip ++ ":" ++ hd "" (split "/" hostPort))%string
        | [hostPort; _] => Some ("0.0.0.0" ++ ":" ++ hd "" (split "/" hostPort))%string
        | _ => None
        end
  | _ => None
  end.

Definition extractVolumeSource (volumeMapping : value) : option string :=
  match volumeMapping with
  | VStr s =>
      if String.eqb s "" then None
      else
        let source := hd "" (split ":" s) in
        if String.eqb source "" then None else Some source
  | _ => None
  end.

(** An entry of a usage list: [{ project, service, mapping }]. *)
Record usage : Type := {
  project : value;
  service : string;
  mapping : option value
}.

Inductive details_of : Type :=
| Usages (usages : list usage)
| NetworkName (networkName : string)
| ServiceName (serviceName : string).

(** A [ComparisonResult]. *)
Record finding : Type := {
  type : string;
  category : string;
  severity : string;
  message : string;
  projects : list value;
  details : details_of
}.

Record project_entry : Type := {
  id : value;
  name : value;
  content : value
}.

(** A [Map] from keys to arrays, in insertion order of the keys. *)
Definition multimap (V : Type) : Type := list (value * list V).

(** [if (!m.has(k)) m.set(k, []); m.get(k).push(x)]. *)
Fixpoint push {V : Type} (m : multimap V) (k : value) (x : V) : multimap V :=
  match m with
  | [] => [(k, [x])]
  | (k', xs) :: rest =>
      if value_eqb k k' then (k', xs ++ [x]) :: rest else (k', xs) :: push rest k x
  end.

Record maps : Type := {
  portMap : multimap usage;
  containerNameMap : multimap usage;
  serviceNameMap : multimap value;
  volumeMap : multimap usage;
  networkMap : multimap value;
  envFileMap : multimap usage
}.

Definition empty_maps : maps :=
  {| portMap := []; containerNameMap := []; serviceNameMap := []; volumeMap := [];
     networkMap := []; envFileMap := [] |}.

(** [[...new Set(usages.map(u => u.project))]]. *)
Definition projects_involved (usages : list usage) : list value :=
  fold_left set_add (map project usages) [].

Definition starts_with_dot_or_slash (source : string) : bool :=
  startsWith "." source || startsWith "/" source.

Section Extractor.

(** The comparator is modelled over its port extractor, so that both
    revisions of [extractHostPort] share it. *)
Variable extract : value -> option string.

Definition collect_ports (projectName : value) (serviceName : string)
  (ports : list value) (m : multimap usage) : multimap usage :=
  fold_left
    (fun acc port =>
       match extract port with
       | Some hostPort =>
           if String.eqb hostPort "" then acc
           else push acc (VStr hostPort)
                  {| project := projectName; service := serviceName;
                     mapping := Some port |}
       | None => acc
       end) ports m.

Definition collect_volumes (projectName : value) (serviceName : string)
  (volumes : list value) (m : multimap usage) : multimap usage :=
  fold_left
    (fun acc vol =>
       match extractVolumeSource vol with
       | Some source =>
           push acc (VStr source)
             {| project := projectName; service := serviceName; mapping := Some vol |}
       | None => acc
       end) volumes m.

Definition collect_env_files (projectName : value) (serviceName : string)
  (envFiles : list value) (m : multimap usage) : multimap usage :=
  fold_left
    (fun acc envFile =>
       push acc envFile
         {| project := projectName; service := serviceName; mapping := None |})
    envFiles m.

Section Engine.

Variable type_error_message : value -> string -> string.

(** The body of the loop over the services of one project. *)
Definition collect_service (projectName : value) (m : maps)
  (serviceName : string) (svc : value) : res maps :=
  let names := push (serviceNameMap m) (VStr serviceName) projectName in
  bind (get_prop type_error_message svc "container_name") (fun container_name =>
  let containers :=
    if truthy container_name
    then push (containerNameMap m) container_name
           {| project := projectName; service := serviceName; mapping := None |}
    else containerNameMap m in
  Ok {| portMap :=
          collect_ports projectName serviceName
            (normalizeArray (get svc "ports")) (portMap m);
        containerNameMap := containers;
        serviceNameMap := names;
        volumeMap :=
          collect_volumes projectName serviceName
            (normalizeArray (get svc "volumes")) (volumeMap m);
        networkMap := networkMap m;
        envFileMap :=
          collect_env_files projectName serviceName
            (normalizeArray (get svc "env_file")) (envFileMap m) |}).

Fixpoint collect_services (projectName : value)
  (entries : list (string * value)) (m : maps) : res maps :=
  match entries with
  | [] => Ok m
  | (serviceName, svc) :: rest =>
      bind (collect_service projectName m serviceName svc)
           (fun m' => collect_services projectName rest m')
  end.

Definition collect_networks (projectName : value) (names : list string) (m : maps)
  : maps :=
  {| portMap := portMap m; containerNameMap := containerNameMap m;
     serviceNameMap := serviceNameMap m; volumeMap := volumeMap m;
     networkMap :=
       fold_left (fun acc networkName => push acc (VStr networkName) projectName)
                 names (networkMap m);
     envFileMap := envFileMap m |}.

(** The loop over the projects. *)
Fixpoint collect (projects : list project_entry) (m : maps) : res maps :=
  match projects with
  | [] => Ok m
  | p :: rest =>
      if negb (truthy (content p)) then collect rest m
      else
        bind (collect_services (name p)
                (own_entries (or_else (get (content p) "services") (VObj []))) m)
             (fun m1 =>
        collect rest
          (collect_networks (name p)
             (map fst (own_entries (or_else (get (content p) "networks") (VObj []))))
             m1))
  end.

End Engine.

(** A usage list is reported when it has more than one entry and the entries
    span more than one project. *)
Definition spans_projects (usages : list usage) : bool :=
  (1 <? List.length usages)%nat && (1 <? List.length (projects_involved usages))%nat.

Definition port_findings (m : multimap usage) : list finding :=
  flat_map
    (fun entry =>
       let '(binding, usages) := entry in
       if spans_projects usages
       then [{| type := "conflict"; category := "port"; severity := "error";
                message := ("Port binding " ++ to_str binding
                            ++ " is used by multiple projects")%string;
                projects := projects_involved usages; details := Usages usages |}]
       else []) m.

Definition container_name_findings (m : multimap usage) : list finding :=
  flat_map
    (fun entry =>
       let '(cname, usages) := entry in
       if spans_projects usages
       then [{| type := "conflict"; category := "container_name"; severity := "error";
                message := ("Container name " ++ dquote ++ to_str cname ++ dquote
                            ++ " is used by multiple projects")%string;
                projects := projects_involved usages; details := Usages usages |}]
       else []) m.

Definition volume_findings (m : multimap usage) : list finding :=
  flat_map
    (fun entry =>
       let '(source, usages) := entry in
       if spans_projects usages
       then
         let isHostPath := starts_with_dot_or_slash (to_str source) in
         [{| type := if isHostPath then "conflict" else "shared";
             category := "volume";
             severity := if isHostPath then "warning" else "info";
             message :=
               if isHostPath
               then ("Host path " ++ dquote ++ to_str source ++ dquote
                     ++ " is mounted by multiple projects")%string
               else ("Volume " ++ dquote ++ to_str source ++ dquote
                     ++ " is used by multiple projects")%string;
             projects := projects_involved usages; details := Usages usages |}]
       else []) m.

Definition network_findings (m : multimap value) : list finding :=
  flat_map
    (fun entry =>
       let '(networkName, projectsList) := entry in
       if (1 <? List.length projectsList)%nat
       then [{| type := "shared"; category := "network"; severity := "info";
                message := ("Network " ++ dquote ++ to_str networkName ++ dquote
                            ++ " is defined in multiple projects")%string;
                projects := projectsList;
                details := NetworkName (to_str networkName) |}]
       else []) m.

Definition env_file_findings (m : multimap usage) : list finding :=
  flat_map
    (fun entry =>
       let '(envFile, usages) := entry in
       if spans_projects usages
       then [{| type := "shared"; category := "env_file"; severity := "info";
                message := ("Env file " ++ dquote ++ to_str envFile ++ dquote
                            ++ " is used by multiple projects")%string;
                projects := projects_involved usages; details := Usages usages |}]
       else []) m.

Definition service_name_findings (m : multimap value) : list finding :=
  flat_map
    (fun entry =>
       let '(serviceName, projectsList) := entry in
       if (1 <? List.length projectsList)%nat
       then [{| type := "shared"; category := "service_name"; severity := "info";
                message := ("Service name " ++ dquote ++ to_str serviceName ++ dquote
                            ++ " exists in multiple projects")%string;
                projects := projectsList;
                details := ServiceName (to_str serviceName) |}]
       else []) m.

Definition report (m : maps) : list finding :=
  port_findings (portMap m) ++ container_name_findings (containerNameMap m)
  ++ volume_findings (volumeMap m) ++ network_findings (networkMap m)
  ++ env_file_findings (envFileMap m) ++ service_name_findings (serviceNameMap m).

Definition compare_with (type_error_message : value -> string -> string)
  (projects : list project_entry) : res (list finding) :=
  if (List.length projects <? 2)%nat then Ok []
  else bind (collect type_error_message projects empty_maps) (fun m => Ok (report m)).

End Extractor.

Definition compareProjects := compare_with extractHostPort.

(** [results.filter(r => r.category === 'port')], as the tests select the
    port findings. *)
Definition port_conflicts (results : list finding) : list finding :=
  filter (fun r => String.eqb (category r) "port") results.

Definition getComparisonSummary (results : list finding) : nat * nat * nat :=
  (List.length (filter (fun r => String.eqb (severity r) "error") results),
   List.length (filter (fun r => String.eqb (severity r) "warning") results),
   List.length (filter (fun r => String.eqb (severity r) "info") results)).

End Comparison.

(** ** comparison.js, the revision with bracketed IPv6 *)

Module ComparisonRevised.
Import Js.

(** [s.indexOf(c)] for a one-character needle. *)
Definition indexOf (needle s : string) : option nat :=
  match break_at needle s with
  | Some (before, _) => Some (String.length before)
  | None => None
  end.

Definition extractHostPort (portMapping : value) : option string :=
  match portMapping with
  | VStr s =>
      if String.eqb s "" then None
      else
        let binding :=
          if startsWith "[" s then
            match indexOf "]" s with
            | None => None
            | Some closeBracket =>
                let ip := PathResolver.take (closeBracket + 1) s in
                let remaining := drop (closeBracket + 1) s in
                if startsWith ":" remaining
                then Some (ip, hd "" (split ":" (drop 1 remaining)))
                else None
            end
          else
            match split ":" s with
            | [hostPort; _] => Some ("0.0.0.0", hostPort)
            | [ip; hostPort; _] =>
                if String.eqb ip "" && String.eqb hostPort "" then None
                else Some (ip, hostPort)
            | _ => None
            end in
        match binding with
        | Some (ip, hostPort) =>
            if String.eqb hostPort "" then None
            else Some (ip ++ ":" ++ hd "" (split "/" hostPort))%string
        | None => None
        end
  | _ => None
  end.

Definition compareProjects := Comparison.compare_with extractHostPort.

End ComparisonRevised.

(** ** Vocabulary of the statements *)

Module Vocabulary.
Import Js.

(** The keys of every object inside [v] are pairwise distinct, as they are in
    every JavaScript object. *)
Fixpoint distinct_keys (keys : list string) : bool :=
  match keys with
  | [] => true
  | k :: rest => negb (string_mem k rest) && distinct_keys rest
  end.

Fixpoint unique_keys (v : value) : bool :=
  match v with
  | VArr xs =>
      (fix go (l : list value) : bool :=
         match l with
         | [] => true
         | x :: rest => unique_keys x && go rest
         end) xs
  | VObj fields =>
      distinct_keys (map fst fields)
      && (fix go (l : list (string * value)) : bool :=
            match l with
            | [] => true
            | (_, x) :: rest => unique_keys x && go rest
            end) fields
  | _ => true
  end.

(** [v] has an own property [k]. *)
Definition has_own (v : value) (k : string) : bool := has_key (own_entries v) k.

(** The long (mapping) form of [depends_on]. *)
Definition long_form (v : value) : Prop := exists fields, v = VObj fields.

(** A [depends_on] as Compose writes it: absent, a list, or a mapping. *)
Definition depends_on_shape (v : value) : Prop :=
  v = VUndef \/ (exists xs, v = VArr xs) \/ long_form v.

(** A piece of an interpolated string: literal text, the escape [$$], or a
    reference [${expression}]. *)
Inductive piece : Type :=
| Text (t : string)
| Escape
| Reference (expression : string).

Definition render_piece (p : piece) : string :=
  match p with
  | Text t => t
  | Escape => "$$"
  | Reference e => "${" ++ e ++ "}"
  end.

Definition render (ps : list piece) : string :=
  fold_right (fun p acc => render_piece p ++ acc)%string "" ps.

(** No occurrence of the character [c] in [s]. *)
Fixpoint lacks (c : ascii) (s : string) : bool :=
  match s with
  | "" => true
  | String c' rest => negb (Ascii.eqb c c') && lacks c rest
  end.

(** The pieces of a string, read from left to right as the specification
    reads it: [$$] is an escape; [${e}], for a non-empty [e] up to the next
    closing brace, is a reference; any other character is text. *)
Fixpoint pieces (fuel : nat) (s : string) : list piece :=
  match fuel with
  | O => []
  | S fuel' =>
      match s with
      | "" => []
      | String c rest =>
          if startsWith "$$" s then Escape :: pieces fuel' (drop 2 s)
          else
            match (if startsWith "${" s
                   then VariableInterpolator.take_expression (drop 2 s)
                   else None) with
            | Some (e, after) => Reference e :: pieces fuel' after
            | None => Text (String c "") :: pieces fuel' rest
            end
      end
  end.

Definition pieces_of (s : string) : list piece := pieces (String.length s) s.

(** What a piece stands for once interpolated under [env]: the text, one
    dollar sign for an escape, and for a reference its value, or the
    reference as written when its substitution fails. *)
Definition expand_piece (type_error_message : value -> string -> string)
  (env : VariableInterpolator.environment) (p : piece) : string :=
  match p with
  | Text t => t
  | Escape => "$"
  | Reference e =>
      match VariableInterpolator.substituteVariable type_error_message
              ("${" ++ e ++ "}") e env with
      | Ok r => r
      | Throw _ => "${" ++ e ++ "}"
      end
  end.

Definition expand (type_error_message : value -> string -> string)
  (env : VariableInterpolator.environment) (ps : list piece) : string :=
  fold_right (fun p acc => expand_piece type_error_message env p ++ acc)%string "" ps.

(** The escape as the pre-pass of [interpolateString] leaves it. *)
Definition masked (p : piece) : piece :=
  match p with
  | Escape => Text VariableInterpolator.ESCAPED_DOLLAR_PLACEHOLDER
  | _ => p
  end.

(** What the callback replace of [interpolateString] makes of a text: the
    replaced text, or, only when [throwOnError] is set, an exception. *)
Definition replaced_to (type_error_message : value -> string -> string)
  (env : VariableInterpolator.environment) (throwOnError : bool)
  (s expected : string) : Prop :=
  match snd (VariableInterpolator.replace_variables type_error_message
               (String.length s) false s env throwOnError) with
  | Ok x => x = expected
  | Throw _ => throwOnError = true
  end.

(** No escape between the braces of a reference. *)
Definition escape_outside (p : piece) : Prop :=
  match p with
  | Reference e => includes "$$" e = false
  | _ => True
  end.

(** No value of the environment holds the NUL character. *)
Definition nul_free (env : VariableInterpolator.environment) : Prop :=
  match env with
  | Some o => Forall (fun entry => lacks nul (to_str (snd entry)) = true) o
  | None => True
  end.

(** Every number that [String(v)] writes is below 10^21 in absolute value,
    so that its digits are written out. *)
Fixpoint written_in_full (v : value) : bool :=
  match v with
  | VNum n => (Z.abs n <? 10 ^ 21)%Z
  | VArr xs =>
      (fix go (l : list value) : bool :=
         match l with
         | [] => true
         | x :: rest => written_in_full x && go rest
         end) xs
  | _ => true
  end.

(** [String(v)] is the text [to_str v]: the conversion raises nothing, and
    the numbers are written out in full. *)
Definition converts_plainly (v : value) : bool :=
  convertible v && written_in_full v.

(** Every usage filed under a key of the port map comes from a port mapping
    that [extract] sends to that key. *)
Definition keyed_by_binding (extract : value -> option string)
  (m : Comparison.multimap Comparison.usage) : Prop :=
  forall k us, In (k, us) m ->
    exists key, k = VStr key /\
      forall u, In u us ->
        exists port, Comparison.mapping u = Some port /\ extract port = Some key.

(** A path segment that [normalizePath] keeps. *)
Definition kept_segment (seg : string) : Prop :=
  PathResolver.nonempty seg = true /\ String.eqb seg "." = false
  /\ String.eqb seg ".." = false /\ lacks "/" seg = true.

(** Two projects with one service each, as the comparator's tests build
    them. *)
Definition two_projects (ports1 ports2 : list string) : list Comparison.project_entry :=
  [{| Comparison.id := VStr "proj1"; Comparison.name := VStr "Project 1";
      Comparison.content :=
        VObj [("services", VObj [("web", VObj [("ports", VArr (map VStr ports1))])])] |};
   {| Comparison.id := VStr "proj2"; Comparison.name := VStr "Project 2";
      Comparison.content :=
        VObj [("services", VObj [("api", VObj [("ports", VArr (map VStr ports2))])])] |}].

(** The service extends the service called [target], in the string form or
    in the object form of [extends]. *)
Definition extends_to (svc : value) (target : string) : Prop :=
  truthy (get svc "extends") = true
  /\ ExtendsResolver.extended_name (get svc "extends") = VStr target.

(** The entry of the document's [include] that follows the entries [before]
    names a path that resolves, from [currentFile], to [target]. *)
Definition includes_after (doc : value) (currentFile : string)
  (before : list value) (target : string) : Prop :=
  truthy doc = true /\ truthy (get doc "include") = true
  /\ exists spec rest path,
       IncludeResolver.include_list (get doc "include") = before ++ spec :: rest
       /\ (spec = VStr path
           \/ (typeof_string spec = false /\ nullish spec = false
               /\ get spec "path" = VStr path))
       /\ path <> ""
       /\ PathResolver.resolvePath currentFile path = target.

(** The loop of [resolveIncludes] over the include entries [before] of [doc]
    runs through without an exception: each of them is skipped or its file
    resolves, the included files being resolved with [fuel]. *)
Definition passes_over
  (type_error_message : value -> string -> string)
  (yaml_load : string -> res value)
  (fuel : nat) (fileMap : IncludeResolver.file_map)
  (doc : value) (currentFile : string) (visited : list string)
  (before : list value) : Prop :=
  let newVisited := visited ++ [PathResolver.normalizePath currentFile] in
  exists merged,
    IncludeResolver.include_loop type_error_message yaml_load
      (fun included absoluteInclude =>
         IncludeResolver.resolveIncludes type_error_message yaml_load fuel
           included absoluteInclude fileMap newVisited)
      currentFile fileMap newVisited before
      (VObj (obj_delete (own_entries doc) "include")) = Some (Ok merged).

(** The services whose [extends] names a service not yet visited: what a
    chain of [extends] can still enter. *)
Definition pending_extends (allServices : value) (visited : list value) : nat :=
  List.length
    (filter (fun entry =>
               truthy (get (snd entry) "extends")
               && negb (set_has (ExtendsResolver.extended_name
                                   (get (snd entry) "extends")) visited))
            (own_entries allServices)).

(** The files with content, and the inherited names, that are not yet in
    the include chain. *)
Definition pending_files (fileMap : IncludeResolver.file_map) (visited : list string)
  : nat :=
  List.length
    (filter (fun entry =>
               negb (String.eqb (snd entry) "") && negb (string_mem (fst entry) visited))
            fileMap)
  + List.length (filter (fun k => negb (string_mem k visited)) object_prototype_names).

(** The value the document holds for [key] under the collection
    [collection] (services, networks, ...), if it defines one. *)
Definition entry_of (doc : value) (collection key : string) : option value :=
  lookup key (own_entries (get doc collection)).

(** Each collection among the entries has distinct keys. *)
Definition collections_keyed (o : obj) : Prop :=
  forall c x, In (c, x) o -> NoDup (map fst (own_entries x)).

(** The top-level keys of the document are distinct, and so are the keys of
    each of its collections. *)
Definition well_keyed (doc : value) : Prop :=
  NoDup (map fst (own_entries doc)) /\ collections_keyed (own_entries doc).

(** The include entry [spec] of the file [currentFile] has a path, and
    resolving the file it names gives the document [r]. *)
Definition include_resolves_to
  (type_error_message : value -> string -> string)
  (yaml_load : string -> res value)
  (recur : value -> string -> option (res value))
  (currentFile : string) (fileMap : IncludeResolver.file_map)
  (newVisited : list string) (spec r : value) : Prop :=
  exists path absoluteInclude content included,
    IncludeResolver.include_path type_error_message spec = Ok (VStr path)
    /\ path <> ""
    /\ PathResolver.resolvePath currentFile path = absoluteInclude
    /\ string_mem absoluteInclude newVisited = false
    /\ IncludeResolver.file_content absoluteInclude fileMap = Some content
    /\ content <> ""
    /\ yaml_load content = Ok included
    /\ recur included absoluteInclude = Some (Ok r).

(** The operator of a substitution expression. *)
Inductive operator : Type :=
| RequireNonEmpty
| RequireSet
| DefaultIfEmpty
| DefaultIfUnset
| Plain.

(** The classification of an expression as the specification words it: by
    which operator substring appears, in the order [:?], then [?] without any
    [-], then [:-], then [-]. *)
Definition classify (expression : string) : operator :=
  if includes ":?" expression then RequireNonEmpty
  else if includes "?" expression && negb (includes "-" expression) then RequireSet
  else if includes ":-" expression then DefaultIfEmpty
  else if includes "-" expression then DefaultIfUnset
  else Plain.

(** The separator that goes with an operator. *)
Definition operator_text (op : operator) : string :=
  match op with
  | RequireNonEmpty => ":?"
  | RequireSet => "?"
  | DefaultIfEmpty => ":-"
  | DefaultIfUnset => "-"
  | Plain => ""
  end.

(** What [substituteVariable] reads off an expression of the given class. *)
Definition parsed_as (op : operator) (expression : string)
  : VariableInterpolator.parsed :=
  let parts := split (operator_text op) expression in
  let name := VariableInterpolator.first_of parts in
  let rest := VariableInterpolator.second_of parts in
  match op with
  | RequireNonEmpty =>
      {| VariableInterpolator.varName := name;
         VariableInterpolator.defaultValue := None;
         VariableInterpolator.errorMessage := rest;
         VariableInterpolator.requireSet := false;
         VariableInterpolator.requireNonEmpty := true |}
  | RequireSet =>
      {| VariableInterpolator.varName := name;
         VariableInterpolator.defaultValue := None;
         VariableInterpolator.errorMessage := rest;
         VariableInterpolator.requireSet := true;
         VariableInterpolator.requireNonEmpty := false |}
  | DefaultIfEmpty =>
      {| VariableInterpolator.varName := name;
         VariableInterpolator.defaultValue := rest;
         VariableInterpolator.errorMessage := None;
         VariableInterpolator.requireSet := false;
         VariableInterpolator.requireNonEmpty := true |}
  | DefaultIfUnset =>
      {| VariableInterpolator.varName := name;
         VariableInterpolator.defaultValue := rest;
         VariableInterpolator.errorMessage := None;
         VariableInterpolator.requireSet := true;
         VariableInterpolator.requireNonEmpty := false |}
  | Plain =>
      {| VariableInterpolator.varName := expression;
         VariableInterpolator.defaultValue := None;
         VariableInterpolator.errorMessage := None;
         VariableInterpolator.requireSet := false;
         VariableInterpolator.requireNonEmpty := false |}
  end.

(** A variable name: no character of an operator in it. *)
Definition variable_name (X : string) : Prop :=
  lacks ":" X = true /\ lacks "-" X = true /\ lacks "?" X = true.

End Vocabulary.


(** * Sample documents *)

Module Examples.
Import Js.

(** An engine whose [TypeError]s carry no text. *)
Definition no_text : value -> string -> string := fun _ _ => ""%string.

(** A service that lists its dependencies and extends nothing. *)
Definition compose_plain : value :=
  VObj [("services",
         VObj [("web", VObj [("depends_on", VArr [VStr "db"])]);
               ("db", VObj [])])].

(** A service that inherits a list of dependencies from its base. *)
Definition compose_extending : value :=
  VObj [("services",
         VObj [("base", VObj [("image", VStr "nginx");
                              ("depends_on", VArr [VStr "db"])]);
               ("web", VObj [("extends", VStr "base");
                             ("ports", VArr [VStr "80:80"])]);
               ("db", VObj [("image", VStr "postgres")])])].

(** [extends:] left empty in the YAML. *)
Definition compose_empty_extends : value :=
  VObj [("services",
         VObj [("app", VObj [("image", VStr "nginx"); ("extends", VNull)])])].

Definition service_with_list : obj :=
  [("depends_on", VArr [VStr "db"])].

Definition service_sample : obj :=
  [("image", VStr "nginx");
   ("environment", VObj [("A", VStr "1")]);
   ("ports", VArr [VStr "80:80"])].

(** Three services that extend one another in a ring. *)
Definition ring_services : value :=
  VObj [("a", VObj [("extends", VStr "b")]);
        ("b", VObj [("extends", VStr "c")]);
        ("c", VObj [("extends", VStr "a")])].

(** Three files that include one another in a ring, the first of them after
    an include of its own; the content of a file stands for its parsed
    document. *)
Definition ring_root : value :=
  VObj [("include", VArr [VStr "./x.yml"; VStr "./b.yml"])].

Definition ring_files : IncludeResolver.file_map :=
  [("a.yml", "A"); ("b.yml", "B"); ("c.yml", "C"); ("x.yml", "X")].

Definition ring_load (text : string) : res value :=
  if String.eqb text "A" then Ok ring_root
  else if String.eqb text "B" then Ok (VObj [("include", VArr [VStr "./c.yml"])])
  else if String.eqb text "C" then Ok (VObj [("include", VArr [VStr "./a.yml"])])
  else if String.eqb text "X" then Ok (VObj [("services", VObj [("x", VObj [])])])
  else Throw "unreadable".

(** Two sibling includes that define the same service. *)
Definition siblings_root : value :=
  VObj [("include", VArr [VStr "./d.yml"; VStr "./e.yml"])].

Definition first_sibling : value :=
  VObj [("services", VObj [("a", VObj [("image", VStr "first")])])].

Definition second_sibling : value :=
  VObj [("services", VObj [("a", VObj [("image", VStr "second")]);
                           ("b", VObj [("image", VStr "other")])])].

Definition sibling_files : IncludeResolver.file_map :=
  [("d.yml", "D"); ("e.yml", "E")].

Definition sibling_load (text : string) : res value :=
  if String.eqb text "D" then Ok first_sibling
  else if String.eqb text "E" then Ok second_sibling
  else Throw "unreadable".

(** A root document whose include names a file that is not there. *)
Definition missing_include_root : value :=
  VObj [("include", VStr "./missing.yml");
        ("services", VObj [("app", VObj [("image", VStr "nginx")])])].

Definition env_empty_value : obj := [("EMPTY", VStr "")].

Definition env_port : obj := [("PORT", VStr "3000")].

(** The text of V8's TypeError for a property read off [null] or
    [undefined]. *)
Definition read_error (v : value) (p : string) : string :=
  "Cannot read properties of " ++ to_str v ++ " (reading '" ++ p ++ "')".

(** A document that refers to a variable. *)
Definition tagged_root : value :=
  VObj [("services", VObj [("web", VObj [("image", VStr "nginx:${TAG}")])])].

(** A document with a service under a profile. *)
Definition profiled_root : value :=
  VObj [("services", VObj [("debug", VObj [("image", VStr "busybox");
                                            ("profiles", VArr [VStr "dev"])])])].

(** The options with [environment: null]. *)
Definition null_environment : ComposeParser.options :=
  {| ComposeParser.environment := None;
     ComposeParser.activeProfiles := VArr [];
     ComposeParser.basePath := "docker-compose.yml";
     ComposeParser.fileMap := [];
     ComposeParser.enableIncludes := true;
     ComposeParser.enableExtends := true;
     ComposeParser.enableVariables := true;
     ComposeParser.enableProfiles := true;
     ComposeParser.addMetadata := false |}.

(** The options with [activeProfiles: 5]. *)
Definition numeric_profiles : ComposeParser.options :=
  {| ComposeParser.environment := Some [];
     ComposeParser.activeProfiles := VNum 5;
     ComposeParser.basePath := "docker-compose.yml";
     ComposeParser.fileMap := [];
     ComposeParser.enableIncludes := true;
     ComposeParser.enableExtends := true;
     ComposeParser.enableVariables := true;
     ComposeParser.enableProfiles := true;
     ComposeParser.addMetadata := false |}.

(** An environment that holds the text of the escape placeholder. *)
Definition env_with_nul : obj :=
  [("X", VStr (String nul "ESCAPED_DOLLAR"))].

End Examples.

(** * Further functions of the utilities *)

Module PathTools.
Import Js PathResolver.

(** The [while] loop of [getRelativePath]: how many leading parts agree. *)
Fixpoint common_length (fromParts toParts : list string) : nat :=
  match fromParts, toParts with
  | f :: fs, t :: ts => if String.eqb f t then S (common_length fs ts) else O
  | _, _ => O
  end.

Definition getRelativePath (fromPath toPath : string) : string :=
  let fromDir := dirname (normalizePath fromPath) in
  let toNormalized := normalizePath toPath in
  if String.eqb fromDir "" then toNormalized
  else
    let fromParts := split "/" fromDir in
    let toParts := split "/" toNormalized in
    let commonLength := common_length fromParts toParts in
    let upLevels := (List.length fromParts - commonLength)%nat in
    let relativeParts := repeat ".." upLevels in
    let remainingParts := skipn commonLength toParts in
    let joined := join "/" (relativeParts ++ remainingParts) in
    if String.eqb joined "" then "." else joined.

End PathTools.

Module EnvTools.
Import Js.

(** [Object.assign({}, ...sources)]: the own entries of every source in
    turn, later ones overwriting; a source that is no object gives none. *)
Definition mergeEnv (sources : list value) : obj :=
  fold_left (fun target source => spread2 target (own_entries source)) sources [].

End EnvTools.

Module ParserTools.
Import Js.

Section Engine.

Variable type_error_message : value -> string -> string.
Variable yaml_load : string -> res value.

(** [parseYaml]: the document of [parseCompose] ([None] is [null]), or the
    exception raised for the first fatal diagnostic. *)
Definition parseYaml (yamlString : string) (o : ComposeParser.options)
  : option (res (option value)) :=
  match ComposeParser.parseCompose type_error_message yaml_load yamlString o with
  | None => None
  | Some result =>
      match find (fun e => String.eqb (ComposeParser.type e) "fatal")
                 (ComposeParser.errors result) with
      | Some fatalError => Some (Throw (ComposeParser.message fatalError))
      | None => Some (Ok (ComposeParser.compose result))
      end
  end.

End Engine.

End ParserTools.

Module ObjectUtils.
Import Js.

(** [deepEqual].  The first test, [a === b], is modelled on primitives; on
    two objects it compares references, and where it holds the comparison
    of the members below succeeds as well.  Numbers are integers here, so
    the [NaN] case does not arise. *)
Fixpoint deepEqual (a b : value) {struct a} : bool :=
  match a, b with
  | VUndef, VUndef => true
  | VNull, VNull => true
  | VBool x, VBool y => Bool.eqb x y
  | VNum x, VNum y => Z.eqb x y
  | VStr x, VStr y => String.eqb x y
  | VArr xs, VArr ys =>
      Nat.eqb (List.length xs) (List.length ys)
      && (fix every (l : list value) (i : nat) : bool :=
            match l with
            | [] => true
            | val :: rest => deepEqual val (nth i ys VUndef) && every rest (S i)
            end) xs O
  | VObj fa, VObj fb =>
      Nat.eqb (List.length fa) (List.length fb)
      && (fix every (l : list (string * value)) : bool :=
            match l with
            | [] => true
            | (key, val) :: rest => deepEqual val (obj_get fb key) && every rest
            end) fa
  | _, _ => false
  end.

End ObjectUtils.

Module FileMaps.
Import Js PathResolver.

(** An uploaded file, as [createFileMap] reads it. *)
Record file : Type := {
  name : string;
  webkitRelativePath : string;
  content : string
}.

(** [fileMap[key] = content]. *)
Fixpoint file_set (m : IncludeResolver.file_map) (key content : string)
  : IncludeResolver.file_map :=
  match m with
  | [] => [(key, content)]
  | (k, c) :: rest =>
      if String.eqb key k then (key, content) :: rest
      else (k, c) :: file_set rest key content
  end.

(** The [Map] of name occurrences. *)
Fixpoint count_get (fileNames : list (string * nat)) (n : string) : option nat :=
  match fileNames with
  | [] => None
  | (k, c) :: rest => if String.eqb n k then Some c else count_get rest n
  end.

Fixpoint count_set (fileNames : list (string * nat)) (n : string) (c : nat)
  : list (string * nat) :=
  match fileNames with
  | [] => [(n, c)]
  | (k, c') :: rest =>
      if String.eqb n k then (n, c) :: rest else (k, c') :: count_set rest n c
  end.

Definition collision_message (n key : string) : string :=
  "File name collision detected: " ++ dquote ++ n ++ dquote ++ ". " ++
  "Auto-prefixed as " ++ dquote ++ key ++ dquote ++ ". " ++
  "Consider uploading the entire folder instead of individual files.".

Record file_map_state : Type := {
  fileMap : IncludeResolver.file_map;
  fileNames : list (string * nat);
  collisions : list string
}.

(** One round of the loop of [createFileMap]. *)
Definition add_file (st : file_map_state) (f : file) : file_map_state :=
  if negb (String.eqb (webkitRelativePath f) "") then
    {| fileMap := file_set (fileMap st) (normalizePath (webkitRelativePath f)) (content f);
       fileNames := fileNames st; collisions := collisions st |}
  else
    match count_get (fileNames st) (name f) with
    | Some count =>
        let key := ("upload-" ++ nat_to_string count ++ "/" ++ name f)%string in
        {| fileMap := file_set (fileMap st) (normalizePath key) (content f);
           fileNames := count_set (fileNames st) (name f) (S count);
           collisions := collisions st ++ [collision_message (name f) key] |}
    | None =>
        {| fileMap := file_set (fileMap st) (normalizePath (name f)) (content f);
           fileNames := count_set (fileNames st) (name f) 1;
           collisions := collisions st |}
    end.

(** [createFileMap]: the file map and the collision warnings. *)
Definition createFileMap (files : list file) : IncludeResolver.file_map * list string :=
  let st := fold_left add_file files
              {| fileMap := []; fileNames := []; collisions := [] |} in
  (fileMap st, collisions st).

End FileMaps.

(** * Notions used by the further properties *)

Module Notions.
Import Js.

(** The stack of segments [normalizePath] is left with. *)
Definition segments_of (path : string) : list string :=
  PathResolver.normalize_segments
    (filter PathResolver.nonempty (split "/" path)) [].

(** The elements of an [extends]/[concat] value as [mergeServiceConfigs]
    appends them: [Array.isArray(value) ? value : [value]]. *)
Definition as_list (v : value) : list value :=
  match v with
  | VArr xs => xs
  | _ => [v]
  end.

(** Along [path], each service extends the next: [from] extends the first
    name of [path], which extends the second, and so on. *)
Fixpoint extends_chain (allServices : value) (from : string) (path : list string)
  : Prop :=
  match path with
  | [] => True
  | next :: rest =>
      Vocabulary.extends_to (get allServices from) next
      /\ extends_chain allServices next rest
  end.

(** No string inside [v] holds a dollar sign or the placeholder of the
    escape. *)
Fixpoint dollar_free (v : value) : bool :=
  match v with
  | VStr s =>
      Vocabulary.lacks "$" s
      && negb (includes VariableInterpolator.ESCAPED_DOLLAR_PLACEHOLDER s)
  | VArr xs =>
      (fix go (l : list value) : bool :=
         match l with
         | [] => true
         | x :: rest => dollar_free x && go rest
         end) xs
  | VObj fields =>
      (fix go (l : list (string * value)) : bool :=
         match l with
         | [] => true
         | (_, x) :: rest => dollar_free x && go rest
         end) fields
  | _ => true
  end.

(** What a finding of the comparator looks like: it involves more than
    one project entry, and its category fixes its type and severity. *)
Definition finding_class (f : Comparison.finding) : Prop :=
  (1 < List.length (Comparison.projects f))%nat
  /\ (((Comparison.category f = "port" \/ Comparison.category f = "container_name")
       /\ Comparison.type f = "conflict" /\ Comparison.severity f = "error")
      \/ (Comparison.category f = "volume"
          /\ ((Comparison.type f = "conflict" /\ Comparison.severity f = "warning")
              \/ (Comparison.type f = "shared" /\ Comparison.severity f = "info")))
      \/ ((Comparison.category f = "network" \/ Comparison.category f = "env_file"
           \/ Comparison.category f = "service_name")
          /\ Comparison.type f = "shared" /\ Comparison.severity f = "info")).

(** The projects a finding lists are names of project entries that have a
    content.  A finding drawn from a list of usages names each project of
    its usages once, and two of its usages belong to different projects. *)
Definition entry_named (entries : list Comparison.project_entry) (p : value) : Prop :=
  exists entry,
    In entry entries /\ truthy (Comparison.content entry) = true
    /\ Comparison.name entry = p.

Definition finding_projects (entries : list Comparison.project_entry)
  (f : Comparison.finding) : Prop :=
  (forall p, In p (Comparison.projects f) -> entry_named entries p)
  /\ match Comparison.details f with
     | Comparison.Usages usages =>
         NoDup (Comparison.projects f)
         /\ (forall p, In p (Comparison.projects f)
                <-> exists u, In u usages /\ Comparison.project u = p)
         /\ (exists u1 u2, In u1 usages /\ In u2 usages
                /\ Comparison.project u1 <> Comparison.project u2)
     | _ => True
     end.

(** Every project recorded in a map of the comparator is the name of one of
    the entries. *)
Definition all_named {V : Type} (proj : V -> value)
  (entries : list Comparison.project_entry) (m : Comparison.multimap V) : Prop :=
  forall k us u, In (k, us) m -> In u us -> entry_named entries (proj u).

Definition maps_named (entries : list Comparison.project_entry)
  (m : Comparison.maps) : Prop :=
  all_named Comparison.project entries (Comparison.portMap m)
  /\ all_named Comparison.project entries (Comparison.containerNameMap m)
  /\ all_named (fun p => p) entries (Comparison.serviceNameMap m)
  /\ all_named Comparison.project entries (Comparison.volumeMap m)
  /\ all_named (fun p => p) entries (Comparison.networkMap m)
  /\ all_named Comparison.project entries (Comparison.envFileMap m).

(** Options as documented: the environment is an object, and
    [activeProfiles] is a list, a string or a falsy value, in all of which
    the profile filter can look a profile up. *)
Definition searchable (activeProfiles : value) : Prop :=
  match activeProfiles with
  | VArr _ | VStr _ => True
  | other => truthy other = false
  end.

Definition documented_options (o : ComposeParser.options) : Prop :=
  ComposeParser.environment o <> None
  /\ searchable (ComposeParser.active_profiles o).

(** The rule of the profiles, as documented: a service without profiles is
    always kept, and one with profiles is kept when at least one of them is
    among the active ones. *)
Definition profile_match (actives : list value) (service : value) : bool :=
  match ProfileFilter.getServiceProfiles service with
  | [] => true
  | serviceProfiles =>
      existsb (fun profile => set_has (VStr profile) actives) serviceProfiles
  end.

(** The text of [n] times the digit one. *)
Fixpoint ones (n : nat) : string :=
  match n with
  | O => ""
  | S m => ones m ++ "1"
  end.

(** A value as JSON or YAML gives it: no [undefined] inside, and distinct
    keys in every object. *)
Fixpoint defined_everywhere (v : value) : bool :=
  match v with
  | VUndef => false
  | VArr xs =>
      (fix go (l : list value) : bool :=
         match l with
         | [] => true
         | x :: rest => defined_everywhere x && go rest
         end) xs
  | VObj fields =>
      (fix go (l : list (string * value)) : bool :=
         match l with
         | [] => true
         | (_, x) :: rest => defined_everywhere x && go rest
         end) fields
  | _ => true
  end.

End Notions.
(** * Properties *)

Import Js Vocabulary ExtendsResolver PathResolver IncludeResolver.
Import VariableInterpolator ProfileFilter.

(** ** Strings *)

Lemma startsWith_app : forall p s : string, startsWith p (p ++ s) = true.
Proof.
  induction p as [|c p IH]; intros s; simpl.
  - reflexivity.
  - rewrite Ascii.eqb_refl. apply IH.
Qed.

Lemma drop_length_app : forall p s : string,
  drop (String.length p) (p ++ s) = s.
Proof.
  induction p as [|c p IH]; intros s; simpl.
  - destruct s; reflexivity.
  - apply IH.
Qed.

Lemma append_nil_r : forall s : string, (s ++ "")%string = s.
Proof. induction s as [|c s IH]; simpl; [reflexivity | now rewrite IH]. Qed.

Lemma append_assoc : forall a b c : string,
  ((a ++ b) ++ c)%string = (a ++ (b ++ c))%string.
Proof. induction a as [|x a IH]; intros; simpl; [reflexivity | now rewrite IH]. Qed.

Lemma length_append : forall a b : string,
  String.length (a ++ b) = (String.length a + String.length b)%nat.
Proof. induction a as [|x a IH]; intros; simpl; [reflexivity | now rewrite IH]. Qed.

(** A separator whose first character does not occur in [a] is first found
    right after [a]. *)
Lemma break_at_first : forall c sep a rest,
  lacks c a = true ->
  break_at (String c sep) (a ++ String c (sep ++ rest)) = Some (a, rest).
Proof.
  intros c sep a rest. induction a as [|x a IH]; intros Ha.
  - change ("" ++ String c (sep ++ rest))%string with (String c (sep ++ rest)).
    cbn [break_at startsWith].
    rewrite Ascii.eqb_refl, startsWith_app. cbn [andb String.length drop].
    now rewrite drop_length_app.
  - simpl in Ha. apply andb_true_iff in Ha as [Hx Ha].
    change (String x a ++ String c (sep ++ rest))%string
      with (String x (a ++ String c (sep ++ rest))).
    cbn [break_at startsWith].
    apply negb_true_iff in Hx. rewrite Hx. cbn [andb].
    rewrite (IH Ha). reflexivity.
Qed.

Lemma startsWith_sound : forall p s,
  startsWith p s = true -> s = (p ++ drop (String.length p) s)%string.
Proof.
  induction p as [|c p IH]; intros s H.
  - reflexivity.
  - destruct s as [|x s]; [discriminate|].
    simpl in H. apply andb_true_iff in H as [Hc Hp].
    apply Ascii.eqb_eq in Hc. subst x. simpl. f_equal. now apply IH.
Qed.

(** [break_at] splits its argument around the separator. *)
Lemma break_at_sound : forall sep s a b,
  break_at sep s = Some (a, b) -> s = (a ++ sep ++ b)%string.
Proof.
  intros sep s. induction s as [|x s IH]; intros a b H.
  - cbn [break_at] in H. destruct (startsWith sep "") eqn:E; [|discriminate].
    inversion H; subst. now apply startsWith_sound in E.
  - cbn [break_at] in H. destruct (startsWith sep (String x s)) eqn:E.
    + inversion H; subst. now apply startsWith_sound in E.
    + destruct (break_at sep s) as [[a' b']|] eqn:E'; [|discriminate].
      inversion H; subst. simpl. f_equal. now apply IH.
Qed.

Lemma break_at_shorter : forall c sep s a b,
  break_at (String c sep) s = Some (a, b) -> (String.length b < String.length s)%nat.
Proof.
  intros c sep s a b H. apply break_at_sound in H. subst s.
  rewrite length_append. simpl. rewrite length_append. lia.
Qed.

Lemma break_at_empty : forall c sep, break_at (String c sep) "" = None.
Proof. reflexivity. Qed.

(** Text that lacks the first character of the separator is skipped. *)
Lemma break_at_skip : forall c sep a b,
  lacks c a = true ->
  break_at (String c sep) (a ++ b) =
  match break_at (String c sep) b with
  | Some (x, y) => Some ((a ++ x)%string, y)
  | None => None
  end.
Proof.
  intros c sep a b. induction a as [|x a IH]; intros Ha.
  - simpl. destruct (break_at (String c sep) b) as [[? ?]|]; reflexivity.
  - simpl in Ha. apply andb_true_iff in Ha as [Hx Ha].
    apply negb_true_iff in Hx.
    change (String x a ++ b)%string with (String x (a ++ b)).
    cbn [break_at startsWith]. rewrite Hx. cbn [andb].
    rewrite (IH Ha).
    destruct (break_at (String c sep) b) as [[? ?]|]; reflexivity.
Qed.

Lemma includes_lacks : forall c sep s,
  lacks c s = true -> includes (String c sep) s = false.
Proof.
  intros c sep s H. unfold includes.
  rewrite <- (append_nil_r s), (break_at_skip c sep s "" H). reflexivity.
Qed.

Lemma split_fuel_enough : forall c sep n m s,
  (String.length s <= n)%nat -> (String.length s <= m)%nat ->
  split_fuel n (String c sep) s = split_fuel m (String c sep) s.
Proof.
  intros c sep. induction n as [|n IH]; intros m s Hn Hm.
  - destruct s; [|simpl in Hn; lia]. destruct m; reflexivity.
  - destruct m as [|m].
    + destruct s; [|simpl in Hm; lia]. reflexivity.
    + cbn [split_fuel].
      destruct (break_at (String c sep) s) as [[a b]|] eqn:E; [|reflexivity].
      apply break_at_shorter in E. f_equal. apply IH; lia.
Qed.

(** The unfolding equation of [split]. *)
Lemma split_unfold : forall c sep s,
  split (String c sep) s =
  match break_at (String c sep) s with
  | Some (a, b) => a :: split (String c sep) b
  | None => [s]
  end.
Proof.
  intros c sep s. unfold split. destruct s as [|x s].
  - reflexivity.
  - cbn [String.length split_fuel].
    destruct (break_at (String c sep) (String x s)) as [[a b]|] eqn:E; [|reflexivity].
    apply break_at_shorter in E. simpl in E. f_equal.
    apply split_fuel_enough; lia.
Qed.

Lemma split_absent : forall c sep s,
  includes (String c sep) s = false -> split (String c sep) s = [s].
Proof.
  intros c sep s H. rewrite split_unfold. unfold includes in H.
  destruct (break_at (String c sep) s) as [[? ?]|]; [discriminate | reflexivity].
Qed.

Lemma replace_fuel_enough : forall c pat rep n m s,
  (String.length s <= n)%nat -> (String.length s <= m)%nat ->
  replace_fuel n (String c pat) rep s = replace_fuel m (String c pat) rep s.
Proof.
  intros c pat rep. induction n as [|n IH]; intros m s Hn Hm.
  - destruct s; [|simpl in Hn; lia]. destruct m; reflexivity.
  - destruct m as [|m].
    + destruct s; [|simpl in Hm; lia]. reflexivity.
    + cbn [replace_fuel].
      destruct (break_at (String c pat) s) as [[a b]|] eqn:E; [|reflexivity].
      apply break_at_shorter in E. do 2 f_equal. apply IH; lia.
Qed.

(** The unfolding equation of [replace_all]. *)
Lemma replace_all_unfold : forall c pat rep s,
  replace_all (String c pat) rep s =
  match break_at (String c pat) s with
  | Some (a, b) => (a ++ rep ++ replace_all (String c pat) rep b)%string
  | None => s
  end.
Proof.
  intros c pat rep s. unfold replace_all. destruct s as [|x s].
  - reflexivity.
  - cbn [String.length replace_fuel].
    destruct (break_at (String c pat) (String x s)) as [[a b]|] eqn:E; [|reflexivity].
    apply break_at_shorter in E. simpl in E. do 2 f_equal.
    apply replace_fuel_enough; lia.
Qed.

Lemma lacks_app : forall c a b,
  lacks c (a ++ b) = lacks c a && lacks c b.
Proof.
  intros c a b. induction a as [|x a IH]; simpl; [reflexivity|].
  rewrite IH. now rewrite andb_assoc.
Qed.

(** ** Values and objects *)

(** Induction on values that reaches the elements of arrays and the fields
    of objects. *)
Lemma value_induction (P : value -> Prop) :
  P VUndef -> P VNull -> (forall b, P (VBool b)) -> (forall n, P (VNum n)) ->
  (forall s, P (VStr s)) ->
  (forall xs, Forall P xs -> P (VArr xs)) ->
  (forall fields, Forall (fun kv => P (snd kv)) fields -> P (VObj fields)) ->
  forall v, P v.
Proof.
  intros HU HN HB HZ HS HA HO.
  fix rec 1. intros [| |b|n|s|xs|fields].
  - exact HU.
  - exact HN.
  - apply HB.
  - apply HZ.
  - apply HS.
  - apply HA. induction xs as [|x xs IH]; constructor; [apply rec | exact IH].
  - apply HO. induction fields as [|[k x] fields IH]; constructor;
      [apply rec | exact IH].
Qed.

Lemma value_eqb_refl : forall v, value_eqb v v = true.
Proof.
  induction v as [| |b|n|s|xs IH|fields IH] using value_induction; simpl;
    try reflexivity.
  - apply Bool.eqb_reflx.
  - apply Z.eqb_refl.
  - apply String.eqb_refl.
  - induction IH as [|x xs Hx _ IHxs]; [reflexivity|]. now rewrite Hx, IHxs.
  - induction IH as [|[k x] fields Hx _ IHf]; [reflexivity|].
    simpl in Hx. now rewrite String.eqb_refl, Hx, IHf.
Qed.

Lemma value_eqb_eq : forall a b, value_eqb a b = true -> a = b.
Proof.
  induction a as [| |x|n|s|xs IH|fields IH] using value_induction;
    intros [| |y|m|t|ys|gs] H; simpl in H; try discriminate; try reflexivity.
  - apply Bool.eqb_prop in H. now subst.
  - apply Z.eqb_eq in H. now subst.
  - apply String.eqb_eq in H. now subst.
  - f_equal. revert ys H.
    induction IH as [|x xs Hx _ IHxs]; intros [|y ys] H; try discriminate;
      [reflexivity|].
    apply andb_true_iff in H as [H1 H2]. f_equal; [now apply Hx | now apply IHxs].
  - f_equal. revert gs H.
    induction IH as [|[k x] fields Hx _ IHf]; intros [|[k' y] gs] H;
      try discriminate; [reflexivity|].
    apply andb_true_iff in H as [H12 H3]. apply andb_true_iff in H12 as [H1 H2].
    apply String.eqb_eq in H1. simpl in Hx. apply Hx in H2. subst.
    f_equal. now apply IHf.
Qed.

Lemma value_eqb_neq : forall a b, a <> b -> value_eqb a b = false.
Proof.
  intros a b H. destruct (value_eqb a b) eqn:E; [|reflexivity].
  now apply value_eqb_eq in E.
Qed.

Lemma set_has_In : forall x s, set_has x s = true <-> In x s.
Proof.
  intros x s. induction s as [|y s IH]; simpl.
  - split; [discriminate | contradiction].
  - destruct (value_eqb x y) eqn:E.
    + apply value_eqb_eq in E. subst. split; auto.
    + rewrite IH. split; [auto|]. intros [->|H]; [|exact H].
      now rewrite value_eqb_refl in E.
Qed.

Lemma string_mem_In : forall x l, string_mem x l = true <-> In x l.
Proof.
  intros x l. induction l as [|y l IH]; simpl.
  - split; [discriminate | contradiction].
  - destruct (String.eqb_spec x y) as [->|Hne].
    + split; auto.
    + rewrite IH. split; [auto|]. intros [E|H]; [congruence | exact H].
Qed.

Lemma lookup_set_same : forall o k v, lookup k (obj_set o k v) = Some v.
Proof.
  induction o as [|[k' v'] o IH]; intros k v; simpl.
  - now rewrite String.eqb_refl.
  - destruct (String.eqb k k') eqn:E; simpl.
    + now rewrite String.eqb_refl.
    + rewrite E. apply IH.
Qed.

Lemma lookup_set_other : forall o k k' v,
  k <> k' -> lookup k' (obj_set o k v) = lookup k' o.
Proof.
  induction o as [|[k0 v0] o IH]; intros k k' v Hne; simpl.
  - destruct (String.eqb_spec k' k); [congruence | reflexivity].
  - destruct (String.eqb_spec k k0) as [->|Hk]; simpl.
    + destruct (String.eqb_spec k' k0); [congruence | reflexivity].
    + destruct (String.eqb k' k0); [reflexivity | now apply IH].
Qed.

Lemma obj_get_set_same : forall o k v, obj_get (obj_set o k v) k = v.
Proof. intros. unfold obj_get. now rewrite lookup_set_same. Qed.

Lemma obj_get_set_other : forall o k k' v,
  k <> k' -> obj_get (obj_set o k v) k' = obj_get o k'.
Proof. intros. unfold obj_get. now rewrite lookup_set_other. Qed.

Lemma has_key_set_other : forall o k k' v,
  k <> k' -> has_key (obj_set o k v) k' = has_key o k'.
Proof. intros. unfold has_key. now rewrite lookup_set_other. Qed.

(** Writing back the value a key already holds changes nothing. *)
Lemma obj_set_same_value : forall o k v, lookup k o = Some v -> obj_set o k v = o.
Proof.
  induction o as [|[k' v'] o IH]; intros k v H; simpl in *.
  - discriminate.
  - destruct (String.eqb_spec k k') as [->|Hne].
    + now inversion H.
    + f_equal. now apply IH.
Qed.

Lemma lookup_In : forall o k v, lookup k o = Some v -> In (k, v) o.
Proof.
  induction o as [|[k' v'] o IH]; intros k v H; simpl in *.
  - discriminate.
  - destruct (String.eqb_spec k k') as [->|Hne].
    + inversion H. now left.
    + right. now apply IH.
Qed.

Lemma lookup_None_keys : forall o k, lookup k o = None <-> ~ In k (map fst o).
Proof.
  induction o as [|[k' v'] o IH]; intros k; simpl.
  - tauto.
  - destruct (String.eqb_spec k k') as [->|Hne].
    + split; [discriminate | tauto].
    + rewrite IH. split; [intros H [E|H']; [congruence | tauto] | tauto].
Qed.

Lemma distinct_keys_NoDup : forall keys, distinct_keys keys = true <-> NoDup keys.
Proof.
  induction keys as [|k keys IH]; simpl.
  - split; [constructor | reflexivity].
  - rewrite andb_true_iff, negb_true_iff, IH. split.
    + intros [H1 H2]. constructor; [|exact H2].
      intros Hin. apply string_mem_In in Hin. congruence.
    + intros H. inversion H; subst. split; [|assumption].
      destruct (string_mem k keys) eqn:E; [|reflexivity].
      apply string_mem_In in E. contradiction.
Qed.

(** With distinct keys, every listed entry is the one [lookup] finds. *)
Lemma In_lookup : forall o k v,
  NoDup (map fst o) -> In (k, v) o -> lookup k o = Some v.
Proof.
  induction o as [|[k' v'] o IH]; intros k v Hnd Hin; simpl in *.
  - contradiction.
  - inversion Hnd as [|? ? Hnotin Hnd']; subst.
    destruct Hin as [E|Hin].
    + inversion E; subst. now rewrite String.eqb_refl.
    + destruct (String.eqb_spec k k') as [->|Hne]; [|now apply IH].
      exfalso. apply Hnotin. now apply (in_map fst) in Hin.
Qed.

Lemma keys_obj_set : forall o k v,
  map fst (obj_set o k v) = if has_key o k then map fst o else map fst o ++ [k].
Proof.
  induction o as [|[k' v'] o IH]; intros k v; unfold has_key; simpl.
  - reflexivity.
  - destruct (String.eqb_spec k k') as [->|Hne]; simpl.
    + reflexivity.
    + rewrite IH. unfold has_key. destruct (lookup k o); reflexivity.
Qed.

Lemma NoDup_obj_set : forall o k v,
  NoDup (map fst o) -> NoDup (map fst (obj_set o k v)).
Proof.
  intros o k v H. rewrite keys_obj_set. unfold has_key.
  destruct (lookup k o) eqn:E; [exact H|].
  apply lookup_None_keys in E.
  apply NoDup_rev in H. rewrite <- (rev_involutive (map fst o ++ [k])).
  apply NoDup_rev. rewrite rev_app_distr. simpl. constructor; [|exact H].
  now rewrite <- in_rev.
Qed.

Lemma keys_obj_delete : forall o k x,
  In x (map fst (obj_delete o k)) <-> In x (map fst o) /\ x <> k.
Proof.
  induction o as [|[k' v'] o IH]; intros k x; simpl.
  - tauto.
  - destruct (String.eqb_spec k k') as [->|Hne]; simpl; rewrite IH.
    + split; [tauto|]. intros [[E|H] Hx]; [congruence | tauto].
    + split; [|tauto]. intros [E|[H Hx]]; [subst; split; [auto | congruence] | tauto].
Qed.

Lemma NoDup_obj_delete : forall o k,
  NoDup (map fst o) -> NoDup (map fst (obj_delete o k)).
Proof.
  induction o as [|[k' v'] o IH]; intros k H; simpl.
  - constructor.
  - inversion H; subst.
    destruct (String.eqb k k'); [now apply IH|].
    simpl. constructor; [|now apply IH].
    rewrite keys_obj_delete. tauto.
Qed.

Lemma lookup_delete_same : forall o k, lookup k (obj_delete o k) = None.
Proof.
  intros o k. apply lookup_None_keys. rewrite keys_obj_delete. tauto.
Qed.

Lemma lookup_delete_other : forall o k k',
  k <> k' -> lookup k' (obj_delete o k) = lookup k' o.
Proof.
  induction o as [|[k0 v0] o IH]; intros k k' Hne; simpl.
  - reflexivity.
  - destruct (String.eqb_spec k k0) as [->|Hk]; simpl.
    + destruct (String.eqb_spec k' k0); [congruence | now apply IH].
    + destruct (String.eqb k' k0); [reflexivity | now apply IH].
Qed.

Lemma In_obj_delete : forall o k kv, In kv (obj_delete o k) -> In kv o.
Proof.
  induction o as [|[k0 v0] o IH]; intros k kv H; simpl in *.
  - contradiction.
  - destruct (String.eqb k k0); [right; now apply (IH k)|].
    destruct H as [H|H]; [now left | right; now apply (IH k)].
Qed.

(** A value written by [obj_set] is the new one or was there before. *)
Lemma In_obj_set : forall o k v kv,
  In kv (obj_set o k v) -> kv = (k, v) \/ In kv o.
Proof.
  induction o as [|[k0 v0] o IH]; intros k v kv H; simpl in *.
  - destruct H as [H|[]]. now left.
  - destruct (String.eqb k k0); simpl in H.
    + destruct H as [H|H]; [now left | right; now right].
    + destruct H as [H|H]; [right; now left|].
      apply IH in H as [H|H]; [now left | right; now right].
Qed.

(** Reading a property other than [length] is reading an own entry. *)
Lemma get_own_entries : forall v k,
  k <> "length" -> get v k = obj_get (own_entries v) k.
Proof.
  intros v k Hne. destruct v; simpl; try reflexivity;
    destruct (String.eqb_spec k "length"); congruence.
Qed.

Lemma truthy_get_not_nullish : forall v k, truthy (get v k) = true -> nullish v = false.
Proof. intros [] k H; simpl in *; try reflexivity; discriminate. Qed.

(** What a property read can return: nothing, a length, or an own entry. *)
Lemma get_cases : forall v k,
  get v k = VUndef \/ (exists n, get v k = VNum n) \/ In (k, get v k) (own_entries v).
Proof.
  intros v k. destruct v as [| |b|n|s|xs|fields]; simpl; auto.
  - destruct (String.eqb k "length"); [right; left; eauto|].
    unfold obj_get.
    destruct (lookup k (indexed_from 0 (map VStr (chars s)))) eqn:E; [|now left].
    right; right. now apply lookup_In.
  - destruct (String.eqb k "length"); [right; left; eauto|].
    unfold obj_get. destruct (lookup k (indexed_from 0 xs)) eqn:E; [|now left].
    right; right. now apply lookup_In.
  - unfold obj_get. destruct (lookup k fields) eqn:E; [|now left].
    right; right. now apply lookup_In.
Qed.

Lemma unique_keys_obj : forall fields,
  unique_keys (VObj fields) = true ->
  NoDup (map fst fields) /\ forall k v, In (k, v) fields -> unique_keys v = true.
Proof.
  intros fields H. simpl in H. apply andb_true_iff in H as [H1 H2].
  split; [now apply distinct_keys_NoDup|].
  clear H1. induction fields as [|[k0 v0] fields IH]; intros k v Hin.
  - contradiction.
  - apply andb_true_iff in H2 as [Hv Hrest].
    destruct Hin as [E|Hin]; [inversion E; now subst | now apply (IH Hrest k)].
Qed.

Lemma unique_keys_arr : forall xs,
  unique_keys (VArr xs) = true -> forall x, In x xs -> unique_keys x = true.
Proof.
  induction xs as [|x0 xs IH]; intros H x Hin.
  - contradiction.
  - simpl in H. apply andb_true_iff in H as [Hx Hrest].
    destruct Hin as [->|Hin]; [exact Hx | now apply IH].
Qed.

(** ** Inherited members *)

Lemma builtin_truthy : truthy builtin = true.
Proof. reflexivity. Qed.

Lemma builtin_get : forall k, get builtin k = VUndef.
Proof. reflexivity. Qed.

Lemma builtin_entries : own_entries builtin = [].
Proof. reflexivity. Qed.

(** A property that reads as a truthy value is an own property. *)
Lemma truthy_get_own : forall v k,
  truthy (get v k) = true -> own_property v k = true.
Proof.
  intros [| |b|n|s|xs|fields] k H; simpl in *; try discriminate.
  - destruct (String.eqb k "length"); [reflexivity|]. simpl.
    unfold obj_get, has_key in *.
    destruct (lookup k (indexed_from 0 (map VStr (chars s)))); [reflexivity|discriminate].
  - destruct (String.eqb k "length"); [reflexivity|]. simpl.
    unfold obj_get, has_key in *.
    destruct (lookup k (indexed_from 0 xs)); [reflexivity|discriminate].
  - unfold obj_get, has_key in *. destruct (lookup k fields); [reflexivity|discriminate].
Qed.

Lemma member_own : forall v k, own_property v k = true -> member v k = get v k.
Proof. intros v k H. unfold member. now rewrite H. Qed.

Lemma member_truthy_get : forall v k,
  truthy (get v k) = true -> member v k = get v k.
Proof. intros v k H. apply member_own. now apply truthy_get_own. Qed.

(** What a read through the prototype returns: what the own lookup gives,
    or an inherited member. *)
Lemma member_cases : forall v k, member v k = get v k \/ member v k = builtin.
Proof.
  intros v k. unfold member. destruct (own_property v k) eqn:Eo; [now left|].
  destruct (inherits v k); [now right|]. left.
  destruct v as [| |b|n|s|xs|fields]; simpl in *; try reflexivity.
  - apply orb_false_iff in Eo as [-> Eo]. unfold obj_get, has_key in *.
    destruct (lookup k (indexed_from 0 (map VStr (chars s)))); [discriminate|reflexivity].
  - apply orb_false_iff in Eo as [-> Eo]. unfold obj_get, has_key in *.
    destruct (lookup k (indexed_from 0 xs)); [discriminate|reflexivity].
  - unfold obj_get, has_key in *. destruct (lookup k fields); [discriminate|reflexivity].
Qed.

(** On an object, a name that is neither owned nor inherited is not found. *)
Lemma member_absent : forall fields k,
  lookup k fields = None -> inherited k = false -> member (VObj fields) k = VUndef.
Proof.
  intros fields k Hl Hi. unfold member. simpl. unfold has_key. now rewrite Hl, Hi.
Qed.

(** ** The conflict comparator *)

Lemma append_not_empty : forall a c b, String.eqb (a ++ String c b) "" = false.
Proof. intros [|x a] c b; reflexivity. Qed.

Lemma split_two : forall c a b,
  lacks c a = true -> lacks c b = true ->
  split (String c "") (a ++ String c b) = [a; b].
Proof.
  intros c a b Ha Hb. rewrite split_unfold.
  change (String c b) with (String c ("" ++ b)).
  rewrite (break_at_first c "" a b Ha).
  f_equal. apply split_absent. now apply includes_lacks.
Qed.

(** C2 (the code at the claim's input): the extractor of
    src/utils/comparison.js splits "[::1]:8080:80" at every colon, finds five
    parts and returns no key at all, where the claim (and the repository's
    tests) expect the key "[::1]:8080"; no bracket-stripped or bare address is
    produced for that input.  The revision of the file with the bracket branch
    returns the expected key. *)
Theorem extractHostPort_bracketed_ipv6 :
  Comparison.extractHostPort (VStr "[::1]:8080:80") = None
  /\ Comparison.extractHostPort (VStr "[::1]:8080") = None
  /\ ComparisonRevised.extractHostPort (VStr "[::1]:8080:80") = Some "[::1]:8080"
  /\ ComparisonRevised.extractHostPort (VStr "[::1]:8080") = Some "[::1]:8080".
Proof. repeat split; reflexivity. Qed.

Lemma extractHostPort_implicit_address : forall hostPort containerPort,
  lacks ":" hostPort = true -> lacks ":" containerPort = true ->
  Comparison.extractHostPort (VStr (hostPort ++ ":" ++ containerPort)) =
  Some ("0.0.0.0:" ++ hd "" (split "/" hostPort))%string.
Proof.
  intros h c Hh Hc. unfold Comparison.extractHostPort.
  change (h ++ ":" ++ c)%string with (h ++ String ":" c)%string.
  rewrite append_not_empty, (split_two ":" h c Hh Hc). reflexivity.
Qed.

Lemma split_three : forall c a b d,
  lacks c a = true -> lacks c b = true -> lacks c d = true ->
  split (String c "") (a ++ String c (b ++ String c d)) = [a; b; d].
Proof.
  intros c a b d Ha Hb Hd. rewrite split_unfold.
  change (String c (b ++ String c d)) with (String c ("" ++ (b ++ String c d))).
  rewrite (break_at_first c "" a _ Ha). f_equal. now apply split_two.
Qed.

Lemma extractHostPort_explicit_address : forall ip hostPort containerPort,
  lacks ":" ip = true -> lacks ":" hostPort = true ->
  lacks ":" containerPort = true ->
  Comparison.extractHostPort (VStr (ip ++ ":" ++ hostPort ++ ":" ++ containerPort)) =
  Some (ip ++ ":" ++ hd "" (split "/" hostPort))%string.
Proof.
  intros ip h c Hi Hh Hc. unfold Comparison.extractHostPort.
  change (ip ++ ":" ++ h ++ ":" ++ c)%string
    with (ip ++ String ":" (h ++ String ":" c))%string.
  rewrite append_not_empty, (split_three ":" ip h c Hi Hh Hc). reflexivity.
Qed.

(** *** The projects of a usage list: a [Set] of the project names *)

Lemma set_add_In : forall s x y, In y (set_add s x) <-> In y s \/ y = x.
Proof.
  intros s x y. unfold set_add. destruct (set_has x s) eqn:E.
  - apply set_has_In in E. split; [now left | intros [H| ->]; assumption].
  - rewrite in_app_iff. cbn [In]. split.
    + intros [H|[<-|[]]]; [now left | now right].
    + intros [H| ->]; [now left | right; now left].
Qed.

Lemma set_add_NoDup : forall s x, NoDup s -> NoDup (set_add s x).
Proof.
  intros s x H. unfold set_add. destruct (set_has x s) eqn:E; [exact H|].
  assert (Hx : ~ In x s)
    by (intros Hin; apply set_has_In in Hin; congruence).
  clear E. induction H as [|y s Hy Hs IH]; cbn [app].
  - constructor; [intros [] | constructor].
  - constructor.
    + rewrite in_app_iff. intros [Hin|[<-|[]]]; [now apply Hy|].
      apply Hx. now left.
    + apply IH. intros Hin. apply Hx. now right.
Qed.

Lemma fold_set_add_In : forall xs s y,
  In y (fold_left set_add xs s) <-> In y s \/ In y xs.
Proof.
  induction xs as [|x xs IH]; intros s y; cbn [fold_left In].
  - tauto.
  - rewrite IH, set_add_In. split.
    + intros [[H| ->]|H]; [now left | right; now left | right; now right].
    + intros [H|[<-|H]]; [left; now left | left; now right | now right].
Qed.

Lemma fold_set_add_NoDup : forall xs s,
  NoDup s -> NoDup (fold_left set_add xs s).
Proof.
  induction xs as [|x xs IH]; intros s H; cbn [fold_left]; [exact H|].
  apply IH. now apply set_add_NoDup.
Qed.

(** [projectsInvolved] names each project of the usages, once. *)
Lemma projects_involved_NoDup : forall usages,
  NoDup (Comparison.projects_involved usages).
Proof. intros usages. apply fold_set_add_NoDup. constructor. Qed.

Lemma projects_involved_In : forall usages p,
  In p (Comparison.projects_involved usages)
  <-> exists u, In u usages /\ Comparison.project u = p.
Proof.
  intros usages p. unfold Comparison.projects_involved.
  rewrite fold_set_add_In, in_map_iff. cbn [In]. split.
  - intros [[]|[u [Hu Hin]]]. eauto.
  - intros [u [Hin Hu]]. right. eauto.
Qed.

(** More than one name in [projectsInvolved]: two usages of different
    projects. *)
Lemma projects_involved_span : forall usages,
  (1 < List.length (Comparison.projects_involved usages))%nat ->
  exists u1 u2, In u1 usages /\ In u2 usages
                /\ Comparison.project u1 <> Comparison.project u2.
Proof.
  intros usages H.
  pose proof (projects_involved_NoDup usages) as Hnd.
  pose proof (projects_involved_In usages) as Hin.
  destruct (Comparison.projects_involved usages) as [|p [|q rest]];
    cbn [List.length] in H; try lia.
  destruct (proj1 (Hin p) (or_introl eq_refl)) as [u1 [H1 E1]].
  destruct (proj1 (Hin q) (or_intror (or_introl eq_refl))) as [u2 [H2 E2]].
  exists u1, u2. split; [exact H1|]. split; [exact H2|].
  rewrite E1, E2. intros ->. inversion Hnd as [|? ? Hp _]. apply Hp. now left.
Qed.

(** Conversely, usages of one project give one name. *)
Lemma projects_involved_single : forall usages p,
  (forall u, In u usages -> Comparison.project u = p) ->
  (List.length (Comparison.projects_involved usages) <= 1)%nat.
Proof.
  intros usages p H.
  pose proof (projects_involved_NoDup usages) as Hnd.
  assert (Hall : forall q, In q (Comparison.projects_involved usages) -> q = p).
  { intros q Hq. apply projects_involved_In in Hq as [u [Hu <-]]. now apply H. }
  destruct (Comparison.projects_involved usages) as [|a [|b rest]];
    cbn [List.length]; try lia.
  exfalso. inversion Hnd as [|? ? Ha _]. apply Ha.
  rewrite (Hall a (or_introl eq_refl)), (Hall b (or_intror (or_introl eq_refl))).
  now left.
Qed.

Section PortMap.

Variable extract : value -> option string.

Lemma In_push : forall (V : Type) (m : Comparison.multimap V) k0 (x : V) k us,
  In (k, us) (Comparison.push m k0 x) ->
  In (k, us) m
  \/ (k = k0 /\ us = [x])
  \/ (exists us0, In (k, us0) m /\ k = k0 /\ us = us0 ++ [x]).
Proof.
  intros V. induction m as [|[k' xs] m IH]; intros k0 x k us H; simpl in H.
  - destruct H as [H|[]]. inversion H; subst. right; left. now split.
  - destruct (value_eqb k0 k') eqn:E.
    + apply value_eqb_eq in E. subst k'.
      destruct H as [H|H].
      * inversion H; subst. right; right. exists xs. repeat split. now left.
      * left. now right.
    + destruct H as [H|H].
      * left. now left.
      * apply IH in H as [H|[H|[us0 [H1 H2]]]].
        -- left. now right.
        -- right. now left.
        -- right; right. exists us0. split; [now right | exact H2].
Qed.

Lemma keyed_push : forall m key u port,
  keyed_by_binding extract m ->
  Comparison.mapping u = Some port -> extract port = Some key ->
  keyed_by_binding extract (Comparison.push m (VStr key) u).
Proof.
  intros m key u port Hm Hu Hp k us Hin.
  apply In_push in Hin as [Hin|[[-> ->]|[us0 [Hin [-> ->]]]]].
  - now apply Hm.
  - exists key. split; [reflexivity|]. intros u' [<-|[]]. eauto.
  - destruct (Hm _ _ Hin) as [key' [Hk Hus]]. inversion Hk; subst key'.
    exists key. split; [reflexivity|]. intros u' Hu'.
    apply in_app_or in Hu' as [Hu'|[<-|[]]]; [now apply Hus | eauto].
Qed.

Lemma keyed_collect_ports : forall projectName serviceName ports m,
  keyed_by_binding extract m ->
  keyed_by_binding extract
    (Comparison.collect_ports extract projectName serviceName ports m).
Proof.
  intros projectName serviceName ports. unfold Comparison.collect_ports.
  induction ports as [|port ports IH]; intros m Hm; simpl; [exact Hm|].
  apply IH. destruct (extract port) as [hostPort|] eqn:E; [|exact Hm].
  destruct (String.eqb hostPort ""); [exact Hm|].
  now apply keyed_push with (port := port).
Qed.

Variable type_error_message : value -> string -> string.

Lemma keyed_collect_services : forall projectName entries m m',
  Comparison.collect_services extract type_error_message projectName entries m = Ok m' ->
  keyed_by_binding extract (Comparison.portMap m) ->
  keyed_by_binding extract (Comparison.portMap m').
Proof.
  intros projectName. induction entries as [|[serviceName svc] entries IH];
    intros m m' H Hm; simpl in H.
  - now inversion H; subst.
  - unfold Comparison.collect_service in H.
    destruct (get_prop type_error_message svc "container_name"); simpl in H;
      [|discriminate].
    apply IH in H; [exact H|]. simpl. now apply keyed_collect_ports.
Qed.

Lemma keyed_collect : forall projects m m',
  Comparison.collect extract type_error_message projects m = Ok m' ->
  keyed_by_binding extract (Comparison.portMap m) ->
  keyed_by_binding extract (Comparison.portMap m').
Proof.
  induction projects as [|p projects IH]; intros m m' H Hm; simpl in H.
  - now inversion H; subst.
  - destruct (negb (truthy (Comparison.content p))); [now apply (IH m)|].
    destruct (Comparison.collect_services extract type_error_message
                (Comparison.name p) _ m) as [m1|] eqn:E; simpl in H; [|discriminate].
    apply IH in H; [exact H|]. simpl.
    now apply keyed_collect_services in E.
Qed.

Lemma filter_flat_map_none : forall (A B : Type) (p : B -> bool) (f : A -> list B) l,
  (forall x y, In y (f x) -> p y = false) -> filter p (flat_map f l) = [].
Proof.
  intros A B p f l H. induction l as [|x l IH]; simpl; [reflexivity|].
  rewrite filter_app, IH, app_nil_r.
  assert (Hx : forall y, In y (f x) -> p y = false) by (intros; eauto).
  induction (f x) as [|y ys IHy]; simpl; [reflexivity|].
  rewrite (Hx y (or_introl eq_refl)). apply IHy. intros; apply Hx. now right.
Qed.

Lemma filter_flat_map_all : forall (A B : Type) (p : B -> bool) (f : A -> list B) l,
  (forall x y, In y (f x) -> p y = true) -> filter p (flat_map f l) = flat_map f l.
Proof.
  intros A B p f l H. induction l as [|x l IH]; simpl; [reflexivity|].
  rewrite filter_app, IH. f_equal.
  assert (Hx : forall y, In y (f x) -> p y = true) by (intros; eauto).
  induction (f x) as [|y ys IHy]; simpl; [reflexivity|].
  rewrite (Hx y (or_introl eq_refl)). f_equal. apply IHy. intros; apply Hx. now right.
Qed.

(** The port findings of a report are those of its port map. *)
Lemma port_conflicts_report : forall m,
  Comparison.port_conflicts (Comparison.report m) =
  Comparison.port_findings (Comparison.portMap m).
Proof.
  intros m. unfold Comparison.port_conflicts, Comparison.report.
  unfold Comparison.port_findings, Comparison.container_name_findings,
    Comparison.volume_findings, Comparison.network_findings,
    Comparison.env_file_findings, Comparison.service_name_findings.
  repeat rewrite filter_app.
  rewrite filter_flat_map_all.
  2:{ intros [k us] y. destruct (Comparison.spans_projects us); [|intros []].
      intros [<-|[]]. reflexivity. }
  repeat (rewrite filter_flat_map_none;
          [|intros [k us] y;
            repeat match goal with
                   | |- context [if ?b then _ else _] => destruct b
                   end;
            (intros [<-|[]] || intros []); reflexivity]).
  now rewrite !app_nil_r.
Qed.

Lemma keyed_compare : forall projects results,
  Comparison.compare_with extract type_error_message projects = Ok results ->
  exists m, keyed_by_binding extract m
            /\ Comparison.port_conflicts results = Comparison.port_findings m.
Proof.
  intros projects results H. unfold Comparison.compare_with in H.
  destruct (List.length projects <? 2)%nat.
  - inversion H; subst. exists []. split; [intros ? ? []|reflexivity].
  - destruct (Comparison.collect extract type_error_message projects
                Comparison.empty_maps) as [m|] eqn:E; simpl in H; [|discriminate].
    inversion H; subst. exists (Comparison.portMap m). split.
    + apply (keyed_collect _ _ _ E). intros ? ? [].
    + apply port_conflicts_report.
Qed.

End PortMap.

Lemma two_members : forall (A : Type) (l : list A) a b,
  In a l -> In b l -> a <> b -> (1 < List.length l)%nat.
Proof.
  intros A [|x [|y l]] a b Ha Hb Hne; cbn [List.length]; try lia.
  - contradiction.
  - destruct Ha as [<-|[]], Hb as [<-|[]]. congruence.
Qed.

(** Usages of two different projects are reported. *)
Lemma spans_two_projects : forall usages u1 u2,
  In u1 usages -> In u2 usages ->
  Comparison.project u1 <> Comparison.project u2 ->
  Comparison.spans_projects usages = true.
Proof.
  intros usages u1 u2 H1 H2 Hne. unfold Comparison.spans_projects.
  apply andb_true_iff. split; apply Nat.ltb_lt.
  - apply (two_members _ usages u1 u2 H1 H2). congruence.
  - apply (two_members _ _ (Comparison.project u1) (Comparison.project u2));
      [apply projects_involved_In; eauto | apply projects_involved_In; eauto | exact Hne].
Qed.


(** ** Merging service configurations *)

Lemma merge_entries_fixed : forall (merge : value -> value -> value) entries result,
  (forall k x, In (k, x) entries ->
     lookup k result = Some x /\ (plain_object x = true -> merge x x = x)) ->
  merge_entries merge entries result = result.
Proof.
  intros merge. induction entries as [|[k x] entries IH]; intros result H; simpl.
  - reflexivity.
  - destruct (H k x (or_introl eq_refl)) as [Hk Hx].
    assert (E : (if plain_object x then merge (obj_get result k) x else x) = x).
    { destruct (plain_object x) eqn:Ep; [|reflexivity].
      unfold obj_get. rewrite Hk. now apply Hx. }
    rewrite E, (obj_set_same_value _ _ _ Hk).
    apply IH. intros k' x' Hin. apply H. now right.
Qed.

(** Deep-merging a mapping into itself gives the mapping back. *)
Lemma deepMerge_idempotent : forall v,
  unique_keys v = true -> plain_object v = true -> deepMerge v v = v.
Proof.
  induction v as [| |b|n|s|xs IH|fields IH] using value_induction;
    intros Hu Hp; try discriminate.
  cbn [deepMerge not_object truthy typeof_object negb orb own_entries]. f_equal.
  destruct (unique_keys_obj _ Hu) as [Hnd Hsub].
  apply merge_entries_fixed. intros k x Hin. split.
  - now apply In_lookup.
  - intros Hx. rewrite Forall_forall in IH.
    apply (IH (k, x) Hin); [now apply (Hsub k) | exact Hx].
Qed.

Section Merge.

Variable type_error_message : value -> string -> string.

Lemma merge_field_other : forall result key v result' k,
  merge_field type_error_message result key v = Ok result' ->
  k <> key -> lookup k result' = lookup k result.
Proof.
  intros result key v result' k H Hne. unfold merge_field in H.
  destruct (strategy_of key).
  - destruct (spread_iterable type_error_message _); simpl in H; [|discriminate].
    inversion H; subst. apply lookup_set_other. congruence.
  - inversion H; subst. apply lookup_set_other. congruence.
  - inversion H; subst. apply lookup_set_other. congruence.
  - now inversion H.
Qed.

Lemma merge_field_NoDup : forall result key v result',
  merge_field type_error_message result key v = Ok result' ->
  NoDup (map fst result) -> NoDup (map fst result').
Proof.
  intros result key v result' H Hnd. unfold merge_field in H.
  destruct (strategy_of key).
  - destruct (spread_iterable type_error_message _); simpl in H; [|discriminate].
    inversion H; subst. now apply NoDup_obj_set.
  - inversion H; subst. now apply NoDup_obj_set.
  - inversion H; subst. now apply NoDup_obj_set.
  - now inversion H; subst.
Qed.

Lemma merge_field_override : forall result key v result',
  strategy_of key = Override ->
  merge_field type_error_message result key v = Ok result' ->
  obj_get result' key = v.
Proof.
  intros result key v result' Hs H. unfold merge_field in H. rewrite Hs in H.
  assert (E : result' = obj_set result key v) by congruence.
  subst. apply obj_get_set_same.
Qed.

Lemma merge_field_merge : forall result key v result',
  strategy_of key = Merge ->
  merge_field type_error_message result key v = Ok result' ->
  obj_get result' key = deepMerge (or_else (obj_get result key) (VObj [])) v.
Proof.
  intros result key v result' Hs H. unfold merge_field in H. rewrite Hs in H.
  assert (E : result' = obj_set result key
                          (deepMerge (or_else (obj_get result key) (VObj [])) v))
    by congruence.
  subst. apply obj_get_set_same.
Qed.

Lemma merge_field_concat : forall result key v result' old,
  strategy_of key = Concat ->
  obj_get result key = VArr old ->
  merge_field type_error_message result key v = Ok result' ->
  obj_get result' key = VArr (old ++ match v with VArr xs => xs | _ => [v] end).
Proof.
  intros result key v result' old Hs Hold H. unfold merge_field in H.
  rewrite Hs, Hold in H. simpl in H.
  assert (E : result' = obj_set result key
                          (VArr (old ++ match v with VArr xs => xs | _ => [v] end)))
    by congruence.
  subst. apply obj_get_set_same.
Qed.

(** A key the override does not list keeps the value of the base. *)
Lemma merge_fields_untouched : forall entries result final k,
  merge_fields type_error_message entries result = Ok final ->
  ~ In k (map fst entries) -> lookup k final = lookup k result.
Proof.
  induction entries as [|[k0 v0] entries IH]; intros result final k H Hk;
    simpl in H.
  - now inversion H.
  - destruct (merge_field type_error_message result k0 v0) as [r1|] eqn:E;
      simpl in H; [|discriminate].
    simpl in Hk. rewrite (IH _ _ _ H); [|tauto].
    apply (merge_field_other _ _ _ _ _ E). intros ->. tauto.
Qed.

(** A key the override lists once ends with what its round of the loop
    wrote, and that round saw the value of the base. *)
Lemma merge_fields_final : forall entries result final k v,
  NoDup (map fst entries) ->
  merge_fields type_error_message entries result = Ok final ->
  In (k, v) entries ->
  exists result1 result2,
    lookup k result1 = lookup k result
    /\ merge_field type_error_message result1 k v = Ok result2
    /\ lookup k final = lookup k result2.
Proof.
  induction entries as [|[k0 v0] entries IH]; intros result final k v Hnd H Hin;
    simpl in H.
  - contradiction.
  - inversion Hnd as [|? ? Hnotin Hnd']; subst.
    destruct (merge_field type_error_message result k0 v0) as [r1|] eqn:E;
      simpl in H; [|discriminate].
    destruct Hin as [Heq|Hin].
    + inversion Heq; subst. exists result, r1. repeat split; [exact E|].
      now apply (merge_fields_untouched _ _ _ _ H).
    + destruct (IH _ _ _ _ Hnd' H Hin) as [result1 [result2 [H1 [H2 H3]]]].
      exists result1, result2. repeat split; [|exact H2|exact H3].
      rewrite H1. apply (merge_field_other _ _ _ _ _ E).
      intros ->. apply Hnotin. now apply (in_map fst) in Hin.
Qed.

Lemma merge_fields_NoDup : forall entries result final,
  merge_fields type_error_message entries result = Ok final ->
  NoDup (map fst result) -> NoDup (map fst final).
Proof.
  induction entries as [|[k0 v0] entries IH]; intros result final H Hnd; simpl in H.
  - now inversion H; subst.
  - destruct (merge_field type_error_message result k0 v0) as [r1|] eqn:E;
      simpl in H; [|discriminate].
    apply (IH _ _ H). now apply (merge_field_NoDup _ _ _ _ E).
Qed.

(** The loop succeeds when every concatenated field meets a list. *)
Lemma merge_fields_succeeds : forall entries result,
  (forall k v, In (k, v) entries -> strategy_of k = Concat ->
     exists l, obj_get result k = VArr l) ->
  NoDup (map fst entries) ->
  exists final, merge_fields type_error_message entries result = Ok final.
Proof.
  induction entries as [|[k0 v0] entries IH]; intros result H Hnd; simpl.
  - eauto.
  - inversion Hnd as [|? ? Hnotin Hnd']; subst.
    assert (E : exists r1, merge_field type_error_message result k0 v0 = Ok r1
                           /\ forall k, k <> k0 -> obj_get r1 k = obj_get result k).
    { unfold merge_field. destruct (strategy_of k0) eqn:Es.
      - destruct (H k0 v0 (or_introl eq_refl) Es) as [l Hl]. rewrite Hl. simpl.
        eexists. split; [reflexivity|]. intros. apply obj_get_set_other. congruence.
      - eexists. split; [reflexivity|]. intros. apply obj_get_set_other. congruence.
      - eexists. split; [reflexivity|]. intros. apply obj_get_set_other. congruence.
      - eexists. split; [reflexivity|]. reflexivity. }
    destruct E as [r1 [E Hr1]]. rewrite E. simpl.
    apply IH; [|exact Hnd'].
    intros k v Hin Hs. rewrite Hr1.
    + apply (H k v); [now right | exact Hs].
    + intros ->. apply Hnotin. now apply (in_map fst) in Hin.
Qed.

Lemma normalize_list_keys : forall xs acc,
  NoDup (map fst acc) ->
  (forall k v, In (k, v) acc -> unique_keys v = true) ->
  let built := fold_left (fun acc svc => obj_set acc (to_str svc) service_started) xs acc in
  NoDup (map fst built) /\ forall k v, In (k, v) built -> unique_keys v = true.
Proof.
  induction xs as [|x xs IH]; intros acc Hnd Hv; simpl.
  - now split.
  - apply IH.
    + now apply NoDup_obj_set.
    + intros k v Hin. apply In_obj_set in Hin as [Heq|Hin].
      * now inversion Heq.
      * now apply (Hv k).
Qed.

Lemma unique_keys_intro : forall fields,
  NoDup (map fst fields) -> (forall k v, In (k, v) fields -> unique_keys v = true) ->
  unique_keys (VObj fields) = true.
Proof.
  intros fields Hnd Hv. simpl. apply andb_true_iff. split.
  - now apply distinct_keys_NoDup.
  - clear Hnd. induction fields as [|[k v] fields IH]; [reflexivity|].
    apply andb_true_iff. split.
    + apply (Hv k). now left.
    + apply IH. intros k' v' Hin. apply (Hv k'). now right.
Qed.

Lemma normalizeDependsOn_unique : forall d,
  unique_keys d = true -> unique_keys (normalizeDependsOn d) = true.
Proof.
  intros d Hd. unfold normalizeDependsOn.
  destruct (negb (truthy d)); [reflexivity|].
  destruct d; try exact Hd.
  destruct (normalize_list_keys xs [] (NoDup_nil _) (fun _ _ H => match H with end))
    as [Hnd Hv].
  now apply unique_keys_intro.
Qed.

Lemma normalizeDependsOn_not_array : forall d, isArray (normalizeDependsOn d) = false.
Proof.
  intros d. unfold normalizeDependsOn.
  destruct (truthy d) eqn:E; simpl; [|reflexivity].
  destruct d; reflexivity.
Qed.

Lemma normalized_NoDup : forall s d,
  NoDup (map fst (own_entries s)) -> NoDup (map fst (normalized s d)).
Proof.
  intros s d H. unfold normalized. destruct (truthy d); [|exact H].
  now apply NoDup_obj_set.
Qed.

Lemma lookup_normalized_other : forall s d k,
  k <> "depends_on" -> lookup k (normalized s d) = lookup k (own_entries s).
Proof.
  intros s d k Hne. unfold normalized. destruct (truthy d); [|reflexivity].
  apply lookup_set_other. congruence.
Qed.

End Merge.

Lemma strategy_depends_on : strategy_of "depends_on" = Merge.
Proof. reflexivity. Qed.


(** ** Resolving [extends] *)

Lemma nat_to_string_inj : forall a b, nat_to_string a = nat_to_string b -> a = b.
Proof.
  intros a b H. unfold nat_to_string in H.
  assert (Hn : forall n, Nat.to_uint n <> Decimal.Nil).
  { intros n. rewrite <- (DecimalNat.Unsigned.of_to n) at 1.
    rewrite DecimalNat.Unsigned.to_of. apply DecimalFacts.unorm_nonnil. }
  apply DecimalNat.Unsigned.to_uint_inj.
  pose proof (NilZero.usu _ (Hn a)) as Ha. pose proof (NilZero.usu _ (Hn b)) as Hb.
  rewrite H in Ha. congruence.
Qed.

Lemma indexed_from_keys : forall xs i k,
  In k (map fst (indexed_from i xs)) -> exists j, (i <= j)%nat /\ k = nat_to_string j.
Proof.
  induction xs as [|x xs IH]; intros i k H; simpl in H.
  - contradiction.
  - destruct H as [<-|H]; [eauto|].
    apply IH in H as [j [Hj ->]]. exists j. split; [lia | reflexivity].
Qed.

Lemma indexed_from_NoDup : forall xs i, NoDup (map fst (indexed_from i xs)).
Proof.
  induction xs as [|x xs IH]; intros i; simpl; constructor; [|apply IH].
  intros H. apply indexed_from_keys in H as [j [Hj Heq]].
  apply nat_to_string_inj in Heq. lia.
Qed.

Lemma indexed_from_values : forall xs i k v,
  In (k, v) (indexed_from i xs) -> In v xs.
Proof.
  induction xs as [|x xs IH]; intros i k v H; simpl in H.
  - contradiction.
  - destruct H as [H|H]; [inversion H; now left | right; now apply (IH (S i) k)].
Qed.

(** The entries of a value with distinct keys have distinct keys, and so do
    the values they hold. *)
Lemma unique_keys_entries : forall v,
  unique_keys v = true ->
  NoDup (map fst (own_entries v))
  /\ forall k x, In (k, x) (own_entries v) -> unique_keys x = true.
Proof.
  intros [| |b|n|s|xs|fields] H; simpl own_entries;
    try (split; [constructor | intros ? ? []]).
  - split; [apply indexed_from_NoDup|].
    intros k x Hin. apply indexed_from_values in Hin.
    apply in_map_iff in Hin as [c [<- _]]. reflexivity.
  - split; [apply indexed_from_NoDup|].
    intros k x Hin. apply indexed_from_values in Hin.
    now apply (unique_keys_arr xs).
  - now apply unique_keys_obj.
Qed.

Lemma unique_keys_get : forall v k, unique_keys v = true -> unique_keys (get v k) = true.
Proof.
  intros v k H. destruct (get_cases v k) as [E|[[n E]|Hin]].
  - now rewrite E.
  - now rewrite E.
  - destruct (unique_keys_entries v H) as [_ Hsub]. now apply (Hsub k).
Qed.

Lemma unique_keys_member : forall v k,
  unique_keys v = true -> unique_keys (member v k) = true.
Proof.
  intros v k H. destruct (member_cases v k) as [E|E]; rewrite E;
    [now apply unique_keys_get | reflexivity].
Qed.

Lemma falsy_no_entries : forall v, truthy v = false -> own_entries v = [].
Proof.
  intros [| |b|n|s|xs|fields] H; simpl in *; try reflexivity; try discriminate.
  apply negb_false_iff, String.eqb_eq in H. now subst.
Qed.

Lemma extends_not_length : "extends" <> "length".
Proof. discriminate. Qed.

Lemma depends_on_not_length : "depends_on" <> "length".
Proof. discriminate. Qed.

Section Resolve.

Variable type_error_message : value -> string -> string.

Lemma get_prop_Ok : forall v p x,
  get_prop type_error_message v p = Ok x -> nullish v = false /\ x = get v p.
Proof.
  intros v p x H. unfold get_prop in H.
  destruct (nullish v); [discriminate|]. inversion H. now split.
Qed.

Lemma get_prop_get : forall v p,
  nullish v = false -> get_prop type_error_message v p = Ok (get v p).
Proof. intros v p H. unfold get_prop. now rewrite H. Qed.

Lemma member_prop_Ok : forall v p x,
  member_prop type_error_message v p = Ok x -> nullish v = false /\ x = member v p.
Proof.
  intros v p x H. unfold member_prop in H.
  destruct (nullish v); [discriminate|]. inversion H. now split.
Qed.

Lemma member_prop_member : forall v p,
  nullish v = false -> member_prop type_error_message v p = Ok (member v p).
Proof. intros v p H. unfold member_prop. now rewrite H. Qed.

(** What [mergeServiceConfigs] returns, opened up. *)
Lemma mergeServiceConfigs_Ok : forall base override out,
  mergeServiceConfigs type_error_message base override = Ok out ->
  exists result,
    out = VObj result
    /\ merge_fields type_error_message
         (normalized override (get override "depends_on"))
         (normalized base (get base "depends_on")) = Ok result.
Proof.
  intros base override out H. unfold mergeServiceConfigs in H.
  destruct (get_prop type_error_message base "depends_on") as [bd|] eqn:Eb;
    simpl in H; [|discriminate].
  destruct (get_prop type_error_message override "depends_on") as [od|] eqn:Eo;
    simpl in H; [|discriminate].
  apply get_prop_Ok in Eb as [_ ->]. apply get_prop_Ok in Eo as [_ ->].
  destruct (merge_fields _ _ _) as [result|] eqn:E; simpl in H; [|discriminate].
  inversion H. eauto.
Qed.

(** The override carries no [extends]: the merged service has the entry of
    the base, if any. *)
Lemma merged_extends : forall base override out,
  mergeServiceConfigs type_error_message base override = Ok out ->
  lookup "extends" (own_entries override) = None ->
  lookup "extends" (own_entries out) = lookup "extends" (own_entries base).
Proof.
  intros base override out H Hover.
  apply mergeServiceConfigs_Ok in H as [result [-> H]]. simpl own_entries.
  rewrite (merge_fields_untouched _ _ _ _ "extends" H).
  - apply lookup_normalized_other. discriminate.
  - apply lookup_None_keys. rewrite lookup_normalized_other; [exact Hover|discriminate].
Qed.

(** One unfolding of [resolveServiceExtends] on a successful run. *)
Lemma resolve_Ok_cases : forall fuel service allServices visited out,
  resolveServiceExtends type_error_message (S fuel) service allServices visited
    = Some (Ok out) ->
  (out = service /\ truthy (get service "extends") = false)
  \/ (truthy (get service "extends") = true
      /\ exists name resolvedBase,
           name = extended_name (get service "extends")
           /\ truthy (member allServices (to_str name)) = true
           /\ resolveServiceExtends type_error_message fuel
                (member allServices (to_str name)) allServices (set_add visited name)
              = Some (Ok resolvedBase)
           /\ mergeServiceConfigs type_error_message resolvedBase
                (VObj (obj_delete (own_entries service) "extends")) = Ok out).
Proof.
  intros fuel service allServices visited out H.
  cbn [resolveServiceExtends] in H. unfold lift in H.
  destruct (get_prop type_error_message service "extends") as [ext|] eqn:Eext;
    cbn [fbind] in H; [|discriminate].
  apply get_prop_Ok in Eext as [_ ->].
  destruct (truthy (get service "extends")) eqn:Et; cbn [negb] in H.
  - right. split; [reflexivity|].
    destruct (set_has _ visited); [discriminate|].
    destruct (member_prop type_error_message allServices _) as [extended|] eqn:Ea;
      cbn [fbind] in H; [|discriminate].
    apply member_prop_Ok in Ea as [_ ->].
    destruct (truthy (member allServices _)) eqn:Ebase; cbn [negb] in H; [|discriminate].
    destruct (resolveServiceExtends _ fuel _ _ _) as [[resolvedBase|]|] eqn:Erec;
      cbn [fbind] in H; try discriminate.
    exists (extended_name (get service "extends")), resolvedBase.
    repeat split; try assumption. now inversion H.
  - left. inversion H. now split.
Qed.

(** The [extends] entry of a resolved service is that of a service with no
    live [extends]: the service itself, or the root of its chain. *)
Lemma resolve_extends_origin : forall fuel service allServices visited out,
  resolveServiceExtends type_error_message fuel service allServices visited
    = Some (Ok out) ->
  exists source,
    (source = service \/ exists k, source = member allServices k)
    /\ truthy (get source "extends") = false
    /\ lookup "extends" (own_entries out) = lookup "extends" (own_entries source).
Proof.
  induction fuel as [|fuel IH]; intros service allServices visited out H.
  - discriminate.
  - apply resolve_Ok_cases in H
      as [[-> Hf]|[Ht [name [resolvedBase [Hname [Hbase [Hrec Hmerge]]]]]]].
    + exists service. auto.
    + apply IH in Hrec as [source [Hsrc [Hfalsy Hlookup]]].
      exists source. split; [|split; [exact Hfalsy|]].
      * right. destruct Hsrc as [->|Hk]; eauto.
      * rewrite <- Hlookup. apply (merged_extends _ _ _ Hmerge).
        apply lookup_delete_same.
Qed.

Lemma resolve_services_values : forall (Q : value -> Prop) fuel entries allServices acc final,
  resolve_services type_error_message fuel entries allServices acc = Some (Ok final) ->
  (forall k v, In (k, v) acc -> Q v) ->
  (forall name service out, In (name, service) entries ->
     resolveServiceExtends type_error_message fuel service allServices [] = Some (Ok out) ->
     Q out) ->
  forall k v, In (k, v) final -> Q v.
Proof.
  intros Q fuel. induction entries as [|[name service] entries IH];
    intros allServices acc final H Hacc Hres; simpl in H.
  - inversion H; subst. exact Hacc.
  - destruct (resolveServiceExtends _ fuel service allServices [])
      as [[resolved|]|] eqn:E; try discriminate.
    apply (IH _ _ _ H).
    + intros k v Hin. apply In_obj_set in Hin as [Heq|Hin].
      * inversion Heq; subst. apply (Hres name service); [now left | exact E].
      * now apply (Hacc k).
    + intros n s out Hin Ho. apply (Hres n s out); [now right | exact Ho].
Qed.

(** What [resolveAllExtends] returns, opened up. *)
Lemma resolveAllExtends_Ok : forall compose out,
  resolveAllExtends type_error_message compose = Some (Ok out) ->
  (out = compose /\ truthy (get compose "services") = false)
  \/ (truthy (get compose "services") = true
      /\ exists resolvedServices,
           resolve_services type_error_message
             (extends_fuel (get compose "services"))
             (own_entries (get compose "services")) (get compose "services") []
           = Some (Ok resolvedServices)
           /\ out = VObj (obj_set (own_entries compose) "services"
                            (VObj resolvedServices))).
Proof.
  intros compose out H. unfold resolveAllExtends, lift in H.
  destruct (get_prop type_error_message compose "services") as [services|] eqn:Es;
    cbn [fbind] in H; [|discriminate].
  apply get_prop_Ok in Es as [_ ->].
  destruct (truthy (get compose "services")) eqn:Et; cbn [negb] in H.
  - right. split; [reflexivity|].
    destruct (resolve_services _ _ _ _ _) as [[resolved|]|]; cbn [fbind] in H;
      try discriminate.
    exists resolved. split; [reflexivity | now inversion H].
  - left. inversion H. now split.
Qed.

Lemma resolved_services_entries : forall compose resolvedServices,
  own_entries
    (get (VObj (obj_set (own_entries compose) "services" (VObj resolvedServices)))
         "services") = resolvedServices.
Proof. intros. simpl get. now rewrite obj_get_set_same. Qed.

End Resolve.

(** C7, amended: after a successful [resolveAllExtends] no service of the
    output carries a live (truthy) [extends]; when no service of the input
    holds an empty or otherwise falsy value under [extends], no service of the
    output has the key at all.  A service with a live [extends] whose base has
    none is the merge of the base with the service stripped of [extends]. *)
Theorem no_extends_after_resolution :
  forall type_error_message compose out,
    resolveAllExtends type_error_message compose = Some (Ok out) ->
    (forall name svc, In (name, svc) (own_entries (get out "services")) ->
       truthy (get svc "extends") = false)
    /\ ((forall name svc, In (name, svc) (own_entries (get compose "services")) ->
           has_own svc "extends" = true -> truthy (get svc "extends") = true) ->
        forall name svc, In (name, svc) (own_entries (get out "services")) ->
          has_own svc "extends" = false)
    /\ (forall fuel service allServices visited base,
          truthy (get service "extends") = true ->
          set_has (extended_name (get service "extends")) visited = false ->
          get allServices (to_str (extended_name (get service "extends"))) = base ->
          truthy base = true -> truthy (get base "extends") = false ->
          resolveServiceExtends type_error_message (S (S fuel)) service allServices visited
          = Some (mergeServiceConfigs type_error_message base
                    (VObj (obj_delete (own_entries service) "extends")))).
Proof.
  intros tem compose out H.
  assert (Horigin : forall name svc, In (name, svc) (own_entries (get out "services")) ->
            exists source,
              (In source (map snd (own_entries (get compose "services")))
               \/ exists k, source = member (get compose "services") k)
              /\ truthy (get source "extends") = false
              /\ lookup "extends" (own_entries svc) = lookup "extends" (own_entries source)).
  { apply resolveAllExtends_Ok in H as [[-> Hf]|[Ht [resolved [Hres ->]]]].
    - rewrite (falsy_no_entries _ Hf). intros ? ? [].
    - rewrite resolved_services_entries.
      apply (resolve_services_values tem _ _ _ _ _ _ Hres); [intros ? ? []|].
      intros name service o Hin Ho.
      apply resolve_extends_origin in Ho as [source [Hsrc Hrest]].
      exists source. split; [|exact Hrest].
      destruct Hsrc as [->|Hk]; [left | now right].
      now apply (in_map snd) in Hin. }
  split; [|split].
  - intros name svc Hin. destruct (Horigin _ _ Hin) as [source [_ [Hf Hl]]].
    rewrite (get_own_entries source _ extends_not_length) in Hf.
    rewrite (get_own_entries svc _ extends_not_length).
    unfold obj_get in *. now rewrite Hl.
  - intros Hwf name svc Hin. destruct (Horigin _ _ Hin) as [source [Hsrc [Hf Hl]]].
    unfold has_own, has_key. rewrite Hl.
    destruct (lookup "extends" (own_entries source)) eqn:E; [|reflexivity].
    assert (Hown : has_own source "extends" = true)
      by (unfold has_own, has_key; now rewrite E).
    destruct Hsrc as [Hsrc|[k ->]].
    + apply in_map_iff in Hsrc as [[n s] [<- Hs]]. simpl in *.
      rewrite (Hwf n s Hs Hown) in Hf. discriminate.
    + destruct (member_cases (get compose "services") k) as [Em|Em];
        rewrite Em in *; [|discriminate].
      destruct (get_cases (get compose "services") k) as [Ek|[[z Ek]|Hk]].
      * rewrite Ek in E. discriminate.
      * rewrite Ek in E. discriminate.
      * rewrite (Hwf k _ Hk Hown) in Hf. discriminate.
  - intros fuel service allServices visited base Ht Hvis Hbase Hbt Hbf.
    cbn [resolveServiceExtends]. unfold lift.
    rewrite (get_prop_get tem service "extends" (truthy_get_not_nullish _ _ Ht)).
    cbn [fbind]. rewrite Ht, Hvis. cbn [negb].
    assert (Hall : nullish allServices = false).
    { apply (truthy_get_not_nullish allServices
               (to_str (extended_name (get service "extends")))).
      now rewrite Hbase. }
    rewrite (member_prop_member tem allServices _ Hall). cbn [fbind].
    rewrite member_truthy_get by (now rewrite Hbase).
    rewrite Hbase, Hbt. cbn [negb].
    assert (Hbn : nullish base = false) by (destruct base; simpl in *; congruence).
    rewrite (get_prop_get tem base "extends" Hbn). cbn [fbind].
    rewrite Hbf. reflexivity.
Qed.

(** ** The form of [depends_on] after resolution *)

Lemma deepMerge_not_array : forall base override,
  isArray base = false -> isArray override = false ->
  isArray (deepMerge base override) = false.
Proof.
  intros base override Hb Ho.
  destruct override; try discriminate; simpl;
    destruct (not_object base); try reflexivity; exact Hb.
Qed.

Lemma deepMerge_long : forall fields override,
  override = VUndef \/ long_form override ->
  long_form (deepMerge (VObj fields) override).
Proof.
  intros fields override [->|[o ->]]; simpl; eexists; reflexivity.
Qed.

Lemma falsy_not_array : forall v, truthy v = false -> isArray v = false.
Proof. intros [] H; simpl in *; congruence. Qed.

(** The [depends_on] of a normalized copy is never a list. *)
Lemma normalized_depends_on : forall s,
  isArray (obj_get (normalized s (get s "depends_on")) "depends_on") = false.
Proof.
  intros s. unfold normalized.
  destruct (truthy (get s "depends_on")) eqn:E.
  - rewrite obj_get_set_same. apply normalizeDependsOn_not_array.
  - rewrite <- (get_own_entries _ _ depends_on_not_length). now apply falsy_not_array.
Qed.

(** When the service writes [depends_on] as Compose does, its normalized copy
    has a mapping there or nothing. *)
Lemma normalized_depends_on_shape : forall s,
  depends_on_shape (get s "depends_on") ->
  obj_get (normalized s (get s "depends_on")) "depends_on" = VUndef
  \/ long_form (obj_get (normalized s (get s "depends_on")) "depends_on").
Proof.
  intros s Hs. unfold normalized.
  destruct Hs as [E|[[xs E]|[o E]]]; rewrite E; simpl truthy; cbn iota.
  - left. now rewrite <- (get_own_entries _ _ depends_on_not_length).
  - right. rewrite obj_get_set_same. eexists; reflexivity.
  - right. rewrite obj_get_set_same. eexists; reflexivity.
Qed.

Section DependsOn.

Variable type_error_message : value -> string -> string.

(** The [depends_on] of a merge is the deep merge of the two normalized
    values, or the normalized value of the base. *)
Lemma merged_depends_on_cases : forall base override out,
  mergeServiceConfigs type_error_message base override = Ok out ->
  NoDup (map fst (own_entries override)) ->
  get out "depends_on" =
    obj_get (normalized base (get base "depends_on")) "depends_on"
  \/ get out "depends_on" =
       deepMerge
         (or_else (obj_get (normalized base (get base "depends_on")) "depends_on")
                  (VObj []))
         (obj_get (normalized override (get override "depends_on")) "depends_on").
Proof.
  intros base override out H Hnd.
  apply mergeServiceConfigs_Ok in H as [result [-> H]]. simpl get.
  set (nb := normalized base (get base "depends_on")) in *.
  set (no := normalized override (get override "depends_on")) in *.
  destruct (lookup "depends_on" no) as [v|] eqn:E.
  - right.
    assert (Hno : NoDup (map fst no)) by (now apply normalized_NoDup).
    destruct (merge_fields_final _ no nb result "depends_on" v Hno H (lookup_In _ _ _ E))
      as [r1 [r2 [H1 [H2 H3]]]].
    apply (merge_field_merge _ _ _ _ _ strategy_depends_on) in H2.
    unfold obj_get at 1. rewrite H3. fold (obj_get r2 "depends_on"). rewrite H2.
    unfold obj_get. now rewrite H1, E.
  - left. unfold obj_get at 1.
    rewrite (merge_fields_untouched _ _ _ _ "depends_on" H); [reflexivity|].
    now apply lookup_None_keys.
Qed.

Lemma merged_depends_on_not_array : forall base override out,
  mergeServiceConfigs type_error_message base override = Ok out ->
  NoDup (map fst (own_entries override)) ->
  isArray (get out "depends_on") = false.
Proof.
  intros base override out H Hnd.
  destruct (merged_depends_on_cases _ _ _ H Hnd) as [E|E]; rewrite E.
  - apply normalized_depends_on.
  - apply deepMerge_not_array; [|apply normalized_depends_on].
    unfold or_else. destruct (truthy _); [apply normalized_depends_on | reflexivity].
Qed.

Lemma merged_depends_on_long : forall base override out,
  mergeServiceConfigs type_error_message base override = Ok out ->
  NoDup (map fst (own_entries override)) ->
  depends_on_shape (get base "depends_on") ->
  depends_on_shape (get override "depends_on") ->
  get out "depends_on" = VUndef \/ long_form (get out "depends_on").
Proof.
  intros base override out H Hnd Hb Ho.
  apply normalized_depends_on_shape in Hb, Ho.
  destruct (merged_depends_on_cases _ _ _ H Hnd) as [E|E]; rewrite E.
  - exact Hb.
  - right. destruct Hb as [->|[fields ->]]; now apply deepMerge_long.
Qed.

Lemma stripped_depends_on : forall service,
  get (VObj (obj_delete (own_entries service) "extends")) "depends_on"
  = get service "depends_on".
Proof.
  intros service. simpl get. rewrite (get_own_entries _ _ depends_on_not_length).
  unfold obj_get. rewrite lookup_delete_other; [reflexivity | discriminate].
Qed.

(** A service that carried a live [extends] comes out with a [depends_on]
    that is no list. *)
Lemma resolve_depends_on_not_array : forall fuel service allServices visited out,
  resolveServiceExtends type_error_message fuel service allServices visited
    = Some (Ok out) ->
  unique_keys service = true ->
  truthy (get service "extends") = true ->
  isArray (get out "depends_on") = false.
Proof.
  intros [|fuel] service allServices visited out H Hu Ht; [discriminate|].
  apply resolve_Ok_cases in H as [[_ Hf]|[_ [name [base [_ [_ [_ Hmerge]]]]]]].
  - congruence.
  - apply (merged_depends_on_not_array _ _ _ Hmerge). simpl own_entries.
    apply NoDup_obj_delete. now apply unique_keys_entries.
Qed.

(** With every [depends_on] written as Compose does, resolution keeps that
    shape, and a service that carried a live [extends] comes out with a
    mapping or with none. *)
Lemma resolve_depends_on_shape : forall fuel service allServices visited out,
  resolveServiceExtends type_error_message fuel service allServices visited
    = Some (Ok out) ->
  unique_keys service = true -> unique_keys allServices = true ->
  depends_on_shape (get service "depends_on") ->
  (forall k, depends_on_shape (get (member allServices k) "depends_on")) ->
  depends_on_shape (get out "depends_on")
  /\ (truthy (get service "extends") = true ->
      get out "depends_on" = VUndef \/ long_form (get out "depends_on")).
Proof.
  induction fuel as [|fuel IH]; intros service allServices visited out H Hu Hall Hs Hk.
  - discriminate.
  - apply resolve_Ok_cases in H
      as [[-> Hf]|[Ht [name [base [_ [_ [Hrec Hmerge]]]]]]].
    + split; [exact Hs | congruence].
    + apply IH in Hrec as [Hbase _]; try assumption;
        [|now apply unique_keys_member | apply Hk].
      assert (Hlong : get out "depends_on" = VUndef \/ long_form (get out "depends_on")).
      { apply (merged_depends_on_long _ _ _ Hmerge).
        - simpl own_entries. apply NoDup_obj_delete. now apply unique_keys_entries.
        - exact Hbase.
        - now rewrite stripped_depends_on. }
      split; [|intros _; exact Hlong].
      destruct Hlong as [E|E]; [left; exact E | right; right; exact E].
Qed.

Lemma resolve_services_untouched : forall fuel entries allServices acc final k,
  resolve_services type_error_message fuel entries allServices acc = Some (Ok final) ->
  ~ In k (map fst entries) -> lookup k final = lookup k acc.
Proof.
  intros fuel. induction entries as [|[name service] entries IH];
    intros allServices acc final k H Hk; simpl in H.
  - now inversion H.
  - destruct (resolveServiceExtends _ fuel service allServices [])
      as [[resolved|]|]; try discriminate.
    simpl in Hk. rewrite (IH _ _ _ _ H); [|tauto].
    apply lookup_set_other. intros ->. tauto.
Qed.

(** Each service of the input is resolved on its own and stored under its
    name. *)
Lemma resolve_services_get : forall fuel entries allServices acc final name service,
  resolve_services type_error_message fuel entries allServices acc = Some (Ok final) ->
  NoDup (map fst entries) -> In (name, service) entries ->
  exists out,
    resolveServiceExtends type_error_message fuel service allServices [] = Some (Ok out)
    /\ obj_get final name = out.
Proof.
  intros fuel. induction entries as [|[n s] entries IH];
    intros allServices acc final name service H Hnd Hin; simpl in H.
  - contradiction.
  - inversion Hnd as [|? ? Hnotin Hnd']; subst.
    destruct (resolveServiceExtends _ fuel s allServices [])
      as [[resolved|]|] eqn:E; try discriminate.
    destruct Hin as [Heq|Hin].
    + inversion Heq; subst. exists resolved. split; [exact E|].
      unfold obj_get. rewrite (resolve_services_untouched _ _ _ _ _ _ H Hnotin).
      now rewrite lookup_set_same.
    + now apply (IH _ _ _ _ _ H).
Qed.

End DependsOn.

(** C1, amended: after a successful [resolveAllExtends] every service that
    carried a live [extends] has a [depends_on] that is not a list, and, when
    the document writes every [depends_on] as a list or a mapping, that is a
    mapping or absent.  (A service without [extends] is returned as it is.) *)
Theorem depends_on_long_form_after_extends :
  forall type_error_message compose out,
    unique_keys compose = true ->
    resolveAllExtends type_error_message compose = Some (Ok out) ->
    forall name svc,
      In (name, svc) (own_entries (get compose "services")) ->
      truthy (get svc "extends") = true ->
      let resolved := get (get out "services") name in
      isArray (get resolved "depends_on") = false
      /\ ((forall n s, In (n, s) (own_entries (get compose "services")) ->
             depends_on_shape (get s "depends_on")) ->
          get resolved "depends_on" = VUndef \/ long_form (get resolved "depends_on")).
Proof.
  intros tem compose out Hu H name svc Hin Ht resolved.
  assert (Hservices : unique_keys (get compose "services") = true)
    by (now apply unique_keys_get).
  destruct (unique_keys_entries _ Hservices) as [Hnd Hsub].
  apply resolveAllExtends_Ok in H as [[-> Hf]|[_ [resolvedServices [Hres ->]]]].
  - rewrite (falsy_no_entries _ Hf) in Hin. contradiction.
  - destruct (resolve_services_get tem _ _ _ _ _ _ _ Hres Hnd Hin) as [o [Ho Hget]].
    assert (Hresolved : resolved = o).
    { unfold resolved. simpl get. now rewrite obj_get_set_same. }
    rewrite Hresolved. split.
    + apply (resolve_depends_on_not_array tem _ _ _ _ _ Ho); [|exact Ht].
      now apply (Hsub name).
    + intros Hshape.
      apply (resolve_depends_on_shape tem _ _ _ _ _ Ho); try assumption.
      * now apply (Hsub name).
      * now apply (Hshape name).
      * intros k. destruct (member_cases (get compose "services") k) as [Em|Em];
          rewrite Em; [|now left].
        destruct (get_cases (get compose "services") k) as [E|[[z E]|Hk]].
        -- rewrite E. now left.
        -- rewrite E. now left.
        -- now apply (Hshape k).
Qed.

(** ** Paths *)

Lemma break_at_char_before : forall c s a b,
  break_at (String c "") s = Some (a, b) -> lacks c a = true.
Proof.
  intros c s. induction s as [|x s IH]; intros a b H.
  - discriminate.
  - cbn [break_at startsWith] in H.
    destruct (Ascii.eqb c x) eqn:E; cbn [andb] in H.
    + inversion H. reflexivity.
    + destruct (break_at (String c "") s) as [[a' b']|] eqn:E'; [|discriminate].
      inversion H; subst. simpl. rewrite E. simpl. now apply (IH a' b).
Qed.

Lemma break_at_char_none : forall c s,
  break_at (String c "") s = None -> lacks c s = true.
Proof.
  intros c s. induction s as [|x s IH]; intros H.
  - reflexivity.
  - cbn [break_at startsWith] in H.
    destruct (Ascii.eqb c x) eqn:E; cbn [andb] in H; [discriminate|].
    destruct (break_at (String c "") s) as [[a' b']|] eqn:E'; [discriminate|].
    simpl. rewrite E. simpl. now apply IH.
Qed.

(** No piece of a split holds the separating character. *)
Lemma split_pieces_lack : forall c s,
  Forall (fun piece => lacks c piece = true) (split (String c "") s).
Proof.
  intros c s. remember (String.length s) as n eqn:Hn.
  assert (Hle : (String.length s <= n)%nat) by lia. clear Hn.
  revert s Hle. induction n as [|n IH]; intros s Hle; rewrite split_unfold.
  - destruct s; [|simpl in Hle; lia]. simpl. constructor; [reflexivity | constructor].
  - destruct (break_at (String c "") s) as [[a b]|] eqn:E.
    + constructor; [now apply break_at_char_before in E|].
      apply IH. apply break_at_shorter in E. lia.
    + constructor; [now apply break_at_char_none | constructor].
Qed.

Lemma Forall_removelast : forall (A : Type) (P : A -> Prop) l,
  Forall P l -> Forall P (removelast l).
Proof.
  intros A P l H. induction H as [|x l Hx Hl IH]; simpl; [constructor|].
  destruct l; [constructor | constructor; assumption].
Qed.

Lemma normalize_segments_kept : forall segments normalized,
  Forall (fun seg => nonempty seg = true /\ lacks "/" seg = true) segments ->
  Forall kept_segment normalized ->
  Forall kept_segment (normalize_segments segments normalized).
Proof.
  induction segments as [|seg segments IH]; intros normalized Hs Hn; simpl.
  - exact Hn.
  - inversion Hs as [|? ? [Hne Hl] Hs']; subst.
    destruct (String.eqb seg ".") eqn:E1; [now apply IH|].
    destruct (String.eqb seg "..") eqn:E2.
    + apply IH; [exact Hs' | now apply Forall_removelast].
    + apply IH; [exact Hs'|]. apply Forall_app. split; [exact Hn|].
      constructor; [|constructor]. repeat split; assumption.
Qed.

Lemma normalize_segments_id : forall segments normalized,
  Forall kept_segment segments ->
  normalize_segments segments normalized = normalized ++ segments.
Proof.
  induction segments as [|seg segments IH]; intros normalized H; simpl.
  - now rewrite app_nil_r.
  - inversion H as [|? ? [_ [E1 [E2 _]]] H']; subst.
    rewrite E1, E2, (IH _ H'), <- app_assoc. reflexivity.
Qed.

Lemma filter_kept : forall segments,
  Forall kept_segment segments -> filter nonempty segments = segments.
Proof.
  intros segments H. induction H as [|seg segments [Hne _] _ IH]; simpl.
  - reflexivity.
  - now rewrite Hne, IH.
Qed.

Lemma join_lacks : forall c sep segments,
  lacks c sep = true ->
  Forall (fun seg => lacks c seg = true) segments ->
  lacks c (join sep segments) = true.
Proof.
  intros c sep segments Hsep H. induction H as [|seg segments Hseg Hrest IH].
  - reflexivity.
  - destruct segments as [|seg' segments]; [exact Hseg|].
    change (join sep (seg :: seg' :: segments))
      with (seg ++ sep ++ join sep (seg' :: segments))%string.
    now rewrite !lacks_app, Hseg, Hsep, IH.
Qed.

(** Splitting a joined list of segments gives the segments back. *)
Lemma split_join : forall c segments,
  segments <> [] ->
  Forall (fun seg => lacks c seg = true) segments ->
  split (String c "") (join (String c "") segments) = segments.
Proof.
  intros c segments Hne H. induction H as [|seg segments Hseg Hrest IH].
  - congruence.
  - destruct segments as [|seg' segments].
    + simpl. apply split_absent. now apply includes_lacks.
    + change (join (String c "") (seg :: seg' :: segments))
        with (seg ++ String c ("" ++ join (String c "") (seg' :: segments)))%string.
      rewrite split_unfold, (break_at_first c "" seg _ Hseg).
      f_equal. apply IH. discriminate.
Qed.

Lemma join_nonempty : forall sep seg segments,
  nonempty seg = true -> String.eqb (join sep (seg :: segments)) "" = false.
Proof.
  intros sep seg segments H. destruct seg as [|c seg]; [discriminate|].
  destruct segments; reflexivity.
Qed.

(** A normalized path is empty or the join of segments that stay. *)
Lemma normalizePath_shape : forall path,
  normalizePath path = ""
  \/ exists seg stack,
       Forall kept_segment (seg :: stack)
       /\ normalizePath path = join "/" (seg :: stack).
Proof.
  intros path. unfold normalizePath.
  destruct (String.eqb path ""); [now left|].
  set (stack := normalize_segments (filter nonempty (split "/" path)) []).
  assert (Hstack : Forall kept_segment stack).
  { apply normalize_segments_kept; [|constructor].
    pose proof (split_pieces_lack "/" path) as Hl.
    induction Hl as [|seg segs Hseg _ IH]; simpl; [constructor|].
    destruct (nonempty seg) eqn:E; [|exact IH].
    constructor; [now split | exact IH]. }
  destruct stack as [|seg stack']; [now left|].
  right. exists seg, stack'. now split.
Qed.

Lemma normalizePath_idempotent : forall path,
  normalizePath (normalizePath path) = normalizePath path.
Proof.
  intros path.
  destruct (normalizePath_shape path) as [E|[seg [stack [Hstack E]]]]; rewrite E.
  - reflexivity.
  - unfold normalizePath.
    inversion Hstack as [|? ? [Hne _] _]; subst.
    rewrite (join_nonempty "/" seg stack Hne).
    rewrite split_join; [|discriminate|].
    + now rewrite (filter_kept _ Hstack), (normalize_segments_id _ _ Hstack).
    + apply Forall_impl with (2 := Hstack). intros s [_ [_ [_ Hs]]]. exact Hs.
Qed.

Lemma joinPath_normalized : forall basePath relativePath,
  normalizePath (joinPath basePath relativePath) = joinPath basePath relativePath.
Proof.
  intros basePath relativePath. unfold joinPath.
  destruct (String.eqb basePath ""); [apply normalizePath_idempotent|].
  destruct (String.eqb relativePath ""); apply normalizePath_idempotent.
Qed.

(** A resolved path is in normal form. *)
Lemma resolvePath_normalized : forall currentFile targetPath,
  normalizePath (resolvePath currentFile targetPath) = resolvePath currentFile targetPath.
Proof. intros. apply joinPath_normalized. Qed.

(** ** Cycles *)

Section Cycles.

Variable type_error_message : value -> string -> string.
Variable yaml_load : string -> res value.

(** One step along an [extends] edge whose target is not yet visited. *)
Lemma resolve_step : forall fuel service allServices visited target,
  extends_to service target ->
  set_has (VStr target) visited = false ->
  truthy (get allServices target) = true ->
  resolveServiceExtends type_error_message (S fuel) service allServices visited =
  fbind (resolveServiceExtends type_error_message fuel (get allServices target)
           allServices (visited ++ [VStr target]))
        (fun resolvedBase =>
           Some (mergeServiceConfigs type_error_message resolvedBase
                   (VObj (obj_delete (own_entries service) "extends")))).
Proof.
  intros fuel service allServices visited target [Ht Hname] Hvis Hbase.
  cbn [resolveServiceExtends]. unfold lift.
  rewrite (get_prop_get _ service "extends" (truthy_get_not_nullish _ _ Ht)).
  cbn [fbind]. rewrite Ht, Hname, Hvis. cbn [negb to_str].
  rewrite (member_prop_member _ allServices target (truthy_get_not_nullish _ _ Hbase)).
  cbn [fbind]. rewrite (member_truthy_get _ _ Hbase), Hbase. cbn [negb]. unfold set_add. rewrite Hvis. reflexivity.
Qed.

(** Arriving at an [extends] edge whose target is already visited. *)
Lemma resolve_cycle : forall fuel service allServices visited target,
  extends_to service target ->
  set_has (VStr target) visited = true ->
  resolveServiceExtends type_error_message (S fuel) service allServices visited =
  Some (Throw (circular_extends_message visited (VStr target))).
Proof.
  intros fuel service allServices visited target [Ht Hname] Hvis.
  cbn [resolveServiceExtends]. unfold lift.
  rewrite (get_prop_get _ service "extends" (truthy_get_not_nullish _ _ Ht)).
  cbn [fbind]. rewrite Ht, Hname, Hvis. reflexivity.
Qed.

Lemma extends_to_truthy : forall svc target, extends_to svc target -> truthy svc = true.
Proof.
  intros [| |b|n|s|xs|fields] target [H _]; simpl in *;
    try discriminate; try reflexivity.
  destruct s; [discriminate | reflexivity].
Qed.

Lemma string_value_neq : forall a b : string, a <> b -> value_eqb (VStr a) (VStr b) = false.
Proof. intros a b H. simpl. now apply String.eqb_neq. Qed.

Lemma extends_cycle_of_three : forall fuel allServices a b c,
  a <> b -> b <> c -> a <> c ->
  extends_to (get allServices a) b ->
  extends_to (get allServices b) c ->
  extends_to (get allServices c) a ->
  resolveServiceExtends type_error_message (4 + fuel) (get allServices a) allServices []
  = Some (Throw ("Circular extends detected: " ++ b ++ " → " ++ c ++ " → " ++ a
                 ++ " → " ++ b)).
Proof.
  intros fuel allServices a b c Hab Hbc Hac Ha Hb Hc.
  change (4 + fuel)%nat with (S (S (S (S fuel)))).
  rewrite (resolve_step _ _ _ [] b Ha eq_refl (extends_to_truthy _ _ Hb)).
  cbn [app].
  rewrite (resolve_step _ _ _ [VStr b] c Hb); [|simpl; now rewrite (proj2 (String.eqb_neq c b)); [|congruence] | exact (extends_to_truthy _ _ Hc)].
  cbn [app].
  rewrite (resolve_step _ _ _ [VStr b; VStr c] a Hc);
    [| simpl; rewrite (proj2 (String.eqb_neq a b)) by congruence;
       now rewrite (proj2 (String.eqb_neq a c)) by congruence
     | exact (extends_to_truthy _ _ Ha)].
  cbn [app].
  rewrite (resolve_cycle _ _ _ [VStr b; VStr c; VStr a] b Ha);
    [|simpl; now rewrite String.eqb_refl].
  cbn [fbind]. unfold circular_extends_message, join_values, elem_str.
  cbn [map join nullish to_str]. do 2 f_equal.
  repeat rewrite append_assoc. reflexivity.
Qed.

Lemma includes_after_step : forall doc currentFile before target,
  includes_after doc currentFile before target ->
  exists spec rest path,
    include_list (get doc "include") = before ++ spec :: rest
    /\ include_path type_error_message spec = Ok (VStr path)
    /\ truthy (VStr path) = true
    /\ resolve_include type_error_message currentFile (VStr path) = Ok target.
Proof.
  intros doc currentFile before target
    [_ [_ [spec [rest [path [Hl [Hspec [Hne Hres]]]]]]]].
  exists spec, rest, path. repeat split.
  - exact Hl.
  - unfold include_path. destruct Hspec as [->|[Hs [Hn Hp]]]; [reflexivity|].
    rewrite Hs. unfold get_prop. now rewrite Hn, Hp.
  - simpl. now apply negb_true_iff, String.eqb_neq.
  - simpl. now rewrite Hres.
Qed.

Lemma include_loop_split : forall recur currentFile fileMap newVisited specs1 specs2 merged,
  include_loop type_error_message yaml_load recur currentFile fileMap newVisited
    (specs1 ++ specs2) merged =
  fbind (include_loop type_error_message yaml_load recur currentFile fileMap newVisited
           specs1 merged)
        (fun merged1 =>
           include_loop type_error_message yaml_load recur currentFile fileMap
             newVisited specs2 merged1).
Proof.
  intros recur currentFile fileMap newVisited.
  induction specs1 as [|spec specs1 IH]; intros specs2 merged; simpl.
  - reflexivity.
  - destruct (include_step _ _ _ _ _ _ _ _) as [[merged'|msg]|]; cbn [fbind];
      [apply IH | reflexivity | reflexivity].
Qed.

(** An include of [doc] leads back into the chain, and the entries before it
    pass: the resolver raises the circular-include error that names the
    chain. *)
Lemma include_cycle : forall fuel doc currentFile fileMap visited before target,
  includes_after doc currentFile before target ->
  passes_over type_error_message yaml_load fuel fileMap doc currentFile visited before ->
  string_mem (normalizePath currentFile) visited = false ->
  string_mem target (visited ++ [normalizePath currentFile]) = true ->
  resolveIncludes type_error_message yaml_load (S fuel) doc currentFile fileMap visited
  = Some (Throw (circular_include_message (visited ++ [normalizePath currentFile])
                   target)).
Proof.
  intros fuel doc currentFile fileMap visited before target Hafter [m Hpass] Hcur Hin.
  destruct (includes_after_step _ _ _ _ Hafter) as [spec [rest [path [Hl [Hp [Ht Hr]]]]]].
  destruct Hafter as [Hdoc [Hinc _]].
  cbn [resolveIncludes]. rewrite Hdoc, Hinc, Hcur, Hl. cbn [negb].
  rewrite include_loop_split, Hpass. cbn [fbind include_loop].
  unfold include_step, lift. rewrite Hp. cbn [fbind]. rewrite Ht. cbn [negb].
  rewrite Hr. cbn [fbind]. rewrite Hin. reflexivity.
Qed.

(** A file of the map is found under its key. *)
Lemma file_content_own : forall fileMap k c,
  file_lookup k fileMap = Some c -> file_content k fileMap = Some c.
Proof. intros fileMap k c H. unfold file_content. now rewrite H. Qed.

(** An include of [doc] is a file not yet in the chain, the entries before
    it pass, and resolving that file fails: the failure is the failure of
    [doc]. *)
Lemma include_descend : forall fuel doc currentFile fileMap visited before target
    content included msg,
  includes_after doc currentFile before target ->
  passes_over type_error_message yaml_load fuel fileMap doc currentFile visited before ->
  string_mem (normalizePath currentFile) visited = false ->
  string_mem target (visited ++ [normalizePath currentFile]) = false ->
  file_lookup target fileMap = Some content -> content <> "" ->
  yaml_load content = Ok included ->
  resolveIncludes type_error_message yaml_load fuel included target fileMap
    (visited ++ [normalizePath currentFile]) = Some (Throw msg) ->
  resolveIncludes type_error_message yaml_load (S fuel) doc currentFile fileMap visited
  = Some (Throw msg).
Proof.
  intros fuel doc currentFile fileMap visited before target content included msg
    Hafter [m Hpass] Hcur Hin Hfile Hcontent Hyaml Hrec.
  destruct (includes_after_step _ _ _ _ Hafter) as [spec [rest [path [Hl [Hp [Ht Hr]]]]]].
  destruct Hafter as [Hdoc [Hinc _]].
  cbn [resolveIncludes]. rewrite Hdoc, Hinc, Hcur, Hl. cbn [negb].
  rewrite include_loop_split, Hpass. cbn [fbind include_loop].
  unfold include_step, lift. rewrite Hp. cbn [fbind]. rewrite Ht. cbn [negb].
  rewrite Hr. cbn [fbind]. rewrite Hin, (file_content_own _ _ _ Hfile).
  destruct content as [|ch content]; [congruence|].
  rewrite Hyaml, Hrec. reflexivity.
Qed.

Lemma includes_after_normalized : forall doc currentFile before target,
  includes_after doc currentFile before target -> normalizePath target = target.
Proof.
  intros doc currentFile before target [_ [_ [spec [rest [path [_ [_ [_ <-]]]]]]]].
  apply resolvePath_normalized.
Qed.

Lemma include_cycle_of_three : forall fuel fileMap docA docB docC fileA fileB fileC
    contentB contentC beforeA beforeB beforeC,
  let A := normalizePath fileA in
  let passes := passes_over type_error_message yaml_load in
  A <> fileB -> fileB <> fileC -> A <> fileC ->
  includes_after docA fileA beforeA fileB ->
  includes_after docB fileB beforeB fileC ->
  includes_after docC fileC beforeC A ->
  passes (2 + fuel)%nat fileMap docA fileA [] beforeA ->
  passes (1 + fuel)%nat fileMap docB fileB [A] beforeB ->
  passes fuel fileMap docC fileC [A; fileB] beforeC ->
  file_lookup fileB fileMap = Some contentB -> contentB <> "" ->
  yaml_load contentB = Ok docB ->
  file_lookup fileC fileMap = Some contentC -> contentC <> "" ->
  yaml_load contentC = Ok docC ->
  resolveIncludes type_error_message yaml_load (3 + fuel) docA fileA fileMap []
  = Some (Throw ("Circular include detected: " ++ A ++ " → " ++ fileB ++ " → "
                 ++ fileC ++ " → " ++ A)).
Proof.
  intros fuel fileMap docA docB docC fileA fileB fileC contentB contentC
    beforeA beforeB beforeC A passes
    Hab Hbc Hac HA HB HC HpA HpB HpC HfB HcB HyB HfC HcC HyC.
  pose proof (includes_after_normalized _ _ _ _ HA) as HnB.
  pose proof (includes_after_normalized _ _ _ _ HB) as HnC.
  assert (Hmem : forall x y : string, x <> y -> String.eqb x y = false)
    by (intros; now apply String.eqb_neq).
  change (3 + fuel)%nat with (S (S (S fuel))).
  apply (include_descend _ docA fileA fileMap [] beforeA fileB contentB docB);
    try assumption; try reflexivity.
  { simpl. fold A. rewrite (Hmem fileB A); [reflexivity | congruence]. }
  apply (include_descend _ docB fileB fileMap _ beforeB fileC contentC docC);
    try assumption.
  { simpl. fold A. rewrite HnB, (Hmem fileB A); [reflexivity | congruence]. }
  { simpl. fold A. rewrite HnB, (Hmem fileC A), (Hmem fileC fileB);
      [reflexivity | congruence | congruence]. }
  cbn [app]. fold A. rewrite HnB.
  rewrite (include_cycle fuel docC fileC fileMap [A; fileB] beforeC A HC).
  - rewrite HnC. unfold circular_include_message. cbn [app join].
    do 2 f_equal. repeat rewrite append_assoc. reflexivity.
  - exact HpC.
  - simpl. rewrite HnC, (Hmem fileC A), (Hmem fileC fileB);
      [reflexivity | congruence | congruence].
  - simpl. rewrite HnC, String.eqb_refl. reflexivity.
Qed.

End Cycles.

(** C5: a cycle of three services under [extends], and a cycle of three
    files under [include], each make the resolver stop with an error whose
    message names the chain of visited nodes: whatever the rest of the
    services or files holds, and with any fuel beyond the depth of the
    cycle.  An include of the cycle may stand anywhere in the include list of
    its file, provided the entries before it run through without an error
    of their own (the loop would stop at that error instead). *)
Theorem cycles_of_three_are_reported :
  forall type_error_message yaml_load,
    (forall fuel allServices a b c,
        a <> b -> b <> c -> a <> c ->
        extends_to (get allServices a) b ->
        extends_to (get allServices b) c ->
        extends_to (get allServices c) a ->
        resolveServiceExtends type_error_message (4 + fuel) (get allServices a)
          allServices []
        = Some (Throw ("Circular extends detected: " ++ b ++ " → " ++ c ++ " → " ++ a
                       ++ " → " ++ b)))
    /\ (forall fuel fileMap docA docB docC fileA fileB fileC contentB contentC
               beforeA beforeB beforeC,
          let A := normalizePath fileA in
          let passes := passes_over type_error_message yaml_load in
          A <> fileB -> fileB <> fileC -> A <> fileC ->
          includes_after docA fileA beforeA fileB ->
          includes_after docB fileB beforeB fileC ->
          includes_after docC fileC beforeC A ->
          passes (2 + fuel)%nat fileMap docA fileA [] beforeA ->
          passes (1 + fuel)%nat fileMap docB fileB [A] beforeB ->
          passes fuel fileMap docC fileC [A; fileB] beforeC ->
          file_lookup fileB fileMap = Some contentB -> contentB <> "" ->
          yaml_load contentB = Ok docB ->
          file_lookup fileC fileMap = Some contentC -> contentC <> "" ->
          yaml_load contentC = Ok docC ->
          resolveIncludes type_error_message yaml_load (3 + fuel) docA fileA fileMap []
          = Some (Throw ("Circular include detected: " ++ A ++ " → " ++ fileB ++ " → "
                         ++ fileC ++ " → " ++ A))).
Proof.
  intros tem yaml_load. split.
  - apply extends_cycle_of_three.
  - apply include_cycle_of_three.
Qed.

(** ** Termination of the two resolvers *)

Lemma filter_length_mono : forall (A : Type) (p q : A -> bool) l,
  (forall x, In x l -> q x = true -> p x = true) ->
  (List.length (filter q l) <= List.length (filter p l))%nat.
Proof.
  intros A p q l H. induction l as [|x l IH]; simpl; [lia|].
  assert (IH' : (List.length (filter q l) <= List.length (filter p l))%nat).
  { apply IH. intros y Hy. apply H. now right. }
  destruct (q x) eqn:Eq.
  - rewrite (H x (or_introl eq_refl) Eq). simpl. lia.
  - destruct (p x); simpl; lia.
Qed.

(** A filter that drops one more element is strictly shorter. *)
Lemma filter_length_lt : forall (A : Type) (p q : A -> bool) l x,
  (forall y, In y l -> q y = true -> p y = true) ->
  In x l -> p x = true -> q x = false ->
  (List.length (filter q l) < List.length (filter p l))%nat.
Proof.
  intros A p q l x H Hin Hp Hq. induction l as [|y l IH]; simpl; [contradiction|].
  assert (Hl : forall z, In z l -> q z = true -> p z = true)
    by (intros z Hz; apply H; now right).
  destruct Hin as [->|Hin].
  - rewrite Hp, Hq. simpl. pose proof (filter_length_mono A p q l Hl). lia.
  - specialize (IH Hl Hin). destruct (q y) eqn:Eq.
    + rewrite (H y (or_introl eq_refl) Eq). simpl. lia.
    + destruct (p y); simpl; lia.
Qed.

Lemma set_has_app : forall x s t, set_has x (s ++ t) = set_has x s || set_has x t.
Proof.
  intros x s t. induction s as [|y s IH]; simpl; [reflexivity|].
  destruct (value_eqb x y); [reflexivity | exact IH].
Qed.

Lemma string_mem_app : forall x s t,
  string_mem x (s ++ t) = string_mem x s || string_mem x t.
Proof.
  intros x s t. induction s as [|y s IH]; simpl; [reflexivity|].
  destruct (String.eqb x y); [reflexivity | exact IH].
Qed.

Lemma pending_extends_bound : forall allServices visited,
  (pending_extends allServices visited <= List.length (own_entries allServices))%nat.
Proof. intros. unfold pending_extends. apply List.filter_length_le. Qed.

(** Entering a service whose [extends] names an unvisited service leaves
    fewer services to enter. *)
Lemma pending_extends_decreases : forall allServices visited k service,
  In (k, service) (own_entries allServices) ->
  truthy (get service "extends") = true ->
  set_has (extended_name (get service "extends")) visited = false ->
  (pending_extends allServices
     (visited ++ [extended_name (get service "extends")])
   < pending_extends allServices visited)%nat.
Proof.
  intros allServices visited k service Hin Ht Hvis. unfold pending_extends.
  apply filter_length_lt with (x := (k, service)); try exact Hin.
  - intros [k' s'] _ H. simpl in *. apply andb_true_iff in H as [H1 H2].
    rewrite H1. rewrite set_has_app in H2. apply negb_true_iff in H2.
    apply orb_false_iff in H2 as [H2 _]. now rewrite H2.
  - simpl. now rewrite Ht, Hvis.
  - simpl. rewrite Ht, set_has_app. simpl. rewrite value_eqb_refl.
    now rewrite orb_true_r.
Qed.

Lemma pending_files_bound : forall fileMap visited,
  (pending_files fileMap visited
   <= List.length fileMap + List.length object_prototype_names)%nat.
Proof.
  intros. unfold pending_files.
  pose proof (List.filter_length_le
                (fun entry : string * string =>
                   negb (String.eqb (snd entry) "")
                   && negb (string_mem (fst entry) visited)) fileMap).
  pose proof (List.filter_length_le
                (fun k => negb (string_mem k visited)) object_prototype_names).
  lia.
Qed.

Lemma file_lookup_In : forall fileMap k c,
  file_lookup k fileMap = Some c -> In (k, c) fileMap.
Proof.
  induction fileMap as [|[k' c'] fileMap IH]; intros k c H; simpl in H.
  - discriminate.
  - destruct (String.eqb_spec k k') as [->|Hne].
    + inversion H. now left.
    + right. now apply IH.
Qed.

(** Entering a file with content that is not yet in the chain leaves fewer
    files to enter. *)
Lemma pending_files_decreases : forall fileMap visited k c,
  file_content k fileMap = Some c -> c <> "" ->
  string_mem k visited = false ->
  (pending_files fileMap (visited ++ [k]) < pending_files fileMap visited)%nat.
Proof.
  intros fileMap visited k c Hl Hc Hvis. unfold pending_files.
  assert (Hfiles : forall y : string * string, In y fileMap ->
            negb (String.eqb (snd y) "") && negb (string_mem (fst y) (visited ++ [k]))
            = true ->
            negb (String.eqb (snd y) "") && negb (string_mem (fst y) visited) = true).
  { intros [k' c'] _ H. simpl in *. apply andb_true_iff in H as [H1 H2].
    rewrite H1. rewrite string_mem_app in H2. apply negb_true_iff in H2.
    apply orb_false_iff in H2 as [H2 _]. now rewrite H2. }
  assert (Hnames : forall y : string, In y object_prototype_names ->
            negb (string_mem y (visited ++ [k])) = true ->
            negb (string_mem y visited) = true).
  { intros y _ H. rewrite string_mem_app in H. apply negb_true_iff in H.
    apply orb_false_iff in H as [H _]. now rewrite H. }
  unfold file_content in Hl. destruct (file_lookup k fileMap) as [c'|] eqn:El.
  - inversion Hl; subst c'.
    pose proof (filter_length_mono _ _ _ _ Hnames).
    assert ((List.length
               (filter (fun entry : string * string =>
                          negb (String.eqb (snd entry) "")
                          && negb (string_mem (fst entry) (visited ++ [k]))) fileMap)
             < List.length
                 (filter (fun entry : string * string =>
                            negb (String.eqb (snd entry) "")
                            && negb (string_mem (fst entry) visited)) fileMap))%nat);
      [|lia].
    apply filter_length_lt with (x := (k, c)).
    + exact Hfiles.
    + now apply file_lookup_In.
    + simpl. rewrite Hvis. apply String.eqb_neq in Hc. now rewrite Hc.
    + simpl. rewrite string_mem_app. simpl. rewrite String.eqb_refl.
      now rewrite orb_true_r, andb_false_r.
  - destruct (inherited k) eqn:Ei; [|discriminate].
    pose proof (filter_length_mono _ _ _ _ Hfiles).
    assert ((List.length
               (filter (fun y => negb (string_mem y (visited ++ [k])))
                       object_prototype_names)
             < List.length
                 (filter (fun y => negb (string_mem y visited))
                         object_prototype_names))%nat); [|lia].
    apply filter_length_lt with (x := k).
    + exact Hnames.
    + now apply string_mem_In.
    + now rewrite Hvis.
    + rewrite string_mem_app. simpl. rewrite String.eqb_refl. now rewrite orb_true_r.
Qed.

Section Termination.

Variable type_error_message : value -> string -> string.
Variable yaml_load : string -> res value.

(** With more fuel than services left to enter, [resolveServiceExtends]
    returns or throws. *)
Lemma resolveServiceExtends_terminates : forall fuel service allServices visited,
  (truthy (get service "extends") = false
   \/ exists k, In (k, service) (own_entries allServices)) ->
  (pending_extends allServices visited < fuel)%nat ->
  resolveServiceExtends type_error_message fuel service allServices visited <> None.
Proof.
  induction fuel as [|fuel IH]; intros service allServices visited Hfrom Hfuel.
  - lia.
  - cbn [resolveServiceExtends]. unfold lift.
    destruct (get_prop type_error_message service "extends") as [ext|] eqn:Eext;
      cbn [fbind]; [|discriminate].
    apply get_prop_Ok in Eext as [_ ->].
    destruct (truthy (get service "extends")) eqn:Et; cbn [negb]; [|discriminate].
    destruct Hfrom as [Hf|[k Hin]]; [congruence|].
    destruct (set_has _ visited) eqn:Evis; [discriminate|].
    destruct (member_prop type_error_message allServices _) as [extended|] eqn:Ea;
      cbn [fbind]; [|discriminate].
    apply member_prop_Ok in Ea as [_ ->].
    destruct (truthy (member allServices _)) eqn:Ebase; cbn [negb]; [|discriminate].
    unfold set_add. rewrite Evis.
    pose proof (pending_extends_decreases _ _ _ _ Hin Et Evis) as Hdec.
    match goal with
    | |- fbind ?r _ <> None => destruct r as [[resolvedBase|msg]|] eqn:Erec
    end; cbn [fbind]; try discriminate.
    exfalso. revert Erec. apply IH; [|lia].
    destruct (member_cases allServices (to_str (extended_name (get service "extends"))))
      as [Em|Em]; rewrite Em; [|now left].
    destruct (get_cases allServices (to_str (extended_name (get service "extends"))))
      as [E|[[z E]|Hk]].
    + left. now rewrite E.
    + left. now rewrite E.
    + right. eauto.
Qed.

Lemma resolve_services_terminates : forall fuel entries allServices acc,
  (forall k service, In (k, service) entries ->
     In (k, service) (own_entries allServices)) ->
  (List.length (own_entries allServices) < fuel)%nat ->
  resolve_services type_error_message fuel entries allServices acc <> None.
Proof.
  intros fuel. induction entries as [|[name service] entries IH];
    intros allServices acc Hsub Hfuel; simpl; [discriminate|].
  destruct (resolveServiceExtends _ fuel service allServices [])
    as [[resolved|msg]|] eqn:E; try discriminate.
  - apply IH; [|exact Hfuel]. intros k s Hin. apply Hsub. now right.
  - exfalso. revert E. apply resolveServiceExtends_terminates.
    + right. exists name. apply Hsub. now left.
    + pose proof (pending_extends_bound allServices []). lia.
Qed.

(** [resolveAllExtends] is total. *)
Lemma resolveAllExtends_total : forall compose,
  resolveAllExtends type_error_message compose <> None.
Proof.
  intros compose. unfold resolveAllExtends, lift.
  destruct (get_prop type_error_message compose "services") as [services|];
    cbn [fbind]; [|discriminate].
  destruct (truthy services); cbn [negb]; [|discriminate].
  destruct (resolve_services _ _ _ _ _) as [[resolved|msg]|] eqn:E; cbn [fbind];
    try discriminate.
  exfalso. revert E. apply resolve_services_terminates.
  - auto.
  - unfold extends_fuel. lia.
Qed.

Lemma include_loop_total : forall recur currentFile fileMap newVisited includes merged,
  (forall included absoluteInclude content,
     string_mem absoluteInclude newVisited = false ->
     file_content absoluteInclude fileMap = Some content -> content <> "" ->
     normalizePath absoluteInclude = absoluteInclude ->
     recur included absoluteInclude <> None) ->
  include_loop type_error_message yaml_load recur currentFile fileMap newVisited
    includes merged <> None.
Proof.
  intros recur currentFile fileMap newVisited includes.
  induction includes as [|spec includes IH]; intros merged Hrec; simpl;
    [discriminate|].
  assert (Hstep : include_step type_error_message yaml_load recur currentFile fileMap
                    newVisited merged spec <> None).
  { unfold include_step, lift.
    destruct (include_path type_error_message spec) as [includePath|]; cbn [fbind];
      [|discriminate].
    destruct (truthy includePath); cbn [negb]; [|discriminate].
    destruct (resolve_include type_error_message currentFile includePath)
      as [absoluteInclude|] eqn:Er; cbn [fbind]; [|discriminate].
    destruct (string_mem absoluteInclude newVisited) eqn:Evis; [discriminate|].
    destruct (file_content absoluteInclude fileMap) as [content|] eqn:El;
      [|discriminate].
    destruct content as [|ch content]; [discriminate|].
    destruct (yaml_load (String ch content)) as [included|]; [|discriminate].
    assert (Hn : normalizePath absoluteInclude = absoluteInclude).
    { unfold resolve_include in Er. destruct includePath; try discriminate.
      inversion Er. apply resolvePath_normalized. }
    pose proof (Hrec included absoluteInclude _ Evis El
                  ltac:(discriminate) Hn) as Hnone.
    destruct (recur included absoluteInclude) as [[r|m]|]; cbn [fbind];
      try discriminate. congruence. }
  destruct (include_step _ _ _ _ _ _ _ _) as [[merged'|msg]|]; cbn [fbind];
    try discriminate; [now apply IH | congruence].
Qed.

(** With more fuel than files left to enter, [resolveIncludes] returns or
    throws. *)
Lemma resolveIncludes_terminates : forall fuel compose currentFile fileMap visited,
  (pending_files fileMap (visited ++ [normalizePath currentFile]) < fuel)%nat ->
  resolveIncludes type_error_message yaml_load fuel compose currentFile fileMap visited
  <> None.
Proof.
  induction fuel as [|fuel IH]; intros compose currentFile fileMap visited Hfuel.
  - lia.
  - cbn [resolveIncludes].
    destruct (truthy compose); cbn [negb]; [|discriminate].
    destruct (truthy (get compose "include")); cbn [negb]; [|discriminate].
    destruct (string_mem (normalizePath currentFile) visited); [discriminate|].
    apply include_loop_total.
    intros included absoluteInclude content Hvis Hl Hc Hn.
    apply IH. rewrite Hn.
    pose proof (pending_files_decreases _ _ _ _ Hl Hc Hvis). lia.
Qed.

(** [resolveIncludes] is total from the first call. *)
Lemma resolveIncludes_total : forall compose currentFile fileMap,
  resolveIncludes type_error_message yaml_load (include_fuel fileMap) compose
    currentFile fileMap [] <> None.
Proof.
  intros. apply resolveIncludes_terminates.
  pose proof (pending_files_bound fileMap ([] ++ [normalizePath currentFile])).
  unfold include_fuel. lia.
Qed.

(** [parseCompose] is total. *)
Lemma parseCompose_total : forall yamlString o,
  ComposeParser.parseCompose type_error_message yaml_load yamlString o <> None.
Proof.
  intros yamlString o.
  assert (Hattempt : ComposeParser.attempt type_error_message yaml_load yamlString o
                     <> None);
    [|unfold ComposeParser.parseCompose;
      destruct (ComposeParser.attempt _ _ _ _) as [[?|?]|];
      [discriminate | discriminate | congruence]].
  unfold ComposeParser.attempt, lift.
  destruct (ComposeParser.parse_root yaml_load yamlString) as [doc|msg];
    cbn [fbind]; [|discriminate].
  unfold ComposeParser.after_parse, ComposeParser.include_stage.
  assert (Hinc : match (if ComposeParser.enableIncludes o
            then match resolveIncludes type_error_message yaml_load
                         (include_fuel (ComposeParser.fileMap o)) doc
                         (ComposeParser.basePath o) (ComposeParser.fileMap o) [] with
                 | None => None
                 | Some (Ok doc') => Some (doc', [])
                 | Some (Throw msg) =>
                     Some (doc, [ComposeParser.diag "include" msg "include-resolution"])
                 end
            else Some (doc, [])) with None => False | Some _ => True end).
  { destruct (ComposeParser.enableIncludes o); [|exact I].
    pose proof (resolveIncludes_total doc (ComposeParser.basePath o)
                  (ComposeParser.fileMap o)) as Ht.
    destruct (resolveIncludes _ _ _ _ _ _ _) as [[?|?]|]; [exact I | exact I | congruence]. }
  destruct (if ComposeParser.enableIncludes o then _ else _) as [[doc1 errors1]|];
    [|contradiction].
  unfold ComposeParser.extends_stage.
  destruct (ComposeParser.enableExtends o); [|discriminate].
  pose proof (resolveAllExtends_total doc1) as Ht.
  destruct (resolveAllExtends type_error_message doc1) as [[?|?]|];
    [discriminate | discriminate | congruence].
Qed.

End Termination.

(** ** The orchestrator *)

Import Notions.

Section Orchestrator.

Variable type_error_message : value -> string -> string.
Variable yaml_load : string -> res value.

Local Abbreviation include_stage := (ComposeParser.include_stage type_error_message yaml_load).
Local Abbreviation extends_stage := (ComposeParser.extends_stage type_error_message).
Local Abbreviation variables_stage := (ComposeParser.variables_stage type_error_message).
Local Abbreviation profiles_stage := (ComposeParser.profiles_stage type_error_message).
Local Abbreviation finish := (ComposeParser.finish type_error_message).
Local Abbreviation parseCompose := (ComposeParser.parseCompose type_error_message yaml_load).

(** The include stage always hands a document on: the resolved one, or, when
    resolution threw, the document it was given, with one [include]
    diagnostic. *)
Lemma include_stage_cases : forall o doc,
  (exists doc1, include_stage o doc = Some (doc1, []))
  \/ (exists msg,
        ComposeParser.enableIncludes o = true
        /\ resolveIncludes type_error_message yaml_load
             (include_fuel (ComposeParser.fileMap o)) doc (ComposeParser.basePath o)
             (ComposeParser.fileMap o) [] = Some (Throw msg)
        /\ include_stage o doc
           = Some (doc, [ComposeParser.diag "include" msg "include-resolution"])).
Proof.
  intros o doc. unfold ComposeParser.include_stage.
  destruct (ComposeParser.enableIncludes o); [|left; eauto].
  pose proof (resolveIncludes_total type_error_message yaml_load doc
                (ComposeParser.basePath o) (ComposeParser.fileMap o)) as Ht.
  destruct (resolveIncludes _ _ _ _ _ _ _) as [[doc1|msg]|]; [left|right|congruence];
    eauto.
Qed.

(** The extends stage does the same with an [extends] diagnostic. *)
Lemma extends_stage_cases : forall o doc,
  (exists doc1, extends_stage o doc = Some (doc1, []))
  \/ (exists msg,
        ComposeParser.enableExtends o = true
        /\ resolveAllExtends type_error_message doc = Some (Throw msg)
        /\ extends_stage o doc
           = Some (doc, [ComposeParser.diag "extends" msg "extends-resolution"])).
Proof.
  intros o doc. unfold ComposeParser.extends_stage.
  destruct (ComposeParser.enableExtends o); [|left; eauto].
  pose proof (resolveAllExtends_total type_error_message doc) as Ht.
  destruct (resolveAllExtends _ _) as [[doc1|msg]|]; [left|right|congruence]; eauto.
Qed.

Lemma report_events_types : forall events seen d,
  In d (ComposeParser.report_events events seen) ->
  ComposeParser.type d = "variable".
Proof.
  induction events as [|ev events IH]; intros seen d H; simpl in H.
  - contradiction.
  - destruct (string_mem _ seen); [now apply (IH seen)|].
    destruct H as [<-|H]; [reflexivity | now apply IH in H].
Qed.

Lemma variables_stage_types : forall o doc d,
  In d (snd (variables_stage o doc)) ->
  ComposeParser.type d = "variable".
Proof.
  intros o doc d H. unfold ComposeParser.variables_stage in H.
  destruct (ComposeParser.enableVariables o); [|contradiction].
  destruct (interpolate type_error_message doc _ _ false) as [events [doc'|msg]];
    simpl in H.
  - now apply report_events_types in H.
  - apply in_app_or in H as [H|[<-|[]]]; [now apply report_events_types in H|].
    reflexivity.
Qed.

(** *** The stages outside the handlers *)

(** The check of the variables reads an object without an exception. *)
Lemma undefined_among_object : forall env names,
  undefined_among type_error_message (Some env) names
  = Ok (filter (fun name => nullish (env_member env name)) names).
Proof.
  intros env. induction names as [|name names IH]; [reflexivity|].
  cbn [undefined_among env_value bind filter]. rewrite IH. cbn [bind].
  now destruct (nullish (env_member env name)).
Qed.

(** Off [null], the first variable it looks up raises the TypeError. *)
Lemma undefined_among_null : forall names,
  undefined_among type_error_message None names
  = match names with
    | [] => Ok []
    | name :: _ => Throw (type_error_message VNull name)
    end.
Proof. intros [|name names]; reflexivity. Qed.

Lemma is_active_searchable : forall activeProfiles profile,
  searchable activeProfiles ->
  exists found, is_active type_error_message activeProfiles profile = Ok found.
Proof.
  intros activeProfiles profile H. unfold is_active.
  destruct (truthy activeProfiles) eqn:Et; cbn [negb]; [|eauto].
  destruct activeProfiles; unfold searchable in H; try congruence; eauto.
Qed.

Lemma is_active_throws : forall activeProfiles profile msg,
  is_active type_error_message activeProfiles profile = Throw msg ->
  ~ searchable activeProfiles.
Proof.
  intros activeProfiles profile msg H Hs.
  destruct (is_active_searchable activeProfiles profile Hs) as [found E]. congruence.
Qed.

Lemma some_active_throws : forall activeProfiles serviceProfiles msg,
  some_active type_error_message activeProfiles serviceProfiles = Throw msg ->
  ~ searchable activeProfiles.
Proof.
  intros activeProfiles. induction serviceProfiles as [|p ps IH]; intros msg H;
    cbn [some_active] in H; [discriminate|].
  destruct (is_active type_error_message activeProfiles p) as [found|m] eqn:E;
    cbn [bind] in H.
  - destruct found; [discriminate | now apply (IH msg)].
  - now apply (is_active_throws _ _ _ E).
Qed.

Lemma filter_services_throws : forall activeProfiles entries acc msg,
  filter_services type_error_message activeProfiles entries acc = Throw msg ->
  ~ searchable activeProfiles.
Proof.
  intros activeProfiles. induction entries as [|[name service] entries IH];
    intros acc msg H; cbn [filter_services] in H; [discriminate|].
  destruct (matchesProfiles type_error_message service activeProfiles)
    as [keep|m] eqn:E; cbn [bind] in H.
  - now apply (IH _ _ H).
  - unfold matchesProfiles in E. destruct (getServiceProfiles service); [discriminate|].
    now apply (some_active_throws _ _ _ E).
Qed.

Lemma filterByProfiles_throws : forall compose activeProfiles msg,
  filterByProfiles type_error_message compose activeProfiles = Throw msg ->
  ~ searchable activeProfiles.
Proof.
  intros compose activeProfiles msg H. unfold filterByProfiles in H.
  destruct (truthy compose); cbn [negb] in H; [|discriminate].
  destruct (truthy (get compose "services")); cbn [negb] in H; [|discriminate].
  destruct (filter_services _ _ _ _) as [filtered|m] eqn:E; cbn [bind] in H;
    [discriminate|].
  now apply (filter_services_throws _ _ _ _ E).
Qed.

(** What the tail of the pipeline returns when nothing escapes it: a
    document, and after the diagnostics it was given at most one warning and
    then the diagnostics of the interpolation. *)
Lemma finish_Ok : forall o doc errors0 r,
  finish o doc errors0 = Ok r ->
  exists warn vars,
    ComposeParser.compose r <> None
    /\ ComposeParser.errors r = errors0 ++ warn ++ vars
    /\ (warn = []
        \/ exists d, warn = [d] /\ ComposeParser.type d = "warning"
                     /\ ComposeParser.stage d = "variable-validation")
    /\ (forall d, In d vars -> ComposeParser.type d = "variable").
Proof.
  intros o doc errors0 r H. unfold ComposeParser.finish in H.
  destruct (if ComposeParser.enableVariables o then _ else _) as [undefinedVars|];
    cbn [bind] in H; [|discriminate].
  pose proof (variables_stage_types o doc) as Hv.
  destruct (variables_stage o doc) as [doc1 vars]. cbn [snd] in Hv.
  destruct (profiles_stage o doc1) as [doc2|]; cbn [bind] in H; [|discriminate].
  injection H as <-. cbn [ComposeParser.compose ComposeParser.errors].
  destruct undefinedVars as [|name names].
  - exists [], vars. repeat split; [discriminate | now left | exact Hv].
  - eexists [_], vars. split; [discriminate|]. split; [now rewrite <- app_assoc|].
    split; [|exact Hv]. right. eexists. now repeat split.
Qed.

(** An exception escapes the tail of the pipeline only with options that are
    not as documented. *)
Lemma finish_throws : forall o doc errors0 msg,
  finish o doc errors0 = Throw msg -> ~ documented_options o.
Proof.
  intros o doc errors0 msg H [Henv Hact]. unfold ComposeParser.finish in H.
  destruct (ComposeParser.environment o) as [env|] eqn:Ee; [|congruence].
  assert (Hu : exists undefinedVars,
            (if ComposeParser.enableVariables o
             then getUndefinedVariables type_error_message doc (Some env)
             else Ok []) = Ok undefinedVars).
  { destruct (ComposeParser.enableVariables o); [|eauto].
    unfold getUndefinedVariables. rewrite undefined_among_object. eauto. }
  destruct Hu as [undefinedVars Hu]. rewrite Hu in H. cbn [bind] in H.
  destruct (ComposeParser.variables_stage _ o doc) as [doc1 vars] eqn:Ev.
  destruct (profiles_stage o doc1) as [doc2|m] eqn:Ep; cbn [bind] in H;
    [discriminate|].
  unfold ComposeParser.profiles_stage in Ep.
  destruct (ComposeParser.enableProfiles o); [|discriminate].
  now apply filterByProfiles_throws in Ep.
Qed.

Lemma finish_documented : forall o doc errors0,
  documented_options o -> exists r, finish o doc errors0 = Ok r.
Proof.
  intros o doc errors0 H.
  destruct (finish o doc errors0) as [r|msg] eqn:E; [eauto|].
  now apply finish_throws in E.
Qed.

(** The stages before the tail always hand a document on. *)
Lemma stages_run : forall o doc,
  exists doc1 errors1 doc2 errors2,
    include_stage o doc = Some (doc1, errors1)
    /\ extends_stage o doc1 = Some (doc2, errors2)
    /\ (errors1 = []
        \/ exists msg,
             errors1 = [ComposeParser.diag "include" msg "include-resolution"])
    /\ (errors2 = []
        \/ exists msg,
             errors2 = [ComposeParser.diag "extends" msg "extends-resolution"]).
Proof.
  intros o doc.
  destruct (include_stage_cases o doc) as [[doc1 E1]|[m1 [_ [_ E1]]]];
    [destruct (extends_stage_cases o doc1) as [[doc2 E2]|[m2 [_ [_ E2]]]]
    |destruct (extends_stage_cases o doc) as [[doc2 E2]|[m2 [_ [_ E2]]]]];
    do 4 eexists; (split; [exact E1|]); (split; [exact E2|]); split; eauto.
Qed.

(** [parseCompose], once the root has parsed: the stages, the tail, and the
    handler around them. *)
Lemma parseCompose_parsed : forall yamlString o doc doc1 errors1 doc2 errors2,
  ComposeParser.parse_root yaml_load yamlString = Ok doc ->
  include_stage o doc = Some (doc1, errors1) ->
  extends_stage o doc1 = Some (doc2, errors2) ->
  parseCompose yamlString o
  = Some (match finish o doc2 (errors1 ++ errors2) with
          | Ok r => r
          | Throw msg => ComposeParser.fatal_result msg
          end).
Proof.
  intros yamlString o doc doc1 errors1 doc2 errors2 Hroot H1 H2.
  unfold ComposeParser.parseCompose, ComposeParser.attempt, lift.
  rewrite Hroot. cbn [fbind]. unfold ComposeParser.after_parse. rewrite H1, H2.
  now destruct (finish o doc2 (errors1 ++ errors2)).
Qed.

End Orchestrator.

(** C6 (amended). A failure of the parse of the root gives the fatal
    result, with no document and a single fatal diagnostic.  Once the root
    has parsed, an exception of the include stage, or of the extends stage,
    becomes one [include] (or [extends]) diagnostic and the pipeline goes on
    with the document it had before that stage; the result is then the one
    of the remaining stages, or the fatal result when an exception escapes
    them, outside the handlers of the stages.  With options as documented
    (an object for the environment, a list or a string of active profiles)
    nothing escapes: the result holds a document and no fatal diagnostic, so
    that the failure of the root is the only fatal outcome. *)
Theorem only_the_root_parse_is_fatal :
  forall type_error_message yaml_load yamlString o,
    let parseCompose := ComposeParser.parseCompose type_error_message yaml_load in
    let include_stage := ComposeParser.include_stage type_error_message yaml_load in
    let extends_stage := ComposeParser.extends_stage type_error_message in
    let finish := ComposeParser.finish type_error_message in
    match ComposeParser.parse_root yaml_load yamlString with
    | Throw msg =>
        parseCompose yamlString o = Some (ComposeParser.fatal_result msg)
        /\ ComposeParser.compose (ComposeParser.fatal_result msg) = None
        /\ ComposeParser.errors (ComposeParser.fatal_result msg)
           = [ComposeParser.diag "fatal" msg "yaml-parsing"]
    | Ok doc =>
        exists doc1 errors1 doc2 errors2,
          include_stage o doc = Some (doc1, errors1)
          /\ extends_stage o doc1 = Some (doc2, errors2)
          /\ (forall msg,
                ComposeParser.enableIncludes o = true ->
                resolveIncludes type_error_message yaml_load
                  (include_fuel (ComposeParser.fileMap o)) doc
                  (ComposeParser.basePath o) (ComposeParser.fileMap o) []
                = Some (Throw msg) ->
                doc1 = doc
                /\ errors1 = [ComposeParser.diag "include" msg "include-resolution"])
          /\ (forall msg,
                ComposeParser.enableExtends o = true ->
                resolveAllExtends type_error_message doc1 = Some (Throw msg) ->
                doc2 = doc1
                /\ errors2 = [ComposeParser.diag "extends" msg "extends-resolution"])
          /\ parseCompose yamlString o
             = Some (match finish o doc2 (errors1 ++ errors2) with
                     | Ok r => r
                     | Throw msg => ComposeParser.fatal_result msg
                     end)
          /\ (forall r, finish o doc2 (errors1 ++ errors2) = Ok r ->
                ComposeParser.compose r <> None
                /\ forall d, In d (ComposeParser.errors r) ->
                     ComposeParser.type d <> "fatal")
          /\ (documented_options o ->
                exists r, finish o doc2 (errors1 ++ errors2) = Ok r)
    end.
Proof.
  intros tem yaml_load yamlString o parseCompose include_stage extends_stage finish.
  destruct (ComposeParser.parse_root yaml_load yamlString) as [doc|msg] eqn:Hroot.
  - destruct (stages_run tem yaml_load o doc)
      as [doc1 [errors1 [doc2 [errors2 [E1 [E2 [H1 H2]]]]]]].
    exists doc1, errors1, doc2, errors2.
    split; [exact E1|]. split; [exact E2|]. split; [|split; [|split; [|split]]].
    + intros msg Hon Hthrow. unfold ComposeParser.include_stage in E1.
      rewrite Hon, Hthrow in E1. now injection E1 as <- <-.
    + intros msg Hon Hthrow. unfold ComposeParser.extends_stage in E2.
      rewrite Hon, Hthrow in E2. now injection E2 as <- <-.
    + exact (parseCompose_parsed tem yaml_load yamlString o doc doc1 errors1
               doc2 errors2 Hroot E1 E2).
    + intros r Hr.
      destruct (finish_Ok tem o doc2 (errors1 ++ errors2) r Hr)
        as [warn [vars [Hdoc [Herr [Hwarn Hvars]]]]].
      split; [exact Hdoc|]. intros d Hd. rewrite Herr in Hd.
      apply in_app_or in Hd as [Hd|Hd]; [apply in_app_or in Hd as [Hd|Hd]|
        apply in_app_or in Hd as [Hd|Hd]].
      * destruct H1 as [->|[m ->]]; [contradiction|].
        destruct Hd as [<-|[]]. discriminate.
      * destruct H2 as [->|[m ->]]; [contradiction|].
        destruct Hd as [<-|[]]. discriminate.
      * destruct Hwarn as [->|[w [-> [Hw _]]]]; [contradiction|].
        destruct Hd as [<-|[]]. rewrite Hw. discriminate.
      * rewrite (Hvars d Hd). discriminate.
    + intros Hdoc. exact (finish_documented tem o doc2 (errors1 ++ errors2) Hdoc).
  - unfold parseCompose, ComposeParser.parseCompose, ComposeParser.attempt, lift.
    rewrite Hroot. repeat split.
Qed.

(** ** Merging included documents *)

Lemma lookup_spread2 : forall b a k,
  NoDup (map fst b) ->
  lookup k (spread2 a b) =
  match lookup k b with
  | Some v => Some v
  | None => lookup k a
  end.
Proof.
  unfold spread2. induction b as [|[k0 v0] b IH]; intros a k Hnd; simpl.
  - reflexivity.
  - inversion Hnd as [|? ? Hnotin Hnd']; subst. rewrite (IH _ _ Hnd').
    destruct (String.eqb_spec k k0) as [->|Hne].
    + apply lookup_None_keys in Hnotin. now rewrite Hnotin, lookup_set_same.
    + destruct (lookup k b); [reflexivity|].
      apply lookup_set_other. congruence.
Qed.

Lemma NoDup_spread2 : forall b a, NoDup (map fst a) -> NoDup (map fst (spread2 a b)).
Proof.
  unfold spread2. induction b as [|[k0 v0] b IH]; intros a H; simpl; [exact H|].
  apply IH. now apply NoDup_obj_set.
Qed.

Lemma reserved_not_length : forall c, In c reserved_collections -> c <> "length".
Proof. intros c H E. subst c. simpl in H. intuition discriminate. Qed.

Lemma reserved_not_name : forall c, In c reserved_collections -> String.eqb c "name" = false.
Proof.
  intros c H. simpl in H.
  repeat (destruct H as [<-|H]; [reflexivity|]). contradiction.
Qed.

Lemma reserved_not_include : forall c, In c reserved_collections -> "include" <> c.
Proof. intros c H E. subst c. simpl in H. intuition discriminate. Qed.

Lemma entry_of_falsy : forall doc c k, truthy doc = false -> entry_of doc c k = None.
Proof.
  intros doc c k H. unfold entry_of.
  destruct doc as [| |b|n|s|xs|fields]; simpl in *; try reflexivity; try discriminate.
  apply negb_false_iff, String.eqb_eq in H. subst.
  destruct (String.eqb c "length"); reflexivity.
Qed.

Lemma entries_or_empty : forall v, own_entries (or_else v (VObj [])) = own_entries v.
Proof.
  intros v. unfold or_else. destruct (truthy v) eqn:E; [reflexivity|].
  now rewrite (falsy_no_entries _ E).
Qed.

Lemma merge_top_level_untouched : forall entries result k,
  ~ In k (map fst entries) -> lookup k (merge_top_level entries result) = lookup k result.
Proof.
  induction entries as [|[k0 v0] entries IH]; intros result k Hk;
    cbn [merge_top_level].
  - reflexivity.
  - simpl in Hk. rewrite IH; [|tauto].
    assert (Hne : k0 <> k) by (intros ->; tauto).
    destruct (String.eqb k0 "name"); [now apply lookup_set_other|].
    destruct (string_mem k0 reserved_collections); now apply lookup_set_other.
Qed.

(** What the merge leaves under a reserved collection the override lists. *)
Lemma merge_top_level_collection : forall entries result c v,
  NoDup (map fst entries) -> In (c, v) entries -> In c reserved_collections ->
  lookup c (merge_top_level entries result) =
  Some (VObj (spread2 (own_entries (or_else (obj_get result c) (VObj [])))
                      (own_entries (or_else v (VObj []))))).
Proof.
  induction entries as [|[k0 v0] entries IH]; intros result c v Hnd Hin Hc;
    cbn [merge_top_level].
  - contradiction.
  - inversion Hnd as [|? ? Hnotin Hnd']; subst. destruct Hin as [Heq|Hin].
    + inversion Heq; subst. rewrite merge_top_level_untouched by exact Hnotin.
      rewrite (reserved_not_name _ Hc).
      rewrite (proj2 (string_mem_In c reserved_collections) Hc).
      apply lookup_set_same.
    + assert (Hne : k0 <> c).
      { intros ->. apply Hnotin. now apply (in_map fst) in Hin. }
      assert (Hget : forall x, obj_get (obj_set result k0 x) c = obj_get result c)
        by (intros; now apply obj_get_set_other).
      rewrite (IH _ c v Hnd' Hin Hc).
      destruct (String.eqb k0 "name"); [now rewrite Hget|].
      destruct (string_mem k0 reserved_collections); now rewrite Hget.
Qed.

(** The override wins, key by key, under every reserved collection. *)
Lemma mergeComposeFiles_entry : forall base override c k,
  well_keyed override -> In c reserved_collections ->
  entry_of (mergeComposeFiles base override) c k =
  match entry_of override c k with
  | Some v => Some v
  | None => entry_of base c k
  end.
Proof.
  intros base override c k [Hnd Hsub] Hc. unfold mergeComposeFiles.
  destruct (truthy override) eqn:Eo; cbn [negb].
  2:{ rewrite (entry_of_falsy override c k Eo). unfold or_else.
      destruct (truthy base) eqn:Eb; [reflexivity|].
      now rewrite (entry_of_falsy base c k Eb). }
  destruct (truthy base) eqn:Eb; cbn [negb].
  2:{ unfold or_else. rewrite Eo, (entry_of_falsy base c k Eb).
      destruct (entry_of override c k); reflexivity. }
  unfold entry_of. simpl get.
  rewrite !(get_own_entries _ _ (reserved_not_length _ Hc)).
  unfold obj_get at 1.
  destruct (lookup c (own_entries override)) as [v|] eqn:El.
  - rewrite (merge_top_level_collection _ _ c v Hnd (lookup_In _ _ _ El) Hc).
    simpl own_entries. rewrite !entries_or_empty.
    rewrite lookup_spread2 by (apply (Hsub c); now apply lookup_In).
    unfold obj_get. now rewrite El.
  - rewrite merge_top_level_untouched by (now apply lookup_None_keys).
    unfold obj_get. now rewrite El.
Qed.

Lemma well_keyed_unique : forall v, unique_keys v = true -> well_keyed v.
Proof.
  intros v H. destruct (unique_keys_entries v H) as [Hnd Hsub]. split; [exact Hnd|].
  intros c x Hin. apply unique_keys_entries. now apply (Hsub c).
Qed.

Lemma collections_keyed_set : forall o k v,
  collections_keyed o -> NoDup (map fst (own_entries v)) ->
  collections_keyed (obj_set o k v).
Proof.
  intros o k v Ho Hv c x Hin. apply In_obj_set in Hin as [Heq|Hin].
  - now inversion Heq; subst.
  - now apply (Ho c).
Qed.

Lemma merge_top_level_keyed : forall entries result,
  collections_keyed entries -> NoDup (map fst result) -> collections_keyed result ->
  NoDup (map fst (merge_top_level entries result))
  /\ collections_keyed (merge_top_level entries result).
Proof.
  induction entries as [|[k0 v0] entries IH]; intros result He Hnd Hr;
    cbn [merge_top_level].
  - now split.
  - assert (Hv0 : NoDup (map fst (own_entries v0))) by (apply (He k0); now left).
    assert (He' : collections_keyed entries)
      by (intros c x Hin; apply (He c); now right).
    assert (Hold : NoDup (map fst (own_entries (or_else (obj_get result k0) (VObj []))))).
    { rewrite entries_or_empty. unfold obj_get.
      destruct (lookup k0 result) eqn:E; [|constructor].
      apply (Hr k0). now apply lookup_In. }
    destruct (String.eqb k0 "name").
    + apply IH; [exact He' | now apply NoDup_obj_set | now apply collections_keyed_set].
    + destruct (string_mem k0 reserved_collections).
      * apply IH; [exact He' | now apply NoDup_obj_set|].
        apply collections_keyed_set; [exact Hr|]. simpl. now apply NoDup_spread2.
      * apply IH; [exact He' | now apply NoDup_obj_set
                   | now apply collections_keyed_set].
Qed.

Lemma well_keyed_empty : well_keyed (VObj []).
Proof. split; [constructor | intros ? ? []]. Qed.

(** Merging two well-keyed documents gives a well-keyed document. *)
Lemma mergeComposeFiles_keyed : forall base override,
  well_keyed base -> well_keyed override ->
  well_keyed (mergeComposeFiles base override).
Proof.
  intros base override Hb Ho. unfold mergeComposeFiles, or_else.
  destruct (truthy override); cbn [negb].
  - destruct (truthy base); cbn [negb]; [|exact Ho].
    destruct Hb as [Hb1 Hb2], Ho as [Ho1 Ho2].
    destruct (merge_top_level_keyed (own_entries override) (own_entries base)
                Ho2 Hb1 Hb2) as [H1 H2].
    split; [exact H1 | exact H2].
  - destruct (truthy base); [exact Hb | apply well_keyed_empty].
Qed.

Section IncludeOrder.

Variable type_error_message : value -> string -> string.
Variable yaml_load : string -> res value.

(** js-yaml refuses a mapping with a repeated key. *)
Hypothesis yaml_unique_keys : forall text doc,
  yaml_load text = Ok doc -> unique_keys doc = true.

Local Abbreviation step := (include_step type_error_message yaml_load).
Local Abbreviation loop := (include_loop type_error_message yaml_load).
Local Abbreviation resolves := (include_resolves_to type_error_message yaml_load).

(** A round of the include loop skips the entry or merges the document it
    resolves to beneath the running result. *)
Lemma include_step_cases : forall recur currentFile fileMap newVisited merged spec merged',
  step recur currentFile fileMap newVisited merged spec = Some (Ok merged') ->
  (merged' = merged
   /\ exists p, include_path type_error_message spec = Ok p /\ truthy p = false)
  \/ exists r, resolves recur currentFile fileMap newVisited spec r
               /\ merged' = mergeComposeFiles r merged.
Proof.
  intros recur currentFile fileMap newVisited merged spec merged' H.
  unfold include_step, lift in H.
  destruct (include_path type_error_message spec) as [includePath|] eqn:Ep;
    cbn [fbind] in H; [|discriminate].
  destruct (truthy includePath) eqn:Et; cbn [negb] in H;
    [|left; split; [now inversion H | eauto]].
  destruct (resolve_include type_error_message currentFile includePath)
    as [absoluteInclude|] eqn:Er; cbn [fbind] in H; [|discriminate].
  destruct (string_mem absoluteInclude newVisited) eqn:Evis; [discriminate|].
  destruct (file_content absoluteInclude fileMap) as [content|] eqn:El; [|discriminate].
  destruct content as [|ch content]; [discriminate|].
  destruct (yaml_load (String ch content)) as [included|] eqn:Ey; [|discriminate].
  destruct (recur included absoluteInclude) as [[r|]|] eqn:Erec; cbn [fbind] in H;
    try discriminate.
  right. exists r. split; [|now inversion H].
  unfold resolve_include in Er. destruct includePath as [| | | |path| |];
    try discriminate.
  inversion Er; subst absoluteInclude.
  exists path, (resolvePath currentFile path), (String ch content), included.
  repeat split; try assumption; try discriminate.
  intros ->. discriminate.
Qed.

Lemma include_resolves_det : forall recur currentFile fileMap newVisited spec r r',
  resolves recur currentFile fileMap newVisited spec r ->
  resolves recur currentFile fileMap newVisited spec r' -> r = r'.
Proof.
  intros recur currentFile fileMap newVisited spec r r'
    [p [a [c [i [Hp [_ [Ha [_ [Hc [_ [Hy Hr]]]]]]]]]]]
    [p' [a' [c' [i' [Hp' [_ [Ha' [_ [Hc' [_ [Hy' Hr']]]]]]]]]]].
  rewrite Hp in Hp'. inversion Hp'; subst p'. subst a a'.
  rewrite Hc in Hc'. inversion Hc'; subst c'.
  rewrite Hy in Hy'. inversion Hy'; subst i'.
  rewrite Hr in Hr'. now inversion Hr'.
Qed.

Lemma include_loop_app : forall recur currentFile fileMap newVisited specs1 specs2 merged,
  loop recur currentFile fileMap newVisited (specs1 ++ specs2) merged =
  fbind (loop recur currentFile fileMap newVisited specs1 merged)
        (fun merged1 => loop recur currentFile fileMap newVisited specs2 merged1).
Proof.
  intros recur currentFile fileMap newVisited.
  induction specs1 as [|spec specs1 IH]; intros specs2 merged; simpl.
  - reflexivity.
  - destruct (include_step _ _ _ _ _ _ _ _) as [[merged'|msg]|]; cbn [fbind];
      [apply IH | reflexivity | reflexivity].
Qed.

Section Loop.

Variable recur : value -> string -> option (res value).
Variables (currentFile : string) (fileMap : file_map) (newVisited : list string).

Hypothesis recur_keyed : forall included absoluteInclude r content,
  yaml_load content = Ok included ->
  recur included absoluteInclude = Some (Ok r) -> well_keyed r.

Lemma resolves_keyed : forall spec r,
  resolves recur currentFile fileMap newVisited spec r -> well_keyed r.
Proof.
  intros spec r [p [a [c [i [_ [_ [_ [_ [_ [_ [Hy Hr]]]]]]]]]]].
  exact (recur_keyed _ _ _ _ Hy Hr).
Qed.

Lemma include_step_keyed : forall merged spec merged',
  step recur currentFile fileMap newVisited merged spec = Some (Ok merged') ->
  well_keyed merged -> well_keyed merged'.
Proof.
  intros merged spec merged' H Hm.
  apply include_step_cases in H as [[-> _]|[r [Hr ->]]]; [exact Hm|].
  apply mergeComposeFiles_keyed; [now apply (resolves_keyed spec) | exact Hm].
Qed.

Lemma include_loop_keyed : forall specs merged final,
  loop recur currentFile fileMap newVisited specs merged = Some (Ok final) ->
  well_keyed merged -> well_keyed final.
Proof.
  induction specs as [|spec specs IH]; intros merged final H Hm; simpl in H.
  - now inversion H; subst.
  - destruct (include_step _ _ _ _ _ _ _ _) as [[merged'|msg]|] eqn:E;
      cbn [fbind] in H; try discriminate.
    apply (IH _ _ H). now apply (include_step_keyed _ _ _ E).
Qed.

(** What the running result defines, it keeps to the end of the loop. *)
Lemma include_loop_keeps : forall specs merged final c k v,
  loop recur currentFile fileMap newVisited specs merged = Some (Ok final) ->
  well_keyed merged -> In c reserved_collections ->
  entry_of merged c k = Some v -> entry_of final c k = Some v.
Proof.
  induction specs as [|spec specs IH]; intros merged final c k v H Hm Hc Hv;
    simpl in H.
  - now inversion H; subst.
  - destruct (include_step _ _ _ _ _ _ _ _) as [[merged'|msg]|] eqn:E;
      cbn [fbind] in H; try discriminate.
    apply (IH _ _ _ _ _ H); [now apply (include_step_keyed _ _ _ E) | exact Hc|].
    apply include_step_cases in E as [[-> _]|[r [_ ->]]]; [exact Hv|].
    now rewrite (mergeComposeFiles_entry _ _ _ _ Hm Hc), Hv.
Qed.

(** What neither the running result nor the includes of the loop define
    stays undefined. *)
Lemma include_loop_undefined : forall specs merged final c k,
  loop recur currentFile fileMap newVisited specs merged = Some (Ok final) ->
  well_keyed merged -> In c reserved_collections ->
  entry_of merged c k = None ->
  (forall spec r, In spec specs ->
     resolves recur currentFile fileMap newVisited spec r -> entry_of r c k = None) ->
  entry_of final c k = None.
Proof.
  induction specs as [|spec specs IH]; intros merged final c k H Hm Hc Hv Hspecs;
    simpl in H.
  - now inversion H; subst.
  - destruct (include_step _ _ _ _ _ _ _ _) as [[merged'|msg]|] eqn:E;
      cbn [fbind] in H; try discriminate.
    apply (IH _ _ _ _ H); [now apply (include_step_keyed _ _ _ E) | exact Hc | |].
    + apply include_step_cases in E as [[-> _]|[r [Hr ->]]]; [exact Hv|].
      rewrite (mergeComposeFiles_entry _ _ _ _ Hm Hc), Hv.
      apply (Hspecs spec r); [now left | exact Hr].
    + intros s r Hin. apply Hspecs. now right.
Qed.

(** The first include that defines a key decides it, whatever the later
    includes hold. *)
Lemma include_loop_first_wins : forall before spec after merged final r c k v,
  loop recur currentFile fileMap newVisited (before ++ spec :: after) merged
    = Some (Ok final) ->
  well_keyed merged -> In c reserved_collections ->
  entry_of merged c k = None ->
  (forall earlier r', In earlier before ->
     resolves recur currentFile fileMap newVisited earlier r' ->
     entry_of r' c k = None) ->
  resolves recur currentFile fileMap newVisited spec r ->
  entry_of r c k = Some v ->
  entry_of final c k = Some v.
Proof.
  intros before spec after merged final r c k v H Hm Hc Hnone Hbefore Hr Hv.
  rewrite include_loop_app in H.
  destruct (include_loop _ _ _ _ _ _ before merged) as [[merged1|msg]|] eqn:E1;
    cbn [fbind] in H; try discriminate.
  simpl in H.
  destruct (include_step _ _ _ _ _ _ merged1 spec) as [[merged2|msg]|] eqn:E2;
    cbn [fbind] in H; try discriminate.
  pose proof (include_loop_keyed _ _ _ E1 Hm) as Hm1.
  pose proof (include_loop_undefined _ _ _ _ _ E1 Hm Hc Hnone Hbefore) as Hnone1.
  apply (include_loop_keeps _ _ _ _ _ _ H);
    [now apply (include_step_keyed _ _ _ E2) | exact Hc|].
  apply include_step_cases in E2 as [[_ [p' [Hp' Hf]]]|[r' [Hr' ->]]].
  - exfalso. destruct Hr as [p [a [ct [i [Hp [Hne _]]]]]].
    rewrite Hp in Hp'. inversion Hp'; subst p'. simpl in Hf.
    apply negb_false_iff, String.eqb_eq in Hf. contradiction.
  - rewrite (include_resolves_det _ _ _ _ _ _ _ Hr' Hr).
    now rewrite (mergeComposeFiles_entry _ _ _ _ Hm1 Hc), Hnone1.
Qed.

End Loop.

End IncludeOrder.

Lemma truthy_get_truthy : forall v k, truthy (get v k) = true -> truthy v = true.
Proof.
  intros [| |b|n|s|xs|fields] k H; simpl in *; try discriminate; try reflexivity.
  destruct s; [|reflexivity]. simpl in H.
  destruct (String.eqb k "length"); discriminate.
Qed.

Lemma well_keyed_without_include : forall doc,
  well_keyed doc -> well_keyed (VObj (obj_delete (own_entries doc) "include")).
Proof.
  intros doc [H1 H2]. split; simpl.
  - now apply NoDup_obj_delete.
  - intros c x Hin. apply (H2 c). now apply In_obj_delete in Hin.
Qed.

Lemma entry_of_without_include : forall doc c k,
  In c reserved_collections ->
  entry_of (VObj (obj_delete (own_entries doc) "include")) c k = entry_of doc c k.
Proof.
  intros doc c k Hc. unfold entry_of. simpl get.
  rewrite (get_own_entries doc c (reserved_not_length _ Hc)). unfold obj_get.
  now rewrite (lookup_delete_other _ _ _ (reserved_not_include _ Hc)).
Qed.

Section IncludeResult.

Variable type_error_message : value -> string -> string.
Variable yaml_load : string -> res value.

Hypothesis yaml_unique_keys : forall text doc,
  yaml_load text = Ok doc -> unique_keys doc = true.

(** Resolving the includes of a well-keyed document gives a well-keyed
    document. *)
Lemma resolveIncludes_keyed : forall fuel compose currentFile fileMap visited out,
  well_keyed compose ->
  resolveIncludes type_error_message yaml_load fuel compose currentFile fileMap visited
    = Some (Ok out) ->
  well_keyed out.
Proof.
  induction fuel as [|fuel IH]; intros compose currentFile fileMap visited out Hk H.
  - discriminate.
  - cbn [resolveIncludes] in H.
    destruct (truthy compose); cbn [negb] in H; [|now inversion H; subst].
    destruct (truthy (get compose "include")); cbn [negb] in H;
      [|now inversion H; subst].
    destruct (string_mem _ visited); [discriminate|].
    apply (include_loop_keyed type_error_message yaml_load _ _ _ _) in H; [exact H| |].
    + intros included absoluteInclude r content Hy Hr.
      apply (IH _ _ _ _ _ (well_keyed_unique _ (yaml_unique_keys _ _ Hy)) Hr).
    + now apply well_keyed_without_include.
Qed.

End IncludeResult.

(** C10: among the includes of a document, the first one (in the order of
    the include array) whose resolved file defines a key under a reserved
    collection gives the merged document its value for that key, whatever
    the later includes define there: each resolved file is merged as the base
    beneath the running result.  (The document itself defines no such key
    here; js-yaml documents have distinct keys.) *)
Theorem earlier_include_takes_precedence :
  forall type_error_message yaml_load,
    (forall text doc, yaml_load text = Ok doc -> unique_keys doc = true) ->
    forall fuel doc currentFile fileMap visited final before spec after r c k v,
      let newVisited := visited ++ [normalizePath currentFile] in
      let recur := fun included absoluteInclude =>
        resolveIncludes type_error_message yaml_load fuel included absoluteInclude
          fileMap newVisited in
      let resolves :=
        include_resolves_to type_error_message yaml_load recur currentFile fileMap
          newVisited in
      unique_keys doc = true ->
      resolveIncludes type_error_message yaml_load (S fuel) doc currentFile fileMap
        visited = Some (Ok final) ->
      truthy (get doc "include") = true ->
      include_list (get doc "include") = before ++ spec :: after ->
      In c reserved_collections ->
      entry_of doc c k = None ->
      (forall earlier r', In earlier before -> resolves earlier r' ->
         entry_of r' c k = None) ->
      resolves spec r ->
      entry_of r c k = Some v ->
      entry_of final c k = Some v.
Proof.
  intros tem yaml_load Hyaml fuel doc currentFile fileMap visited final before spec
    after r c k v newVisited recur resolves Hu H Hinc Hlist Hc Hdoc Hbefore Hr Hv.
  cbn [resolveIncludes] in H.
  rewrite (truthy_get_truthy _ _ Hinc), Hinc, Hlist in H. cbn [negb] in H.
  destruct (string_mem _ visited); [discriminate|].
  apply (include_loop_first_wins tem yaml_load recur currentFile fileMap newVisited)
    with (before := before) (spec := spec) (after := after) (r := r)
         (merged := VObj (obj_delete (own_entries doc) "include")); try assumption.
  - intros included absoluteInclude r0 content Hy Hr0.
    apply (resolveIncludes_keyed tem yaml_load Hyaml _ _ _ _ _ _
             (well_keyed_unique _ (Hyaml _ _ Hy)) Hr0).
  - apply well_keyed_without_include. now apply well_keyed_unique.
  - now rewrite entry_of_without_include.
Qed.

(** ** Substituting one variable *)

Lemma break_at_complete : forall sep a b, break_at sep (a ++ sep ++ b) <> None.
Proof.
  intros sep a b. induction a as [|x a IH].
  - simpl append. destruct (sep ++ b)%string eqn:E.
    + cbn [break_at]. destruct sep; [discriminate | discriminate].
    + cbn [break_at]. rewrite <- E, startsWith_app. discriminate.
  - change (String x a ++ sep ++ b)%string with (String x (a ++ sep ++ b)).
    cbn [break_at]. destruct (startsWith sep _); [discriminate|].
    destruct (break_at sep (a ++ sep ++ b)) as [[? ?]|]; [discriminate | contradiction].
Qed.

Lemma includes_app : forall sep a b, includes sep (a ++ sep ++ b) = true.
Proof.
  intros sep a b. unfold includes. pose proof (break_at_complete sep a b).
  destruct (break_at sep (a ++ sep ++ b)); [reflexivity | contradiction].
Qed.

(** A text that holds [c1 c2] holds [c2]. *)
Lemma includes_second : forall c1 c2 s,
  includes (String c1 (String c2 "")) s = true -> includes (String c2 "") s = true.
Proof.
  intros c1 c2 s H. unfold includes in H.
  destruct (break_at (String c1 (String c2 "")) s) as [[a b]|] eqn:E; [|discriminate].
  apply break_at_sound in E. subst s.
  change (a ++ String c1 (String c2 "") ++ b)%string
    with (a ++ String c1 (String c2 "" ++ b))%string.
  replace (a ++ String c1 (String c2 "" ++ b))%string
    with ((a ++ String c1 "") ++ String c2 "" ++ b)%string
    by (now rewrite append_assoc).
  apply includes_app.
Qed.

Lemma lacks_no_pair : forall c1 c2 s,
  lacks c2 s = true -> includes (String c1 (String c2 "")) s = false.
Proof.
  intros c1 c2 s H. destruct (includes (String c1 (String c2 "")) s) eqn:E;
    [|reflexivity].
  apply includes_second in E. now rewrite (includes_lacks c2 "" s H) in E.
Qed.

Lemma includes_skip : forall c sep a b,
  lacks c a = true -> includes (String c sep) (a ++ b) = includes (String c sep) b.
Proof.
  intros c sep a b H. unfold includes. rewrite (break_at_skip c sep a b H).
  destruct (break_at (String c sep) b) as [[? ?]|]; reflexivity.
Qed.

(** The first character of the text is no start of the separator. *)
Lemma includes_cons_miss : forall sep c s,
  startsWith sep (String c s) = false ->
  includes sep (String c s) = includes sep s.
Proof.
  intros sep c s H. unfold includes. cbn [break_at]. rewrite H.
  destruct (break_at sep s) as [[? ?]|]; reflexivity.
Qed.

Lemma split_at_operator : forall c sep X rest,
  lacks c X = true -> includes (String c sep) rest = false ->
  split (String c sep) (X ++ String c sep ++ rest) = [X; rest].
Proof.
  intros c sep X rest HX Hrest. rewrite split_unfold.
  change (X ++ String c sep ++ rest)%string with (X ++ String c (sep ++ rest))%string.
  rewrite (break_at_first c sep X rest HX). f_equal. now apply split_absent.
Qed.

(** The code classifies an expression as the specification says. *)
Lemma parse_expression_classified : forall expression,
  parse_expression expression = parsed_as (classify expression) expression.
Proof.
  intros e. unfold parse_expression, classify.
  destruct (includes ":?" e); [reflexivity|].
  destruct (includes "-" e) eqn:Edash.
  - rewrite !andb_false_r. destruct (includes ":-" e); reflexivity.
  - destruct (includes ":-" e) eqn:Ecd.
    + apply includes_second in Ecd. congruence.
    + cbn [negb]. rewrite !andb_true_r. destruct (includes "?" e); reflexivity.
Qed.

Lemma is_empty_set : forall v, is_empty v = false -> is_set v = true.
Proof.
  intros v H. unfold is_empty in H. destruct (is_set v); [reflexivity | discriminate].
Qed.

Lemma unset_is_empty : forall v, is_set v = false -> is_empty v = true.
Proof. intros v H. unfold is_empty. now rewrite H. Qed.

Ltac skip_name H := rewrite (includes_skip _ _ _ _ H).
Ltac miss := rewrite includes_cons_miss by reflexivity.

Section Operators.

Variable X : string.
Hypothesis name_ok : variable_name X.

Lemma parse_default_if_empty : forall d,
  includes ":?" d = false -> includes ":-" d = false ->
  parse_expression (X ++ ":-" ++ d) =
  {| varName := X; defaultValue := Some d; errorMessage := None;
     requireSet := false; requireNonEmpty := true |}.
Proof.
  intros d H1 H2. destruct name_ok as (Hc & Hd & Hq).
  rewrite parse_expression_classified. unfold classify.
  skip_name Hc. cbn [append]. do 2 miss. rewrite H1.
  assert (E : includes ":-" (X ++ String ":" (String "-" d)) = true)
    by (apply (includes_app ":-" X d)).
  rewrite E.
  assert (E' : includes "-" (X ++ String ":" (String "-" d)) = true)
    by (apply includes_second with (c1 := ":"%char); exact E).
  rewrite E', andb_false_r.
  unfold parsed_as, operator_text.
  change (X ++ String ":" (String "-" d))%string with (X ++ ":-" ++ d)%string.
  now rewrite (split_at_operator ":" "-" X d Hc H2).
Qed.

Lemma parse_default_if_unset : forall d,
  includes ":?" d = false -> lacks "-" d = true ->
  parse_expression (X ++ "-" ++ d) =
  {| varName := X; defaultValue := Some d; errorMessage := None;
     requireSet := true; requireNonEmpty := false |}.
Proof.
  intros d H1 H2. destruct name_ok as (Hc & Hd & Hq).
  rewrite parse_expression_classified. unfold classify.
  skip_name Hc. cbn [append]. miss. rewrite H1.
  assert (E : includes "-" (X ++ String "-" d) = true)
    by (apply (includes_app "-" X d)).
  rewrite E, andb_false_r.
  skip_name Hc. miss. rewrite (lacks_no_pair ":" "-" d H2).
  unfold parsed_as, operator_text.
  change (X ++ String "-" d)%string with (X ++ "-" ++ d)%string.
  now rewrite (split_at_operator "-" "" X d Hd (includes_lacks "-" "" d H2)).
Qed.

Lemma parse_require_non_empty : forall m,
  includes ":?" m = false ->
  parse_expression (X ++ ":?" ++ m) =
  {| varName := X; defaultValue := None; errorMessage := Some m;
     requireSet := false; requireNonEmpty := true |}.
Proof.
  intros m H1. destruct name_ok as (Hc & Hd & Hq).
  rewrite parse_expression_classified. unfold classify.
  rewrite (includes_app ":?" X m).
  unfold parsed_as, operator_text.
  now rewrite (split_at_operator ":" "?" X m Hc H1).
Qed.

Lemma parse_require_set : forall m,
  lacks "-" m = true -> lacks "?" m = true ->
  parse_expression (X ++ "?" ++ m) =
  {| varName := X; defaultValue := None; errorMessage := Some m;
     requireSet := true; requireNonEmpty := false |}.
Proof.
  intros m H1 H2. destruct name_ok as (Hc & Hd & Hq).
  rewrite parse_expression_classified. unfold classify.
  skip_name Hc. cbn [append]. miss. rewrite (lacks_no_pair ":" "?" m H2).
  rewrite (includes_app "?" X m : includes "?" (X ++ String "?" m) = true).
  skip_name Hd. miss. rewrite (includes_lacks "-" "" m H1). cbn [negb andb].
  unfold parsed_as, operator_text.
  change (X ++ String "?" m)%string with (X ++ "?" ++ m)%string.
  now rewrite (split_at_operator "?" "" X m Hq (includes_lacks "?" "" m H2)).
Qed.

End Operators.

Lemma eqb_nonempty : forall m : string, m <> "" -> String.eqb m "" = false.
Proof. intros m H. now apply String.eqb_neq. Qed.

(** C3 (amended). For every environment (an object), every name [X]
    without [:], [-] and [?], and texts [d], [m], with [v] the value that
    [env[X]] reads, own or inherited from Object.prototype, and converted by
    [String] (a conversion that raises nothing, of numbers below 10^21): [${X:-d}], for [d] holding neither [:?]
    nor [:-], yields [v] when it is set and non-empty and [d] otherwise;
    [${X-d}], for [d] holding neither [-] nor [:?], yields [v] when it is
    set, even to the empty string, and [d] otherwise; [${X:?m}], for a
    non-empty [m] without [:?], fails with message [m] exactly when [v] is
    unset or empty; [${X?m}], for a non-empty [m] without [-] and [?], fails
    with message [m] exactly when [v] is unset; and every expression is
    classified in the order [:?], [?] without any [-], [:-], [-]. *)
Theorem substitution_operators :
  forall type_error_message (env : obj) (matched X : string),
  variable_name X ->
  let v := env_member env X in
  let substitute := substituteVariable type_error_message matched in
  converts_plainly v = true ->
  (forall d, includes ":?" d = false -> includes ":-" d = false ->
     substitute (X ++ ":-" ++ d)%string (Some env) =
     Ok (if is_empty v then d else to_str v))
  /\ (forall d, includes ":?" d = false -> lacks "-" d = true ->
     substitute (X ++ "-" ++ d)%string (Some env) =
     Ok (if is_set v then to_str v else d))
  /\ (forall m, m <> ""%string -> includes ":?" m = false ->
     substitute (X ++ ":?" ++ m)%string (Some env) =
     if is_empty v then Throw m else Ok (to_str v))
  /\ (forall m, m <> ""%string -> lacks "-" m = true -> lacks "?" m = true ->
     substitute (X ++ "?" ++ m)%string (Some env) =
     if is_set v then Ok (to_str v) else Throw m)
  /\ (forall expression,
     parse_expression expression = parsed_as (classify expression) expression).
Proof.
  intros tem env matched X HX v substitute Hv. unfold substitute.
  assert (Hstr : string_of tem v = Ok (to_str v)).
  { unfold string_of. apply andb_true_iff in Hv as [-> _]. reflexivity. }
  repeat split.
  - intros d H1 H2. unfold substituteVariable.
    rewrite (parse_default_if_empty X HX d H1 H2). cbn. fold v.
    rewrite orb_false_r, Hstr.
    destruct (is_empty v) eqn:E; [reflexivity|].
    now rewrite (is_empty_set v E).
  - intros d H1 H2. unfold substituteVariable.
    rewrite (parse_default_if_unset X HX d H1 H2). cbn. fold v. rewrite Hstr.
    destruct (is_set v); reflexivity.
  - intros m Hm H1. unfold substituteVariable.
    rewrite (parse_require_non_empty X HX m H1). cbn. fold v.
    rewrite (eqb_nonempty m Hm), orb_false_r, Hstr. cbn [negb andb].
    destruct (is_empty v) eqn:E; [reflexivity|].
    now rewrite (is_empty_set v E).
  - intros m Hm H1 H2. unfold substituteVariable.
    rewrite (parse_require_set X HX m H1 H2). cbn. fold v.
    rewrite (eqb_nonempty m Hm), Hstr. cbn [negb andb].
    destruct (is_set v); reflexivity.
  - apply parse_expression_classified.
Qed.

(** ** Escaped dollar signs *)

Lemma replace_all_skip : forall c pat rep (t rest : string),
  lacks c t = true ->
  replace_all (String c pat) rep (t ++ rest) =
  (t ++ replace_all (String c pat) rep rest)%string.
Proof.
  intros c pat rep t rest H.
  rewrite replace_all_unfold, (break_at_skip c pat t rest H).
  rewrite (replace_all_unfold c pat rep rest).
  destruct (break_at (String c pat) rest) as [[x y]|]; [|reflexivity].
  now rewrite append_assoc.
Qed.

Lemma replace_all_hit : forall c pat rep (rest : string),
  replace_all (String c pat) rep (String c pat ++ rest) =
  (rep ++ replace_all (String c pat) rep rest)%string.
Proof.
  intros c pat rep rest. rewrite replace_all_unfold.
  change (String c pat ++ rest)%string with ("" ++ String c (pat ++ rest))%string.
  now rewrite (break_at_first c pat "" rest eq_refl).
Qed.

(** A character that starts no pair of dollar signs is passed over. *)
Lemma replace_all_pass : forall rep c (rest : string),
  startsWith "$$" (String c rest) = false ->
  replace_all "$$" rep (String c rest) = String c (replace_all "$$" rep rest).
Proof.
  intros rep c rest H. rewrite replace_all_unfold, (replace_all_unfold "$" "$" rep rest).
  cbn [break_at]. rewrite H.
  destruct (break_at "$$" rest) as [[x y]|]; reflexivity.
Qed.

(** Text without a pair of dollar signs, followed by a character that is no
    dollar sign, holds no start of a pair. *)
Lemma break_at_guarded : forall (e : string) d (rest : string),
  d <> "$"%char -> includes "$$" e = false ->
  break_at "$$" (e ++ String d rest) =
  match break_at "$$" rest with
  | Some (x, y) => Some ((e ++ String d x)%string, y)
  | None => None
  end.
Proof.
  induction e as [|x e IH]; intros d rest Hd He.
  - cbn [append break_at startsWith].
    rewrite (proj2 (Ascii.eqb_neq _ _)) by congruence. cbn [andb].
    destruct (break_at "$$" rest) as [[? ?]|]; reflexivity.
  - unfold includes in He. cbn [break_at] in He.
    destruct (startsWith "$$" (String x e)) eqn:Es; [discriminate|].
    assert (He' : includes "$$" e = false).
    { unfold includes. destruct (break_at "$$" e) as [[? ?]|]; [discriminate|reflexivity]. }
    change (String x e ++ String d rest)%string with (String x (e ++ String d rest)).
    cbn [break_at].
    assert (Es' : startsWith "$$" (String x (e ++ String d rest)) = false).
    { cbn [startsWith] in *. destruct (Ascii.eqb "$" x); [|reflexivity]. cbn [andb] in *.
      destruct e as [|y e]; cbn [append startsWith] in *.
      - rewrite (proj2 (Ascii.eqb_neq _ _)) by congruence. reflexivity.
      - destruct (Ascii.eqb "$" y); [discriminate | reflexivity]. }
    rewrite Es', (IH d rest Hd He').
    destruct (break_at "$$" rest) as [[? ?]|]; reflexivity.
Qed.

(** A reference without an escape between its braces is passed over. *)
Lemma replace_all_reference : forall rep (e after : string),
  includes "$$" e = false ->
  replace_all "$$" rep ("${" ++ e ++ "}" ++ after) =
  ("${" ++ e ++ "}" ++ replace_all "$$" rep after)%string.
Proof.
  intros rep e after He.
  change ("${" ++ e ++ "}" ++ after)%string
    with (String "$" (String "{" (e ++ String "}" after))).
  rewrite replace_all_pass by reflexivity. rewrite replace_all_pass by reflexivity.
  cbn [append]. do 2 f_equal.
  rewrite replace_all_unfold, (replace_all_unfold "$" "$" rep after).
  rewrite (break_at_guarded e "}" after ltac:(discriminate) He).
  destruct (break_at "$$" after) as [[x y]|]; [|reflexivity].
  rewrite append_assoc. reflexivity.
Qed.

Lemma replace_all_lacks : forall c a pat rep (s : string),
  lacks c s = true -> lacks c rep = true ->
  lacks c (replace_all (String a pat) rep s) = true.
Proof.
  intros c a pat rep s. remember (String.length s) as n eqn:Hn.
  assert (Hle : (String.length s <= n)%nat) by lia. clear Hn. revert s Hle.
  induction n as [|n IH]; intros s Hle Hs Hrep; rewrite replace_all_unfold.
  - destruct s; [reflexivity | simpl in Hle; lia].
  - destruct (break_at (String a pat) s) as [[x y]|] eqn:E; [|exact Hs].
    pose proof (break_at_shorter _ _ _ _ _ E) as Hlt.
    apply break_at_sound in E. subst s.
    rewrite !lacks_app in Hs. apply andb_true_iff in Hs as [Hx Hs].
    apply andb_true_iff in Hs as [_ Hy].
    rewrite !lacks_app, Hx, Hrep. cbn [andb]. apply IH; [lia | exact Hy | exact Hrep].
Qed.

Lemma render_cons : forall p ps, render (p :: ps) = (render_piece p ++ render ps)%string.
Proof. reflexivity. Qed.

Lemma placeholder_shape :
  ESCAPED_DOLLAR_PLACEHOLDER = String nul ("ESCAPED_DOLLAR" ++ String nul "").
Proof. reflexivity. Qed.

Lemma placeholder_no_dollar : lacks "$" ESCAPED_DOLLAR_PLACEHOLDER = true.
Proof. reflexivity. Qed.

Lemma drop_length : forall n s, (String.length (drop n s) <= String.length s)%nat.
Proof.
  induction n as [|n IH]; intros s; [simpl; lia|].
  destruct s as [|c s]; simpl; [lia|]. specialize (IH s). lia.
Qed.

(** *** The pieces of a string *)

Lemma take_expression_Some : forall s e after,
  take_expression s = Some (e, after) ->
  s = (e ++ "}" ++ after)%string /\ e <> ""%string /\ lacks "}" e = true.
Proof.
  intros s e after H. unfold take_expression in H.
  destruct (break_at "}" s) as [[e' after']|] eqn:E; [|discriminate].
  destruct (String.eqb_spec e' ""); [discriminate|].
  injection H as <- <-. split; [now apply break_at_sound|]. split; [assumption|].
  now apply break_at_char_before in E.
Qed.

Lemma take_expression_shorter : forall s e after,
  take_expression s = Some (e, after) -> (String.length after < String.length s)%nat.
Proof.
  intros s e after H. apply take_expression_Some in H as [-> _].
  rewrite !length_append. simpl. lia.
Qed.

Lemma pieces_enough : forall n m s,
  (String.length s <= n)%nat -> (String.length s <= m)%nat ->
  pieces n s = pieces m s.
Proof.
  induction n as [|n IH]; intros m s Hn Hm.
  - destruct s; [|simpl in Hn; lia]. destruct m; reflexivity.
  - destruct m as [|m]; [destruct s; [reflexivity | simpl in Hm; lia]|].
    destruct s as [|c rest]; [reflexivity|]. cbn [pieces]. simpl in Hn, Hm.
    change (drop 2 (String c rest)) with (drop 1 rest).
    pose proof (drop_length 1 rest) as Hd.
    destruct (startsWith "$$" (String c rest)).
    + f_equal. apply IH; lia.
    + destruct (if startsWith "${" (String c rest)
                then take_expression (drop 1 rest) else None)
        as [[e after]|] eqn:E.
      * f_equal. destruct (startsWith "${" (String c rest)); [|discriminate].
        apply take_expression_shorter in E. apply IH; lia.
      * f_equal. apply IH; lia.
Qed.

(** The unfolding equation of [pieces_of]. *)
Lemma pieces_of_unfold : forall c rest,
  pieces_of (String c rest) =
  if startsWith "$$" (String c rest) then Escape :: pieces_of (drop 1 rest)
  else
    match (if startsWith "${" (String c rest)
           then take_expression (drop 1 rest) else None) with
    | Some (e, after) => Reference e :: pieces_of after
    | None => Text (String c "") :: pieces_of rest
    end.
Proof.
  intros c rest. unfold pieces_of. cbn [String.length pieces].
  change (drop 2 (String c rest)) with (drop 1 rest).
  pose proof (drop_length 1 rest) as Hd.
  destruct (startsWith "$$" (String c rest)).
  - f_equal. apply pieces_enough; lia.
  - destruct (if startsWith "${" (String c rest)
              then take_expression (drop 1 rest) else None) as [[e after]|] eqn:E.
    + f_equal. destruct (startsWith "${" (String c rest)); [|discriminate].
      apply take_expression_shorter in E. apply pieces_enough; lia.
    + reflexivity.
Qed.

Lemma pieces_of_escape : forall rest, pieces_of ("$$" ++ rest) = Escape :: pieces_of rest.
Proof. intros rest. cbn [append]. now rewrite pieces_of_unfold. Qed.

Lemma take_expression_at : forall e after,
  e <> ""%string -> lacks "}" e = true ->
  take_expression (e ++ String "}" after) = Some (e, after).
Proof.
  intros e after He Hb. unfold take_expression.
  change (e ++ String "}" after)%string with (e ++ String "}" ("" ++ after))%string.
  rewrite (break_at_first "}" "" e after Hb).
  now rewrite (proj2 (String.eqb_neq e "") He).
Qed.

Lemma pieces_of_reference : forall e after,
  e <> ""%string -> lacks "}" e = true ->
  pieces_of ("${" ++ e ++ "}" ++ after) = Reference e :: pieces_of after.
Proof.
  intros e after He Hb. cbn [append]. rewrite pieces_of_unfold.
  change (startsWith "$$" (String "$" (String "{" (e ++ String "}" after)))) with false.
  change (startsWith "${" (String "$" (String "{" (e ++ String "}" after)))) with true.
  cbn [drop].
  now rewrite (take_expression_at e after He Hb).
Qed.

Lemma pieces_of_text : forall c rest,
  startsWith "$$" (String c rest) = false ->
  (if startsWith "${" (String c rest) then take_expression (drop 1 rest) else None)
  = None ->
  pieces_of (String c rest) = Text (String c "") :: pieces_of rest.
Proof. intros c rest H1 H2. now rewrite pieces_of_unfold, H1, H2. Qed.

(** Induction along the pieces of a string. *)
Lemma pieces_induction (P : string -> Prop) :
  P ""%string ->
  (forall rest, P rest -> P ("$$" ++ rest)%string) ->
  (forall e after, e <> ""%string -> lacks "}" e = true -> P after ->
     P ("${" ++ e ++ "}" ++ after)%string) ->
  (forall c rest,
     startsWith "$$" (String c rest) = false ->
     (if startsWith "${" (String c rest) then take_expression (drop 1 rest) else None)
     = None ->
     P rest -> P (String c rest)) ->
  forall s, P s.
Proof.
  intros Hempty Hescape Hreference Htext s.
  remember (String.length s) as n eqn:Hn.
  assert (Hle : (String.length s <= n)%nat) by lia. clear Hn. revert s Hle.
  induction n as [|n IH]; intros s Hle.
  - destruct s; [exact Hempty | simpl in Hle; lia].
  - destruct s as [|c rest]; [exact Hempty|]. simpl in Hle.
    destruct (startsWith "$$" (String c rest)) eqn:E1.
    + apply startsWith_sound in E1. rewrite E1. apply Hescape. apply IH.
      change (drop (String.length "$$") (String c rest)) with (drop 1 rest).
      pose proof (drop_length 1 rest). lia.
    + destruct (if startsWith "${" (String c rest)
                then take_expression (drop 1 rest) else None) as [[e after]|] eqn:E2.
      * destruct (startsWith "${" (String c rest)) eqn:E3; [|discriminate].
        apply startsWith_sound in E3.
        change (drop (String.length "${") (String c rest)) with (drop 1 rest) in E3.
        pose proof (take_expression_shorter _ _ _ E2) as Hlt.
        apply take_expression_Some in E2 as (Hs & He & Hb).
        rewrite E3, Hs. apply Hreference; try assumption. apply IH.
        pose proof (drop_length 1 rest). lia.
      * apply Htext; try assumption. apply IH. lia.
Qed.

(** The text the pre-pass of [interpolateString] leaves. *)
Local Abbreviation prepared s := (render (map masked (pieces_of s))).

Lemma prepared_escape : forall rest,
  prepared ("$$" ++ rest) = (ESCAPED_DOLLAR_PLACEHOLDER ++ prepared rest)%string.
Proof. intros rest. now rewrite pieces_of_escape. Qed.

Lemma prepared_reference : forall e after,
  e <> ""%string -> lacks "}" e = true ->
  prepared ("${" ++ e ++ "}" ++ after) = ("${" ++ e ++ "}" ++ prepared after)%string.
Proof.
  intros e after He Hb. rewrite (pieces_of_reference e after He Hb).
  cbn [map masked render fold_right render_piece]. now rewrite !append_assoc.
Qed.

Lemma prepared_text : forall c rest,
  startsWith "$$" (String c rest) = false ->
  (if startsWith "${" (String c rest) then take_expression (drop 1 rest) else None)
  = None ->
  prepared (String c rest) = String c (prepared rest).
Proof. intros c rest H1 H2. now rewrite (pieces_of_text c rest H1 H2). Qed.

(** A character other than the dollar sign is a piece of text. *)
Lemma prepared_plain : forall c rest,
  c <> "$"%char -> prepared (String c rest) = String c (prepared rest).
Proof.
  intros c rest Hc. apply prepared_text; cbn [startsWith];
    rewrite (proj2 (Ascii.eqb_neq _ _)) by congruence; reflexivity.
Qed.

(** The pre-pass turns every escape into the placeholder and nothing else. *)
Lemma prepass_pieces : forall s,
  Forall escape_outside (pieces_of s) ->
  replace_all "$$" ESCAPED_DOLLAR_PLACEHOLDER s = prepared s.
Proof.
  induction s as [|rest IH|e after He Hb IH|c rest H1 H2 IH] using pieces_induction;
    intros H.
  - reflexivity.
  - rewrite pieces_of_escape in H. inversion H; subst.
    now rewrite (replace_all_hit "$" "$"), prepared_escape, IH.
  - rewrite (pieces_of_reference e after He Hb) in H. inversion H as [|? ? Hp Hrest]; subst.
    rewrite (replace_all_reference _ e after Hp), (prepared_reference e after He Hb).
    now rewrite IH.
  - rewrite (pieces_of_text c rest H1 H2) in H. inversion H; subst.
    rewrite (replace_all_pass _ c rest H1), (prepared_text c rest H1 H2).
    now rewrite IH.
Qed.

(** A match leaves strictly less text behind it. *)
Lemma find_variable_shorter : forall s prev before expression after,
  find_variable prev s = Some (before, expression, after) ->
  (String.length after < String.length s)%nat.
Proof.
  induction s as [|c s IH]; intros prev before expression after H; [discriminate|].
  cbn [find_variable] in H.
  destruct (if negb prev && Ascii.eqb c "$" && startsWith "{" s
            then take_expression (drop 1 s) else None) as [[e a]|] eqn:Ehere.
  - inversion H; subst.
    destruct (negb prev && Ascii.eqb c "$" && startsWith "{" s); [|discriminate].
    apply take_expression_shorter in Ehere. pose proof (drop_length 1 s). simpl. lia.
  - destruct (find_variable (Ascii.eqb c "$") s) as [[[b e] a]|] eqn:Erec; [|discriminate].
    inversion H; subst. apply IH in Erec. simpl. lia.
Qed.

(** Text without a dollar sign holds no match and ends no lookbehind. *)
Lemma find_variable_skip : forall (t rest : string),
  lacks "$" t = true ->
  find_variable false (t ++ rest) =
  match find_variable false rest with
  | Some (before, expression, after) => Some ((t ++ before)%string, expression, after)
  | None => None
  end.
Proof.
  induction t as [|c t IH]; intros rest H.
  - cbn [append]. destruct (find_variable false rest) as [[[? ?] ?]|]; reflexivity.
  - cbn [lacks] in H. apply andb_true_iff in H as [Hc Ht].
    apply negb_true_iff in Hc. rewrite Ascii.eqb_sym in Hc.
    cbn [append find_variable]. rewrite Hc. cbn [negb andb].
    rewrite (IH rest Ht).
    destruct (find_variable false rest) as [[[? ?] ?]|]; reflexivity.
Qed.

(** A reference at the start of the text is the leftmost match. *)
Lemma find_variable_reference : forall (e rest : string),
  e <> ""%string -> lacks "}" e = true ->
  find_variable false ("${" ++ e ++ "}" ++ rest) = Some (""%string, e, rest).
Proof.
  intros e rest He Hb. cbn [append find_variable startsWith drop].
  change (Ascii.eqb "$" "$") with true. change (Ascii.eqb "{" "{") with true.
  cbn [negb andb]. now rewrite (take_expression_at e rest He Hb).
Qed.

(** The lookbehind matters only before a dollar sign. *)
Lemma find_variable_prev : forall s,
  startsWith "$" s = false -> find_variable true s = find_variable false s.
Proof.
  intros [|c s] H; [reflexivity|]. cbn [startsWith] in H.
  rewrite andb_true_r in H. rewrite Ascii.eqb_sym in H.
  cbn [find_variable]. rewrite H. reflexivity.
Qed.

(** A dollar sign that opens no reference is passed over. *)
Lemma find_variable_lone : forall m,
  startsWith "$" m = false ->
  (if startsWith "{" m then take_expression (drop 1 m) else None) = None ->
  find_variable false (String "$" m) =
  match find_variable false m with
  | Some (before, expression, after) => Some (String "$" before, expression, after)
  | None => None
  end.
Proof.
  intros m H1 H2. cbn [find_variable]. change (Ascii.eqb "$" "$") with true.
  cbn [negb andb]. rewrite H2, (find_variable_prev m H1). reflexivity.
Qed.

(** No expression opens where the text holds no closing brace, or starts
    with one; the pre-pass does not change that. *)
Lemma take_expression_None : forall u,
  take_expression u = None -> lacks "}" u = true \/ startsWith "}" u = true.
Proof.
  intros u H. unfold take_expression in H.
  destruct (break_at "}" u) as [[e after]|] eqn:E.
  - destruct (String.eqb_spec e ""); [|discriminate]. subst e.
    apply break_at_sound in E. subst u. right. reflexivity.
  - left. now apply break_at_char_none.
Qed.

Lemma take_expression_prepared : forall u,
  Forall escape_outside (pieces_of u) ->
  take_expression u = None -> take_expression (prepared u) = None.
Proof.
  intros u Hp H. apply take_expression_None in H as [H|H].
  - rewrite <- (prepass_pieces u Hp). unfold take_expression.
    assert (Hl : lacks "}" (replace_all "$$" ESCAPED_DOLLAR_PLACEHOLDER u) = true)
      by (now apply replace_all_lacks).
    apply (includes_lacks "}" "") in Hl. unfold includes in Hl.
    destruct (break_at "}" _) as [[? ?]|]; [discriminate | reflexivity].
  - destruct u as [|c u]; [discriminate|]. cbn [startsWith] in H.
    rewrite andb_true_r in H. apply Ascii.eqb_eq in H. subst c.
    rewrite prepared_plain by discriminate. reflexivity.
Qed.

Section Replace.

Variable type_error_message : value -> string -> string.
Variable env : environment.
Variable throwOnError : bool.

Local Abbreviation substitute := (substituteVariable type_error_message).

Lemma replace_variables_enough : forall n m prev s,
  (String.length s <= n)%nat -> (String.length s <= m)%nat ->
  replace_variables type_error_message n prev s env throwOnError =
  replace_variables type_error_message m prev s env throwOnError.
Proof.
  induction n as [|n IH]; intros m prev s Hn Hm.
  - destruct s; [|simpl in Hn; lia]. destruct m; reflexivity.
  - destruct m as [|m].
    + destruct s; [reflexivity | simpl in Hm; lia].
    + cbn [replace_variables].
      destruct (find_variable prev s) as [[[b e] a]|] eqn:E; [|reflexivity].
      apply find_variable_shorter in E.
      rewrite (IH m false a) by lia. reflexivity.
Qed.

Local Abbreviation replaced s :=
  (snd (replace_variables type_error_message (String.length s) false s env
          throwOnError)).

Lemma replaced_unfold : forall s,
  replaced s =
  match find_variable false s with
  | None => Ok s
  | Some (before, expression, after) =>
      let matched := ("${" ++ expression ++ "}")%string in
      match substitute matched expression env with
      | Ok r => bind (replaced after) (fun t => Ok (before ++ r ++ t)%string)
      | Throw msg =>
          if throwOnError then Throw msg
          else bind (replaced after) (fun t => Ok (before ++ matched ++ t)%string)
      end
  end.
Proof.
  intros s. destruct s as [|c s]; [reflexivity|].
  cbn [String.length replace_variables].
  destruct (find_variable false (String c s)) as [[[b e] a]|] eqn:E; [|reflexivity].
  apply find_variable_shorter in E. simpl in E.
  rewrite (replace_variables_enough (String.length s) (String.length a) false a)
    by lia.
  cbv zeta.
  destruct (substituteVariable type_error_message ("${" ++ e ++ "}") e env) as [r|msg].
  - destruct (replace_variables type_error_message (String.length a) false a env
                throwOnError) as [[names events] rest]. reflexivity.
  - destruct throwOnError; [reflexivity|].
    destruct (replace_variables type_error_message (String.length a) false a env false)
      as [[names events] rest]. reflexivity.
Qed.

Local Abbreviation replaced_to := (replaced_to type_error_message env throwOnError).

Lemma replaced_to_skip : forall (t rest expected : string),
  lacks "$" t = true ->
  replaced_to rest expected -> replaced_to (t ++ rest) (t ++ expected).
Proof.
  intros t rest expected H. unfold replaced_to.
  rewrite (replaced_unfold (t ++ rest)), (replaced_unfold rest).
  rewrite (find_variable_skip t rest H).
  destruct (find_variable false rest) as [[[b e] a]|]; [|now intros ->].
  cbv zeta. destruct (substitute ("${" ++ e ++ "}") e env) as [r|msg].
  - destruct (replaced a) as [x|msg]; cbn [bind]; [|easy].
    intros <-. now rewrite append_assoc.
  - destruct throwOnError; [easy|].
    destruct (snd (replace_variables type_error_message (String.length a) false a env
                     false)) as [x|msg']; cbn [bind]; [|easy].
    intros <-. now rewrite append_assoc.
Qed.

Lemma replaced_to_lone : forall (m expected : string),
  startsWith "$" m = false ->
  (if startsWith "{" m then take_expression (drop 1 m) else None) = None ->
  replaced_to m expected -> replaced_to (String "$" m) (String "$" expected).
Proof.
  intros m expected H1 H2. unfold replaced_to.
  rewrite (replaced_unfold (String "$" m)), (replaced_unfold m).
  rewrite (find_variable_lone m H1 H2).
  destruct (find_variable false m) as [[[b e] a]|]; [|now intros ->].
  cbv zeta. destruct (substitute ("${" ++ e ++ "}") e env) as [r|msg].
  - destruct (replaced a) as [x|msg]; cbn [bind]; [|easy]. now intros <-.
  - destruct throwOnError; [easy|].
    destruct (snd (replace_variables type_error_message (String.length a) false a env
                     false)) as [x|msg']; cbn [bind]; [|easy].
    now intros <-.
Qed.

Lemma replaced_to_reference : forall (e rest expected : string),
  e <> ""%string -> lacks "}" e = true ->
  replaced_to rest expected ->
  replaced_to ("${" ++ e ++ "}" ++ rest)
    (expand_piece type_error_message env (Reference e) ++ expected).
Proof.
  intros e rest expected He Hb. unfold replaced_to.
  rewrite (replaced_unfold ("${" ++ e ++ "}" ++ rest)).
  rewrite (find_variable_reference e rest He Hb). cbv zeta. cbn [expand_piece].
  destruct (substitute ("${" ++ e ++ "}") e env) as [r|msg].
  - destruct (replaced rest) as [x|msg]; cbn [bind]; [|easy]. now intros <-.
  - destruct throwOnError; [easy|].
    destruct (snd (replace_variables type_error_message (String.length rest) false rest
                     env false)) as [x|msg']; cbn [bind]; [|easy].
    intros <-. cbn [append]. now rewrite !append_assoc.
Qed.

Lemma expand_cons : forall p ps,
  expand type_error_message env (p :: ps) =
  (expand_piece type_error_message env p ++ expand type_error_message env ps)%string.
Proof. reflexivity. Qed.

(** Every reference is replaced by its value, or left as written when its
    substitution fails; the rest stays. *)
Lemma replaced_pieces : forall s,
  Forall escape_outside (pieces_of s) ->
  replaced_to (prepared s) (expand type_error_message env (map masked (pieces_of s))).
Proof.
  induction s as [|rest IH|e after He Hb IH|c rest H1 H2 IH] using pieces_induction;
    intros H.
  - cbn. unfold replaced_to. reflexivity.
  - rewrite prepared_escape, pieces_of_escape.
    rewrite pieces_of_escape in H. inversion H; subst.
    cbn [map masked]. rewrite expand_cons. cbn [expand_piece].
    apply replaced_to_skip; [exact placeholder_no_dollar | now apply IH].
  - rewrite (prepared_reference e after He Hb), (pieces_of_reference e after He Hb).
    rewrite (pieces_of_reference e after He Hb) in H. inversion H; subst.
    cbn [map masked]. rewrite expand_cons.
    apply replaced_to_reference; [assumption | assumption | now apply IH].
  - rewrite (prepared_text c rest H1 H2), (pieces_of_text c rest H1 H2).
    rewrite (pieces_of_text c rest H1 H2) in H. inversion H as [|? ? _ Hrest]; subst.
    cbn [map masked]. rewrite expand_cons. cbn [expand_piece append].
    specialize (IH Hrest).
    destruct (Ascii.eqb_spec c "$") as [->|Hc].
    + apply replaced_to_lone; [| |exact IH].
      * destruct rest as [|c' rest']; [reflexivity|].
        cbn [startsWith] in H1. change (Ascii.eqb "$" "$") with true in H1.
        cbn [andb] in H1. rewrite andb_true_r in H1.
        rewrite prepared_plain by (intros ->; discriminate).
        cbn [startsWith]. now rewrite H1.
      * destruct rest as [|c' rest']; [reflexivity|].
        cbn [startsWith] in H1. change (Ascii.eqb "$" "$") with true in H1.
        cbn [andb] in H1. rewrite andb_true_r in H1.
        assert (Hc' : c' <> "$"%char) by (intros ->; discriminate).
        rewrite (prepared_plain c' rest' Hc'). cbn [startsWith drop].
        destruct (Ascii.eqb_spec "{" c') as [<-|Hb]; cbn [andb]; [|reflexivity].
        change (startsWith "${" (String "$" (String "{" rest'))) with true in H2.
        cbn [drop] in H2.
        rewrite (pieces_of_text "{" rest') in Hrest; [|reflexivity|reflexivity].
        inversion Hrest; subst.
        now apply take_expression_prepared.
    + change (String c (prepared rest)) with (String c "" ++ prepared rest)%string.
      change (String c (expand type_error_message env (map masked (pieces_of rest))))
        with (String c "" ++ expand type_error_message env (map masked (pieces_of rest)))%string.
      apply replaced_to_skip; [|exact IH].
      cbn [lacks]. rewrite Ascii.eqb_sym.
      now rewrite (proj2 (Ascii.eqb_neq _ _) Hc).
Qed.

End Replace.

(** *** Restoring the escapes *)

Lemma split_lacks : forall c sep d (s : string),
  lacks d s = true ->
  Forall (fun part => lacks d part = true) (split (String c sep) s).
Proof.
  intros c sep d s. remember (String.length s) as n eqn:Hn.
  assert (Hle : (String.length s <= n)%nat) by lia. clear Hn. revert s Hle.
  induction n as [|n IH]; intros s Hle Hs; rewrite split_unfold.
  - destruct s; [|simpl in Hle; lia]. repeat constructor.
  - destruct (break_at (String c sep) s) as [[a b]|] eqn:E;
      [|constructor; [exact Hs | constructor]].
    pose proof (break_at_shorter _ _ _ _ _ E) as Hlt.
    apply break_at_sound in E. subst s.
    rewrite !lacks_app in Hs. apply andb_true_iff in Hs as [Ha Hs].
    apply andb_true_iff in Hs as [_ Hb].
    constructor; [exact Ha|]. apply IH; [lia | exact Hb].
Qed.

Lemma first_of_lacks : forall d parts,
  Forall (fun part => lacks d part = true) parts -> lacks d (first_of parts) = true.
Proof. intros d parts H. destruct H; [reflexivity | assumption]. Qed.

Lemma second_of_lacks : forall d parts x,
  Forall (fun part => lacks d part = true) parts ->
  second_of parts = Some x -> lacks d x = true.
Proof.
  intros d parts x H Hx. unfold second_of in Hx. apply nth_error_In in Hx.
  now apply (proj1 (Forall_forall _ _) H).
Qed.

(** What [substituteVariable] reads off an expression is cut out of it. *)
Lemma parse_expression_lacks : forall d e,
  lacks d e = true ->
  lacks d (varName (parse_expression e)) = true
  /\ forall x, defaultValue (parse_expression e) = Some x -> lacks d x = true.
Proof.
  intros d e He. unfold parse_expression.
  destruct (includes ":?" e);
    [|destruct (includes "?" e && negb (includes ":-" e) && negb (includes "-" e));
      [|destruct (includes ":-" e); [|destruct (includes "-" e)]]];
    cbn [varName defaultValue]; (split; [|try discriminate]);
    try (apply first_of_lacks; now apply split_lacks);
    try assumption;
    intros x Hx; apply (second_of_lacks d _ x (split_lacks _ _ d e He) Hx).
Qed.

Lemma inherited_text_clean : forall name,
  inherited name = true -> lacks nul (inherited_text name) = true.
Proof.
  intros name H. apply string_mem_In in H. unfold object_prototype_names in H.
  repeat (destruct H as [<-|H]; [reflexivity|]). contradiction.
Qed.

Lemma env_member_clean : forall o name,
  nul_free (Some o) -> lacks nul (to_str (env_member o name)) = true.
Proof.
  intros o name Hc. unfold env_member.
  destruct (lookup name o) as [v|] eqn:El.
  - apply lookup_In in El.
    exact (proj1 (Forall_forall _ _) Hc (name, v) El).
  - destruct (inherited name) eqn:Ei; [|reflexivity].
    cbn [to_str]. now apply inherited_text_clean.
Qed.

(** A substituted value holds no NUL when neither the expression nor the
    environment does. *)
Lemma substituteVariable_clean : forall type_error_message env matched e r,
  nul_free env -> lacks nul e = true ->
  substituteVariable type_error_message matched e env = Ok r -> lacks nul r = true.
Proof.
  intros tem env matched e r Hc He H. unfold substituteVariable in H.
  destruct (parse_expression_lacks nul e He) as [_ Hd].
  destruct env as [o|]; cbn [env_value bind] in H; [|discriminate].
  pose proof (env_member_clean o (varName (parse_expression e)) Hc) as Hv.
  set (v := env_member o (varName (parse_expression e))) in *.
  assert (Hvalue : forall x,
            (if is_set v then string_of tem v else Ok ""%string) = Ok x ->
            lacks nul x = true).
  { intros x Hx. destruct (is_set v); [|now injection Hx as <-].
    unfold string_of in Hx. destruct (convertible v); [|discriminate].
    now injection Hx as <-. }
  cbv zeta in H.
  destruct (errorMessage (parse_expression e)) as [msg|].
  - destruct (negb (String.eqb msg "") && _); [discriminate|].
    now apply Hvalue.
  - destruct (defaultValue (parse_expression e)) as [x|].
    + destruct (_ || _); [injection H as <-; now apply Hd | now apply Hvalue].
    + now apply Hvalue.
Qed.

Section Restore.

Variable type_error_message : value -> string -> string.
Variable env : environment.
Hypothesis env_clean : nul_free env.

Local Abbreviation expand_piece := (expand_piece type_error_message env).
Local Abbreviation expand := (expand type_error_message env).

(** No piece of a text free of NUL expands to a text that holds one. *)
Lemma pieces_clean : forall s,
  lacks nul s = true ->
  Forall (fun p => lacks nul (expand_piece p) = true) (pieces_of s).
Proof.
  induction s as [|rest IH|e after He Hb IH|c rest H1 H2 IH] using pieces_induction;
    intros H.
  - constructor.
  - rewrite pieces_of_escape. constructor; [reflexivity|].
    apply IH. rewrite lacks_app in H. now apply andb_true_iff in H as [_ H].
  - rewrite (pieces_of_reference e after He Hb).
    rewrite !lacks_app in H. apply andb_true_iff in H as [_ H].
    apply andb_true_iff in H as [Hexp H]. apply andb_true_iff in H as [_ H].
    constructor; [|now apply IH]. cbn [Vocabulary.expand_piece].
    destruct (substituteVariable type_error_message ("${" ++ e ++ "}") e env)
      as [r|msg] eqn:E.
    + exact (substituteVariable_clean _ _ _ e r env_clean Hexp E).
    + rewrite !lacks_app, Hexp. reflexivity.
  - rewrite (pieces_of_text c rest H1 H2). cbn [lacks] in H.
    apply andb_true_iff in H as [Hc H].
    constructor; [|now apply IH]. cbn [Vocabulary.expand_piece lacks].
    now rewrite Hc.
Qed.

(** Restoring the placeholder gives one dollar sign per escape. *)
Lemma restore_pieces : forall ps,
  Forall (fun p => lacks nul (expand_piece p) = true) ps ->
  replace_all ESCAPED_DOLLAR_PLACEHOLDER "$" (expand (map masked ps)) = expand ps.
Proof.
  intros ps H. induction H as [|p ps Hp _ IH]; [reflexivity|].
  cbn [map]. rewrite !expand_cons. rewrite placeholder_shape in *.
  destruct p as [t| |e]; cbn [masked].
  - now rewrite (replace_all_skip nul _ _ _ _ Hp), IH.
  - cbn [Vocabulary.expand_piece]. now rewrite replace_all_hit, IH.
  - now rewrite (replace_all_skip nul _ _ _ _ Hp), IH.
Qed.

(** [interpolateString] on a text free of NUL whose escapes stand outside
    the references. *)
Lemma interpolateString_pieces : forall throwOnError s,
  lacks nul s = true -> Forall escape_outside (pieces_of s) ->
  match snd (interpolateString type_error_message s env throwOnError) with
  | Ok result => resolved result = expand (pieces_of s)
  | Throw _ => throwOnError = true
  end.
Proof.
  intros throwOnError s Hs Hp. unfold interpolateString.
  rewrite (prepass_pieces s Hp).
  pose proof (replaced_pieces type_error_message env throwOnError s Hp) as Hr.
  unfold replaced_to in Hr.
  destruct (replace_variables type_error_message _ false
              (render (map masked (pieces_of s))) env throwOnError)
    as [[names events] text].
  cbn [snd] in *. destruct text as [x|msg]; cbn [bind]; [|exact Hr].
  cbn [resolved]. subst x. apply restore_pieces. now apply pieces_clean.
Qed.

End Restore.

(** Text without a dollar sign is made of text pieces. *)
Lemma expand_plain : forall type_error_message env (t : string),
  lacks "$" t = true ->
  Forall escape_outside (pieces_of t)
  /\ expand type_error_message env (pieces_of t) = t.
Proof.
  intros tem env. induction t as [|c t IH]; intros H; [split; [constructor|reflexivity]|].
  cbn [lacks] in H. apply andb_true_iff in H as [Hc H]. apply negb_true_iff in Hc.
  assert (Hne : c <> "$"%char) by (intros ->; discriminate).
  rewrite pieces_of_text;
    [|cbn [startsWith]; now rewrite Hc|cbn [startsWith]; now rewrite Hc].
  destruct (IH H) as [IH1 IH2]. split; [constructor; [exact I | exact IH1]|].
  cbn [expand fold_right expand_piece append]. f_equal. exact IH2.
Qed.

(** The pieces are a reading of the whole string. *)
Lemma render_pieces : forall s, render (pieces_of s) = s.
Proof.
  induction s as [|rest IH|e after He Hb IH|c rest H1 H2 IH] using pieces_induction.
  - reflexivity.
  - now rewrite pieces_of_escape, render_cons, IH.
  - rewrite (pieces_of_reference e after He Hb), render_cons, IH.
    cbn [render_piece]. now rewrite <- !append_assoc.
  - now rewrite (pieces_of_text c rest H1 H2), render_cons, IH.
Qed.

(** C8 (amended). For every input string free of the NUL character, under an
    environment whose values are free of it, and with every [$$] outside the
    braces of a reference (the string being read, whole, as a sequence of
    escapes, references and text): each [$$] comes out as one [$], is never
    read as a reference, and the rest of the string comes out as the interpolation
    leaves it (text as it stands, a reference replaced by its value, or left
    as written when its substitution fails and [throwOnError] is off; with
    [throwOnError] on, the only other outcome is the exception of a
    reference).  In particular [$${name}] comes out as the literal
    [${name}]. *)
Theorem escaped_dollars_collapse : forall type_error_message env s,
  lacks nul s = true -> nul_free env ->
  Forall escape_outside (pieces_of s) ->
  render (pieces_of s) = s
  /\ (exists result,
     snd (interpolateString type_error_message s env false) = Ok result
     /\ resolved result = expand type_error_message env (pieces_of s))
  /\ (forall result,
        snd (interpolateString type_error_message s env true) = Ok result ->
        resolved result = expand type_error_message env (pieces_of s))
  /\ (forall rest, s = ("$$" ++ rest)%string ->
        expand type_error_message env (pieces_of s)
        = ("$" ++ expand type_error_message env (pieces_of rest))%string)
  /\ (forall name, s = ("$${" ++ name ++ "}")%string -> lacks "$" name = true ->
        expand type_error_message env (pieces_of s) = ("${" ++ name ++ "}")%string).
Proof.
  intros tem env s Hs Henv Hp. split; [apply render_pieces|].
  split; [|split; [|split]].
  - pose proof (interpolateString_pieces tem env Henv false s Hs Hp) as H.
    destruct (snd (interpolateString tem s env false)) as [result|msg];
      [eauto | discriminate].
  - intros result E.
    pose proof (interpolateString_pieces tem env Henv true s Hs Hp) as H.
    now rewrite E in H.
  - intros rest ->. now rewrite pieces_of_escape.
  - intros name -> Hname.
    change ("$${" ++ name ++ "}")%string with ("$$" ++ ("{" ++ name ++ "}"))%string.
    rewrite pieces_of_escape.
    assert (Ht : lacks "$" ("{" ++ name ++ "}") = true)
      by (cbn [append lacks]; rewrite lacks_app, Hname; reflexivity).
    destruct (expand_plain tem env _ Ht) as [_ E].
    rewrite expand_cons, E. reflexivity.
Qed.

(** ** The properties on sample documents *)

Import Examples.

(** A service without [extends] keeps its list of dependencies. *)
Lemma depends_on_list_survives :
  exists out,
    resolveAllExtends no_text compose_plain = Some (Ok out)
    /\ get (get (get out "services") "web") "depends_on" = VArr [VStr "db"].
Proof. eexists. split; reflexivity. Qed.

Lemma depends_on_long_form_example :
  exists out,
    resolveAllExtends no_text compose_extending = Some (Ok out)
    /\ isArray (get (get (get out "services") "web") "depends_on") = false.
Proof.
  eexists. split; [reflexivity|].
  pose proof (depends_on_long_form_after_extends no_text compose_extending _
                eq_refl eq_refl "web"
                (VObj [("extends", VStr "base"); ("ports", VArr [VStr "80:80"])])) as H.
  cbv zeta in H. apply H; [|reflexivity].
  simpl. right. left. reflexivity.
Defined.

(** An operator inside the default decides the class of the expression, and
    an empty message raises nothing. *)
Lemma default_with_operator_text :
  substituteVariable no_text "${X:-a:?b}" "X:-a:?b" (Some []) = Throw "b"
  /\ substituteVariable no_text "${X:?}" "X:?" (Some []) = Ok ""%string.
Proof. split; reflexivity. Qed.

Lemma substitution_operators_example :
  substituteVariable no_text "${EMPTY:-d}" "EMPTY:-d" (Some env_empty_value)
  = Ok "d"%string
  /\ substituteVariable no_text "${EMPTY-d}" "EMPTY-d" (Some env_empty_value)
     = Ok ""%string
  /\ substituteVariable no_text "${EMPTY:?m}" "EMPTY:?m" (Some env_empty_value)
     = Throw "m"
  /\ substituteVariable no_text "${EMPTY?m}" "EMPTY?m" (Some env_empty_value)
     = Ok ""%string
  /\ substituteVariable no_text "${MISSING?m}" "MISSING?m" (Some env_empty_value)
     = Throw "m"
  /\ substituteVariable no_text "${constructor:-d}" "constructor:-d" (Some [])
     = Ok "function Object() { [native code] }"%string.
Proof.
  assert (He : variable_name "EMPTY") by (repeat split).
  assert (Hm : variable_name "MISSING") by (repeat split).
  assert (Hc : variable_name "constructor") by (repeat split).
  pose proof (substitution_operators no_text env_empty_value "${EMPTY:-d}" "EMPTY"
                He eq_refl) as H1.
  pose proof (substitution_operators no_text env_empty_value "${EMPTY-d}" "EMPTY"
                He eq_refl) as H2.
  pose proof (substitution_operators no_text env_empty_value "${EMPTY:?m}" "EMPTY"
                He eq_refl) as H3.
  pose proof (substitution_operators no_text env_empty_value "${EMPTY?m}" "EMPTY"
                He eq_refl) as H4.
  pose proof (substitution_operators no_text env_empty_value "${MISSING?m}" "MISSING"
                Hm eq_refl) as H5.
  pose proof (substitution_operators no_text [] "${constructor:-d}" "constructor"
                Hc eq_refl) as H6.
  destruct H1 as (H1 & _), H2 as (_ & H2 & _), H3 as (_ & _ & H3 & _),
    H4 as (_ & _ & _ & H4 & _), H5 as (_ & _ & _ & H5 & _), H6 as (H6 & _).
  refine (conj _ (conj _ (conj _ (conj _ (conj _ _))))).
  - exact (H1 "d"%string eq_refl eq_refl).
  - exact (H2 "d"%string eq_refl eq_refl).
  - apply (H3 "m"%string); [discriminate | reflexivity].
  - apply (H4 "m"%string); [discriminate | reflexivity | reflexivity].
  - apply (H5 "m"%string); [discriminate | reflexivity | reflexivity].
  - exact (H6 "d"%string eq_refl eq_refl).
Defined.

(** An [extends] left empty stays in the output. *)
Lemma empty_extends_survives :
  exists out,
    resolveAllExtends no_text compose_empty_extends = Some (Ok out)
    /\ has_own (get (get out "services") "app") "extends" = true.
Proof. eexists. split; reflexivity. Qed.

Lemma no_extends_after_resolution_example :
  exists out,
    resolveAllExtends no_text compose_extending = Some (Ok out)
    /\ (forall name svc, In (name, svc) (own_entries (get out "services")) ->
          truthy (get svc "extends") = false).
Proof.
  eexists. split; [reflexivity|].
  exact (proj1 (no_extends_after_resolution no_text compose_extending _ eq_refl)).
Defined.

(** An escape inside the braces of a reference leaves no dollar sign; and
    where the input, or a value of the environment, holds the NUL character
    of the placeholder, the dollar sign of an escape comes out in another
    place. *)
Lemma escape_inside_reference_vanishes :
  (exists result,
     snd (interpolateString no_text "${A$$B}" (Some []) true) = Ok result
     /\ resolved result = ""%string)
  /\ (exists result,
     snd (interpolateString no_text (String nul "ESCAPED_DOLLAR$$") (Some []) true)
     = Ok result
     /\ resolved result = ("$ESCAPED_DOLLAR" ++ String nul "")%string)
  /\ (exists result,
     snd (interpolateString no_text "${X}$$" (Some env_with_nul) true) = Ok result
     /\ resolved result = ("$ESCAPED_DOLLAR" ++ String nul "")%string).
Proof. repeat split; eexists; split; reflexivity. Qed.

Lemma escaped_dollars_example :
  (exists result,
     snd (interpolateString no_text "$$${PORT}:80" (Some env_port) false) = Ok result
     /\ resolved result = "$3000:80"%string)
  /\ (exists result,
     snd (interpolateString no_text "$${PORT}" (Some env_port) false) = Ok result
     /\ resolved result = "${PORT}"%string).
Proof.
  assert (Henv : nul_free (Some env_port)) by (repeat constructor).
  split.
  - assert (Hp : Forall escape_outside (pieces_of "$$${PORT}:80"))
      by (vm_compute; repeat constructor).
    exact (proj1 (proj2 (escaped_dollars_collapse no_text (Some env_port)
                           "$$${PORT}:80" eq_refl Henv Hp))).
  - assert (Hp : Forall escape_outside (pieces_of "$${PORT}"))
      by (vm_compute; repeat constructor).
    destruct (escaped_dollars_collapse no_text (Some env_port) "$${PORT}"
                eq_refl Henv Hp) as [_ [[result [Hr He]] [_ [_ Hname]]]].
    exists result. split; [exact Hr|].
    rewrite He. exact (Hname "PORT"%string eq_refl eq_refl).
Defined.




Lemma sibling_load_unique : forall text doc,
  sibling_load text = Ok doc -> unique_keys doc = true.
Proof.
  intros text doc. unfold sibling_load.
  repeat (destruct (String.eqb text _); [intros [= <-]; reflexivity|]).
  discriminate.
Qed.

Lemma cycles_of_three_example :
  resolveServiceExtends no_text 4 (get ring_services "a") ring_services []
  = Some (Throw "Circular extends detected: b → c → a → b")
  /\ resolveIncludes no_text ring_load 3 ring_root "a.yml" ring_files []
     = Some (Throw "Circular include detected: a.yml → b.yml → c.yml → a.yml").
Proof.
  destruct (cycles_of_three_are_reported no_text ring_load) as [He Hi]. split.
  - apply (He 0%nat ring_services "a"%string "b"%string "c"%string);
      try discriminate; split; reflexivity.
  - pose proof (Hi 0%nat ring_files ring_root
                  (VObj [("include", VArr [VStr "./c.yml"])])
                  (VObj [("include", VArr [VStr "./a.yml"])])
                  "a.yml"%string "b.yml"%string "c.yml"%string
                  "B"%string "C"%string [VStr "./x.yml"] [] []) as H.
    cbv zeta in H. apply H; try discriminate; try reflexivity.
    + repeat split. exists (VStr "./b.yml"), [], "./b.yml"%string.
      repeat split; [now left | discriminate].
    + repeat split. exists (VStr "./c.yml"), [], "./c.yml"%string.
      repeat split; [now left | discriminate].
    + repeat split. exists (VStr "./a.yml"), [], "./a.yml"%string.
      repeat split; [now left | discriminate].
    + eexists. reflexivity.
    + eexists. reflexivity.
    + eexists. reflexivity.
Defined.

Lemma earlier_include_example :
  exists final,
    resolveIncludes no_text sibling_load 3 siblings_root "docker-compose.yml"
      sibling_files [] = Some (Ok final)
    /\ entry_of final "services" "a" = Some (VObj [("image", VStr "first")]).
Proof.
  eexists. split; [reflexivity|].
  match goal with
  | |- entry_of ?final _ _ = _ =>
      pose proof (earlier_include_takes_precedence no_text sibling_load
                    sibling_load_unique 2%nat siblings_root "docker-compose.yml"%string
                    sibling_files [] final [] (VStr "./d.yml") [VStr "./e.yml"]
                    first_sibling "services"%string "a"%string
                    (VObj [("image", VStr "first")])) as H
  end.
  cbv zeta in H. apply H; try reflexivity.
  - simpl. now left.
  - intros earlier r' [].
  - exists "./d.yml"%string, "d.yml"%string, "D"%string, first_sibling.
    repeat split. discriminate. discriminate.
Defined.

(** With [environment: null], or with a number for [activeProfiles], the
    root parses and the result is the fatal one all the same. *)
Lemma fatal_after_root_parse :
  ComposeParser.parse_root (fun _ => Ok tagged_root) "services: ..." = Ok tagged_root
  /\ ComposeParser.parseCompose read_error (fun _ => Ok tagged_root) "services: ..."
       null_environment
     = Some (ComposeParser.fatal_result
               "Cannot read properties of null (reading 'TAG')")
  /\ ComposeParser.parse_root (fun _ => Ok profiled_root) "services: ..."
     = Ok profiled_root
  /\ ComposeParser.parseCompose no_text (fun _ => Ok profiled_root) "services: ..."
       numeric_profiles
     = Some (ComposeParser.fatal_result "").
Proof. repeat split; reflexivity. Qed.

Lemma root_parse_example :
  ComposeParser.parseCompose no_text (fun _ => Throw "bad indentation") "a: b: c"
    ComposeParser.default_options
  = Some (ComposeParser.fatal_result "bad indentation")
  /\ exists r,
       ComposeParser.parseCompose no_text (fun _ => Ok missing_include_root)
         "include: ./missing.yml" ComposeParser.default_options = Some r
       /\ ComposeParser.compose r <> None
       /\ map ComposeParser.type (ComposeParser.errors r) = ["include"%string].
Proof.
  split.
  - exact (proj1 (only_the_root_parse_is_fatal no_text (fun _ => Throw "bad indentation")
                    "a: b: c"%string ComposeParser.default_options)).
  - pose proof (only_the_root_parse_is_fatal no_text (fun _ => Ok missing_include_root)
                  "include: ./missing.yml"%string ComposeParser.default_options) as H.
    cbv zeta in H.
    change (ComposeParser.parse_root (fun _ => Ok missing_include_root)
              "include: ./missing.yml")
      with (Ok missing_include_root) in H.
    cbv iota beta in H.
    destruct H as (doc1 & errors1 & doc2 & errors2 & E1 & E2 & _ & _ & Hr & Hok & Hdoc).
    assert (Ho : Notions.documented_options ComposeParser.default_options)
      by (split; [discriminate | exact I]).
    destruct (Hdoc Ho) as [r Hfin]. rewrite Hfin in Hr.
    exists r. split; [exact Hr|]. split; [exact (proj1 (Hok r Hfin))|].
    vm_compute in E1. injection E1 as <- <-.
    vm_compute in E2. injection E2 as <- <-.
    vm_compute in Hfin. injection Hfin as <-. reflexivity.
Defined.

(** * Further properties *)

Import PathTools Notions.

(** ** Paths *)

Lemma normalizePath_segments : forall path,
  normalizePath path = join "/" (segments_of path).
Proof.
  intros path. unfold normalizePath, segments_of.
  destruct (String.eqb path "") eqn:E; [|reflexivity].
  apply String.eqb_eq in E. subst path. reflexivity.
Qed.

Lemma segments_of_kept : forall path, Forall kept_segment (segments_of path).
Proof.
  intros path. unfold segments_of.
  apply normalize_segments_kept; [|constructor].
  pose proof (split_pieces_lack "/" path) as Hl.
  induction Hl as [|seg segs Hseg _ IH]; simpl; [constructor|].
  destruct (nonempty seg) eqn:E; [|exact IH].
  constructor; [now split | exact IH].
Qed.

Lemma kept_lack_slash : forall segs,
  Forall kept_segment segs -> Forall (fun seg => lacks "/" seg = true) segs.
Proof.
  intros segs H. apply Forall_impl with (2 := H). intros s [_ [_ [_ Hs]]]. exact Hs.
Qed.

Lemma join_snoc : forall sep segs last,
  segs <> [] ->
  join sep (segs ++ [last]) = (join sep segs ++ sep ++ last)%string.
Proof.
  intros sep segs last H. induction segs as [|s segs IH]; [congruence|].
  destruct segs as [|s' segs]; [reflexivity|].
  change (join sep ((s :: s' :: segs) ++ [last]))
    with (s ++ sep ++ join sep ((s' :: segs) ++ [last]))%string.
  rewrite IH by discriminate.
  change (join sep (s :: s' :: segs)) with (s ++ sep ++ join sep (s' :: segs))%string.
  now rewrite !append_assoc.
Qed.

Lemma lastIndexOf_absent : forall c s,
  lacks c s = true -> lastIndexOf (String c "") s = None.
Proof.
  intros c s. induction s as [|x s IH]; intros H; [reflexivity|].
  cbn [lacks] in H. apply andb_true_iff in H as [Hx Hs].
  cbn [lastIndexOf]. rewrite (IH Hs). cbn [startsWith].
  apply negb_true_iff in Hx. now rewrite Hx.
Qed.

Lemma lastIndexOf_last : forall c (a b : string),
  lacks c b = true ->
  lastIndexOf (String c "") (a ++ String c b) = Some (String.length a).
Proof.
  intros c a b Hb. induction a as [|x a IH].
  - cbn [append lastIndexOf String.length]. rewrite (lastIndexOf_absent c b Hb).
    cbn [startsWith]. rewrite Ascii.eqb_refl. now destruct b.
  - cbn [append lastIndexOf String.length]. now rewrite IH.
Qed.

Lemma take_length_app : forall a b : string, take (String.length a) (a ++ b) = a.
Proof.
  induction a as [|x a IH]; intros b; [now destruct b|].
  cbn [String.length append take]. now rewrite IH.
Qed.

Lemma list_snoc_cases : forall (A : Type) (l : list A),
  l = [] \/ exists l' x, l = l' ++ [x].
Proof.
  intros A l. destruct l as [|a l]; [now left|]. right.
  destruct (exists_last (l := a :: l)) as [l' [x E]]; [discriminate|].
  now exists l', x.
Qed.

Lemma dirname_segments : forall path,
  dirname path = join "/" (removelast (segments_of path)).
Proof.
  intros path. unfold dirname.
  destruct (String.eqb path "") eqn:E.
  - apply String.eqb_eq in E. subst path. reflexivity.
  - rewrite normalizePath_segments.
    pose proof (segments_of_kept path) as Hk.
    destruct (list_snoc_cases _ (segments_of path)) as [->|[segs [last Es]]];
      [reflexivity|].
    rewrite Es in *. rewrite removelast_last.
    apply kept_lack_slash in Hk. apply Forall_app in Hk as [Hsegs Hlast].
    inversion Hlast as [|? ? Hl _]; subst.
    destruct segs as [|s segs].
    + cbn [app join]. now rewrite (lastIndexOf_absent "/" last Hl).
    + rewrite join_snoc by discriminate.
      rewrite (lastIndexOf_last "/" _ last Hl). apply take_length_app.
Qed.

Lemma split_prefix : forall (seg path : string),
  lacks "/" seg = true ->
  split "/" (seg ++ "/" ++ path) = seg :: split "/" path.
Proof.
  intros seg path H. rewrite split_unfold.
  change (seg ++ "/" ++ path)%string with (seg ++ String "/" ("" ++ path))%string.
  now rewrite (break_at_first "/" "" seg path H).
Qed.

(** X1: the result of [normalizePath] is the join of segments that are
    non-empty, are neither [.] nor [..] and hold no slash (so it neither
    starts nor ends with a slash), and normalizing it again changes
    nothing. *)
Theorem normalizePath_canonical : forall path,
  (exists segments,
     Forall kept_segment segments /\ normalizePath path = join "/" segments)
  /\ normalizePath (normalizePath path) = normalizePath path.
Proof.
  intros path. split.
  - exists (segments_of path). split; [apply segments_of_kept|].
    apply normalizePath_segments.
  - apply normalizePath_idempotent.
Qed.

(** X2: [dirname] drops the last segment of the normalized path: it is the
    join of all the segments [normalizePath] keeps but the last, and empty
    for a path of at most one segment. *)
Theorem dirname_drops_last_segment : forall path,
  dirname path = join "/" (removelast (segments_of path))
  /\ normalizePath (dirname path) = dirname path.
Proof.
  intros path. split; [apply dirname_segments|].
  rewrite dirname_segments.
  pose proof (segments_of_kept path) as Hk.
  apply Forall_removelast in Hk.
  destruct (removelast (segments_of path)) as [|seg stack] eqn:E; [reflexivity|].
  unfold normalizePath.
  inversion Hk as [|? ? [Hne _] _]; subst.
  rewrite (join_nonempty "/" seg stack Hne).
  rewrite split_join; [|discriminate|now apply kept_lack_slash].
  now rewrite (filter_kept _ Hk), (normalize_segments_id _ _ Hk).
Qed.

(** X3: a path cannot climb above its root, and a leading slash or [./]
    is dropped: [normalizePath] gives the same result with and without a
    leading [../], [./] or [/]. *)
Theorem normalizePath_ignores_leading_steps : forall path,
  normalizePath ("../" ++ path) = normalizePath path
  /\ normalizePath ("./" ++ path) = normalizePath path
  /\ normalizePath ("/" ++ path) = normalizePath path.
Proof.
  intros path. rewrite !normalizePath_segments. unfold segments_of.
  pose proof (split_prefix ".." path eq_refl) as H1.
  pose proof (split_prefix "." path eq_refl) as H2.
  pose proof (split_prefix "" path eq_refl) as H3.
  change (".." ++ "/" ++ path)%string with ("../" ++ path)%string in H1.
  change ("." ++ "/" ++ path)%string with ("./" ++ path)%string in H2.
  change ("" ++ "/" ++ path)%string with ("/" ++ path)%string in H3.
  rewrite H1, H2, H3. repeat split.
Qed.

(** ** Relative paths *)

Import PathTools Notions.

Lemma segments_of_join : forall segs,
  Forall kept_segment segs -> segments_of (join "/" segs) = segs.
Proof.
  intros segs H. destruct segs as [|seg segs]; [reflexivity|].
  unfold segments_of.
  rewrite split_join; [|discriminate|now apply kept_lack_slash].
  now rewrite (filter_kept _ H), (normalize_segments_id _ _ H).
Qed.

Lemma segments_of_normalized : forall path,
  segments_of (normalizePath path) = segments_of path.
Proof.
  intros path. rewrite normalizePath_segments.
  apply segments_of_join, segments_of_kept.
Qed.

Lemma normalize_segments_app : forall a b n,
  normalize_segments (a ++ b) n = normalize_segments b (normalize_segments a n).
Proof.
  induction a as [|s a IH]; intros b n; [reflexivity|].
  cbn [app normalize_segments].
  destruct (String.eqb s "."); [apply IH|].
  destruct (String.eqb s ".."); apply IH.
Qed.

Lemma normalize_segments_ups : forall k n,
  normalize_segments (repeat ".." k) n = firstn (List.length n - k) n.
Proof.
  induction k as [|k IH]; intros n.
  - cbn [repeat normalize_segments]. now rewrite Nat.sub_0_r, firstn_all.
  - cbn [repeat normalize_segments]. change (String.eqb ".." ".") with false.
    change (String.eqb ".." "..") with true. cbv iota.
    rewrite IH, removelast_firstn_len, firstn_firstn, length_firstn.
    f_equal. lia.
Qed.

Lemma common_length_prefix : forall f t,
  firstn (common_length f t) f = firstn (common_length f t) t
  /\ (common_length f t <= List.length f)%nat
  /\ (common_length f t <= List.length t)%nat.
Proof.
  induction f as [|x f IH]; intros t; [simpl; repeat split; lia|].
  destruct t as [|y t]; [simpl; repeat split; lia|].
  cbn [common_length]. destruct (String.eqb x y) eqn:E;
    [|simpl; repeat split; lia].
  apply String.eqb_eq in E. subst y. destruct (IH t) as (H1 & H2 & H3).
  cbn [firstn List.length]. rewrite H1. repeat split; lia.
Qed.

Lemma join_app : forall sep (a b : list string),
  a <> [] -> b <> [] ->
  join sep (a ++ b) = (join sep a ++ sep ++ join sep b)%string.
Proof.
  intros sep a b Ha Hb. induction a as [|x a IH]; [congruence|].
  destruct a as [|y a].
  - destruct b as [|z b]; [congruence|]. reflexivity.
  - change (join sep ((x :: y :: a) ++ b))
      with (x ++ sep ++ join sep ((y :: a) ++ b))%string.
    rewrite IH by discriminate.
    change (join sep (x :: y :: a)) with (x ++ sep ++ join sep (y :: a))%string.
    now rewrite !append_assoc.
Qed.

Lemma join_empty_base : forall segs,
  Forall kept_segment segs -> String.eqb (join "/" segs) "" = false -> segs <> [].
Proof. intros segs _ H ->. discriminate. Qed.

(** Joining a base of kept segments with a relative path given by its
    parts. *)
Lemma joinPath_parts : forall dsegs relsegs,
  Forall kept_segment dsegs -> dsegs <> [] -> relsegs <> [] ->
  Forall (fun seg => lacks "/" seg = true) relsegs ->
  String.eqb (join "/" relsegs) "" = false ->
  startsWith "./" (join "/" relsegs) = false ->
  joinPath (join "/" dsegs) (join "/" relsegs) =
  join "/" (normalize_segments (filter nonempty relsegs) dsegs).
Proof.
  intros dsegs relsegs Hd Hdne Hrne Hr Hjoin Hstrip.
  unfold joinPath, strip_dot_slash. rewrite Hjoin, Hstrip.
  destruct dsegs as [|d dsegs]; [congruence|].
  inversion Hd as [|? ? [Hne _] _]; subst.
  rewrite (join_nonempty "/" d dsegs Hne).
  rewrite <- join_app by (assumption || discriminate).
  rewrite normalizePath_segments. unfold segments_of.
  rewrite split_join.
  - rewrite filter_app, (filter_kept _ Hd), normalize_segments_app.
    now rewrite (normalize_segments_id _ _ Hd).
  - discriminate.
  - apply Forall_app. split; [now apply kept_lack_slash | exact Hr].
Qed.

Lemma startsWith_dot_slash : forall seg rest,
  lacks "/" seg = true -> String.eqb seg "." = false ->
  startsWith "./" (join "/" (seg :: rest)) = false.
Proof.
  intros seg rest Hl Hdot.
  assert (H : forall tail : string, startsWith "./" (seg ++ tail) = false
                \/ seg = ""%string).
  { intros tail. destruct seg as [|c seg]; [now right|]. left.
    cbn [append startsWith]. destruct (Ascii.eqb "." c) eqn:Ec; [|reflexivity].
    apply Ascii.eqb_eq in Ec. subst c.
    destruct seg as [|c' seg]; [discriminate|].
    cbn [lacks] in Hl. cbn [append startsWith].
    destruct (Ascii.eqb "/" c'); [discriminate | reflexivity]. }
  destruct rest as [|r rest].
  - cbn [join]. destruct (H ""%string) as [E| ->]; [|reflexivity].
    now rewrite append_nil_r in E.
  - change (join "/" (seg :: r :: rest))
      with (seg ++ "/" ++ join "/" (r :: rest))%string.
    destruct (H ("/" ++ join "/" (r :: rest))%string) as [E| ->]; [exact E|].
    reflexivity.
Qed.

Lemma filter_nonempty_ups : forall k, filter nonempty (repeat ".." k) = repeat ".." k.
Proof. induction k as [|k IH]; [reflexivity|]. cbn. now f_equal. Qed.

Lemma ups_lack_slash : forall k,
  Forall (fun seg => lacks "/" seg = true) (repeat ".." k).
Proof. induction k; constructor; [reflexivity | assumption]. Qed.

Lemma Forall_skipn : forall (A : Type) (P : A -> Prop) n l,
  Forall P l -> Forall P (skipn n l).
Proof.
  intros A P n l H. rewrite <- (firstn_skipn n l) in H.
  now apply Forall_app in H.
Qed.

(** X4: the relative path [getRelativePath] computes leads back to its
    target: resolved from the source file it gives the normalized target
    path, for every pair of paths. *)
Theorem relative_path_round_trip : forall fromPath toPath,
  resolvePath fromPath (getRelativePath fromPath toPath) = normalizePath toPath.
Proof.
  intros fromPath toPath. unfold resolvePath, getRelativePath.
  assert (Hdir : dirname (normalizePath fromPath) = dirname fromPath)
    by (now rewrite !dirname_segments, segments_of_normalized).
  rewrite Hdir, dirname_segments.
  set (dsegs := removelast (segments_of fromPath)).
  assert (Hd : Forall kept_segment dsegs)
    by (apply Forall_removelast, segments_of_kept).
  rewrite (normalizePath_segments toPath).
  set (tsegs := segments_of toPath).
  assert (Ht : Forall kept_segment tsegs) by apply segments_of_kept.
  destruct (String.eqb (join "/" dsegs) "") eqn:ED.
  { apply String.eqb_eq in ED. rewrite ED. unfold joinPath. cbn [String.eqb].
    now rewrite normalizePath_segments, (segments_of_join _ Ht). }
  assert (Hdne : dsegs <> []) by (intros E; rewrite E in ED; discriminate).
  rewrite (split_join "/" dsegs Hdne (kept_lack_slash _ Hd)).
  set (toParts := split "/" (join "/" tsegs)).
  destruct (common_length_prefix dsegs toParts) as (Hpre & Hcd & Hct).
  set (c := common_length dsegs toParts) in *.
  assert (Hparts : (tsegs = [] /\ toParts = [""%string])
                   \/ (tsegs <> [] /\ toParts = tsegs)).
  { destruct tsegs as [|t tsegs'] eqn:E; [now left|]. right.
    split; [discriminate|]. unfold toParts.
    apply split_join; [discriminate | now apply kept_lack_slash]. }
  assert (Hrl : Forall (fun seg => lacks "/" seg = true)
                  (repeat ".." (List.length dsegs - c) ++ skipn c toParts)).
  { apply Forall_app. split; [apply ups_lack_slash|]. apply Forall_skipn.
    destruct Hparts as [[_ ->]|[_ ->]];
      [repeat constructor | now apply kept_lack_slash]. }
  assert (Hnorm :
    normalize_segments
      (filter nonempty (repeat ".." (List.length dsegs - c) ++ skipn c toParts)) dsegs
    = tsegs).
  { rewrite filter_app, filter_nonempty_ups, normalize_segments_app,
      normalize_segments_ups.
    replace (List.length dsegs - (List.length dsegs - c))%nat with c by lia.
    destruct Hparts as [[Et Ep]|[_ Ep]].
    - assert (Hc : c = 0%nat).
      { unfold c. rewrite Ep. destruct dsegs as [|d dsegs']; [congruence|].
        inversion Hd as [|? ? [Hne _] _]; subst. cbn [common_length].
        unfold nonempty in Hne. apply negb_true_iff in Hne. now rewrite Hne. }
      rewrite Hc, Ep, Et. reflexivity.
    - rewrite Ep in *. rewrite (filter_kept _ (Forall_skipn _ _ c _ Ht)).
      rewrite (normalize_segments_id _ _ (Forall_skipn _ _ c _ Ht)).
      rewrite Hpre. apply firstn_skipn. }
  destruct (repeat ".." (List.length dsegs - c) ++ skipn c toParts)
    as [|r rel] eqn:Erel.
  - cbn [join String.eqb].
    change "."%string with (join "/" ["."%string]).
    rewrite joinPath_parts; try assumption; try discriminate; try reflexivity.
    + cbn [filter nonempty String.eqb negb normalize_segments]. simpl.
      simpl in Hnorm. now rewrite Hnorm.
    + repeat constructor.
  - assert (Hr : nonempty r = true /\ String.eqb r "." = false).
    { destruct (List.length dsegs - c)%nat as [|k] eqn:Ek.
      - cbn [repeat app] in Erel.
        destruct Hparts as [[Et Ep]|[_ Ep]].
        + exfalso. assert (Hc : c = 0%nat).
          { unfold c. rewrite Ep. destruct dsegs as [|d dsegs']; [congruence|].
            inversion Hd as [|? ? [Hne _] _]; subst. cbn [common_length].
            unfold nonempty in Hne. apply negb_true_iff in Hne. now rewrite Hne. }
          rewrite Hc, Nat.sub_0_r in Ek. apply length_zero_iff_nil in Ek.
          congruence.
        + rewrite Ep in Erel.
          pose proof (Forall_skipn _ _ c _ Ht) as Hs. rewrite Erel in Hs.
          inversion Hs as [|? ? [Hne [Hdot _]] _]; subst. now split.
      - cbn [repeat app] in Erel. inversion Erel; subst. now split. }
    destruct Hr as [Hne Hdot].
    rewrite (join_nonempty "/" r rel Hne).
    inversion Hrl as [|? ? Hlr _]; subst.
    rewrite joinPath_parts; try assumption; try discriminate.
    + now rewrite Hnorm.
    + apply (join_nonempty "/" r rel Hne).
    + now apply startsWith_dot_slash.
Qed.

(** ** Service inheritance *)

Import Notions.

Lemma normalize_list_lookup : forall xs acc k,
  lookup k (fold_left (fun acc svc => obj_set acc (to_str svc) service_started) xs acc)
  = if string_mem k (map to_str xs) then Some service_started else lookup k acc.
Proof.
  induction xs as [|x xs IH]; intros acc k; [reflexivity|].
  cbn [fold_left map string_mem]. rewrite IH.
  destruct (string_mem k (map to_str xs)).
  - now destruct (String.eqb k (to_str x)).
  - destruct (String.eqb k (to_str x)) eqn:E.
    + apply String.eqb_eq in E. subst k. apply lookup_set_same.
    + apply String.eqb_neq in E. apply lookup_set_other. congruence.
Qed.

(** X5: [normalizeDependsOn] is idempotent; on a list it gives the mapping
    that holds [{condition: 'service_started'}] under exactly the listed
    names; a mapping is returned as it is. *)
Theorem normalizeDependsOn_long_form : forall d,
  normalizeDependsOn (normalizeDependsOn d) = normalizeDependsOn d
  /\ (forall xs k, d = VArr xs ->
        get (normalizeDependsOn d) k =
        if string_mem k (map to_str xs) then service_started else VUndef)
  /\ (forall fields, d = VObj fields -> normalizeDependsOn d = d).
Proof.
  intros d. split; [|split].
  - unfold normalizeDependsOn. destruct (truthy d) eqn:Ht; cbn [negb].
    + destruct d; try reflexivity; now rewrite Ht.
    + reflexivity.
  - intros xs k ->. cbn [normalizeDependsOn truthy negb get]. unfold obj_get.
    rewrite normalize_list_lookup. now destruct (string_mem k (map to_str xs)).
  - intros fields ->. reflexivity.
Qed.

Lemma merge_entries_lookup : forall (merge : value -> value -> value) entries result k,
  NoDup (map fst entries) ->
  lookup k (merge_entries merge entries result) =
  match lookup k entries with
  | None => lookup k result
  | Some v => Some (if plain_object v then merge (obj_get result k) v else v)
  end.
Proof.
  intros merge. induction entries as [|[key v] entries IH]; intros result k Hnd;
    [reflexivity|].
  inversion Hnd as [|? ? Hnotin Hnd']; subst.
  cbn [merge_entries lookup]. rewrite (IH _ k Hnd').
  destruct (String.eqb k key) eqn:E.
  - apply String.eqb_eq in E. subst key.
    rewrite (proj2 (lookup_None_keys entries k) Hnotin). apply lookup_set_same.
  - apply String.eqb_neq in E.
    destruct (lookup k entries) as [v'|].
    + now rewrite (obj_get_set_other _ key k) by congruence.
    + apply lookup_set_other. congruence.
Qed.

(** X6: [deepMerge] of two mappings, key by key: a key the override lacks
    keeps the value of the base; a key the override holds takes the
    override's value, merged recursively into the base's when it is a
    mapping. *)
Theorem deepMerge_by_key : forall base override k,
  distinct_keys (map fst override) = true ->
  get (deepMerge (VObj base) (VObj override)) k =
  match lookup k override with
  | None => obj_get base k
  | Some v => if plain_object v then deepMerge (obj_get base k) v else v
  end.
Proof.
  intros base override k H. apply distinct_keys_NoDup in H.
  cbn [deepMerge not_object truthy typeof_object negb orb own_entries get].
  unfold obj_get at 1. rewrite (merge_entries_lookup deepMerge override base k H).
  destruct (lookup k override); reflexivity.
Qed.

Lemma deepMerge_by_key_example :
  get (deepMerge
         (VObj [("build", VObj [("context", VStr "."); ("target", VStr "dev")]);
                ("image", VStr "a")])
         (VObj [("build", VObj [("target", VStr "prod")])])) "build"
  = VObj [("context", VStr "."); ("target", VStr "prod")].
Proof.
  exact (deepMerge_by_key
           [("build", VObj [("context", VStr "."); ("target", VStr "dev")]);
            ("image", VStr "a")]
           [("build", VObj [("target", VStr "prod")])] "build" eq_refl).
Defined.

Section MergeByKey.

Variable type_error_message : value -> string -> string.

Lemma merge_field_concat_general : forall result key v result',
  strategy_of key = Concat ->
  merge_field type_error_message result key v = Ok result' ->
  exists old,
    spread_iterable type_error_message (or_else (obj_get result key) (VArr [])) = Ok old
    /\ obj_get result' key = VArr (old ++ as_list v).
Proof.
  intros result key v result' Hs H. unfold merge_field in H. rewrite Hs in H.
  destruct (spread_iterable type_error_message
              (or_else (obj_get result key) (VArr []))) as [old|msg];
    [|discriminate].
  exists old. split; [reflexivity|]. cbn [bind] in H.
  assert (E : result' = obj_set result key (VArr (old ++ as_list v)))
    by (unfold as_list; congruence).
  subst. apply obj_get_set_same.
Qed.

Lemma lookup_normalized_depends_on : forall s d,
  lookup "depends_on" (normalized s d) =
  if truthy d then Some (normalizeDependsOn d)
  else lookup "depends_on" (own_entries s).
Proof.
  intros s d. unfold normalized. destruct (truthy d); [|reflexivity].
  apply lookup_set_same.
Qed.

(** The value of [key] after the loop of [mergeServiceConfigs], from the
    entry the override holds for it. *)
Lemma merge_fields_by_key : forall entries result final k,
  NoDup (map fst entries) ->
  merge_fields type_error_message entries result = Ok final ->
  match lookup k entries with
  | None => obj_get final k = obj_get result k
  | Some v =>
      match strategy_of k with
      | Override => obj_get final k = v
      | Merge => obj_get final k = deepMerge (or_else (obj_get result k) (VObj [])) v
      | Concat =>
          exists old,
            spread_iterable type_error_message
              (or_else (obj_get result k) (VArr [])) = Ok old
            /\ obj_get final k = VArr (old ++ as_list v)
      | NoStrategy => obj_get final k = obj_get result k
      end
  end.
Proof.
  intros entries result final k Hnd H.
  destruct (lookup k entries) as [v|] eqn:El.
  - destruct (merge_fields_final type_error_message _ _ _ k v Hnd H (lookup_In _ _ _ El))
      as (r1 & r2 & H1 & Hf & H2).
    assert (Hg1 : obj_get r1 k = obj_get result k) by (unfold obj_get; now rewrite H1).
    assert (Hg2 : obj_get final k = obj_get r2 k) by (unfold obj_get; now rewrite H2).
    rewrite Hg2, <- Hg1.
    destruct (strategy_of k) eqn:Es.
    + now apply merge_field_concat_general.
    + now apply (merge_field_merge type_error_message r1 k v r2).
    + now apply (merge_field_override type_error_message r1 k v r2).
    + unfold merge_field in Hf. rewrite Es in Hf. now injection Hf as <-.
  - unfold obj_get.
    rewrite (merge_fields_untouched type_error_message _ _ _ k H); [reflexivity|].
    now apply lookup_None_keys.
Qed.

End MergeByKey.

(** X7: [mergeServiceConfigs] of two service mappings, key by key.  A key
    the override lacks keeps the value of the base.  A key the override holds
    takes the override's value under the override strategy, the deep merge
    of both values under the merge strategy, and under the concatenation
    strategy the list of the base followed by the value of the override (a
    single value counting as a list of one).  A key of the override that
    names a member of Object.prototype ([constructor], [toString], ...)
    finds that member in the table of strategies, which is none of the three
    strategies: the key is dropped and the base's value stays.  [depends_on]
    is merged the same way after both sides are put in the long form. *)
Theorem mergeServiceConfigs_by_key : forall type_error_message base override merged,
  distinct_keys (map fst override) = true ->
  mergeServiceConfigs type_error_message (VObj base) (VObj override) = Ok merged ->
  (forall k, k <> "depends_on"%string ->
     match lookup k override with
     | None => get merged k = obj_get base k
     | Some v =>
         match strategy_of k with
         | Override => get merged k = v
         | Merge => get merged k = deepMerge (or_else (obj_get base k) (VObj [])) v
         | Concat =>
             exists old,
               spread_iterable type_error_message
                 (or_else (obj_get base k) (VArr [])) = Ok old
               /\ get merged k = VArr (old ++ as_list v)
         | NoStrategy => get merged k = obj_get base k
         end
     end)
  /\ (forall bd od,
        obj_get base "depends_on" = bd -> truthy bd = true ->
        obj_get override "depends_on" = od -> truthy od = true ->
        get merged "depends_on" =
        deepMerge (normalizeDependsOn bd) (normalizeDependsOn od)).
Proof.
  intros tem base override merged Hd H.
  apply distinct_keys_NoDup in Hd.
  destruct (mergeServiceConfigs_Ok tem _ _ _ H) as (result & -> & Hm).
  cbn [get own_entries] in Hm.
  assert (Hnd : NoDup (map fst (normalized (VObj override) (obj_get override "depends_on"))))
    by (now apply normalized_NoDup).
  split.
  - intros k Hk.
    pose proof (merge_fields_by_key tem _ _ _ k Hnd Hm) as Hkey.
    rewrite (lookup_normalized_other _ _ k Hk) in Hkey. cbn [own_entries] in Hkey.
    assert (Hb : obj_get (normalized (VObj base) (obj_get base "depends_on")) k
                 = obj_get base k).
    { unfold obj_get at 1. now rewrite (lookup_normalized_other _ _ k Hk). }
    rewrite Hb in Hkey. exact Hkey.
  - intros bd od Hbd Htb Hod Hto.
    pose proof (merge_fields_by_key tem _ _ _ "depends_on"%string Hnd Hm) as Hkey.
    rewrite lookup_normalized_depends_on, Hod, Hto in Hkey.
    rewrite strategy_depends_on in Hkey.
    assert (Hb : obj_get (normalized (VObj base) (obj_get base "depends_on")) "depends_on"
                 = normalizeDependsOn bd).
    { unfold obj_get at 1. now rewrite lookup_normalized_depends_on, Hbd, Htb. }
    rewrite Hb in Hkey. cbn [get]. rewrite Hkey.
    f_equal. unfold or_else.
    assert (Ht : truthy (normalizeDependsOn bd) = true).
    { unfold normalizeDependsOn. rewrite Htb. cbn [negb].
      destruct bd; try exact Htb; reflexivity. }
    now rewrite Ht.
Qed.

Lemma mergeServiceConfigs_by_key_example :
  exists merged,
    mergeServiceConfigs Examples.no_text
      (VObj [("image", VStr "nginx"); ("ports", VArr [VStr "80:80"]);
             ("depends_on", VArr [VStr "db"])])
      (VObj [("ports", VArr [VStr "443:443"]); ("constructor", VStr "x");
             ("depends_on", VObj [("cache", VObj [("condition", VStr "service_healthy")])])])
    = Ok merged
    /\ get merged "constructor" = VUndef
    /\ get merged "image" = VStr "nginx"
    /\ get merged "ports" = VArr [VStr "80:80"; VStr "443:443"]
    /\ get merged "depends_on"
       = VObj [("db", service_started);
               ("cache", VObj [("condition", VStr "service_healthy")])].
Proof.
  eexists. split; [reflexivity|].
  match goal with
  | |- get ?m _ = _ /\ _ =>
      pose proof (mergeServiceConfigs_by_key Examples.no_text
                    [("image", VStr "nginx"); ("ports", VArr [VStr "80:80"]);
                     ("depends_on", VArr [VStr "db"])]
                    [("ports", VArr [VStr "443:443"]); ("constructor", VStr "x");
                     ("depends_on",
                      VObj [("cache", VObj [("condition", VStr "service_healthy")])])]
                    m eq_refl eq_refl) as [Hk Hd]
  end.
  split; [exact (Hk "constructor"%string ltac:(discriminate))|].
  split; [exact (Hk "image"%string ltac:(discriminate))|].
  split.
  - destruct (Hk "ports"%string ltac:(discriminate)) as (old & Ho & Hp).
    injection Ho as <-. exact Hp.
  - exact (Hd _ _ eq_refl eq_refl eq_refl eq_refl).
Defined.

(** ** Resolving [extends] *)

Import Notions.

Section ExtendsChains.

Variable type_error_message : value -> string -> string.
Variable allServices : value.

Local Abbreviation resolve := (resolveServiceExtends type_error_message).

Lemma last_cons_default : forall (A : Type) (l : list A) (a d : A),
  last (a :: l) d = last l a.
Proof.
  intros A l. induction l as [|b l IH]; intros a d; [reflexivity|].
  change (last (a :: b :: l) d) with (last (b :: l) d).
  rewrite (IH b d), (IH b a). reflexivity.
Qed.

Lemma set_has_strings : forall x path,
  set_has (VStr x) (map VStr path) = string_mem x path.
Proof.
  intros x path. induction path as [|y path IH]; [reflexivity|].
  cbn [map set_has string_mem value_eqb]. rewrite IH.
  now destruct (String.eqb x y).
Qed.

(** A failure at the end of a chain of [extends] is the failure of its
    start. *)
Lemma chain_propagates : forall path from visited fuel msg,
  extends_chain allServices from path ->
  NoDup path ->
  (forall x, In x path -> set_has (VStr x) visited = false) ->
  (forall x, In x path -> truthy (get allServices x) = true) ->
  resolve fuel (get allServices (last path from)) allServices
    (visited ++ map VStr path) = Some (Throw msg) ->
  resolve (List.length path + fuel) (get allServices from) allServices visited
  = Some (Throw msg).
Proof.
  induction path as [|next rest IH]; intros from visited fuel msg Hc Hnd Hvis Ht Hend.
  - cbn [map last List.length] in *. now rewrite app_nil_r in Hend.
  - destruct Hc as [Hedge Hc]. inversion Hnd as [|? ? Hnotin Hnd']; subst.
    cbn [List.length Nat.add].
    rewrite (resolve_step type_error_message _ _ _ visited next Hedge
               (Hvis next (or_introl eq_refl)) (Ht next (or_introl eq_refl))).
    rewrite (IH next (visited ++ [VStr next]) fuel msg Hc Hnd'); [reflexivity| | |].
    + intros x Hx. rewrite set_has_app, (Hvis x (or_intror Hx)).
      cbn [set_has orb]. rewrite string_value_neq; [reflexivity|].
      intros ->. contradiction.
    + intros x Hx. apply Ht. now right.
    + rewrite last_cons_default in Hend.
      now rewrite <- app_assoc.
Qed.

(** Every name of a chain but the last is the source of an edge. *)
Lemma chain_sources : forall path from x,
  extends_chain allServices from path ->
  In x (removelast (from :: path)) ->
  exists target, extends_to (get allServices x) target.
Proof.
  induction path as [|next rest IH]; intros from x Hc Hx; [contradiction|].
  destruct Hc as [Hedge Hc].
  change (removelast (from :: next :: rest))
    with (from :: removelast (next :: rest)) in Hx.
  destruct Hx as [<-|Hx]; [now exists next|].
  now apply (IH next).
Qed.

Lemma chain_head : forall path from,
  extends_chain allServices from path -> path <> [] ->
  extends_to (get allServices from) (hd from path).
Proof. intros [|next rest] from Hc H; [congruence|]. exact (proj1 Hc). Qed.

End ExtendsChains.

Lemma ring_throws : forall type_error_message fuel allServices x0 rest,
  NoDup (rest ++ [x0]) ->
  extends_chain allServices x0 (rest ++ [x0]) ->
  resolveServiceExtends type_error_message (List.length rest + 2 + fuel)
    (get allServices x0) allServices []
  = Some (Throw (circular_extends_message (map VStr (rest ++ [x0]))
                   (VStr (hd x0 rest)))).
Proof.
  intros tem fuel allServices x0 rest Hnd Hc.
  assert (Hhead : extends_to (get allServices x0) (hd x0 rest)).
  { pose proof (chain_head allServices (rest ++ [x0]) x0 Hc) as H.
    destruct rest; apply H; discriminate. }
  replace (List.length rest + 2 + fuel)%nat
    with (List.length (rest ++ [x0]) + S fuel)%nat
    by (rewrite length_app; simpl; lia).
  apply (chain_propagates tem allServices (rest ++ [x0]) x0 []); try assumption.
  - reflexivity.
  - intros x Hx. apply in_app_or in Hx as [Hx|[<-|[]]].
    + destruct (chain_sources allServices (rest ++ [x0]) x0 x Hc) as [t Ht].
      * change (x0 :: rest ++ [x0]) with ((x0 :: rest) ++ [x0]).
        rewrite removelast_last. now right.
      * exact (extends_to_truthy _ _ Ht).
    + exact (extends_to_truthy _ _ Hhead).
  - rewrite last_last. cbn [app].
    apply resolve_cycle; [exact Hhead|].
    rewrite set_has_strings. apply string_mem_In.
    destruct rest; [now left | now left].
Qed.

(** X8: a ring of [extends] of any length is reported: when [x0] extends
    the first of [rest], each of [rest] extends the next and the last one
    extends [x0] again (a service extending itself when [rest] is empty),
    resolving [x0] stops with the circular-extends error that lists the
    ring, whatever else the services hold. *)
Theorem extends_ring_is_reported : forall type_error_message fuel allServices x0 rest,
  NoDup (rest ++ [x0]) ->
  extends_chain allServices x0 (rest ++ [x0]) ->
  resolveServiceExtends type_error_message (List.length rest + 2 + fuel)
    (get allServices x0) allServices []
  = Some (Throw (circular_extends_message (map VStr (rest ++ [x0]))
                   (VStr (hd x0 rest)))).
Proof. exact ring_throws. Qed.

Lemma extends_ring_example :
  resolveServiceExtends Examples.no_text 5
    (get Examples.ring_services "a") Examples.ring_services []
  = Some (Throw "Circular extends detected: b → c → a → b").
Proof.
  apply (extends_ring_is_reported Examples.no_text 1 Examples.ring_services
           "a"%string ["b"%string; "c"%string]).
  - repeat constructor; simpl; intuition discriminate.
  - repeat split.
Defined.

(** X9: a chain of [extends] that ends in a reference to a name under
    which the services hold nothing truthy, neither as an entry of their own
    nor as a member inherited from Object.prototype, fails, at any depth,
    with the not-found error that names the missing service. *)
Theorem dangling_extends_is_reported :
  forall type_error_message fuel allServices from path target,
    nullish allServices = false ->
    NoDup path ->
    extends_chain allServices from path ->
    extends_to (get allServices (last path from)) target ->
    truthy (member allServices target) = false ->
    resolveServiceExtends type_error_message (List.length path + 1 + fuel)
      (get allServices from) allServices []
    = Some (Throw (extends_not_found_message (VStr target))).
Proof.
  intros tem fuel allServices from path target Hall Hnd Hc Hlast Hmissing.
  assert (Ht : forall x, In x path -> truthy (get allServices x) = true).
  { intros x Hx.
    destruct (list_snoc_cases _ path) as [->|[path' [y E]]]; [contradiction|].
    subst path. apply in_app_or in Hx as [Hx|[<-|[]]].
    - destruct (chain_sources allServices (path' ++ [y]) from x Hc) as [t Hxt].
      + change (from :: path' ++ [y]) with ((from :: path') ++ [y]).
        rewrite removelast_last. now right.
      + exact (extends_to_truthy _ _ Hxt).
    - rewrite last_last in Hlast. exact (extends_to_truthy _ _ Hlast). }
  replace (List.length path + 1 + fuel)%nat with (List.length path + S fuel)%nat by lia.
  apply (chain_propagates tem allServices path from []); try assumption.
  - reflexivity.
  - destruct Hlast as [Hext Hname].
    cbn [app resolveServiceExtends]. unfold lift.
    rewrite (get_prop_get _ _ "extends" (truthy_get_not_nullish _ _ Hext)).
    cbn [fbind]. rewrite Hext, Hname. cbn [negb].
    rewrite set_has_strings.
    assert (Hnot : string_mem target path = false).
    { destruct (string_mem target path) eqn:E; [|reflexivity].
      apply string_mem_In in E.
      rewrite (member_truthy_get _ _ (Ht _ E)), (Ht _ E) in Hmissing.
      discriminate. }
    rewrite Hnot. cbn [to_str]. rewrite (member_prop_member tem _ target Hall).
    cbn [fbind]. rewrite Hmissing. reflexivity.
Qed.

Lemma dangling_extends_example :
  resolveServiceExtends Examples.no_text 3
    (VObj [("extends", VStr "base")])
    (VObj [("web", VObj [("extends", VStr "base")]);
           ("base", VObj [("extends", VObj [("service", VStr "ghost")])])]) []
  = Some (Throw (extends_not_found_message (VStr "ghost"))).
Proof.
  exact (dangling_extends_is_reported Examples.no_text 0
           (VObj [("web", VObj [("extends", VStr "base")]);
                  ("base", VObj [("extends", VObj [("service", VStr "ghost")])])])
           "web"%string ["base"%string] "ghost"%string eq_refl
           ltac:(repeat constructor; simpl; intuition discriminate)
           ltac:(repeat split) ltac:(split; reflexivity) eq_refl).
Defined.

(** ** Resolving every service *)

Import Notions.

Lemma obj_set_fresh : forall o k v,
  ~ In k (map fst o) -> obj_set o k v = o ++ [(k, v)].
Proof.
  induction o as [|[k' v'] o IH]; intros k v H; [reflexivity|].
  cbn [obj_set app]. cbn [map fst In] in H.
  destruct (String.eqb k k') eqn:E.
  - apply String.eqb_eq in E. subst. exfalso. apply H. now left.
  - f_equal. apply IH. intros Hin. apply H. now right.
Qed.

(** Writing entries with fresh, distinct keys appends them in order. *)
Lemma fold_obj_set_fresh : forall entries acc,
  NoDup (map fst (acc ++ entries)) ->
  fold_left (fun a e => obj_set a (fst e) (snd e)) entries acc = acc ++ entries.
Proof.
  induction entries as [|[k v] entries IH]; intros acc H;
    [now rewrite app_nil_r|].
  cbn [fold_left fst snd].
  assert (Hk : ~ In k (map fst acc)).
  { rewrite map_app in H. cbn [map fst] in H.
    apply NoDup_remove_2 in H. intros Hin. apply H. apply in_or_app. now left. }
  rewrite (obj_set_fresh acc k v Hk), IH.
  - now rewrite <- app_assoc.
  - now rewrite <- app_assoc.
Qed.

Section ResolveAll.

Variable type_error_message : value -> string -> string.

Lemma resolve_services_plain : forall fuel entries allServices acc,
  (forall name svc, In (name, svc) entries ->
     nullish svc = false /\ truthy (get svc "extends") = false) ->
  resolve_services type_error_message (S fuel) entries allServices acc =
  Some (Ok (fold_left (fun a e => obj_set a (fst e) (snd e)) entries acc)).
Proof.
  intros fuel. induction entries as [|[name svc] entries IH]; intros all acc H;
    [reflexivity|].
  destruct (H name svc (or_introl eq_refl)) as [Hn Hf].
  cbn [resolve_services resolveServiceExtends]. unfold lift.
  rewrite (get_prop_get _ svc "extends" Hn). cbn [fbind]. rewrite Hf. cbn [negb].
  apply IH. intros n s Hin. apply (H n s). now right.
Qed.

Lemma resolve_services_error : forall fuel entries allServices acc msg,
  resolve_services type_error_message fuel entries allServices acc = Some (Throw msg) ->
  exists name inner,
    In name (map fst entries) /\ msg = resolving_error_message name inner.
Proof.
  intros fuel. induction entries as [|[name svc] entries IH]; intros all acc msg H;
    [discriminate|].
  cbn [resolve_services] in H.
  destruct (resolveServiceExtends type_error_message fuel svc all [])
    as [[resolved|inner]|]; [| |discriminate].
  - destruct (IH _ _ _ H) as (n & i & Hin & ->). exists n, i. split; [now right|].
    reflexivity.
  - injection H as <-. exists name, inner. split; [now left | reflexivity].
Qed.

(** A service whose resolution fails makes the loop fail (or run out of
    fuel): no later service repairs it. *)
Lemma resolve_services_throws : forall fuel entries allServices acc name svc inner,
  In (name, svc) entries ->
  resolveServiceExtends type_error_message fuel svc allServices [] = Some (Throw inner) ->
  resolve_services type_error_message fuel entries allServices acc = None
  \/ exists msg,
       resolve_services type_error_message fuel entries allServices acc
       = Some (Throw msg).
Proof.
  intros fuel. induction entries as [|[n s] entries IH];
    intros all acc name svc inner Hin Hthrow; [contradiction|].
  cbn [resolve_services].
  destruct (resolveServiceExtends type_error_message fuel s all [])
    as [[resolved|msg]|] eqn:E; [| right; eauto | now left].
  destruct Hin as [Heq|Hin]; [inversion Heq; subst; congruence|].
  now apply (IH all _ name svc inner).
Qed.

End ResolveAll.

(** X10: a document whose services are a mapping, none of them carrying a
    live [extends], passes through [resolveAllExtends] unchanged. *)
Theorem resolveAllExtends_without_extends : forall type_error_message fields services,
  obj_get fields "services" = VObj services ->
  distinct_keys (map fst services) = true ->
  (forall name svc, In (name, svc) services ->
     nullish svc = false /\ truthy (get svc "extends") = false) ->
  resolveAllExtends type_error_message (VObj fields) = Some (Ok (VObj fields)).
Proof.
  intros tem fields services Hs Hd Hplain.
  apply distinct_keys_NoDup in Hd.
  unfold resolveAllExtends, lift, get_prop. cbn [nullish get fbind].
  rewrite Hs. cbn [truthy negb own_entries]. unfold extends_fuel.
  rewrite (resolve_services_plain tem _ services (VObj services) [] Hplain).
  cbn [fbind]. rewrite (fold_obj_set_fresh services [] Hd). cbn [app].
  do 3 f_equal. apply obj_set_same_value.
  unfold obj_get in Hs. destruct (lookup "services" fields); [congruence|discriminate].
Qed.

Lemma resolveAllExtends_without_extends_example :
  resolveAllExtends Examples.no_text Examples.compose_plain
  = Some (Ok Examples.compose_plain).
Proof.
  apply (resolveAllExtends_without_extends Examples.no_text _
           [("web", VObj [("depends_on", VArr [VStr "db"])]); ("db", VObj [])]);
    [reflexivity | reflexivity |].
  intros name svc [H|[H|[]]]; inversion H; split; reflexivity.
Defined.



(** X12: a document that holds a ring of [extends] is never resolved:
    [resolveAllExtends] throws, whatever the other services are. *)
Theorem ring_makes_resolution_fail : forall type_error_message compose x0 rest,
  nullish compose = false ->
  NoDup (rest ++ [x0]) ->
  extends_chain (get compose "services") x0 (rest ++ [x0]) ->
  exists msg, resolveAllExtends type_error_message compose = Some (Throw msg).
Proof.
  intros tem compose x0 rest Hn Hnd Hc.
  set (services := get compose "services") in *.
  assert (Hkey : forall x, In x (rest ++ [x0]) ->
            In (x, get services x) (own_entries services)).
  { intros x Hx.
    assert (Hsrc : exists t, extends_to (get services x) t).
    { apply in_app_or in Hx as [Hx|[<-|[]]].
      - apply (chain_sources services (rest ++ [x0]) x0 x Hc).
        change (x0 :: rest ++ [x0]) with ((x0 :: rest) ++ [x0]).
        rewrite removelast_last. now right.
      - exists (hd x0 (rest ++ [x0])).
        apply (chain_head services (rest ++ [x0]) x0 Hc). now destruct rest. }
    destruct Hsrc as [t [Ht _]].
    destruct (get_cases services x) as [E|[[n E]|Hin]]; [| |exact Hin];
      rewrite E in Ht; discriminate. }
  assert (Hlen : (List.length (rest ++ [x0]) <= List.length (own_entries services))%nat).
  { rewrite <- (length_map fst (own_entries services)).
    apply NoDup_incl_length; [exact Hnd|].
    intros x Hx. apply (in_map fst _ _ (Hkey x Hx)). }
  assert (Hx0 : In x0 (rest ++ [x0])) by (apply in_or_app; right; now left).
  assert (Htruthy : truthy services = true).
  { apply (truthy_get_truthy services x0).
    apply (extends_to_truthy _ (hd x0 (rest ++ [x0]))).
    apply (chain_head services (rest ++ [x0]) x0 Hc). now destruct rest. }
  unfold resolveAllExtends, lift. rewrite (get_prop_get _ _ "services" Hn).
  cbn [fbind]. fold services. rewrite Htruthy. cbn [negb].
  rewrite length_app in Hlen. cbn [List.length] in Hlen.
  assert (Hthrow : resolveServiceExtends tem (extends_fuel services)
                     (get services x0) services []
                   = Some (Throw (circular_extends_message (map VStr (rest ++ [x0]))
                                    (VStr (hd x0 rest))))).
  { unfold extends_fuel.
    replace (S (S (List.length (own_entries services))))
      with (List.length rest + 2 + (List.length (own_entries services) - List.length rest))%nat
      by lia.
    now apply ring_throws. }
  pose proof (Hkey x0 Hx0) as Hin.
  destruct (resolve_services_throws tem _ _ services [] _ _ _ Hin Hthrow)
    as [Hnone|[msg Hmsg]].
  - exfalso. revert Hnone.
    apply resolve_services_terminates; [auto | unfold extends_fuel; lia].
  - exists msg. now rewrite Hmsg.
Qed.

Lemma ring_makes_resolution_fail_example :
  exists msg,
    resolveAllExtends Examples.no_text
      (VObj [("services", Examples.ring_services)]) = Some (Throw msg).
Proof.
  apply (ring_makes_resolution_fail Examples.no_text
           (VObj [("services", Examples.ring_services)])
           "a"%string ["b"%string; "c"%string] eq_refl).
  - repeat constructor; simpl; intuition discriminate.
  - repeat split.
Defined.

(** ** Merging included files *)

Import Notions.

Lemma merge_top_level_plain : forall entries result key v,
  NoDup (map fst entries) -> In (key, v) entries ->
  string_mem key reserved_collections = false ->
  lookup key (merge_top_level entries result) = Some v.
Proof.
  induction entries as [|[k0 v0] entries IH]; intros result key v Hnd Hin Hplain;
    cbn [merge_top_level]; [contradiction|].
  inversion Hnd as [|? ? Hnotin Hnd']; subst. destruct Hin as [Heq|Hin].
  - inversion Heq; subst. rewrite merge_top_level_untouched by exact Hnotin.
    rewrite Hplain. destruct (String.eqb key "name"); apply lookup_set_same.
  - now apply IH.
Qed.

Lemma mergeComposeFiles_plain : forall base override key,
  truthy base = true -> truthy override = true ->
  NoDup (map fst (own_entries override)) ->
  string_mem key reserved_collections = false ->
  lookup key (own_entries (mergeComposeFiles base override)) =
  match lookup key (own_entries override) with
  | Some v => Some v
  | None => lookup key (own_entries base)
  end.
Proof.
  intros base override key Hb Ho Hnd Hplain. unfold mergeComposeFiles.
  rewrite Hb, Ho. cbn [negb own_entries].
  destruct (lookup key (own_entries override)) as [v|] eqn:E.
  - apply merge_top_level_plain; [exact Hnd | now apply lookup_In | exact Hplain].
  - apply merge_top_level_untouched. now apply lookup_None_keys.
Qed.

(** X13: [mergeComposeFiles] lets the override win key by key: a top-level
    key outside the five collections takes the override's value when the
    override has the key and the base's otherwise, and inside [services],
    [networks], [volumes], [secrets] and [configs] the same holds entry by
    entry. *)
Theorem mergeComposeFiles_override_wins : forall base override,
  truthy base = true -> truthy override = true ->
  unique_keys override = true ->
  (forall key, string_mem key reserved_collections = false ->
     lookup key (own_entries (mergeComposeFiles base override)) =
     match lookup key (own_entries override) with
     | Some v => Some v
     | None => lookup key (own_entries base)
     end)
  /\ (forall c k, In c reserved_collections ->
        entry_of (mergeComposeFiles base override) c k =
        match entry_of override c k with
        | Some v => Some v
        | None => entry_of base c k
        end).
Proof.
  intros base override Hb Ho Hu. pose proof (well_keyed_unique _ Hu) as Hk. split.
  - intros key Hplain. apply mergeComposeFiles_plain; try assumption. exact (proj1 Hk).
  - intros c k Hc. now apply mergeComposeFiles_entry.
Qed.

Lemma mergeComposeFiles_override_wins_example :
  entry_of (mergeComposeFiles
              (VObj [("name", VStr "base");
                     ("services", VObj [("app", VObj [("image", VStr "app:1.0.0")]);
                                        ("db", VObj [("image", VStr "postgres:15")])])])
              (VObj [("name", VStr "main");
                     ("services", VObj [("app", VObj [("image", VStr "app:latest")])])]))
    "services" "app"
  = Some (VObj [("image", VStr "app:latest")]).
Proof.
  exact (proj2 (mergeComposeFiles_override_wins
                  (VObj [("name", VStr "base");
                         ("services", VObj [("app", VObj [("image", VStr "app:1.0.0")]);
                                            ("db", VObj [("image", VStr "postgres:15")])])])
                  (VObj [("name", VStr "main");
                         ("services",
                          VObj [("app", VObj [("image", VStr "app:latest")])])])
                  eq_refl eq_refl eq_refl)
           "services"%string "app"%string ltac:(now left)).
Defined.

Section MainWins.

Variable type_error_message : value -> string -> string.
Variable yaml_load : string -> res value.
Variable recur : value -> string -> option (res value).
Variables (currentFile : string) (fileMap : file_map) (newVisited : list string).
Hypothesis recur_keyed : forall included absoluteInclude r content,
  yaml_load content = Ok included ->
  recur included absoluteInclude = Some (Ok r) -> well_keyed r.

Lemma include_loop_keeps_plain : forall specs merged final key v,
  include_loop type_error_message yaml_load recur currentFile fileMap newVisited
    specs merged = Some (Ok final) ->
  well_keyed merged ->
  string_mem key reserved_collections = false ->
  lookup key (own_entries merged) = Some v ->
  lookup key (own_entries final) = Some v.
Proof.
  induction specs as [|spec specs IH]; intros merged final key v H Hk Hplain Hl.
  - cbn [include_loop] in H. now inversion H; subst.
  - cbn [include_loop] in H.
    destruct (include_step _ _ _ _ _ _ merged spec) as [[merged'|msg]|] eqn:Es;
      cbn [fbind] in H; [|discriminate|discriminate].
    apply (IH merged' final key v H); [| exact Hplain |].
    + exact (include_step_keyed _ _ _ _ _ _ recur_keyed _ _ _ Es Hk).
    + destruct (include_step_cases _ _ _ _ _ _ _ _ _ Es) as [[-> _]|[r [_ ->]]];
        [exact Hl|].
      assert (Ht : truthy merged = true).
      { destruct (truthy merged) eqn:E; [reflexivity|].
        rewrite (falsy_no_entries _ E) in Hl. discriminate. }
      destruct (truthy r) eqn:Er.
      * rewrite (mergeComposeFiles_plain r merged key Er Ht (proj1 Hk) Hplain).
        now rewrite Hl.
      * unfold mergeComposeFiles. rewrite Ht, Er. cbn [negb].
        unfold or_else. now rewrite Ht.
Qed.

End MainWins.

(** X14: what the main document defines wins over everything it includes:
    after [resolveIncludes] an entry of the document under one of the five
    collections, and a top-level key of the document other than [include],
    still have the document's own value. *)
Theorem main_document_overrides_includes :
  forall type_error_message yaml_load,
    (forall text doc, yaml_load text = Ok doc -> unique_keys doc = true) ->
    forall fuel doc currentFile fileMap visited final,
      unique_keys doc = true ->
      resolveIncludes type_error_message yaml_load fuel doc currentFile fileMap visited
        = Some (Ok final) ->
      (forall c k v, In c reserved_collections ->
         entry_of doc c k = Some v -> entry_of final c k = Some v)
      /\ (forall key v, key <> "include"%string ->
            string_mem key reserved_collections = false ->
            lookup key (own_entries doc) = Some v ->
            lookup key (own_entries final) = Some v).
Proof.
  intros tem yaml_load Hyaml fuel doc currentFile fileMap visited final Hu H.
  destruct fuel as [|fuel]; [discriminate|].
  cbn [resolveIncludes] in H.
  destruct (truthy doc); cbn [negb] in H; [|inversion H; subst; now split].
  destruct (truthy (get doc "include")); cbn [negb] in H;
    [|inversion H; subst; now split].
  destruct (string_mem _ visited); [discriminate|].
  assert (Hrk : forall included absoluteInclude r content,
            yaml_load content = Ok included ->
            resolveIncludes tem yaml_load fuel included absoluteInclude fileMap
              (visited ++ [normalizePath currentFile]) = Some (Ok r) ->
            well_keyed r).
  { intros included absoluteInclude r content Hy Hr.
    apply (resolveIncludes_keyed tem yaml_load Hyaml _ _ _ _ _ _
             (well_keyed_unique _ (Hyaml _ _ Hy)) Hr). }
  assert (Hk : well_keyed (VObj (obj_delete (own_entries doc) "include")))
    by (apply well_keyed_without_include; now apply well_keyed_unique).
  split.
  - intros c k v Hc Hv.
    apply (include_loop_keeps tem yaml_load _ _ _ _ Hrk _ _ _ c k v H Hk Hc).
    now rewrite entry_of_without_include.
  - intros key v Hkey Hplain Hv.
    apply (include_loop_keeps_plain tem yaml_load _ _ _ _ Hrk _ _ _ key v H Hk Hplain).
    cbn [own_entries]. rewrite lookup_delete_other by congruence. exact Hv.
Qed.

Lemma main_document_overrides_includes_example :
  exists final,
    resolveIncludes Examples.no_text
      (fun _ => Ok (VObj [("name", VStr "base");
                          ("services", VObj [("app", VObj [("image", VStr "app:1.0.0")]);
                                             ("db", VObj [])])]))
      3
      (VObj [("name", VStr "main"); ("include", VStr "./base.yml");
             ("services", VObj [("app", VObj [("image", VStr "app:latest")])])])
      "docker-compose.yml" [("base.yml", "services: ...")] [] = Some (Ok final)
    /\ entry_of final "services" "app" = Some (VObj [("image", VStr "app:latest")])
    /\ lookup "name" (own_entries final) = Some (VStr "main").
Proof.
  eexists. split; [reflexivity|].
  match goal with
  | |- entry_of ?final _ _ = _ /\ _ =>
      pose proof (main_document_overrides_includes Examples.no_text
                    (fun _ => Ok (VObj [("name", VStr "base");
                                        ("services",
                                         VObj [("app", VObj [("image", VStr "app:1.0.0")]);
                                               ("db", VObj [])])]))
                    ltac:(intros text doc [= <-]; reflexivity)
                    3%nat
                    (VObj [("name", VStr "main"); ("include", VStr "./base.yml");
                           ("services",
                            VObj [("app", VObj [("image", VStr "app:latest")])])])
                    "docker-compose.yml"%string [("base.yml", "services: ..."%string)] []
                    final eq_refl eq_refl) as [Hc Hp]
  end.
  split.
  - apply (Hc "services"%string "app"%string); [now left | reflexivity].
  - apply (Hp "name"%string); [discriminate | reflexivity | reflexivity].
Defined.

(** ** Resolving [include] *)

Import Notions.

Section IncludeOutcome.

Variable type_error_message : value -> string -> string.
Variable yaml_load : string -> res value.
Hypothesis yaml_unique_keys : forall text doc,
  yaml_load text = Ok doc -> unique_keys doc = true.

Local Abbreviation dead_include v :=
  (truthy (obj_get (own_entries v) "include") = false).

Lemma falsy_dead_include : forall v, truthy v = false -> dead_include v.
Proof. intros v H. now rewrite (falsy_no_entries _ H). Qed.

Lemma mergeComposeFiles_dead_include : forall base override,
  NoDup (map fst (own_entries override)) ->
  dead_include base -> dead_include override ->
  dead_include (mergeComposeFiles base override).
Proof.
  intros base override Hnd Hb Ho.
  destruct (truthy override) eqn:Eo.
  - destruct (truthy base) eqn:Eb.
    + unfold obj_get.
      rewrite (mergeComposeFiles_plain base override "include" Eb Eo Hnd eq_refl).
      unfold obj_get in Hb, Ho.
      destruct (lookup "include" (own_entries override)); [exact Ho | exact Hb].
    + unfold mergeComposeFiles. rewrite Eo, Eb. cbn [negb]. unfold or_else.
      now rewrite Eo.
  - unfold mergeComposeFiles. rewrite Eo. cbn [negb]. unfold or_else.
    destruct (truthy base); [exact Hb | reflexivity].
Qed.

Lemma include_loop_dead_include : forall recur currentFile fileMap newVisited,
  (forall included absoluteInclude r content,
     yaml_load content = Ok included ->
     recur included absoluteInclude = Some (Ok r) ->
     well_keyed r /\ dead_include r) ->
  forall specs merged final,
    include_loop type_error_message yaml_load recur currentFile fileMap newVisited
      specs merged = Some (Ok final) ->
    well_keyed merged -> dead_include merged -> dead_include final.
Proof.
  intros recur currentFile fileMap newVisited Hrec.
  induction specs as [|spec specs IH]; intros merged final H Hk Hd.
  - cbn [include_loop] in H. now inversion H; subst.
  - cbn [include_loop] in H.
    destruct (include_step _ _ _ _ _ _ merged spec) as [[merged'|msg]|] eqn:Es;
      cbn [fbind] in H; [|discriminate|discriminate].
    apply (IH merged' final H).
    + apply (include_step_keyed type_error_message yaml_load recur currentFile fileMap
               newVisited) with (merged := merged) (spec := spec); try assumption.
      intros included absoluteInclude r content Hy Hr.
      exact (proj1 (Hrec _ _ _ _ Hy Hr)).
    + destruct (include_step_cases _ _ _ _ _ _ _ _ _ Es) as [[-> _]|[r [Hr ->]]];
        [exact Hd|].
      destruct Hr as (path & abs & content & included & _ & _ & _ & _ & _ & _ & Hy & Hr).
      apply mergeComposeFiles_dead_include;
        [exact (proj1 Hk) | exact (proj2 (Hrec _ _ _ _ Hy Hr)) | exact Hd].
Qed.

Lemma resolveIncludes_dead_include : forall fuel compose currentFile fileMap visited out,
  unique_keys compose = true ->
  resolveIncludes type_error_message yaml_load fuel compose currentFile fileMap visited
    = Some (Ok out) ->
  dead_include out.
Proof.
  induction fuel as [|fuel IH]; intros compose currentFile fileMap visited out Hu H;
    [discriminate|].
  cbn [resolveIncludes] in H.
  destruct (truthy compose) eqn:Ec; cbn [negb] in H;
    [|inversion H; subst; now apply falsy_dead_include].
  destruct (truthy (get compose "include")) eqn:Ei; cbn [negb] in H.
  - destruct (string_mem _ visited); [discriminate|].
    apply (include_loop_dead_include _ _ _ _) in H; [exact H| | |].
    + intros included absoluteInclude r content Hy Hr. split.
      * apply (resolveIncludes_keyed type_error_message yaml_load yaml_unique_keys
                 _ _ _ _ _ _ (well_keyed_unique _ (yaml_unique_keys _ _ Hy)) Hr).
      * exact (IH _ _ _ _ _ (yaml_unique_keys _ _ Hy) Hr).
    + apply well_keyed_without_include. now apply well_keyed_unique.
    + cbn [own_entries]. unfold obj_get. now rewrite lookup_delete_same.
  - inversion H; subst. rewrite <- get_own_entries by discriminate. exact Ei.
Qed.

End IncludeOutcome.

(** X15: no live [include] is left behind: the document [resolveIncludes]
    returns has no truthy [include], whether it had none to begin with or
    its includes were merged in. *)
Theorem include_is_consumed :
  forall type_error_message yaml_load,
    (forall text doc, yaml_load text = Ok doc -> unique_keys doc = true) ->
    forall fuel doc currentFile fileMap visited final,
      unique_keys doc = true ->
      resolveIncludes type_error_message yaml_load fuel doc currentFile fileMap visited
        = Some (Ok final) ->
      truthy (get final "include") = false.
Proof.
  intros tem yaml_load Hyaml fuel doc currentFile fileMap visited final Hu H.
  rewrite get_own_entries by discriminate.
  exact (resolveIncludes_dead_include tem yaml_load Hyaml _ _ _ _ _ _ Hu H).
Qed.

Lemma include_is_consumed_example :
  exists final,
    resolveIncludes Examples.no_text Examples.sibling_load 3 Examples.siblings_root
      "docker-compose.yml" Examples.sibling_files [] = Some (Ok final)
    /\ truthy (get final "include") = false.
Proof.
  eexists. split; [reflexivity|].
  apply (include_is_consumed Examples.no_text Examples.sibling_load
           sibling_load_unique 3 Examples.siblings_root "docker-compose.yml"%string
           Examples.sibling_files []); reflexivity.
Defined.

(** X16: an include under whose path the lookup [fileMap[path]] finds
    nothing (no entry of the map, and no member inherited from
    Object.prototype) or an empty content, or finds a text that does not
    parse, stops the resolution with an error that quotes the path as the
    document writes it: provided the file is not already in the chain and
    the include entries before it ran through. *)
Theorem failing_include_is_reported :
  forall type_error_message yaml_load fuel doc currentFile fileMap visited
         before spec rest path,
    let target := resolvePath currentFile path in
    let outcome :=
      resolveIncludes type_error_message yaml_load (S fuel) doc currentFile fileMap
        visited in
    truthy (get doc "include") = true ->
    string_mem (normalizePath currentFile) visited = false ->
    include_list (get doc "include") = before ++ spec :: rest ->
    passes_over type_error_message yaml_load fuel fileMap doc currentFile visited before ->
    include_path type_error_message spec = Ok (VStr path) -> path <> ""%string ->
    string_mem target (visited ++ [normalizePath currentFile]) = false ->
    ((file_content target fileMap = None
      \/ file_content target fileMap = Some ""%string) ->
     outcome = Some (Throw (include_not_found_message path target fileMap)))
    /\ (file_content target fileMap = None
        <-> file_lookup target fileMap = None /\ inherited target = false)
    /\ (forall content msg,
          file_content target fileMap = Some content -> content <> ""%string ->
          yaml_load content = Throw msg ->
          outcome = Some (Throw (parse_failed_message path msg))).
Proof.
  intros tem yaml_load fuel doc currentFile fileMap visited before spec rest path
    target outcome Hinc Hcur Hlist [m Hpass] Hpath Hne Hvis.
  assert (Hstep : forall r,
            include_step tem yaml_load
              (fun included absoluteInclude =>
                 resolveIncludes tem yaml_load fuel included absoluteInclude fileMap
                   (visited ++ [normalizePath currentFile]))
              currentFile fileMap (visited ++ [normalizePath currentFile]) m spec
            = Some (Throw r) -> outcome = Some (Throw r)).
  { intros r Hr. unfold outcome. cbn [resolveIncludes].
    rewrite (truthy_get_truthy _ _ Hinc), Hinc, Hcur, Hlist. cbn [negb].
    rewrite include_loop_split, Hpass. cbn [fbind include_loop].
    now rewrite Hr. }
  assert (Htruthy : truthy (VStr path) = true)
    by (simpl; now apply negb_true_iff, String.eqb_neq).
  split; [|split].
  - intros Hmissing. apply Hstep. unfold include_step, lift.
    rewrite Hpath. cbn [fbind]. rewrite Htruthy. cbn [negb resolve_include fbind].
    fold target. rewrite Hvis.
    destruct Hmissing as [-> | ->]; reflexivity.
  - unfold file_content. destruct (file_lookup target fileMap).
    + split; [discriminate | intros [? _]; discriminate].
    + destruct (inherited target); split; try discriminate; try (now split).
      intros [_ ?]. discriminate.
  - intros content msg Hfile Hcontent Hyaml. apply Hstep. unfold include_step, lift.
    rewrite Hpath. cbn [fbind]. rewrite Htruthy. cbn [negb resolve_include fbind].
    fold target. rewrite Hvis, Hfile.
    destruct content as [|ch content]; [congruence|].
    now rewrite Hyaml.
Qed.

Lemma failing_include_example :
  resolveIncludes Examples.no_text (fun _ => Throw "bad") 1
    (VObj [("include", VStr "./missing.yml")]) "docker-compose.yml"
    [("docker-compose.yml", "")] []
  = Some (Throw (include_not_found_message "./missing.yml" "missing.yml"
                   [("docker-compose.yml", "")])).
Proof.
  apply (failing_include_is_reported Examples.no_text (fun _ => Throw "bad") 0
           (VObj [("include", VStr "./missing.yml")]) "docker-compose.yml"%string
           [("docker-compose.yml", ""%string)] [] [] (VStr "./missing.yml") []
           "./missing.yml"%string); try reflexivity.
  - eexists. reflexivity.
  - discriminate.
  - now left.
Defined.

(** X17: both resolvers terminate on every input, rings included: no chain
    of [extends] is deeper than the number of services plus two, and no chain
    of includes deeper than the number of names the file map answers to (its
    files, and the members it inherits from Object.prototype) plus two, so
    each call returns a document or throws. *)
Theorem resolution_terminates :
  forall type_error_message yaml_load compose currentFile fileMap,
    (exists outcome, resolveAllExtends type_error_message compose = Some outcome)
    /\ (exists outcome,
          resolveIncludes type_error_message yaml_load (include_fuel fileMap)
            compose currentFile fileMap [] = Some outcome).
Proof.
  intros tem yaml_load compose currentFile fileMap. split.
  - pose proof (resolveAllExtends_total tem compose) as H.
    destruct (resolveAllExtends tem compose) as [outcome|]; [now exists outcome|].
    congruence.
  - pose proof (resolveIncludes_total tem yaml_load compose currentFile fileMap) as H.
    destruct (resolveIncludes tem yaml_load (include_fuel fileMap) compose currentFile
                fileMap []) as [outcome|]; [now exists outcome | congruence].
Qed.

(** ** Interpolating documents *)

Import Notions EnvTools.

Section Lenient.

Variable type_error_message : value -> string -> string.
Variable env : environment.

Local Abbreviation replace_variables := (replace_variables type_error_message).
Local Abbreviation interpolateString := (interpolateString type_error_message).
Local Abbreviation interpolate := (interpolate type_error_message).

Lemma replace_variables_lenient : forall fuel prev s,
  exists t, snd (replace_variables fuel prev s env false) = Ok t.
Proof.
  induction fuel as [|fuel IH]; intros prev s; [now exists s|].
  cbn [replace_variables].
  destruct (find_variable prev s) as [[[before expression] after]|]; [|now exists s].
  destruct (IH false after) as [t Ht].
  destruct (substituteVariable _ _ expression env) as [r|msg];
    destruct (replace_variables fuel false after env false) as [[names events] rest];
    cbn [snd] in *; subst rest; cbn [bind]; eauto.
Qed.

Lemma interpolateString_lenient : forall s,
  exists result, snd (interpolateString s env false) = Ok result.
Proof.
  intros s. unfold interpolateString.
  destruct (replace_variables_lenient
              (String.length (replace_all "$$" ESCAPED_DOLLAR_PLACEHOLDER s)) false
              (replace_all "$$" ESCAPED_DOLLAR_PLACEHOLDER s)) as [t Ht].
  destruct (replace_variables _ false _ env false) as [[names events] rest].
  cbn [snd] in *. subst rest. cbn [bind]. eauto.
Qed.

Lemma interpolate_lenient : forall addMetadata v,
  exists out, snd (interpolate v env addMetadata false) = Ok out.
Proof.
  intros addMetadata.
  induction v as [| |b|n|s|xs IH|fields IH] using value_induction;
    try (cbn; eauto; fail).
  - cbn [interpolate]. destruct (interpolateString_lenient s) as [result Hr].
    destruct (interpolateString s env false) as [events r].
    cbn [snd] in *. subst r. cbn [bind]. eauto.
  - cbn [interpolate].
    assert (H : exists out,
              snd ((fix go (items : list value) : list error_event * res (list value) :=
                      match items with
                      | [] => ([], Ok [])
                      | item :: rest =>
                          match interpolate item env addMetadata false with
                          | (ev1, Throw msg) => (ev1, Throw msg)
                          | (ev1, Ok item') =>
                              let '(ev2, r2) := go rest in
                              (ev1 ++ ev2, bind r2 (fun rest' => Ok (item' :: rest')))
                          end
                      end) xs) = Ok out).
    { induction IH as [|x xs [x' Hx] _ [out Hout]]; [now exists []|].
      destruct (interpolate x env addMetadata false) as [ev1 r1].
      cbn [snd] in Hx. subst r1.
      match goal with
      | H : snd ?g = Ok out |- _ => destruct g as [ev2 r2]
      end.
      cbn [snd] in Hout. subst r2. cbn [snd bind]. eauto. }
    destruct H as [out Hout].
    match goal with
    | H : snd ?g = Ok out |- _ => destruct g as [events r]
    end.
    cbn [snd] in *. subst r. cbn [bind]. eauto.
  - cbn [interpolate].
    assert (H : forall result, exists out,
              snd ((fix go (entries : list (string * value)) (result : obj)
                      : list error_event * res obj :=
                      match entries with
                      | [] => ([], Ok result)
                      | (key, val) :: rest =>
                          match interpolate val env addMetadata false with
                          | (ev1, Throw msg) => (ev1, Throw msg)
                          | (ev1, Ok val') =>
                              let '(ev2, r2) := go rest (obj_set result key val') in
                              (ev1 ++ ev2, r2)
                          end
                      end) fields result) = Ok out).
    { induction IH as [|[k x] fields [x' Hx] _ IHf]; intros result;
        [now exists result|].
      cbn [snd] in Hx.
      destruct (interpolate x env addMetadata false) as [ev1 r1].
      cbn [snd] in Hx. subst r1.
      destruct (IHf (obj_set result k x')) as [out Hout].
      match goal with
      | H : snd ?g = Ok out |- _ => destruct g as [ev2 r2]
      end.
      cbn [snd] in Hout. subst r2. cbn [snd]. eauto. }
    destruct (H []) as [out Hout].
    match goal with
    | H : snd ?g = Ok out |- _ => destruct g as [events r]
    end.
    cbn [snd] in *. subst r. cbn [bind]. eauto.
Qed.

End Lenient.


Lemma replace_all_absent : forall c pat rep s,
  includes (String c pat) s = false -> replace_all (String c pat) rep s = s.
Proof.
  intros c pat rep s H. rewrite replace_all_unfold. unfold includes in H.
  destruct (break_at (String c pat) s) as [[a b]|]; [discriminate | reflexivity].
Qed.

Lemma find_variable_absent : forall s, lacks "$" s = true -> find_variable false s = None.
Proof.
  intros s H. rewrite <- (append_nil_r s), (find_variable_skip s "" H). reflexivity.
Qed.

Lemma interpolateString_plain : forall type_error_message s env throwOnError,
  lacks "$" s = true -> includes ESCAPED_DOLLAR_PLACEHOLDER s = false ->
  interpolateString type_error_message s env throwOnError =
  ([], Ok {| original := s; resolved := s; hasVariable := false; variables := [] |}).
Proof.
  intros tem s env thr Hd Hp. unfold interpolateString.
  rewrite (replace_all_absent "$" "$" _ s (includes_lacks "$" "$" s Hd)).
  assert (Hr : replace_variables tem (String.length s) false s env thr = ([], [], Ok s)).
  { destruct s as [|c s]; [reflexivity|].
    cbn [String.length replace_variables]. now rewrite (find_variable_absent _ Hd). }
  rewrite Hr. cbn [bind]. rewrite placeholder_shape in *.
  now rewrite (replace_all_absent _ _ "$" s Hp).
Qed.

(** X19: a document none of whose strings holds a dollar sign (or the
    placeholder of the escape) passes through [interpolate] unchanged, with
    no error reported and no metadata added. *)
Theorem interpolate_keeps_plain_documents :
  forall type_error_message env addMetadata throwOnError v,
  dollar_free v = true -> unique_keys v = true ->
  interpolate type_error_message v env addMetadata throwOnError = ([], Ok v).
Proof.
  intros tem env addMetadata thr.
  induction v as [| |b|n|s|xs IH|fields IH] using value_induction;
    intros Hd Hu; try reflexivity.
  - cbn [dollar_free] in Hd. apply andb_true_iff in Hd as [Hd Hp].
    apply negb_true_iff in Hp.
    cbn [interpolate]. rewrite (interpolateString_plain tem s env thr Hd Hp).
    cbn [bind hasVariable resolved]. now rewrite andb_false_r.
  - cbn [interpolate].
    assert (H : (fix go (items : list value) : list error_event * res (list value) :=
                   match items with
                   | [] => ([], Ok [])
                   | item :: rest =>
                       match interpolate tem item env addMetadata thr with
                       | (ev1, Throw msg) => (ev1, Throw msg)
                       | (ev1, Ok item') =>
                           let '(ev2, r2) := go rest in
                           (ev1 ++ ev2, bind r2 (fun rest' => Ok (item' :: rest')))
                       end
                   end) xs = ([], Ok xs)).
    { induction IH as [|x xs Hx _ IHxs]; [reflexivity|].
      cbn [dollar_free] in Hd. apply andb_true_iff in Hd as [Hdx Hdxs].
      cbn [unique_keys] in Hu. apply andb_true_iff in Hu as [Hux Huxs].
      rewrite (Hx Hdx Hux), (IHxs Hdxs Huxs). reflexivity. }
    now rewrite H.
  - cbn [interpolate].
    assert (Hnd : NoDup (map fst fields))
      by (exact (proj1 (unique_keys_obj _ Hu))).
    assert (Hvals : forall k x, In (k, x) fields -> dollar_free x = true /\ unique_keys x = true).
    { intros k x Hin. split.
      - clear IH Hu Hnd. induction fields as [|[k' x'] fields IHf]; [contradiction|].
        cbn [dollar_free] in Hd. apply andb_true_iff in Hd as [Hdx Hdf].
        destruct Hin as [Heq|Hin]; [now inversion Heq; subst|]. now apply IHf.
      - exact (proj2 (unique_keys_obj _ Hu) k x Hin). }
    assert (H : forall result,
              (fix go (entries : list (string * value)) (result : obj)
                 : list error_event * res obj :=
                 match entries with
                 | [] => ([], Ok result)
                 | (key, val) :: rest =>
                     match interpolate tem val env addMetadata thr with
                     | (ev1, Throw msg) => (ev1, Throw msg)
                     | (ev1, Ok val') =>
                         let '(ev2, r2) := go rest (obj_set result key val') in
                         (ev1 ++ ev2, r2)
                     end
                 end) fields result
              = ([], Ok (fold_left (fun a e => obj_set a (fst e) (snd e)) fields result))).
    { clear Hd Hu Hnd. induction IH as [|[k x] fields Hx _ IHf]; intros result;
        [reflexivity|].
      cbn [snd] in Hx.
      destruct (Hvals k x (or_introl eq_refl)) as [Hdx Hux].
      rewrite (Hx Hdx Hux).
      rewrite IHf; [reflexivity|]. intros k' x' Hin. apply (Hvals k' x'). now right. }
    rewrite H. cbn [bind]. now rewrite (fold_obj_set_fresh fields [] Hnd).
Qed.

Lemma interpolate_keeps_plain_example :
  interpolate Examples.no_text
    (VObj [("services", VObj [("web", VObj [("image", VStr "nginx:1.25");
                                            ("ports", VArr [VStr "80:80"])])])])
    (Some [("TAG", VStr "x")]) true true
  = ([], Ok (VObj [("services", VObj [("web", VObj [("image", VStr "nginx:1.25");
                                                    ("ports", VArr [VStr "80:80"])])])])).
Proof.
  exact (interpolate_keeps_plain_documents Examples.no_text
           (Some [("TAG", VStr "x")]) true true
           (VObj [("services", VObj [("web", VObj [("image", VStr "nginx:1.25");
                                                   ("ports", VArr [VStr "80:80"])])])])
           eq_refl eq_refl).
Defined.

Lemma mergeEnv_fold_absent : forall sources target k,
  (forall s, In s sources -> lookup k (own_entries s) = None) ->
  lookup k (fold_left (fun target source => spread2 target (own_entries source))
              sources target) = lookup k target.
Proof.
  induction sources as [|s sources IH]; intros target k H; [reflexivity|].
  cbn [fold_left]. rewrite IH by (intros s' Hs'; apply H; now right).
  unfold spread2.
  assert (Hk : ~ In k (map fst (own_entries s)))
    by (apply lookup_None_keys, H; now left).
  revert target. induction (own_entries s) as [|[k' v'] entries IHe]; intros target;
    [reflexivity|].
  cbn [fold_left fst snd]. cbn [map fst In] in Hk.
  rewrite IHe by tauto. apply lookup_set_other. tauto.
Qed.

(** X20: [mergeEnv] gives every variable the value of the last source that
    defines it: when no source after [source] defines [k], the merged
    environment holds what [source] holds for [k], and what the sources
    before it give when [source] does not define [k]. *)
Theorem mergeEnv_last_source_wins : forall before source after k,
  unique_keys source = true ->
  (forall s, In s after -> lookup k (own_entries s) = None) ->
  lookup k (mergeEnv (before ++ source :: after)) =
  match lookup k (own_entries source) with
  | Some v => Some v
  | None => lookup k (mergeEnv before)
  end.
Proof.
  intros before source after k Hu Hafter. unfold mergeEnv.
  rewrite fold_left_app. cbn [fold_left].
  rewrite (mergeEnv_fold_absent after _ k Hafter).
  apply lookup_spread2. exact (proj1 (unique_keys_entries _ Hu)).
Qed.

Lemma mergeEnv_example :
  lookup "B" (mergeEnv [VObj [("A", VStr "1"); ("B", VStr "2")];
                        VObj [("B", VStr "3"); ("C", VStr "4")];
                        VObj [("C", VStr "5"); ("D", VStr "6")]])
  = Some (VStr "3").
Proof.
  apply (mergeEnv_last_source_wins
           [VObj [("A", VStr "1"); ("B", VStr "2")]]
           (VObj [("B", VStr "3"); ("C", VStr "4")])
           [VObj [("C", VStr "5"); ("D", VStr "6")]] "B"%string eq_refl).
  intros s [<-|[]]. reflexivity.
Defined.

(** ** Profiles *)

From Stdlib Require Sorted.

Import Notions.

Lemma NoDup_filter_keys : forall (p : string * value -> bool) entries,
  NoDup (map fst entries) -> NoDup (map fst (filter p entries)).
Proof.
  intros p. induction entries as [|[k v] entries IH]; intros H; [constructor|].
  inversion H as [|? ? Hnotin H']; subst. cbn [filter].
  destruct (p (k, v)); [|now apply IH].
  cbn [map fst]. constructor; [|now apply IH].
  intros Hin. apply Hnotin. apply in_map_iff in Hin as [[k' v'] [Hk Hin]].
  apply filter_In in Hin as [Hin _]. cbn in Hk. subst k'.
  now apply (in_map fst) in Hin.
Qed.

Lemma filter_idempotent : forall (A : Type) (p : A -> bool) l,
  filter p (filter p l) = filter p l.
Proof.
  intros A p. induction l as [|x l IH]; [reflexivity|].
  cbn [filter]. destruct (p x) eqn:E; [|exact IH].
  cbn [filter]. now rewrite E, IH.
Qed.

Section Filter.

Variable type_error_message : value -> string -> string.
Variable actives : list value.

Local Abbreviation matchesProfiles := (matchesProfiles type_error_message).
Local Abbreviation filterByProfiles := (filterByProfiles type_error_message).

Lemma some_active_list : forall serviceProfiles,
  some_active type_error_message (VArr actives) serviceProfiles
  = Ok (existsb (fun profile => set_has (VStr profile) actives) serviceProfiles).
Proof.
  induction serviceProfiles as [|p ps IH]; [reflexivity|].
  cbn [some_active is_active truthy negb bind existsb].
  destruct (set_has (VStr p) actives); [reflexivity | exact IH].
Qed.

(** Against a list of active profiles, [matchesProfiles] follows the rule. *)
Lemma matchesProfiles_list : forall service,
  matchesProfiles service (VArr actives) = Ok (profile_match actives service).
Proof.
  intros service. unfold ProfileFilter.matchesProfiles, profile_match.
  destruct (getServiceProfiles service) as [|p ps]; [reflexivity|].
  apply some_active_list.
Qed.

Lemma filter_services_list : forall entries acc,
  NoDup (map fst (acc ++ entries)) ->
  filter_services type_error_message (VArr actives) entries acc
  = Ok (acc ++ filter (fun entry => profile_match actives (snd entry)) entries).
Proof.
  induction entries as [|[k v] entries IH]; intros acc H;
    [cbn [filter_services filter]; now rewrite app_nil_r|].
  cbn [filter_services filter snd]. rewrite matchesProfiles_list. cbn [bind].
  assert (Hk : ~ In k (map fst acc)).
  { rewrite map_app in H. cbn [map fst] in H.
    apply NoDup_remove_2 in H. intros Hin. apply H. apply in_or_app. now left. }
  assert (Hrest : NoDup (map fst (acc ++ entries))).
  { rewrite map_app in *. cbn [map fst] in H. now apply NoDup_remove_1 in H. }
  destruct (profile_match actives v).
  - rewrite (obj_set_fresh acc k v Hk), IH; [now rewrite <- app_assoc|].
    rewrite <- app_assoc. exact H.
  - now apply IH.
Qed.

Lemma filterByProfiles_services : forall compose,
  truthy compose = true -> truthy (get compose "services") = true ->
  NoDup (map fst (own_entries (get compose "services"))) ->
  filterByProfiles compose (VArr actives) =
  Ok (VObj (obj_set (own_entries compose) "services"
              (VObj (filter (fun entry => profile_match actives (snd entry))
                            (own_entries (get compose "services")))))).
Proof.
  intros compose Hc Hs Hnd. unfold ProfileFilter.filterByProfiles.
  rewrite Hc, Hs. cbn [negb].
  now rewrite (filter_services_list _ [] Hnd).
Qed.

End Filter.

(** The rule, spelled out. *)
Lemma profile_match_rule : forall actives service,
  profile_match actives service = true
  <-> getServiceProfiles service = []
      \/ exists profile,
           In profile (getServiceProfiles service) /\ In (VStr profile) actives.
Proof.
  intros actives service. unfold profile_match.
  destruct (getServiceProfiles service) as [|p ps] eqn:E.
  - split; [now left | reflexivity].
  - rewrite existsb_exists. split.
    + intros [x [Hx Hs]]. right. exists x. split; [exact Hx|].
      now apply set_has_In.
    + intros [H|[x [Hx Hs]]]; [discriminate|]. exists x. split; [exact Hx|].
      now apply set_has_In.
Qed.

(** An array or a string has numeric keys only, so a value with a truthy
    [services] property is an object. *)
Lemma services_is_no_index : forall xs i,
  obj_get (indexed_from i xs) "services" = VUndef.
Proof.
  intros xs i. unfold obj_get.
  destruct (lookup "services" (indexed_from i xs)) eqn:E; [|reflexivity].
  apply lookup_In in E. apply (in_map fst) in E. cbn [fst] in E.
  apply indexed_from_keys in E as [j [_ Hj]]. exfalso.
  unfold nat_to_string in Hj.
  assert (Hnone : NilZero.uint_of_string "services" = None) by reflexivity.
  rewrite Hj in Hnone.
  destruct (NilZero.usu_gen (Nat.to_uint j)) as [H|H]; congruence.
Qed.

Lemma services_holder : forall compose,
  truthy (get compose "services") = true -> exists fields, compose = VObj fields.
Proof.
  intros [| |b|n|s|xs|fields] H; cbn [get] in H; try discriminate.
  - change (String.eqb "services" "length") with false in H.
    now rewrite services_is_no_index in H.
  - change (String.eqb "services" "length") with false in H.
    now rewrite services_is_no_index in H.
  - now exists fields.
Qed.

(** X21: against a list of active profiles, [filterByProfiles] returns a
    document that keeps, in their order, exactly the services that match: a
    service is kept when it has no profiles, or when at least one of its
    profiles is among the active ones, and dropped otherwise.  Every other
    key of the document stays as it is, and filtering a second time changes
    nothing. *)
Theorem filterByProfiles_keeps_matching_services :
  forall type_error_message compose actives,
  unique_keys compose = true ->
  truthy (get compose "services") = true ->
  exists filtered,
    filterByProfiles type_error_message compose (VArr actives) = Ok filtered
    /\ own_entries (get filtered "services")
       = filter (fun entry => profile_match actives (snd entry))
                (own_entries (get compose "services"))
    /\ (forall name service,
          In (name, service) (own_entries (get filtered "services"))
          <-> In (name, service) (own_entries (get compose "services"))
              /\ (getServiceProfiles service = []
                  \/ exists profile,
                       In profile (getServiceProfiles service)
                       /\ In (VStr profile) actives))
    /\ (forall k, k <> "services"%string -> get filtered k = get compose k)
    /\ filterByProfiles type_error_message filtered (VArr actives) = Ok filtered.
Proof.
  intros tem compose actives Hu Hs.
  pose proof (truthy_get_truthy _ _ Hs) as Hc.
  assert (Hnd : NoDup (map fst (own_entries (get compose "services"))))
    by (exact (proj1 (unique_keys_entries _ (unique_keys_get _ "services" Hu)))).
  eexists. split; [exact (filterByProfiles_services tem actives compose Hc Hs Hnd)|].
  set (kept := filter (fun entry => profile_match actives (snd entry))
                      (own_entries (get compose "services"))).
  assert (Hget : get (VObj (obj_set (own_entries compose) "services" (VObj kept)))
                     "services" = VObj kept)
    by (cbn [get]; apply obj_get_set_same).
  split; [now rewrite Hget|]. split; [|split].
  - intros name service. rewrite Hget. cbn [own_entries]. unfold kept.
    rewrite filter_In. cbn [snd]. now rewrite profile_match_rule.
  - intros k Hk. destruct (services_holder compose Hs) as [fields ->].
    cbn [get own_entries]. now rewrite obj_get_set_other by congruence.
  - rewrite filterByProfiles_services.
    + rewrite Hget. cbn [own_entries]. unfold kept at 2.
      rewrite filter_idempotent. fold kept. do 2 f_equal.
      apply obj_set_same_value. apply lookup_set_same.
    + reflexivity.
    + now rewrite Hget.
    + rewrite Hget. cbn [own_entries]. now apply NoDup_filter_keys.
Qed.

Lemma filterByProfiles_example :
  exists filtered,
    filterByProfiles Examples.no_text
      (VObj [("services",
              VObj [("web", VObj [("image", VStr "nginx")]);
                    ("debug", VObj [("profiles", VArr [VStr "dev"; VStr "test"])]);
                    ("mail", VObj [("profiles", VArr [VStr "dev"; VStr "prod"])])])])
      (VArr [VStr "prod"]) = Ok filtered
    /\ own_entries (get filtered "services")
       = [("web", VObj [("image", VStr "nginx")]);
          ("mail", VObj [("profiles", VArr [VStr "dev"; VStr "prod"])])].
Proof.
  destruct (filterByProfiles_keeps_matching_services Examples.no_text
              (VObj [("services",
                      VObj [("web", VObj [("image", VStr "nginx")]);
                            ("debug", VObj [("profiles", VArr [VStr "dev"; VStr "test"])]);
                            ("mail", VObj [("profiles",
                                            VArr [VStr "dev"; VStr "prod"])])])])
              [VStr "prod"] eq_refl eq_refl) as [filtered [Hf [Hs _]]].
  exists filtered. split; [exact Hf | exact Hs].
Defined.

Lemma set_add_all_In : forall names seen x,
  In x (set_add_all seen names) <-> In x seen \/ In x names.
Proof.
  induction names as [|y names IH]; intros seen x; cbn [set_add_all].
  - simpl. tauto.
  - rewrite IH. destruct (string_mem y seen) eqn:E.
    + apply string_mem_In in E. simpl. split; [tauto|].
      intros [H|[<-|H]]; tauto.
    + rewrite in_app_iff. simpl. tauto.
Qed.

Lemma set_add_all_NoDup : forall names seen,
  NoDup seen -> NoDup (set_add_all seen names).
Proof.
  induction names as [|y names IH]; intros seen H; cbn [set_add_all]; [exact H|].
  apply IH. destruct (string_mem y seen) eqn:E; [exact H|].
  apply NoDup_app; [exact H | repeat constructor; simpl; tauto |].
  intros x Hx [<-|[]]. apply string_mem_In in Hx. congruence.
Qed.

Lemma collect_profiles_In : forall services seen x,
  In x (fold_left (fun profiles service =>
                     set_add_all profiles (getServiceProfiles service))
                  services seen)
  <-> In x seen \/ exists service, In service services /\ In x (getServiceProfiles service).
Proof.
  induction services as [|s services IH]; intros seen x; cbn [fold_left].
  - split; [tauto|]. intros [H|[s [[] _]]]. exact H.
  - rewrite IH, set_add_all_In. split.
    + intros [[H|H]|[s' [Hs' H]]]; [tauto | right; exists s; simpl; tauto |].
      right. exists s'. simpl. tauto.
    + intros [H|[s' [[<-|Hs'] H]]]; [tauto | tauto |]. right. now exists s'.
Qed.

Lemma collect_profiles_NoDup : forall services seen,
  NoDup seen ->
  NoDup (fold_left (fun profiles service =>
                      set_add_all profiles (getServiceProfiles service))
                   services seen).
Proof.
  induction services as [|s services IH]; intros seen H; cbn [fold_left]; [exact H|].
  apply IH. now apply set_add_all_NoDup.
Qed.

Lemma insert_sorted_In : forall l x y, In y (insert_sorted x l) <-> y = x \/ In y l.
Proof.
  induction l as [|z l IH]; intros x y; cbn [insert_sorted].
  - simpl. intuition.
  - destruct (String.leb x z).
    + simpl. intuition.
    + simpl. rewrite IH. intuition.
Qed.

Lemma sort_In : forall l y, In y (sort l) <-> In y l.
Proof.
  induction l as [|x l IH]; intros y; [reflexivity|].
  unfold sort in *. cbn [fold_right]. rewrite insert_sorted_In, IH. simpl. intuition.
Qed.

Lemma insert_sorted_NoDup : forall l x,
  NoDup l -> ~ In x l -> NoDup (insert_sorted x l).
Proof.
  induction l as [|z l IH]; intros x Hnd Hx; cbn [insert_sorted].
  - repeat constructor. exact Hx.
  - destruct (String.leb x z); [now constructor|].
    inversion Hnd as [|? ? Hz Hnd']; subst. constructor.
    + rewrite insert_sorted_In. simpl in Hx. intuition.
    + apply IH; [exact Hnd'|]. simpl in Hx. tauto.
Qed.

Lemma sort_NoDup : forall l, NoDup l -> NoDup (sort l).
Proof.
  induction l as [|x l IH]; intros H; [constructor|].
  inversion H as [|? ? Hx H']; subst. unfold sort in *. cbn [fold_right].
  apply insert_sorted_NoDup; [now apply IH|]. now rewrite (sort_In l x).
Qed.

Lemma insert_sorted_Sorted : forall l x,
  Sorted.Sorted (fun a b => String.leb a b = true) l ->
  Sorted.Sorted (fun a b => String.leb a b = true) (insert_sorted x l).
Proof.
  induction l as [|z l IH]; intros x H; cbn [insert_sorted].
  - repeat constructor.
  - destruct (String.leb x z) eqn:E.
    + constructor; [exact H | now constructor].
    + inversion H as [|? ? Hs Hhd]; subst. constructor; [now apply IH|].
      assert (Hzx : String.leb z x = true)
        by (destruct (String.leb_total x z); congruence).
      destruct l as [|w l]; cbn [insert_sorted]; [now constructor|].
      destruct (String.leb x w); constructor; [exact Hzx|].
      now inversion Hhd.
Qed.

Lemma sort_Sorted : forall l,
  Sorted.Sorted (fun a b => String.leb a b = true) (sort l).
Proof.
  induction l as [|x l IH]; [constructor|].
  unfold sort in *. cbn [fold_right]. now apply insert_sorted_Sorted.
Qed.

(** X22: [listAllProfiles] lists the profiles of the services in ascending
    order and each one once: a name is listed exactly when some service
    carries it. *)
Theorem listAllProfiles_sorted_and_complete : forall compose,
  Sorted.Sorted (fun a b => String.leb a b = true) (listAllProfiles compose)
  /\ NoDup (listAllProfiles compose)
  /\ (truthy (get compose "services") = true ->
      forall p, In p (listAllProfiles compose) <->
                exists service,
                  In service (service_values compose)
                  /\ In p (getServiceProfiles service)).
Proof.
  intros compose. unfold listAllProfiles.
  destruct (truthy compose) eqn:Ec; cbn [negb].
  - destruct (truthy (get compose "services")) eqn:Es; cbn [negb].
    + split; [apply sort_Sorted|]. split.
      * apply sort_NoDup, collect_profiles_NoDup. constructor.
      * intros _ p. rewrite sort_In, collect_profiles_In. simpl. tauto.
    + repeat split; try constructor; discriminate.
  - split; [constructor|]. split; [constructor|].
    intros Hs. rewrite (truthy_get_truthy _ _ Hs) in Ec. discriminate.
Qed.

(** One count of [x] touches the entry of [x] only. *)
Lemma count_profile_other : forall counts x p,
  x <> p -> lookup p (count_profile counts x) = lookup p counts.
Proof.
  intros counts x p H. unfold count_profile.
  destruct (String.eqb x "__proto__" && negb (has_key counts x)); [reflexivity|].
  now apply lookup_set_other.
Qed.

(** What one count of [p] makes of the entry of [p]. *)
Lemma count_profile_same : forall counts p,
  lookup p (count_profile counts p) =
  match lookup p counts with
  | Some v => Some (plus_one (or_else v (VNum 0)))
  | None =>
      if String.eqb p "__proto__" then None
      else Some (plus_one (or_else (if inherited p then VStr (inherited_text p)
                                    else VUndef) (VNum 0)))
  end.
Proof.
  intros counts p. unfold count_profile, has_key.
  destruct (lookup p counts) as [v|] eqn:E.
  - rewrite andb_false_r. apply lookup_set_same.
  - destruct (String.eqb p "__proto__"); cbn [negb andb]; [exact E|].
    apply lookup_set_same.
Qed.

Lemma inherited_text_truthy : forall p suffix,
  inherited p = true -> p <> "__proto__"%string ->
  truthy (VStr (inherited_text p ++ suffix)) = true.
Proof.
  intros p suffix _ H. unfold inherited_text.
  rewrite (proj2 (String.eqb_neq p "__proto__") H). reflexivity.
Qed.

(** The entry of [p] after [c] counts of it, from an empty table. *)
Lemma count_profiles_fold : forall profiles p counts (before : nat),
  let c := count_occ string_dec profiles p in
  (lookup p counts = None /\ before = O
   \/ before <> O
      /\ lookup p counts =
         Some (if inherited p then VStr (inherited_text p ++ ones before)
               else VNum (Z.of_nat before))
      /\ p <> "__proto__"%string) ->
  lookup p (fold_left count_profile profiles counts) =
  match (before + c)%nat with
  | O => None
  | S _ =>
      if String.eqb p "__proto__" then None
      else Some (if inherited p then VStr (inherited_text p ++ ones (before + c))
                 else VNum (Z.of_nat (before + c)))
  end.
Proof.
  intros profiles p. cbv zeta.
  induction profiles as [|x profiles IH]; intros counts before Hstate.
  - cbn [fold_left count_occ]. rewrite Nat.add_0_r.
    destruct Hstate as [[Hl ->]|[Hb [Hl Hp]]]; [exact Hl|].
    destruct before; [congruence|].
    now rewrite (proj2 (String.eqb_neq p "__proto__") Hp).
  - cbn [fold_left count_occ]. destruct (string_dec x p) as [->|Hne].
    + replace (before + S (count_occ string_dec profiles p))%nat
        with (S before + count_occ string_dec profiles p)%nat by lia.
      destruct (String.eqb p "__proto__") eqn:Ep.
      * destruct Hstate as [[Hl ->]|[_ [_ Hp]]];
          [|apply String.eqb_eq in Ep; contradiction].
        assert (Hsame : lookup p (count_profile counts p) = None)
          by (now rewrite count_profile_same, Hl, Ep).
        rewrite (IH (count_profile counts p) O (or_introl (conj Hsame eq_refl))).
        cbn [Nat.add].
        destruct (count_occ string_dec profiles p); reflexivity.
      * apply String.eqb_neq in Ep.
        rewrite (IH (count_profile counts p) (S before)).
        -- reflexivity.
        -- right. split; [discriminate|]. split; [|exact Ep].
           rewrite count_profile_same, (proj2 (String.eqb_neq p "__proto__") Ep).
           destruct Hstate as [[Hl ->]|[Hb [Hl _]]]; rewrite Hl.
           ++ destruct (inherited p) eqn:Ei.
              ** unfold or_else.
                 rewrite <- (append_nil_r (inherited_text p)) at 1.
                 rewrite (inherited_text_truthy p "" Ei Ep). reflexivity.
              ** reflexivity.
           ++ destruct (inherited p) eqn:Ei.
              ** unfold or_else. rewrite (inherited_text_truthy p _ Ei Ep).
                 cbn [plus_one to_str ones]. now rewrite append_assoc.
              ** unfold or_else. cbn [truthy].
                 assert (Hz : Z.eqb (Z.of_nat before) 0 = false)
                   by (apply Z.eqb_neq; lia).
                 rewrite Hz. cbn [negb plus_one]. do 2 f_equal. lia.
    + apply IH. rewrite (count_profile_other counts x p Hne). exact Hstate.
Qed.

Lemma count_services_fold : forall services counts,
  fold_left (fun counts service =>
               fold_left count_profile (getServiceProfiles service) counts)
            services counts
  = fold_left count_profile (flat_map getServiceProfiles services) counts.
Proof.
  induction services as [|s services IH]; intros counts; [reflexivity|].
  cbn [fold_left flat_map]. now rewrite fold_left_app, IH.
Qed.

(** X23: [getProfileCounts] holds, for every profile that does not bear the
    name of a member of Object.prototype, the number of times the services
    carry it, and has no entry for a profile that no service carries.  A
    profile that bears such a name ([constructor], [toString], ...) starts
    from the text of the inherited member, to which each count appends the
    digit one; for [__proto__] nothing is stored at all. *)
Theorem getProfileCounts_counts_services : forall compose p,
  truthy (get compose "services") = true ->
  let c := count_occ string_dec
             (flat_map getServiceProfiles (service_values compose)) p in
  lookup p (getProfileCounts compose) =
  match c with
  | O => None
  | S _ =>
      if String.eqb p "__proto__" then None
      else Some (if inherited p then VStr (inherited_text p ++ ones c)
                 else VNum (Z.of_nat c))
  end.
Proof.
  intros compose p Hs c. unfold getProfileCounts.
  rewrite (truthy_get_truthy _ _ Hs), Hs. cbn [negb].
  rewrite count_services_fold.
  exact (count_profiles_fold (flat_map getServiceProfiles (service_values compose))
           p [] O (or_introl (conj eq_refl eq_refl))).
Qed.

Lemma getProfileCounts_example :
  lookup "dev"
    (getProfileCounts
       (VObj [("services",
               VObj [("a", VObj [("profiles", VArr [VStr "dev"; VStr "toString"])]);
                     ("b", VObj [("profiles", VStr "dev")]);
                     ("c", VObj [])])]))
  = Some (VNum 2)
  /\ lookup "toString"
       (getProfileCounts
          (VObj [("services",
                  VObj [("a", VObj [("profiles", VArr [VStr "dev"; VStr "toString"])]);
                        ("b", VObj [("profiles", VStr "dev")]);
                        ("c", VObj [])])]))
     = Some (VStr "function toString() { [native code] }1").
Proof.
  split.
  - exact (getProfileCounts_counts_services
             (VObj [("services",
                     VObj [("a", VObj [("profiles", VArr [VStr "dev"; VStr "toString"])]);
                           ("b", VObj [("profiles", VStr "dev")]);
                           ("c", VObj [])])]) "dev" eq_refl).
  - exact (getProfileCounts_counts_services
             (VObj [("services",
                     VObj [("a", VObj [("profiles", VArr [VStr "dev"; VStr "toString"])]);
                           ("b", VObj [("profiles", VStr "dev")]);
                           ("c", VObj [])])]) "toString" eq_refl).
Defined.

(** ** The comparator's findings *)

Import Notions.

Lemma spans_projects_involved : forall usages,
  Comparison.spans_projects usages = true ->
  (1 < List.length (Comparison.projects_involved usages))%nat.
Proof.
  intros usages H. unfold Comparison.spans_projects in H.
  apply andb_true_iff in H as [_ H]. now apply Nat.ltb_lt in H.
Qed.

Lemma report_classes : forall m f, In f (Comparison.report m) -> finding_class f.
Proof.
  intros m f H. unfold Comparison.report in H.
  repeat (apply in_app_or in H as [H|H]);
    apply in_flat_map in H as [[k us] [_ H]].
  - destruct (Comparison.spans_projects us) eqn:E; [|contradiction].
    destruct H as [<-|[]]. split; [now apply spans_projects_involved|].
    left. cbn. tauto.
  - destruct (Comparison.spans_projects us) eqn:E; [|contradiction].
    destruct H as [<-|[]]. split; [now apply spans_projects_involved|].
    left. cbn. tauto.
  - destruct (Comparison.spans_projects us) eqn:E; [|contradiction].
    destruct H as [<-|[]]. split; [now apply spans_projects_involved|].
    right; left. cbn.
    destruct (Comparison.starts_with_dot_or_slash (to_str k)); tauto.
  - destruct (1 <? List.length us)%nat eqn:E; [|contradiction].
    destruct H as [<-|[]]. split; [now apply Nat.ltb_lt in E|].
    right; right. cbn. tauto.
  - destruct (Comparison.spans_projects us) eqn:E; [|contradiction].
    destruct H as [<-|[]]. split; [now apply spans_projects_involved|].
    right; right. cbn. tauto.
  - destruct (1 <? List.length us)%nat eqn:E; [|contradiction].
    destruct H as [<-|[]]. split; [now apply Nat.ltb_lt in E|].
    right; right. cbn. tauto.
Qed.

(** *** Where the projects of a finding come from *)

Section Named.

Variable entries : list Comparison.project_entry.

Lemma all_named_push : forall (V : Type) (proj : V -> value) m k x,
  all_named proj entries m -> entry_named entries (proj x) ->
  all_named proj entries (Comparison.push m k x).
Proof.
  intros V proj m k x Hm Hx k' us u Hin Hu.
  apply In_push in Hin as [Hin|[[_ ->]|[us0 [Hin [_ ->]]]]].
  - exact (Hm _ _ _ Hin Hu).
  - destruct Hu as [<-|[]]. exact Hx.
  - apply in_app_or in Hu as [Hu|[<-|[]]]; [exact (Hm _ _ _ Hin Hu) | exact Hx].
Qed.

Lemma all_named_fold : forall (V A : Type) (proj : V -> value)
    (step : Comparison.multimap V -> A -> Comparison.multimap V) items m,
  (forall acc item, all_named proj entries acc -> all_named proj entries (step acc item)) ->
  all_named proj entries m -> all_named proj entries (fold_left step items m).
Proof.
  intros V A proj step. induction items as [|item items IH]; intros m Hstep Hm;
    [exact Hm|].
  cbn [fold_left]. apply IH; [exact Hstep | now apply Hstep].
Qed.

Variable extract : value -> option string.
Variable type_error_message : value -> string -> string.

Lemma maps_named_service : forall projectName m serviceName svc m',
  entry_named entries projectName -> maps_named entries m ->
  Comparison.collect_service extract type_error_message projectName m serviceName svc
  = Ok m' ->
  maps_named entries m'.
Proof.
  intros projectName m serviceName svc m' Hp (H1 & H2 & H3 & H4 & H5 & H6) H.
  unfold Comparison.collect_service in H.
  destruct (get_prop type_error_message svc "container_name") as [cname|];
    cbn [bind] in H; [|discriminate].
  injection H as <-. unfold maps_named.
  cbn [Comparison.portMap Comparison.containerNameMap Comparison.serviceNameMap
       Comparison.volumeMap Comparison.networkMap Comparison.envFileMap].
  repeat split.
  - unfold Comparison.collect_ports. apply all_named_fold; [|exact H1].
    intros acc port Hacc. destruct (extract port) as [hostPort|]; [|exact Hacc].
    destruct (String.eqb hostPort ""); [exact Hacc|].
    now apply all_named_push.
  - destruct (truthy cname); [|exact H2]. now apply all_named_push.
  - now apply all_named_push.
  - unfold Comparison.collect_volumes. apply all_named_fold; [|exact H4].
    intros acc vol Hacc. destruct (Comparison.extractVolumeSource vol); [|exact Hacc].
    now apply all_named_push.
  - exact H5.
  - unfold Comparison.collect_env_files. apply all_named_fold; [|exact H6].
    intros acc envFile Hacc. now apply all_named_push.
Qed.

Lemma maps_named_services : forall projectName services m m',
  entry_named entries projectName -> maps_named entries m ->
  Comparison.collect_services extract type_error_message projectName services m
  = Ok m' ->
  maps_named entries m'.
Proof.
  intros projectName. induction services as [|[serviceName svc] services IH];
    intros m m' Hp Hm H; cbn [Comparison.collect_services] in H.
  - now injection H as <-.
  - destruct (Comparison.collect_service extract type_error_message projectName m
                serviceName svc) as [m1|] eqn:E; cbn [bind] in H; [|discriminate].
    refine (IH m1 m' Hp _ H).
    exact (maps_named_service _ _ _ _ _ Hp Hm E).
Qed.

Lemma maps_named_networks : forall projectName names m,
  entry_named entries projectName -> maps_named entries m ->
  maps_named entries (Comparison.collect_networks projectName names m).
Proof.
  intros projectName names m Hp (H1 & H2 & H3 & H4 & H5 & H6).
  unfold maps_named, Comparison.collect_networks.
  cbn [Comparison.portMap Comparison.containerNameMap Comparison.serviceNameMap
       Comparison.volumeMap Comparison.networkMap Comparison.envFileMap].
  repeat split; try assumption.
  apply all_named_fold; [|exact H5].
  intros acc networkName Hacc. now apply all_named_push.
Qed.

Lemma maps_named_collect : forall projects m m',
  (forall p, In p projects -> In p entries) ->
  maps_named entries m ->
  Comparison.collect extract type_error_message projects m = Ok m' ->
  maps_named entries m'.
Proof.
  induction projects as [|p projects IH]; intros m m' Hsub Hm H;
    cbn [Comparison.collect] in H.
  - now injection H as <-.
  - assert (Hrest : forall q, In q projects -> In q entries)
      by (intros q Hq; apply Hsub; now right).
    destruct (truthy (Comparison.content p)) eqn:Ec; cbn [negb] in H;
      [|exact (IH m m' Hrest Hm H)].
    assert (Hp : entry_named entries (Comparison.name p)).
    { exists p. split; [apply Hsub; now left|]. now split. }
    destruct (Comparison.collect_services extract type_error_message
                (Comparison.name p) _ m) as [m1|] eqn:E; cbn [bind] in H;
      [|discriminate].
    refine (IH _ m' Hrest _ H).
    apply maps_named_networks; [exact Hp|].
    exact (maps_named_services _ _ _ _ Hp Hm E).
Qed.

End Named.

Lemma usages_finding_projects : forall entries k us f,
  all_named Comparison.project entries [(k, us)] ->
  Comparison.spans_projects us = true ->
  Comparison.projects f = Comparison.projects_involved us ->
  Comparison.details f = Comparison.Usages us ->
  finding_projects entries f.
Proof.
  intros entries k us f Hm Hspan Hp Hd. unfold finding_projects.
  rewrite Hp, Hd. split; [|split; [|split]].
  - intros p Hin. apply projects_involved_In in Hin as [u [Hu <-]].
    exact (Hm k us u (or_introl eq_refl) Hu).
  - apply projects_involved_NoDup.
  - apply projects_involved_In.
  - now apply projects_involved_span, spans_projects_involved.
Qed.

Lemma report_projects : forall entries m f,
  maps_named entries m -> In f (Comparison.report m) -> finding_projects entries f.
Proof.
  intros entries m f (H1 & H2 & H3 & H4 & H5 & H6) H. unfold Comparison.report in H.
  repeat (apply in_app_or in H as [H|H]);
    apply in_flat_map in H as [[k us] [Hin H]].
  - destruct (Comparison.spans_projects us) eqn:E; [|contradiction].
    destruct H as [<-|[]]. apply (usages_finding_projects entries k us); auto.
    intros k' us' u [Heq|[]] Hu. injection Heq as <- <-. exact (H1 _ _ _ Hin Hu).
  - destruct (Comparison.spans_projects us) eqn:E; [|contradiction].
    destruct H as [<-|[]]. apply (usages_finding_projects entries k us); auto.
    intros k' us' u [Heq|[]] Hu. injection Heq as <- <-. exact (H2 _ _ _ Hin Hu).
  - destruct (Comparison.spans_projects us) eqn:E; [|contradiction].
    destruct H as [<-|[]]. apply (usages_finding_projects entries k us); auto.
    intros k' us' u [Heq|[]] Hu. injection Heq as <- <-. exact (H4 _ _ _ Hin Hu).
  - destruct (1 <? List.length us)%nat; [|contradiction].
    destruct H as [<-|[]]. split; [|exact I].
    intros p Hp. exact (H5 _ _ _ Hin Hp).
  - destruct (Comparison.spans_projects us) eqn:E; [|contradiction].
    destruct H as [<-|[]]. apply (usages_finding_projects entries k us); auto.
    intros k' us' u [Heq|[]] Hu. injection Heq as <- <-. exact (H6 _ _ _ Hin Hu).
  - destruct (1 <? List.length us)%nat; [|contradiction].
    destruct H as [<-|[]]. split; [|exact I].
    intros p Hp. exact (H3 _ _ _ Hin Hp).
Qed.

Lemma compare_with_named : forall extract type_error_message projects results f,
  Comparison.compare_with extract type_error_message projects = Ok results ->
  In f results -> finding_projects projects f.
Proof.
  intros extract tem projects results f H Hf. unfold Comparison.compare_with in H.
  destruct (List.length projects <? 2)%nat;
    [injection H as <-; contradiction|].
  destruct (Comparison.collect extract tem projects Comparison.empty_maps)
    as [m|msg] eqn:E; cbn [bind] in H; [|discriminate].
  injection H as <-. apply (report_projects projects m f); [|exact Hf].
  refine (maps_named_collect projects extract tem projects Comparison.empty_maps m
            (fun p Hp => Hp) _ E).
  repeat split; intros k us u [].
Qed.

Lemma compare_with_report : forall extract type_error_message projects results,
  Comparison.compare_with extract type_error_message projects = Ok results ->
  results = []
  \/ ((2 <= List.length projects)%nat /\ exists m, results = Comparison.report m).
Proof.
  intros extract tem projects results H. unfold Comparison.compare_with in H.
  destruct (List.length projects <? 2)%nat eqn:E; [left; congruence|].
  apply Nat.ltb_ge in E.
  destruct (Comparison.collect extract tem projects Comparison.empty_maps) as [m|msg];
    [|discriminate].
  right. split; [exact E|]. exists m. cbn [bind] in H. congruence.
Qed.



Lemma severity_partition : forall results,
  (forall f, In f results ->
     Comparison.severity f = "error"%string \/ Comparison.severity f = "warning"%string
     \/ Comparison.severity f = "info"%string) ->
  let '(errors, warnings, info) := Comparison.getComparisonSummary results in
  (errors + warnings + info)%nat = List.length results.
Proof.
  induction results as [|f results IH]; intros H; [reflexivity|].
  unfold Comparison.getComparisonSummary in *. cbn [filter List.length].
  specialize (IH (fun f' Hf' => H f' (or_intror Hf'))). cbv beta iota in IH.
  destruct (H f (or_introl eq_refl)) as [E|[E|E]]; rewrite E; cbn; lia.
Qed.

(** X25: the three counts of [getComparisonSummary] add up to the number of
    findings the comparator returned: every finding is an error, a warning
    or an info. *)
Theorem summary_counts_every_finding :
  forall extract type_error_message projects results,
    Comparison.compare_with extract type_error_message projects = Ok results ->
    let '(errors, warnings, info) := Comparison.getComparisonSummary results in
    (errors + warnings + info)%nat = List.length results.
Proof.
  intros extract tem projects results H. apply severity_partition.
  intros f Hf.
  destruct (compare_with_report _ _ _ _ H) as [->|[_ [m ->]]]; [contradiction|].
  destruct (report_classes m f Hf) as [_ [[_ [_ E]]|[[_ [[_ E]|[_ E]]]|[_ [_ E]]]]];
    tauto.
Qed.

Lemma summary_example :
  exists results,
    Comparison.compareProjects Examples.no_text
      (two_projects ["443:443"; "80:80"] ["443:443"; "8080:80"]) = Ok results
    /\ let '(errors, warnings, info) := Comparison.getComparisonSummary results in
       (errors + warnings + info)%nat = List.length results.
Proof.
  eexists. split; [reflexivity|].
  apply (summary_counts_every_finding Comparison.extractHostPort Examples.no_text
           (two_projects ["443:443"; "80:80"] ["443:443"; "8080:80"])).
  reflexivity.
Defined.

(** ** Host bindings, in the revision with bracketed addresses *)

Import Notions.

Lemma bracket_index : forall (addr rest : string),
  lacks "]" addr = true ->
  ComparisonRevised.indexOf "]" ("[" ++ addr ++ "]" ++ rest)
  = Some (String.length ("[" ++ addr)).
Proof.
  intros addr rest H. unfold ComparisonRevised.indexOf.
  change ("[" ++ addr ++ "]" ++ rest)%string
    with (("[" ++ addr) ++ String "]" ("" ++ rest))%string.
  rewrite (break_at_first "]" "" ("[" ++ addr) rest); [reflexivity|].
  cbn [append lacks]. exact H.
Qed.

Lemma bracket_split : forall (addr rest : string),
  PathResolver.take (String.length ("[" ++ addr) + 1) ("[" ++ addr ++ "]" ++ rest)
  = ("[" ++ addr ++ "]")%string
  /\ drop (String.length ("[" ++ addr) + 1) ("[" ++ addr ++ "]" ++ rest) = rest.
Proof.
  intros addr rest.
  assert (Hl : (String.length ("[" ++ addr) + 1)%nat
               = String.length ("[" ++ addr ++ "]")).
  { change ("[" ++ addr ++ "]")%string with (("[" ++ addr) ++ "]")%string at 1.
    cbn [append String.length]. rewrite length_append. cbn. lia. }
  assert (Hs : ("[" ++ addr ++ "]" ++ rest)%string
               = (("[" ++ addr ++ "]") ++ rest)%string).
  { cbn [append]. f_equal. now rewrite append_assoc. }
  rewrite Hl, Hs. split; [apply take_length_app | apply drop_length_app].
Qed.

Lemma first_of_split : forall c (a rest : string),
  lacks c a = true ->
  hd ""%string (split (String c "") a) = a
  /\ hd ""%string (split (String c "") (a ++ String c "" ++ rest)) = a.
Proof.
  intros c a rest H. split.
  - rewrite split_absent; [reflexivity | now apply includes_lacks].
  - rewrite split_unfold.
    change (a ++ String c "" ++ rest)%string with (a ++ String c ("" ++ rest))%string.
    now rewrite (break_at_first c "" a rest H).
Qed.

Lemma bracketed_binding : forall (addr hostPort tail : string),
  lacks "]" addr = true -> String.eqb hostPort "" = false ->
  hd ""%string (split ":" tail) = hostPort ->
  ComparisonRevised.extractHostPort (VStr ("[" ++ addr ++ "]" ++ ":" ++ tail))
  = Some ("[" ++ addr ++ "]" ++ ":" ++ hd "" (split "/" hostPort))%string.
Proof.
  intros addr hostPort tail Ha Hne Htail.
  cbn [ComparisonRevised.extractHostPort].
  change (String.eqb ("[" ++ addr ++ "]" ++ ":" ++ tail) "") with false. cbv iota.
  change (startsWith "[" ("[" ++ addr ++ "]" ++ ":" ++ tail)) with true. cbv iota.
  rewrite (bracket_index addr (":" ++ tail) Ha).
  destruct (bracket_split addr (":" ++ tail)) as [-> ->].
  change (startsWith ":" (":" ++ tail)) with true. cbv iota.
  change (drop 1 (":" ++ tail)) with tail. rewrite Htail, Hne.
  now rewrite <- !append_assoc.
Qed.

(** X26: in the revision of comparison.js with the bracket branch, a port
    mapping that starts with a bracketed address keeps the address with its
    brackets in the key: [[addr]:host], [[addr]:host:container] and
    [[addr]:host/protocol:container] all give the key [[addr]:host]. *)
Theorem bracketed_addresses_are_kept : forall addr host protocol container,
  lacks "]" addr = true -> lacks ":" host = true -> lacks "/" host = true ->
  host <> ""%string -> lacks ":" protocol = true ->
  let key := Some ("[" ++ addr ++ "]" ++ ":" ++ host)%string in
  ComparisonRevised.extractHostPort (VStr ("[" ++ addr ++ "]" ++ ":" ++ host)) = key
  /\ ComparisonRevised.extractHostPort
       (VStr ("[" ++ addr ++ "]" ++ ":" ++ host ++ ":" ++ container)) = key
  /\ ComparisonRevised.extractHostPort
       (VStr ("[" ++ addr ++ "]" ++ ":" ++ (host ++ "/" ++ protocol) ++ ":" ++ container))
     = key.
Proof.
  intros addr host protocol container Ha Hc Hs Hne Hp key.
  assert (Hhost : String.eqb host "" = false) by (now apply String.eqb_neq).
  assert (Hkey : hd ""%string (split "/" host) = host)
    by (exact (proj1 (first_of_split "/" host "" Hs))).
  split; [|split].
  - rewrite (bracketed_binding addr host host Ha Hhost);
      [now rewrite Hkey | exact (proj1 (first_of_split ":" host "" Hc))].
  - rewrite (bracketed_binding addr host (host ++ ":" ++ container) Ha Hhost);
      [now rewrite Hkey | exact (proj2 (first_of_split ":" host container Hc))].
  - rewrite (bracketed_binding addr (host ++ "/" ++ protocol)
               ((host ++ "/" ++ protocol) ++ ":" ++ container) Ha).
    + now rewrite (proj2 (first_of_split "/" host protocol Hs)).
    + destruct host; [congruence | reflexivity].
    + apply first_of_split. rewrite !lacks_app, Hc, Hp. reflexivity.
Qed.

Lemma bracketed_addresses_example :
  ComparisonRevised.extractHostPort (VStr "[::1]:8080") = Some "[::1]:8080"%string
  /\ ComparisonRevised.extractHostPort (VStr "[::1]:8080:80") = Some "[::1]:8080"%string
  /\ ComparisonRevised.extractHostPort (VStr "[::1]:8080/tcp:80")
     = Some "[::1]:8080"%string.
Proof.
  exact (bracketed_addresses_are_kept "::1" "8080" "tcp" "80"
           eq_refl eq_refl eq_refl ltac:(discriminate) eq_refl).
Defined.

(** ** The diagnostics of the orchestrator *)

Import Notions ParserTools.

Section Diagnostics.

Variable type_error_message : value -> string -> string.
Variable yaml_load : string -> res value.

Local Abbreviation parse := (ComposeParser.parseCompose type_error_message yaml_load).

(** The result of a run whose root parsed.  When nothing escapes the stages
    it holds a document and the diagnostics of the stages in their order: at
    most one of the include stage, then at most one of the extends stage,
    then at most one warning, then those of the interpolation.  Otherwise it
    is the fatal result, and the options are not as documented. *)
Lemma parsed_result : forall yamlString o doc,
  ComposeParser.parse_root yaml_load yamlString = Ok doc ->
  exists r,
    parse yamlString o = Some r
    /\ ((exists inc ext warn vars,
           ComposeParser.compose r <> None
           /\ ComposeParser.errors r = inc ++ ext ++ warn ++ vars
           /\ (inc = []
               \/ exists msg,
                    inc = [ComposeParser.diag "include" msg "include-resolution"])
           /\ (ext = []
               \/ exists msg,
                    ext = [ComposeParser.diag "extends" msg "extends-resolution"])
           /\ (warn = []
               \/ exists d, warn = [d] /\ ComposeParser.type d = "warning"
                            /\ ComposeParser.stage d = "variable-validation")
           /\ (forall d, In d vars -> ComposeParser.type d = "variable"))
        \/ (exists msg, r = ComposeParser.fatal_result msg)
           /\ ~ documented_options o).
Proof.
  intros yamlString o doc Hroot.
  destruct (stages_run type_error_message yaml_load o doc)
    as (doc1 & inc & doc2 & ext & E1 & E2 & Hinc & Hext).
  rewrite (parseCompose_parsed type_error_message yaml_load yamlString o doc
             doc1 inc doc2 ext Hroot E1 E2).
  destruct (ComposeParser.finish type_error_message o doc2 (inc ++ ext))
    as [r|msg] eqn:E.
  - exists r. split; [reflexivity|]. left.
    destruct (finish_Ok type_error_message o doc2 (inc ++ ext) r E)
      as (warn & vars & Hdoc & Herr & Hwarn & Hvars).
    exists inc, ext, warn, vars. rewrite Herr, <- app_assoc. now repeat split.
  - eexists. split; [reflexivity|]. right. split; [eauto|].
    exact (finish_throws type_error_message o doc2 (inc ++ ext) msg E).
Qed.

End Diagnostics.

(** X27: once the root of the text has parsed, and with options as
    documented, [parseCompose] returns a document, and its diagnostics come
    in the order of the stages: at most one [include] diagnostic, then at
    most one [extends] diagnostic, then at most one warning about undefined
    variables, then the diagnostics of the interpolation.  With other
    options the result is that one, or the fatal result. *)
Theorem diagnostics_follow_the_stages :
  forall type_error_message yaml_load yamlString o doc,
    ComposeParser.parse_root yaml_load yamlString = Ok doc ->
    exists r,
      ComposeParser.parseCompose type_error_message yaml_load yamlString o = Some r
      /\ ((exists inc ext warn vars,
             ComposeParser.compose r <> None
             /\ ComposeParser.errors r = inc ++ ext ++ warn ++ vars
             /\ (inc = []
                 \/ exists msg,
                      inc = [ComposeParser.diag "include" msg "include-resolution"])
             /\ (ext = []
                 \/ exists msg,
                      ext = [ComposeParser.diag "extends" msg "extends-resolution"])
             /\ (warn = []
                 \/ exists d, warn = [d] /\ ComposeParser.type d = "warning"
                              /\ ComposeParser.stage d = "variable-validation")
             /\ (forall d, In d vars -> ComposeParser.type d = "variable"))
          \/ (exists msg, r = ComposeParser.fatal_result msg)
             /\ ~ documented_options o).
Proof. exact parsed_result. Qed.

Lemma diagnostics_example :
  exists r,
    ComposeParser.parseCompose Examples.no_text (fun _ => Ok Examples.missing_include_root)
      "include: ./missing.yml" ComposeParser.default_options = Some r
    /\ map ComposeParser.type (ComposeParser.errors r) = ["include"%string].
Proof.
  destruct (diagnostics_follow_the_stages Examples.no_text
              (fun _ => Ok Examples.missing_include_root)
              "include: ./missing.yml"%string ComposeParser.default_options
              Examples.missing_include_root eq_refl)
    as (r & Hr & _).
  exists r. split; [exact Hr|].
  vm_compute in Hr. injection Hr as <-. reflexivity.
Defined.

Lemma find_fatal_none : forall errors,
  (forall d, In d errors -> ComposeParser.type d <> "fatal"%string) ->
  find (fun e => String.eqb (ComposeParser.type e) "fatal") errors = None.
Proof.
  induction errors as [|d errors IH]; intros H; [reflexivity|].
  cbn [find]. rewrite (proj2 (String.eqb_neq _ _) (H d (or_introl eq_refl))).
  apply IH. intros d' Hd'. apply H. now right.
Qed.

(** X28: [parseYaml] throws exactly when [parseCompose] returns the fatal
    result, with the message of that result: when the root of the text does
    not parse, with the message of that failure, and, under options that are
    not as documented, when an exception escapes the later stages.  A
    failure of the include, the extends or the interpolation stage never
    makes it throw: it then returns the document of [parseCompose]. *)
Theorem parseYaml_throws_on_fatal_results :
  forall type_error_message yaml_load yamlString o,
    match ComposeParser.parse_root yaml_load yamlString with
    | Throw msg =>
        parseYaml type_error_message yaml_load yamlString o = Some (Throw msg)
    | Ok _ =>
        exists r,
          ComposeParser.parseCompose type_error_message yaml_load yamlString o = Some r
          /\ ((exists doc,
                 ComposeParser.compose r = Some doc
                 /\ (forall d, In d (ComposeParser.errors r) ->
                       ComposeParser.type d <> "fatal"%string)
                 /\ parseYaml type_error_message yaml_load yamlString o
                    = Some (Ok (Some doc)))
              \/ (exists msg,
                    r = ComposeParser.fatal_result msg
                    /\ ~ documented_options o
                    /\ parseYaml type_error_message yaml_load yamlString o
                       = Some (Throw msg)))
    end.
Proof.
  intros tem yaml_load yamlString o.
  destruct (ComposeParser.parse_root yaml_load yamlString) as [doc|msg] eqn:Hroot.
  - destruct (parsed_result tem yaml_load yamlString o doc Hroot)
      as (r & Hr & [(inc & ext & warn & vars & Hc & He & Hinc & Hext & Hwarn & Hvars)
                   |[[msg ->] Hdoc]]).
    + exists r. split; [exact Hr|]. left.
      destruct (ComposeParser.compose r) as [doc'|] eqn:Ec; [|congruence].
      exists doc'. split; [reflexivity|].
      assert (Hnone : forall d, In d (ComposeParser.errors r) ->
                        ComposeParser.type d <> "fatal"%string).
      { intros d Hd. rewrite He in Hd.
        repeat (apply in_app_or in Hd as [Hd|Hd]).
        - destruct Hinc as [->|[m ->]]; [contradiction|].
          destruct Hd as [<-|[]]. discriminate.
        - destruct Hext as [->|[m ->]]; [contradiction|].
          destruct Hd as [<-|[]]. discriminate.
        - destruct Hwarn as [->|[w [-> [Hw _]]]]; [contradiction|].
          destruct Hd as [<-|[]]. rewrite Hw. discriminate.
        - rewrite (Hvars d Hd). discriminate. }
      split; [exact Hnone|].
      unfold parseYaml. rewrite Hr, (find_fatal_none _ Hnone), Ec. reflexivity.
    + eexists. split; [exact Hr|]. right. exists msg.
      split; [reflexivity|]. split; [exact Hdoc|].
      unfold parseYaml. now rewrite Hr.
  - unfold parseYaml, ComposeParser.parseCompose, ComposeParser.attempt, lift.
    now rewrite Hroot.
Qed.

Lemma parseYaml_example :
  parseYaml Examples.read_error (fun _ => Ok Examples.tagged_root) "services: ..."
    Examples.null_environment
  = Some (Throw "Cannot read properties of null (reading 'TAG')")
  /\ parseYaml Examples.no_text (fun _ => Throw "bad indentation") "a: b: c"
       ComposeParser.default_options
     = Some (Throw "bad indentation").
Proof.
  split.
  - pose proof (parseYaml_throws_on_fatal_results Examples.read_error
                  (fun _ => Ok Examples.tagged_root) "services: ..."%string
                  Examples.null_environment) as H.
    change (ComposeParser.parse_root (fun _ => Ok Examples.tagged_root) "services: ...")
      with (Ok Examples.tagged_root) in H.
    cbv iota beta in H.
    destruct H as (r & Hr & [(doc & Hc & _)|(msg & -> & _ & Hy)]).
    + vm_compute in Hr. injection Hr as <-. discriminate.
    + vm_compute in Hr. injection Hr as <-. exact Hy.
  - exact (parseYaml_throws_on_fatal_results Examples.no_text
             (fun _ => Throw "bad indentation") "a: b: c"%string
             ComposeParser.default_options).
Defined.

(** ** Deep equality *)

Import Notions ObjectUtils.

Local Abbreviation array_every ys :=
  (fix every (l : list value) (i : nat) : bool :=
     match l with
     | [] => true
     | val :: rest => deepEqual val (nth i ys VUndef) && every rest (S i)
     end).

Local Abbreviation object_every fb :=
  (fix every (l : list (string * value)) : bool :=
     match l with
     | [] => true
     | (key, val) :: rest => deepEqual val (obj_get fb key) && every rest
     end).

Lemma array_every_iff : forall ys l i,
  array_every ys l i = true <->
  forall j, (j < List.length l)%nat ->
    deepEqual (nth j l VUndef) (nth (i + j) ys VUndef) = true.
Proof.
  intros ys. induction l as [|val rest IH]; intros i.
  - split; [intros _ j Hj; simpl in Hj; lia | reflexivity].
  - rewrite andb_true_iff, IH. split.
    + intros [Hv Hr] [|j] Hj.
      * now rewrite Nat.add_0_r.
      * cbn [nth]. replace (i + S j)%nat with (S i + j)%nat by lia.
        apply Hr. simpl in Hj. lia.
    + intros H. split.
      * specialize (H 0%nat). rewrite Nat.add_0_r in H. apply H. simpl. lia.
      * intros j Hj. specialize (H (S j)). cbn [nth] in H.
        replace (S i + j)%nat with (i + S j)%nat by lia. apply H. simpl. lia.
Qed.

Lemma object_every_iff : forall fb l,
  object_every fb l = true <->
  forall k v, In (k, v) l -> deepEqual v (obj_get fb k) = true.
Proof.
  intros fb. induction l as [|[key val] rest IH].
  - split; [intros _ k v [] | reflexivity].
  - rewrite andb_true_iff, IH. split.
    + intros [Hv Hr] k v [Heq|Hin]; [now inversion Heq; subst | now apply Hr].
    + intros H. split; [apply H; now left | intros k v Hin; apply H; now right].
Qed.

Lemma deepEqual_arrays : forall xs ys,
  deepEqual (VArr xs) (VArr ys) = true <->
  List.length xs = List.length ys
  /\ forall j, (j < List.length xs)%nat ->
       deepEqual (nth j xs VUndef) (nth j ys VUndef) = true.
Proof.
  intros xs ys. cbn [deepEqual].
  rewrite andb_true_iff, Nat.eqb_eq, array_every_iff. reflexivity.
Qed.

Lemma deepEqual_objects : forall fa fb,
  deepEqual (VObj fa) (VObj fb) = true <->
  List.length fa = List.length fb
  /\ forall k v, In (k, v) fa -> deepEqual v (obj_get fb k) = true.
Proof.
  intros fa fb. cbn [deepEqual].
  rewrite andb_true_iff, Nat.eqb_eq, object_every_iff. reflexivity.
Qed.

Lemma deepEqual_undefined : forall v, deepEqual v VUndef = true -> v = VUndef.
Proof. intros [| | | | | |] H; try discriminate; reflexivity. Qed.

Lemma defined_arr : forall xs,
  defined_everywhere (VArr xs) = true ->
  forall x, In x xs -> defined_everywhere x = true.
Proof.
  induction xs as [|y xs IH]; intros H x Hin; [contradiction|].
  cbn [defined_everywhere] in H. apply andb_true_iff in H as [Hy Hxs].
  destruct Hin as [<-|Hin]; [exact Hy | now apply IH].
Qed.

Lemma defined_obj : forall fields,
  defined_everywhere (VObj fields) = true ->
  forall k x, In (k, x) fields -> defined_everywhere x = true.
Proof.
  induction fields as [|[k' y] fields IH]; intros H k x Hin; [contradiction|].
  cbn [defined_everywhere] in H. apply andb_true_iff in H as [Hy Hf].
  destruct Hin as [Heq|Hin]; [now inversion Heq; subst | now apply (IH Hf k)].
Qed.

Lemma deepEqual_reflexive : forall v, unique_keys v = true -> deepEqual v v = true.
Proof.
  induction v as [| |b|n|s|xs IH|fields IH] using value_induction; intros Hu;
    try reflexivity.
  - apply Bool.eqb_reflx.
  - apply Z.eqb_refl.
  - apply String.eqb_refl.
  - apply deepEqual_arrays. split; [reflexivity|]. intros j Hj.
    rewrite Forall_forall in IH.
    apply IH; [now apply nth_In|].
    apply (unique_keys_arr xs Hu). now apply nth_In.
  - apply deepEqual_objects. split; [reflexivity|]. intros k v Hin.
    destruct (unique_keys_obj _ Hu) as [Hnd Hsub].
    unfold obj_get. rewrite (In_lookup _ _ _ Hnd Hin).
    rewrite Forall_forall in IH. exact (IH (k, v) Hin (Hsub k v Hin)).
Qed.

(** The keys of the left object are keys of the right one. *)
Lemma deepEqual_keys : forall fa fb,
  defined_everywhere (VObj fa) = true ->
  (forall k v, In (k, v) fa -> deepEqual v (obj_get fb k) = true) ->
  forall k v, In (k, v) fa -> In (k, obj_get fb k) fb.
Proof.
  intros fa fb Hd H k v Hin. specialize (H k v Hin).
  unfold obj_get in *. destruct (lookup k fb) as [v'|] eqn:E.
  - now apply lookup_In.
  - apply deepEqual_undefined in H. subst v.
    pose proof (defined_obj fa Hd k VUndef Hin). discriminate.
Qed.

Lemma deepEqual_symmetric : forall a b,
  defined_everywhere a = true -> unique_keys a = true -> unique_keys b = true ->
  deepEqual a b = true -> deepEqual b a = true.
Proof.
  induction a as [| |x|n|s|xs IH|fa IH] using value_induction;
    intros b Hd Hua Hub H;
    destruct b as [| |y|m|t|ys|fb]; try discriminate; try reflexivity.
  - cbn in *. now destruct x, y.
  - cbn in *. now rewrite Z.eqb_sym.
  - cbn in *. now rewrite String.eqb_sym.
  - apply deepEqual_arrays in H as [Hlen Hall]. apply deepEqual_arrays.
    split; [now symmetry|]. intros j Hj. rewrite <- Hlen in Hj.
    rewrite Forall_forall in IH.
    apply IH; [now apply nth_In | | | | now apply Hall].
    + apply (defined_arr xs Hd). now apply nth_In.
    + apply (unique_keys_arr xs Hua). now apply nth_In.
    + apply (unique_keys_arr ys Hub). apply nth_In. lia.
  - apply deepEqual_objects in H as [Hlen Hall]. apply deepEqual_objects.
    split; [now symmetry|]. intros k v' Hin.
    destruct (unique_keys_obj _ Hua) as [Hnda Hsuba].
    destruct (unique_keys_obj _ Hub) as [Hndb Hsubb].
    assert (Hincl : incl (map fst fb) (map fst fa)).
    { apply NoDup_length_incl; [exact Hnda | rewrite !length_map; lia |].
      intros k0 Hk0. apply in_map_iff in Hk0 as [[k1 v1] [E Hin1]]. cbn in E. subst k1.
      apply (in_map fst) in Hin1 as Hk.
      exact (in_map fst _ _ (deepEqual_keys fa fb Hd Hall k0 v1 Hin1)). }
    assert (Hk : In k (map fst fa)) by (apply Hincl; exact (in_map fst _ _ Hin)).
    apply in_map_iff in Hk as [[k1 v] [E Hina]]. cbn in E. subst k1.
    unfold obj_get at 1. rewrite (In_lookup _ _ _ Hnda Hina).
    pose proof (Hall k v Hina) as Hv. unfold obj_get in Hv.
    rewrite (In_lookup _ _ _ Hndb Hin) in Hv.
    rewrite Forall_forall in IH.
    exact (IH (k, v) Hina v' (defined_obj fa Hd k v Hina) (Hsuba k v Hina)
              (Hsubb k v' Hin) Hv).
Qed.

Lemma deepEqual_transitive : forall a b c,
  defined_everywhere a = true ->
  deepEqual a b = true -> deepEqual b c = true -> deepEqual a c = true.
Proof.
  induction a as [| |x|n|s|xs IH|fa IH] using value_induction;
    intros b c Hd Hab Hbc;
    destruct b as [| |y|m|t|ys|fb]; try discriminate;
    destruct c as [| |z|p|u|zs|fc]; try discriminate; try reflexivity.
  - cbn in *. apply Bool.eqb_prop in Hab, Hbc. subst. apply Bool.eqb_reflx.
  - cbn in *. apply Z.eqb_eq in Hab, Hbc. subst. apply Z.eqb_refl.
  - cbn in *. apply String.eqb_eq in Hab, Hbc. subst. apply String.eqb_refl.
  - apply deepEqual_arrays in Hab as [Hl1 H1]. apply deepEqual_arrays in Hbc as [Hl2 H2].
    apply deepEqual_arrays. split; [congruence|]. intros j Hj.
    rewrite Forall_forall in IH.
    apply (IH (nth j xs VUndef) (nth_In _ _ Hj) (nth j ys VUndef)).
    + apply (defined_arr xs Hd). now apply nth_In.
    + now apply H1.
    + apply H2. lia.
  - apply deepEqual_objects in Hab as [Hl1 H1]. apply deepEqual_objects in Hbc as [Hl2 H2].
    apply deepEqual_objects. split; [congruence|]. intros k v Hin.
    rewrite Forall_forall in IH.
    apply (IH (k, v) Hin (obj_get fb k)).
    + exact (defined_obj fa Hd k v Hin).
    + now apply H1.
    + apply (H2 k). exact (deepEqual_keys fa fb Hd H1 k v Hin).
Qed.



(** ** Building the file map *)

Import Notions FileMaps.

Lemma file_set_In : forall m key content k c,
  In (k, c) (file_set m key content) -> (k, c) = (key, content) \/ In (k, c) m.
Proof.
  induction m as [|[k' c'] m IH]; intros key content k c H; cbn [file_set] in H.
  - destruct H as [H|[]]. now left.
  - destruct (String.eqb key k').
    + destruct H as [H|H]; [now left | right; now right].
    + destruct H as [H|H]; [right; now left|].
      destruct (IH _ _ _ _ H) as [E|Hin]; [now left | right; now right].
Qed.

Lemma file_set_keys : forall m key content k,
  In k (map fst (file_set m key content)) -> k = key \/ In k (map fst m).
Proof.
  intros m key content k H. apply in_map_iff in H as [[k' c] [E H]]. cbn in E. subst k'.
  destruct (file_set_In _ _ _ _ _ H) as [Heq|Hin].
  - left. now inversion Heq.
  - right. exact (in_map fst _ _ Hin).
Qed.

Lemma file_set_NoDup : forall m key content,
  NoDup (map fst m) -> NoDup (map fst (file_set m key content)).
Proof.
  induction m as [|[k' c'] m IH]; intros key content H; cbn [file_set].
  - repeat constructor. intros [].
  - inversion H as [|? ? Hnotin H']; subst.
    destruct (String.eqb key k') eqn:E.
    + apply String.eqb_eq in E. subst k'. now constructor.
    + cbn [map fst]. constructor; [|now apply IH].
      intros Hin. destruct (file_set_keys _ _ _ _ Hin) as [->|Hin'].
      * rewrite String.eqb_refl in E. discriminate.
      * contradiction.
Qed.

Lemma file_lookup_set_same : forall m key content,
  file_lookup key (file_set m key content) = Some content.
Proof.
  induction m as [|[k' c'] m IH]; intros key content; cbn [file_set file_lookup].
  - now rewrite String.eqb_refl.
  - destruct (String.eqb key k') eqn:E; cbn [file_lookup].
    + now rewrite String.eqb_refl.
    + rewrite E. apply IH.
Qed.

Lemma file_lookup_set_other : forall m key content k,
  k <> key -> file_lookup k (file_set m key content) = file_lookup k m.
Proof.
  induction m as [|[k' c'] m IH]; intros key content k Hne; cbn [file_set file_lookup].
  - now rewrite (proj2 (String.eqb_neq k key) Hne).
  - destruct (String.eqb key k') eqn:E; cbn [file_lookup].
    + apply String.eqb_eq in E. subst k'.
      now rewrite (proj2 (String.eqb_neq k key) Hne).
    + destruct (String.eqb k k'); [reflexivity | now apply IH].
Qed.

Lemma find_append : forall (A : Type) (p : A -> bool) l1 l2,
  find p (l1 ++ l2) = match find p l1 with Some x => Some x | None => find p l2 end.
Proof.
  intros A p. induction l1 as [|x l1 IH]; intros l2; [reflexivity|].
  cbn [app find]. destruct (p x); [reflexivity | apply IH].
Qed.

(** What the loop of [createFileMap] keeps true of its file map. *)
Lemma add_file_keys : forall st f,
  (forall k, In k (map fst (fileMap st)) -> normalizePath k = k) ->
  NoDup (map fst (fileMap st)) ->
  (forall k, In k (map fst (fileMap (add_file st f))) -> normalizePath k = k)
  /\ NoDup (map fst (fileMap (add_file st f))).
Proof.
  intros st f Hn Hnd. unfold add_file.
  destruct (negb (String.eqb (webkitRelativePath f) ""));
    [|destruct (count_get (fileNames st) (name f))]; cbn [fileMap];
    (split; [|now apply file_set_NoDup]);
    intros k Hk; destruct (file_set_keys _ _ _ _ Hk) as [->|Hin];
    try apply normalizePath_idempotent; now apply Hn.
Qed.

Lemma fold_add_file_keys : forall files st,
  (forall k, In k (map fst (fileMap st)) -> normalizePath k = k) ->
  NoDup (map fst (fileMap st)) ->
  (forall k, In k (map fst (fileMap (fold_left add_file files st))) ->
     normalizePath k = k)
  /\ NoDup (map fst (fileMap (fold_left add_file files st))).
Proof.
  induction files as [|f files IH]; intros st Hn Hnd; [now split|].
  cbn [fold_left]. destruct (add_file_keys st f Hn Hnd) as [Hn' Hnd'].
  now apply IH.
Qed.

Lemma fold_add_file_paths : forall files st,
  Forall (fun f => webkitRelativePath f <> ""%string) files ->
  collisions (fold_left add_file files st) = collisions st
  /\ forall k,
       file_lookup k (fileMap (fold_left add_file files st)) =
       match find (fun f => String.eqb k (normalizePath (webkitRelativePath f)))
                  (rev files) with
       | Some f => Some (content f)
       | None => file_lookup k (fileMap st)
       end.
Proof.
  induction files as [|f files IH]; intros st H; [now split|].
  inversion H as [|? ? Hf H']; subst. cbn [fold_left].
  destruct (IH (add_file st f) H') as [Hc Hl].
  assert (Hadd : add_file st f =
            {| fileMap := file_set (fileMap st) (normalizePath (webkitRelativePath f))
                            (content f);
               fileNames := fileNames st; collisions := collisions st |}).
  { unfold add_file. now rewrite (proj2 (String.eqb_neq _ _) Hf). }
  split; [now rewrite Hc, Hadd|].
  intros k. rewrite Hl. cbn [rev]. rewrite find_append.
  destruct (find _ (rev files)); [reflexivity|].
  rewrite Hadd. cbn [fileMap find].
  destruct (String.eqb k (normalizePath (webkitRelativePath f))) eqn:E.
  - apply String.eqb_eq in E. subst k. apply file_lookup_set_same.
  - apply file_lookup_set_other. now apply String.eqb_neq.
Qed.

(** X30: the keys of the file map [createFileMap] builds are normalized
    paths, each one once: the form in which [resolveIncludes] looks files
    up.  When every file comes with its relative path no collision is
    reported, and a path holds the content of the last file uploaded under
    it. *)
Theorem createFileMap_keys_are_normalized : forall files,
  let '(fileMap, collisions) := createFileMap files in
  (forall k, In k (map fst fileMap) -> normalizePath k = k)
  /\ NoDup (map fst fileMap)
  /\ (Forall (fun f => webkitRelativePath f <> ""%string) files ->
      collisions = []
      /\ forall k,
           file_lookup k fileMap =
           match find (fun f => String.eqb k (normalizePath (webkitRelativePath f)))
                      (rev files) with
           | Some f => Some (content f)
           | None => None
           end).
Proof.
  intros files. unfold createFileMap.
  set (st0 := {| fileMap := []; fileNames := []; collisions := [] |}).
  destruct (fold_add_file_keys files st0) as [Hn Hnd];
    [intros k [] | constructor|].
  split; [exact Hn|]. split; [exact Hnd|].
  intros Hall. exact (fold_add_file_paths files st0 Hall).
Qed.

Lemma createFileMap_example :
  file_lookup "project/compose.yml"
    (fst (createFileMap
            [{| name := "compose.yml"; webkitRelativePath := "project/compose.yml";
                content := "a" |};
             {| name := "base.yml"; webkitRelativePath := "./project/base.yml";
                content := "b" |}]))
  = Some "a"%string.
Proof.
  pose proof (createFileMap_keys_are_normalized
                [{| name := "compose.yml"; webkitRelativePath := "project/compose.yml";
                    content := "a" |};
                 {| name := "base.yml"; webkitRelativePath := "./project/base.yml";
                    content := "b" |}]) as H.
  destruct (createFileMap _) as [fileMap collisions] eqn:E.
  destruct H as (_ & _ & H).
  destruct H as [_ H]; [repeat constructor; discriminate|].
  cbn [fst]. rewrite H. reflexivity.
Defined.
